(** * Recursive crawler of [packages/ai-rag-kit/src/crawler/recursive-crawler.ts]

    A shallow embedding of the crawler: JavaScript strings, the regular
    expressions of [htmlToMarkdown], address normalisation, the fallback
    strategies and the breadth-first main loop of [crawlRecursively],
    followed by the properties of the specification that concern them. *)

From Stdlib Require Import String Ascii DecimalString.
From Stdlib Require Import ZArith NArith Bool Lia Permutation Sorted List.
Import ListNotations.

Set Implicit Arguments.

(** ** JavaScript strings *)

(** A JavaScript string is a sequence of UTF-16 code units.  [length],
    the character tests of regular expressions and [String.fromCharCode]
    all work on code units, so the embedding keeps them as numbers. *)
Module JS.

Definition jsstring := list N.

(** Literals are written as Rocq strings (UTF-8 bytes) and decoded to
    code units, so that the Korean messages of the source keep their
    JavaScript length. *)
Definition surrogates (cp : N) : list N :=
  if (cp <? 65536)%N then [cp]
  else [(55296 + (cp - 65536) / 1024)%N; (56320 + (cp - 65536) mod 1024)%N].

Fixpoint utf8_decode (bs : list N) : jsstring :=
  match bs with
  | [] => []
  | b :: rest =>
      if (b <? 128)%N then b :: utf8_decode rest
      else if (b <? 224)%N then
        match rest with
        | b2 :: r => ((b mod 32) * 64 + b2 mod 64)%N :: utf8_decode r
        | _ => [b]
        end
      else if (b <? 240)%N then
        match rest with
        | b2 :: b3 :: r =>
            ((b mod 16) * 4096 + (b2 mod 64) * 64 + b3 mod 64)%N :: utf8_decode r
        | _ => [b]
        end
      else
        match rest with
        | b2 :: b3 :: b4 :: r =>
            surrogates ((b mod 8) * 262144 + (b2 mod 64) * 4096
                        + (b3 mod 64) * 64 + b4 mod 64)%N ++ utf8_decode r
        | _ => [b]
        end
  end.

Definition js (s : string) : jsstring :=
  utf8_decode (map N_of_ascii (list_ascii_of_string s)).

(** Decimal rendering of an integer inside a template literal. *)
Definition of_Z (z : Z) : jsstring :=
  js (NilZero.string_of_int (Z.to_int z)).

Definition eqb (a b : jsstring) : bool :=
  if list_eq_dec N.eq_dec a b then true else false.

(** [String.prototype.toLowerCase] and the upper-casing used to compare
    characters under the [i] flag, on the ASCII letters.  Every string
    that is lower-cased after a successful parse is ASCII (the URL
    serialiser emits nothing else); code units above 127 are left as
    they are. *)
Definition lower_char (c : N) : N :=
  if ((65 <=? c) && (c <=? 90))%N then (c + 32)%N else c.

Definition upper_char (c : N) : N :=
  if ((97 <=? c) && (c <=? 122))%N then (c - 32)%N else c.

Definition toLowerCase (s : jsstring) : jsstring := map lower_char s.

Fixpoint startsWith (s p : jsstring) : bool :=
  match p, s with
  | [], _ => true
  | c :: p', d :: s' => (c =? d)%N && startsWith s' p'
  | _ :: _, [] => false
  end.

Definition endsWith (s p : jsstring) : bool := startsWith (rev s) (rev p).

(** [s.includes(p)] *)
Fixpoint includes (s p : jsstring) : bool :=
  startsWith s p ||
  match s with
  | [] => false
  | _ :: s' => includes s' p
  end.

(** [s.slice(0, -1)] *)
Definition drop_last (s : jsstring) : jsstring := removelast s.

(** [s.slice(0, n)] for a non-negative [n] *)
Definition slice0 (n : nat) (s : jsstring) : jsstring := firstn n s.

(** [s.split(sep)[0]] for a one-character separator: the text before the
    first occurrence of [sep], the whole string when there is none. *)
Fixpoint before (sep : N) (s : jsstring) : jsstring :=
  match s with
  | [] => []
  | c :: s' => if (c =? sep)%N then [] else c :: before sep s'
  end.

(** White space and line terminators: the characters of [\s] and the
    ones removed by [trim]. *)
Definition is_space (c : N) : bool :=
  ((9 <=? c) && (c <=? 13) || (c =? 32) || (c =? 160) || (c =? 5760)
   || (8192 <=? c) && (c <=? 8202) || (c =? 8232) || (c =? 8233)
   || (c =? 8239) || (c =? 8287) || (c =? 12288) || (c =? 65279))%N.

Fixpoint trimStart (s : jsstring) : jsstring :=
  match s with
  | c :: s' => if is_space c then trimStart s' else s
  | [] => []
  end.

Definition trim (s : jsstring) : jsstring :=
  rev (trimStart (rev (trimStart s))).

(** Membership in a [Set<string>] kept in insertion order. *)
Definition set_has (x : jsstring) (s : list jsstring) : bool :=
  existsb (eqb x) s.

End JS.

Import JS.

(** ** Regular expressions *)

(** The fragment of ECMAScript regular expressions that the crawler uses:
    literal characters, character classes, sequence, alternation, greedy
    and lazy repetition of a class, and capture groups, matched by
    backtracking with the continuation [k] as in the language standard. *)
Module Regex.

Inductive re : Type :=
| Eps
| Chr (c : N)
| Cls (p : N -> bool)
| Seq (r1 r2 : re)
| Alt (r1 r2 : re)
| Star (greedy : bool) (p : N -> bool)
| Cap (i : nat) (r : re).

(** A literal run of characters. *)
Fixpoint lit_of (s : jsstring) : re :=
  match s with
  | [] => Eps
  | [c] => Chr c
  | c :: s' => Seq (Chr c) (lit_of s')
  end.

Definition lit (s : string) : re := lit_of (js s).

(** Right-nested sequence of the parts of a pattern. *)
Fixpoint seq (rs : list re) : re :=
  match rs with
  | [] => Eps
  | [r] => r
  | r :: rs' => Seq r (seq rs')
  end.

(** [c+] for a class, [c?] for a character, [c{3,}]. *)
Definition plus (p : N -> bool) : re := Seq (Cls p) (Star true p).
Definition opt (c : N) : re := Alt (Chr c) Eps.
Definition at_least3 (c : N) : re :=
  seq [Chr c; Chr c; Chr c; Star true (N.eqb c)].

(** Character classes of the patterns. *)
Definition any (_ : N) : bool := true.                      (* [\s\S] *)
Definition not_chr (c : N) (x : N) : bool := negb (x =? c)%N. (* [^c] *)
Definition digit (x : N) : bool := ((48 <=? x) && (x <=? 57))%N. (* \d *)
Definition blank (x : N) : bool := ((x =? 32) || (x =? 9))%N. (* [ \t] *)
Definition latin (x : N) : bool :=                          (* [a-zA-Z] *)
  ((65 <=? x) && (x <=? 90) || (97 <=? x) && (x <=? 122))%N.
Definition hangul (x : N) : bool :=                         (* [가-힣] *)
  ((44032 <=? x) && (x <=? 55203))%N.

(** Captures, most recent first. *)
Definition caps := list (nat * jsstring).

Fixpoint group (i : nat) (cs : caps) : jsstring :=
  match cs with
  | [] => []
  | (j, s) :: cs' => if Nat.eqb i j then s else group i cs'
  end.

(** Comparison of a subject character with a literal of the pattern.
    With the [i] flag both are canonicalised by upper-casing; a code unit
    above 127 never canonicalises to an ASCII one, and every literal of
    the patterns below is ASCII. *)
Definition chr_eq (ic : bool) (x c : N) : bool :=
  if ic then (upper_char x =? upper_char c)%N else (x =? c)%N.

Section Matcher.
Variable R : Type.

Fixpoint star_greedy (p : N -> bool) (s : jsstring)
    (k : jsstring -> option R) : option R :=
  match s with
  | c :: s' =>
      if p c then
        match star_greedy p s' k with
        | Some r => Some r
        | None => k s
        end
      else k s
  | [] => k s
  end.

Fixpoint star_lazy (p : N -> bool) (s : jsstring)
    (k : jsstring -> option R) : option R :=
  match k s with
  | Some r => Some r
  | None =>
      match s with
      | c :: s' => if p c then star_lazy p s' k else None
      | [] => None
      end
  end.

Fixpoint run (ic : bool) (r : re) (s : jsstring) (cs : caps)
    (k : jsstring -> caps -> option R) : option R :=
  match r with
  | Eps => k s cs
  | Chr c =>
      match s with
      | x :: s' => if chr_eq ic x c then k s' cs else None
      | [] => None
      end
  | Cls p =>
      match s with
      | x :: s' => if p x then k s' cs else None
      | [] => None
      end
  | Seq r1 r2 => run ic r1 s cs (fun s' cs' => run ic r2 s' cs' k)
  | Alt r1 r2 =>
      match run ic r1 s cs k with
      | Some x => Some x
      | None => run ic r2 s cs k
      end
  | Star true p => star_greedy p s (fun s' => k s' cs)
  | Star false p => star_lazy p s (fun s' => k s' cs)
  | Cap i r1 =>
      run ic r1 s cs
        (fun s' cs' => k s' ((i, firstn (length s - length s') s) :: cs'))
  end.

End Matcher.

(** A compiled pattern: the expression and its [i] flag. *)
Record RegExp := { source : re; ignoreCase : bool }.

Definition rx (r : re) : RegExp := {| source := r; ignoreCase := false |}.
Definition rxi (r : re) : RegExp := {| source := r; ignoreCase := true |}.

(** One match attempt anchored at the start of [s]: the rest of the
    subject after the match and the captures. *)
Definition exec_at (r : RegExp) (s : jsstring) : option (jsstring * caps) :=
  run (ignoreCase r) (source r) s [] (fun s' cs => Some (s', cs)).

(** [s.replace(r, f)] for a pattern with the [g] flag.  The scan tries a
    match at each position from the left; after a match of [n] characters
    the next [n] positions are skipped ([skip]), an empty match copies the
    character it stands before. *)
Fixpoint replace_from (r : RegExp) (f : jsstring -> caps -> jsstring)
    (s : jsstring) (skip : nat) : jsstring :=
  match s with
  | [] =>
      match skip with
      | O => match exec_at r [] with
             | Some (_, cs) => f [] cs
             | None => []
             end
      | S _ => []
      end
  | c :: s' =>
      match skip with
      | S n => replace_from r f s' n
      | O =>
          match exec_at r s with
          | Some (rest, cs) =>
              match length s - length rest with
              | O => f [] cs ++ c :: replace_from r f s' 0
              | S n => f (firstn (S n) s) cs ++ replace_from r f s' n
              end
          | None => c :: replace_from r f s' 0
          end
      end
  end.

Definition replace_fn (r : RegExp) (f : jsstring -> caps -> jsstring)
    (s : jsstring) : jsstring := replace_from r f s 0.

(** Replacement strings: text and group references [$1], [$2]. *)
Inductive piece : Type :=
| Txt (s : string)
| Ref (i : nat).

Fixpoint subst (t : list piece) (cs : caps) : jsstring :=
  match t with
  | [] => []
  | Txt s :: t' => js s ++ subst t' cs
  | Ref i :: t' => group i cs ++ subst t' cs
  end.

Definition replace (r : RegExp) (t : list piece) (s : jsstring) : jsstring :=
  replace_fn r (fun _ cs => subst t cs) s.

(** [(s.match(r) || []).length] for a pattern with the [g] flag. *)
Fixpoint count_from (r : RegExp) (s : jsstring) (skip : nat) : nat :=
  match s with
  | [] => 0
  | c :: s' =>
      match skip with
      | S n => count_from r s' n
      | O =>
          match exec_at r s with
          | Some (rest, _) => S (count_from r s' (length s - length rest - 1))
          | None => count_from r s' 0
          end
      end
  end.

Definition count_matches (r : RegExp) (s : jsstring) : nat := count_from r s 0.

End Regex.

Import Regex.

(** ** Markup to text *)

Module Markup.

Definition nl : string := String (ascii_of_nat 10) EmptyString.
Definition dq : string := String (ascii_of_nat 34) EmptyString.

Definition LT : N := 60.   (* < *)
Definition GT : N := 62.   (* > *)
Definition QUOTE : N := 34.
Definition SLASH : N := 47.
Definition NL : N := 10.

(** [<tag[^>]*>([\s\S]*?)<\/tag>] *)
Definition element (tag : string) : RegExp :=
  rxi (seq [lit ("<" ++ tag)%string; Star true (not_chr GT); Chr GT;
            Cap 1 (Star false any); lit ("</" ++ tag ++ ">")%string]).

(** [<tag[^>]*>[\s\S]*?<\/tag>] *)
Definition element_nocap (tag : string) : RegExp :=
  rxi (seq [lit ("<" ++ tag)%string; Star true (not_chr GT); Chr GT;
            Star false any; lit ("</" ++ tag ++ ">")%string]).

(** [<tag[^>]*>|<\/tag>] *)
Definition open_or_close (tag : string) : RegExp :=
  rxi (Alt (seq [lit ("<" ++ tag)%string; Star true (not_chr GT); Chr GT])
           (lit ("</" ++ tag ++ ">")%string)).

(** [<br\s*\/?>] *)
Definition br : RegExp :=
  rxi (seq [lit "<br"; Star true is_space; opt SLASH; Chr GT]).

(** The [img] pattern with a quoted [src] (group 1) followed by a quoted
    [alt] (group 2); each value is a greedy run of non-quote characters. *)
Definition attr_value (name : string) (i : nat) : re :=
  seq [lit name; Chr 61; Chr QUOTE; Cap i (Star true (not_chr QUOTE)); Chr QUOTE].

Definition img_src_alt : RegExp :=
  rxi (seq [lit "<img"; Star true (not_chr GT); attr_value "src" 1;
            Star true (not_chr GT); attr_value "alt" 2;
            Star true (not_chr GT); opt SLASH; Chr GT]).

(** The [img] pattern with a quoted [src] only. *)
Definition img_src : RegExp :=
  rxi (seq [lit "<img"; Star true (not_chr GT); attr_value "src" 1;
            Star true (not_chr GT); opt SLASH; Chr GT]).

(** [<img[^>]*\/?>] *)
Definition img_any : RegExp :=
  rxi (seq [lit "<img"; Star true (not_chr GT); opt SLASH; Chr GT]).

(** [<[^>]+>] *)
Definition any_tag : RegExp :=
  rx (seq [Chr LT; plus (not_chr GT); Chr GT]).

(** [parseInt(num, 10)] on a run of digits, and [String.fromCharCode],
    which keeps the low 16 bits.  ([parseInt] rounds numerals beyond
    2^53; the entities of real pages are far below.) *)
Definition parseInt10 (ds : jsstring) : N :=
  fold_left (fun acc d => (acc * 10 + (d - 48))%N) ds 0%N.

Definition fromCharCode (n : N) : jsstring := [(n mod 65536)%N].

(** The table of [decodeHtmlEntities], in the order of [Object.entries]. *)
Definition entities : list (string * string) :=
  [("&nbsp;", " "); ("&amp;", "&"); ("&lt;", "<"); ("&gt;", ">");
   ("&quot;", dq);
   ("&#39;", "'"); ("&apos;", "'")]%string.

(** [&#(\d+);] *)
Definition numeric_entity : RegExp :=
  rx (seq [lit "&#"; Cap 1 (plus digit); Chr 59]).

Definition decodeHtmlEntities (text : jsstring) : jsstring :=
  let result :=
    fold_left (fun result e => replace (rx (lit (fst e))) [Txt (snd e)] result)
              entities text in
  replace_fn numeric_entity
             (fun _ cs => fromCharCode (parseInt10 (group 1 cs))) result.

Record MarkdownOptions := { md_includeImages : bool }.

Definition htmlToMarkdown (html : jsstring) (options : MarkdownOptions)
  : jsstring :=
  let text := html in
  let text := replace (element_nocap "script") [] text in
  let text := replace (element_nocap "style") [] text in
  let text := replace (element "h1") [Txt nl; Txt "# "; Ref 1; Txt nl] text in
  let text := replace (element "h2") [Txt nl; Txt "## "; Ref 1; Txt nl] text in
  let text := replace (element "h3") [Txt nl; Txt "### "; Ref 1; Txt nl] text in
  let text := replace (element "h4") [Txt nl; Txt "#### "; Ref 1; Txt nl] text in
  let text := replace (element "p") [Txt nl; Ref 1; Txt nl] text in
  let text := replace br [Txt nl] text in
  let text := replace (element "li") [Txt "- "; Ref 1; Txt nl] text in
  let text := replace (open_or_close "ul") [Txt nl] text in
  let text := replace (open_or_close "ol") [Txt nl] text in
  let text := replace (element "strong") [Txt "**"; Ref 1; Txt "**"] text in
  let text := replace (element "b") [Txt "**"; Ref 1; Txt "**"] text in
  let text := replace (element "em") [Txt "*"; Ref 1; Txt "*"] text in
  let text := replace (element "a") [Ref 1] text in
  let text :=
    if md_includeImages options then
      let text := replace img_src_alt
                    [Txt "!["; Ref 2; Txt "]("; Ref 1; Txt ")"] text in
      replace img_src [Txt "![]("; Ref 1; Txt ")"] text
    else replace img_any [] text in
  let text := replace any_tag [] text in
  let text := decodeHtmlEntities text in
  let text := replace (rx (at_least3 NL)) [Txt nl; Txt nl] text in
  let text := replace (rx (plus blank)) [Txt " "] text in
  trim text.

(** [countWords]: Hangul syllables one by one, Latin letters by runs. *)
Definition countWords (text : jsstring) : nat :=
  let korean := count_matches (rx (Cls hangul)) text in
  let english := count_matches (rx (plus latin)) text in
  korean + english.

(** The options of a conversion without images. *)
Definition plain : MarkdownOptions := {| md_includeImages := false |}.

End Markup.

Import Markup.


(** ** Addresses *)

(** The fields of a parsed [URL] object that the crawler reads. *)
Module Url.

Record URL := {
  protocol : jsstring;   (* scheme and colon *)
  host : jsstring;       (* host name, and port when there is one *)
  hostname : jsstring;
  pathname : jsstring
}.

(** A model of the URL parser of the platform ([new URL(s)], the WHATWG
    URL standard), which the crawler calls and does not define.  The
    model covers absolute [http] and [https] addresses of the form
    [scheme://host/path?query#fragment] whose host is a dotted name of
    letters, digits and single hyphens with a last label that starts with
    a letter, and whose path needs neither percent-encoding nor
    dot-segment removal.  On these the parser of the standard returns
    exactly the fields below.  Credentials, ports, IP addresses and other
    schemes are outside the model and are answered with [None], the
    result that also stands for a parse failure. *)

Fixpoint span (p : N -> bool) (s : jsstring) : jsstring * jsstring :=
  match s with
  | [] => ([], [])
  | c :: s' =>
      if p c then let (a, b) := span p s' in (c :: a, b) else ([], s)
  end.

Definition COLON : N := 58.
Definition SLASH : N := 47.
Definition QUERY : N := 63.
Definition HASH : N := 35.
Definition DOT : N := 46.
Definition HYPHEN : N := 45.

Definition is_special (scheme : jsstring) : bool :=
  JS.eqb scheme (js "http") || JS.eqb scheme (js "https").

(** Host names: a scan over character kinds. *)
Inductive host_kind := HLetter | HDigit | HHyphen | HDot | HOther.

Definition host_kind_of (c : N) : host_kind :=
  if latin c then HLetter
  else if digit c then HDigit
  else if (c =? HYPHEN)%N then HHyphen
  else if (c =? DOT)%N then HDot
  else HOther.

(** [HStart]: at the start of a label; [HIn l h]: inside a label whose
    first character is a letter iff [l], the previous character being a
    hyphen iff [h]. *)
Inductive host_state := HStart | HIn (letter_first prev_hyphen : bool).

Definition host_step (st : host_state) (k : host_kind) : option host_state :=
  match st, k with
  | HStart, HLetter => Some (HIn true false)
  | HStart, HDigit => Some (HIn false false)
  | HIn l _, (HLetter | HDigit) => Some (HIn l false)
  | HIn l false, HHyphen => Some (HIn l true)
  | HIn _ false, HDot => Some HStart
  | _, _ => None
  end.

Fixpoint host_scan (st : host_state) (s : jsstring) : bool :=
  match s with
  | [] => match st with HIn true false => true | _ => false end
  | c :: s' =>
      match host_step st (host_kind_of c) with
      | Some st' => host_scan st' s'
      | None => false
      end
  end.

Definition host_ok (h : jsstring) : bool := host_scan HStart h.

(** Paths: characters that the parser copies unchanged, and no segment
    that is [.] or [..]. *)
Definition path_char (c : N) : bool :=
  ((33 <=? c) && (c <=? 126))%N
  && negb (existsb (N.eqb c) [34; 35; 37; 60; 62; 63; 92; 94; 96; 123; 125]%N).

Inductive seg_state := SegEmpty | SegDot | SegDotDot | SegOther.

Definition seg_step (st : seg_state) (c : N) : option seg_state :=
  if (c =? SLASH)%N then
    match st with
    | SegDot | SegDotDot => None
    | _ => Some SegEmpty
    end
  else if (c =? DOT)%N then
    match st with
    | SegEmpty => Some SegDot
    | SegDot => Some SegDotDot
    | _ => Some SegOther
    end
  else if path_char c then Some SegOther
  else None.

Fixpoint path_scan (st : seg_state) (s : jsstring) : bool :=
  match s with
  | [] => match st with SegDot | SegDotDot => false | _ => true end
  | c :: s' =>
      match seg_step st c with
      | Some st' => path_scan st' s'
      | None => false
      end
  end.

Definition path_ok (p : jsstring) : bool := path_scan SegOther p.

Definition parse (s : jsstring) : option URL :=
  let (scheme, rest) := span (not_chr COLON) s in
  match rest with
  | c1 :: c2 :: c3 :: rest2 =>
      if ((c1 =? COLON) && (c2 =? SLASH) && (c3 =? SLASH))%N
         && is_special (toLowerCase scheme) then
        let (authority, tail) :=
          span (fun c => negb ((c =? SLASH) || (c =? QUERY) || (c =? HASH))%N)
               rest2 in
        let (path, _) :=
          span (fun c => negb ((c =? QUERY) || (c =? HASH))%N) tail in
        if host_ok authority && path_ok path then
          Some {| protocol := toLowerCase scheme ++ [COLON];
                  host := toLowerCase authority;
                  hostname := toLowerCase authority;
                  pathname := match path with [] => [SLASH] | _ => path end |}
        else None
      else None
  | _ => None
  end.

Definition stops_authority (c : N) : bool :=
  ((c =? SLASH) || (c =? QUERY) || (c =? HASH))%N.

Definition stops_path (c : N) : bool := ((c =? QUERY) || (c =? HASH))%N.

(** The second [let] of [normalizeUrl]. *)
Definition strip (n : jsstring) : jsstring :=
  if endsWith n (js "/") && (1 <? length n) then drop_last n else n.

(** A canonical address: lower-case scheme and host, and a path that is
    empty or starts with a slash and does not end with one. *)
Definition canonical (y : jsstring) : Prop :=
  exists scheme auth q,
    (scheme = js "http" \/ scheme = js "https")
    /\ host_ok auth = true /\ path_ok q = true
    /\ (q = [] \/ exists q' body c, q = SLASH :: q' /\ q = body ++ [c]
                                    /\ (c =? SLASH)%N = false)
    /\ y = scheme ++ [COLON; SLASH; SLASH] ++ toLowerCase auth ++ toLowerCase q.

End Url.

Import Url.

(** ** The crawler *)

Module Crawler.

(** Thrown errors as values: [Throw m] is an exception with message [m]. *)
Inductive result (A : Type) : Type :=
| Ok (a : A)
| Throw (message : jsstring).
Arguments Ok {A} a.
Arguments Throw {A} message.

Definition bind {A B : Type} (r : result A) (k : A -> result B) : result B :=
  match r with
  | Ok a => k a
  | Throw m => Throw m
  end.

Notation "x <- e ;; k" := (bind e (fun x => k))
  (at level 61, e at next level, right associativity).

(** [if (cond) throw new Error(m)] *)
Definition throw_if (cond : bool) (m : jsstring) : result unit :=
  if cond then Throw m else Ok tt.

Definition is_ok {A : Type} (r : result A) : bool :=
  match r with Ok _ => true | Throw _ => false end.

(** *** Records of [types.ts] *)

Record ClipResult := {
  title : jsstring;
  content : jsstring;
  url : jsstring;
  wordCount : nat;
  publishedTime : option jsstring;
  author : option jsstring;
  siteName : option jsstring
}.

Record CrawlFailure := {
  f_url : jsstring;
  f_error : jsstring;
  f_attemptedStrategies : list jsstring;
  f_depth : Z
}.

Record ExtractedLink := {
  l_url : jsstring;
  l_text : jsstring;
  l_depth : Z
}.

Record CrawlProgress := {
  currentUrl : jsstring;
  processedCount : nat;
  queueLength : nat;
  successCount : nat;
  failedCount : nat;
  currentDepth : Z
}.

Record RecursiveCrawlResult := {
  r_success : list ClipResult;
  r_failed : list CrawlFailure;
  totalTime : Z;
  visitedUrls : list jsstring
}.

Definition Headers := list (jsstring * jsstring).

(** Object spread [{ ...a, ...b }] on header records: the keys of [a] in
    their order with the values of [b] where [b] has them, then the keys
    that only [b] has. *)
Fixpoint header_get (k : jsstring) (h : Headers) : option jsstring :=
  match h with
  | [] => None
  | (k', v) :: h' => if JS.eqb k k' then Some v else header_get k h'
  end.

Definition spread (a b : Headers) : Headers :=
  map (fun kv => match header_get (fst kv) b with
                 | Some v => (fst kv, v)
                 | None => kv
                 end) a
  ++ filter (fun kv => match header_get (fst kv) a with
                       | Some _ => false
                       | None => true
                       end) b.

(** *** The platform *)

(** What [fetch] resolves to.  [resp_url] is [Response.url], the address
    after the redirects that [redirect: 'follow'] lets the platform take. *)
Record Response := {
  status : Z;
  statusText : jsstring;
  contentType : option jsstring;      (* headers.get('content-type') *)
  body : result jsstring;             (* await response.text() *)
  resp_url : jsstring
}.

(** [Response.ok]: the status is in the range 200-299. *)
Definition resp_ok (r : Response) : bool :=
  ((200 <=? status r) && (status r <=? 299))%Z.

Inductive FetchOutcome :=
| Rejected (message : jsstring)      (* network error, abort on timeout *)
| Responded (r : Response).

(** What [new Defuddle(document).parse()] returns. *)
Record DefuddleResult := {
  d_content : jsstring;
  d_title : jsstring;
  d_published : jsstring;
  d_author : jsstring;
  d_site : jsstring
}.

(** An element of [document.querySelectorAll('a[href]')]. *)
Record Anchor := {
  a_href : jsstring;          (* getAttribute('href') *)
  a_textContent : jsstring
}.

(** The services of the runtime that the crawler calls and does not
    define: the URL parser, the network, the clock, and the libraries
    jsdom and defuddle.  [World] is the state of everything outside the
    crawler; [fetch] receives the address, the request headers and the
    timeout after which the request is aborted. *)
Class Platform := {
  World : Type;
  parseURL : jsstring -> option URL;                 (* new URL(s) *)
  resolveURL : jsstring -> jsstring -> option jsstring; (* new URL(href, base).href *)
  fetch : jsstring -> Headers -> Z -> World -> FetchOutcome * World;
  sleep : Z -> World -> World;                       (* await delay(ms) *)
  now : World -> Z;                                  (* Date.now() *)
  defuddle : jsstring -> jsstring -> option DefuddleResult;
  anchors : jsstring -> jsstring -> list Anchor
}.

Section WithPlatform.
Context {P : Platform}.

(** *** Options and configuration *)

(** A [RegExp] of the caller, seen through its [test] method. *)
Definition Pattern := jsstring -> bool.

Record RecursiveCrawlOptions := {
  o_timeout : option Z;
  o_includeImages : option bool;
  o_headers : option Headers;
  o_maxDepth : option Z;
  o_maxPages : option Z;
  o_sameDomainOnly : option bool;
  o_excludePatterns : option (list Pattern);
  o_includePatterns : option (list Pattern);
  o_delayBetweenRequests : option Z;
  o_useFallback : option bool;
  o_onProgress : option (CrawlProgress -> World -> World)
}.

Record CrawlConfig := {
  maxDepth : Z;
  maxPages : Z;
  sameDomainOnly : bool;
  delayBetweenRequests : Z;
  timeout : Z;
  useFallback : bool;
  includeImages : option bool;
  headers : option Headers;
  excludePatterns : option (list Pattern);
  includePatterns : option (list Pattern);
  onProgress : option (CrawlProgress -> World -> World)
}.

Definition or_default {A : Type} (o : option A) (d : A) : A :=
  match o with Some a => a | None => d end.

(** [{ ...DEFAULTS, ...options }] *)
Definition make_config (options : RecursiveCrawlOptions) : CrawlConfig :=
  {| maxDepth := or_default (o_maxDepth options) 2%Z;
     maxPages := or_default (o_maxPages options) 50%Z;
     sameDomainOnly := or_default (o_sameDomainOnly options) true;
     delayBetweenRequests := or_default (o_delayBetweenRequests options) 1000%Z;
     timeout := or_default (o_timeout options) 15000%Z;
     useFallback := or_default (o_useFallback options) true;
     includeImages := o_includeImages options;
     headers := o_headers options;
     excludePatterns := o_excludePatterns options;
     includePatterns := o_includePatterns options;
     onProgress := o_onProgress options |}.

Definition no_options : RecursiveCrawlOptions :=
  {| o_timeout := None; o_includeImages := None; o_headers := None;
     o_maxDepth := None; o_maxPages := None; o_sameDomainOnly := None;
     o_excludePatterns := None; o_includePatterns := None;
     o_delayBetweenRequests := None; o_useFallback := None;
     o_onProgress := None |}.

(** *** Fallback strategies *)

Definition USER_AGENTS : list string :=
  ["Mozilla/5.0 (Windows NT 10.0; Win64; x64) AppleWebKit/537.36 (KHTML, like Gecko) Chrome/120.0.0.0 Safari/537.36";
   "Mozilla/5.0 (Macintosh; Intel Mac OS X 10_15_7) AppleWebKit/537.36 (KHTML, like Gecko) Chrome/120.0.0.0 Safari/537.36";
   "Mozilla/5.0 (Windows NT 10.0; Win64; x64; rv:121.0) Gecko/20100101 Firefox/121.0";
   "Mozilla/5.0 (Linux; Android 10; SM-G981B) AppleWebKit/537.36 (KHTML, like Gecko) Chrome/120.0.0.0 Mobile Safari/537.36";
   "Mozilla/5.0 (compatible; Googlebot/2.1; +http://www.google.com/bot.html)"
  ]%string.

Definition user_agent (i : nat) : jsstring := js (nth i USER_AGENTS ""%string).

Definition getHeaders (userAgent : jsstring) : Headers :=
  [(js "User-Agent", userAgent);
   (js "Accept", js "text/html,application/xhtml+xml,application/xml;q=0.9,*/*;q=0.8");
   (js "Accept-Language", js "ko-KR,ko;q=0.9,en-US;q=0.8,en;q=0.7");
   (js "Accept-Encoding", js "gzip, deflate, br");
   (js "Connection", js "keep-alive");
   (js "Upgrade-Insecure-Requests", js "1")].

Record Strategy := { s_name : jsstring; s_headers : Headers }.

Definition strategies : list Strategy :=
  [{| s_name := js "default"; s_headers := getHeaders (user_agent 0) |};
   {| s_name := js "chrome-mac"; s_headers := getHeaders (user_agent 1) |};
   {| s_name := js "firefox"; s_headers := getHeaders (user_agent 2) |};
   {| s_name := js "mobile"; s_headers := getHeaders (user_agent 3) |};
   {| s_name := js "googlebot"; s_headers := getHeaders (user_agent 4) |}].

(** *** Addresses *)

Definition fileExtensions : list string :=
  [".pdf"; ".doc"; ".docx"; ".xls"; ".xlsx"; ".ppt"; ".pptx";
   ".zip"; ".rar"; ".tar"; ".gz";
   ".jpg"; ".jpeg"; ".png"; ".gif"; ".webp"; ".svg";
   ".mp3"; ".mp4"; ".avi"; ".mov";
   ".css"; ".js"; ".json"; ".xml"]%string.

Definition isFileUrl (url : jsstring) : bool :=
  let lowercaseUrl := toLowerCase url in
  existsb (fun ext => endsWith lowercaseUrl (js ext)) fileExtensions.

Definition normalizeUrl (url : jsstring) : jsstring :=
  match parseURL url with
  | Some parsed =>
      let normalized :=
        protocol parsed ++ js "//" ++ host parsed ++ pathname parsed in
      let normalized :=
        if endsWith normalized (js "/") && (1 <? length normalized)
        then drop_last normalized else normalized in
      toLowerCase normalized
  | None => toLowerCase url
  end.

Definition extractDomain (url : jsstring) : jsstring :=
  match parseURL url with
  | Some parsed => toLowerCase (hostname parsed)
  | None => []
  end.

Definition shouldCrawl (url startDomain : jsstring) (config : CrawlConfig)
  : bool :=
  if sameDomainOnly config
     && negb (JS.eqb (extractDomain url) startDomain) then false
  else if existsb (fun pattern => pattern url)
                  (or_default (excludePatterns config) []) then false
  else
    match includePatterns config with
    | Some (p :: ps) => existsb (fun pattern => pattern url) (p :: ps)
    | _ => true
    end.

(** *** One page *)

(** The loop of [extractLinks] over the anchors; [seen] is the local set
    of resolved addresses.  An anchor whose address does not resolve is
    skipped by the [catch]. *)
Fixpoint extractLinks_from (anchorList : list Anchor) (baseUrl : jsstring)
    (seen : list jsstring) : list ExtractedLink :=
  match anchorList with
  | [] => []
  | anchor :: rest =>
      match a_href anchor with
      | [] => extractLinks_from rest baseUrl seen
      | href =>
          match resolveURL href baseUrl with
          | None => extractLinks_from rest baseUrl seen
          | Some absoluteUrl =>
              if set_has absoluteUrl seen then
                extractLinks_from rest baseUrl seen
              else
                let seen := seen ++ [absoluteUrl] in
                if negb (startsWith absoluteUrl (js "http://"))
                   && negb (startsWith absoluteUrl (js "https://")) then
                  extractLinks_from rest baseUrl seen
                else if isFileUrl absoluteUrl then
                  extractLinks_from rest baseUrl seen
                else
                  let urlWithoutHash := before HASH absoluteUrl in
                  let cleanUrl := before QUERY urlWithoutHash in
                  {| l_url := cleanUrl;
                     l_text := slice0 100 (trim (a_textContent anchor));
                     l_depth := 0 |}
                  :: extractLinks_from rest baseUrl seen
          end
      end
  end.

(** [extractLinks(document, baseUrl)] for the document that jsdom builds
    from [html] at [baseUrl]. *)
Definition extractLinks (html baseUrl : jsstring) : list ExtractedLink :=
  extractLinks_from (anchors html baseUrl) baseUrl [].

Definition non_empty (s : jsstring) : option jsstring :=
  match s with [] => None | _ => Some s end.

Record AttemptOptions := {
  at_timeout : Z;
  at_headers : Headers;
  at_includeImages : option bool
}.

(** What [attemptCrawl] does with the outcome of [fetch]. *)
Definition clip_of_outcome (url : jsstring) (options : AttemptOptions)
    (outcome : FetchOutcome) : result (ClipResult * list ExtractedLink) :=
  response <- match outcome with
              | Rejected m => Throw m
              | Responded r => Ok r
              end ;;
  _ <- throw_if (negb (resp_ok response))
         (js "HTTP " ++ of_Z (status response) ++ js ": "
          ++ statusText response) ;;
  let contentType := or_default (contentType response) [] in
  _ <- throw_if (negb (includes contentType (js "text/html"))
                 && negb (includes contentType (js "application/xhtml")))
         (js "HTML이 아님: " ++ contentType) ;;
  html <- body response ;;
  parsed <- match defuddle html url with
            | None => Throw (js "콘텐츠 추출 실패")
            | Some r =>
                match d_content r with
                | [] => Throw (js "콘텐츠 추출 실패")
                | _ => Ok r
                end
            end ;;
  let markdown :=
    htmlToMarkdown (d_content parsed)
      {| md_includeImages := or_default (at_includeImages options) false |} in
  _ <- throw_if (length markdown <? 100)
         (js "콘텐츠 너무 짧음: " ++ of_Z (Z.of_nat (length markdown))
          ++ js "자") ;;
  let links := extractLinks html url in
  Ok ({| title := match d_title parsed with
                  | [] => js "Untitled"
                  | t => t
                  end;
         content := markdown;
         url := url;
         wordCount := countWords markdown;
         publishedTime := non_empty (d_published parsed);
         author := non_empty (d_author parsed);
         siteName := non_empty (d_site parsed) |}, links).

Definition attemptCrawl (url : jsstring) (options : AttemptOptions)
    (w : World) : result (ClipResult * list ExtractedLink) * World :=
  let (outcome, w) := fetch url (at_headers options) (at_timeout options) w in
  (clip_of_outcome url options outcome, w).

Record CrawlAttemptResult := {
  success : bool;
  data : option ClipResult;
  extractedLinks : option (list ExtractedLink);
  error : option jsstring;
  attemptedStrategies : list jsstring
}.

Definition attempt_options (config : CrawlConfig) (strategy : Strategy)
  : AttemptOptions :=
  {| at_timeout := timeout config;
     at_headers := spread (s_headers strategy) (or_default (headers config) []);
     at_includeImages := includeImages config |}.

(** The [for] loop of [crawlWithFallback] over the strategies still to
    try; the strategy at hand is the last one exactly when none is left
    after it. *)
Fixpoint try_strategies (url : jsstring) (config : CrawlConfig)
    (strategiesToTry : list Strategy) (attempted : list jsstring) (w : World)
  : CrawlAttemptResult * World :=
  match strategiesToTry with
  | [] =>
      ({| success := false; data := None; extractedLinks := None;
          error := Some (js "모든 폴백 전략 실패");
          attemptedStrategies := attempted |}, w)
  | currentStrategy :: rest =>
      let attempted := attempted ++ [s_name currentStrategy] in
      match attemptCrawl url (attempt_options config currentStrategy) w with
      | (Ok (clip, links), w) =>
          ({| success := true; data := Some clip;
              extractedLinks := Some links; error := None;
              attemptedStrategies := attempted |}, w)
      | (Throw message, w) =>
          match rest with
          | [] =>
              ({| success := false; data := None; extractedLinks := None;
                  error := Some message;
                  attemptedStrategies := attempted |}, w)
          | _ :: _ => try_strategies url config rest attempted (sleep 500 w)
          end
      end
  end.

(** The first strategy, the only one tried without fallback. *)
Definition hd_strategy : Strategy :=
  {| s_name := js "default"; s_headers := getHeaders (user_agent 0) |}.

Definition strategiesToTry (config : CrawlConfig) : list Strategy :=
  if useFallback config then strategies else firstn 1 strategies.

Definition crawlWithFallback (url : jsstring) (config : CrawlConfig)
    (w : World) : CrawlAttemptResult * World :=
  try_strategies url config (strategiesToTry config) [] w.

(** *** The main loop *)

Record FrontierEntry := { e_url : jsstring; e_depth : Z }.

(** The local state of one call of [crawlRecursively] and the world
    around it.  [visited] is the [Set] in insertion order. *)
Record CrawlState := {
  visited : list jsstring;
  queue : list FrontierEntry;
  succeeded : list ClipResult;
  failed : list CrawlFailure;
  world : World
}.

Definition processed (st : CrawlState) : nat :=
  length (succeeded st) + length (failed st).

(** The condition of the [while] loop. *)
Definition running (config : CrawlConfig) (st : CrawlState) : bool :=
  (0 <? length (queue st)) && (Z.of_nat (processed st) <? maxPages config)%Z.

(** The progress callback, when the caller gave one. *)
Definition notify (config : CrawlConfig) (url : jsstring) (depth : Z)
    (st : CrawlState) : World :=
  match onProgress config with
  | Some callback =>
      callback {| currentUrl := url;
                  processedCount := processed st;
                  queueLength := length (queue st);
                  successCount := length (succeeded st);
                  failedCount := length (failed st);
                  currentDepth := depth |} (world st)
  | None => world st
  end.

(** The links of a fetched page that go to the back of the queue. *)
Definition next_entries (depth : Z) (seen : list jsstring)
    (links : list ExtractedLink) : list FrontierEntry :=
  map (fun link => {| e_url := link; e_depth := depth + 1 |})
    (filter (fun link => negb (set_has link seen))
       (map (fun link => normalizeUrl (l_url link)) links)).

Definition failure_of (url : jsstring) (depth : Z)
    (result : CrawlAttemptResult) : CrawlFailure :=
  {| f_url := url;
     f_error := match error result with
                | Some (c :: m) => c :: m
                | _ => js "알 수 없는 오류"
                end;
     f_attemptedStrategies := attemptedStrategies result;
     f_depth := depth |}.

(** The two branches on the result of [crawlWithFallback]; [seen] is the
    visited set with [url] already added. *)
Definition record (config : CrawlConfig) (url : jsstring) (depth : Z)
    (st : CrawlState) (result : CrawlAttemptResult) (w : World) : CrawlState :=
  let seen := visited st ++ [url] in
  match success result, data result with
  | true, Some page =>
      {| visited := seen;
         queue :=
           if (depth <? maxDepth config)%Z then
             queue st
             ++ next_entries depth seen (or_default (extractedLinks result) [])
           else queue st;
         succeeded := succeeded st ++ [page];
         failed := failed st;
         world := w |}
  | _, _ =>
      {| visited := seen;
         queue := queue st;
         succeeded := succeeded st;
         failed := failed st ++ [failure_of url depth result];
         world := w |}
  end.

(** The delay between requests, taken when the queue is not empty. *)
Definition pause (config : CrawlConfig) (st : CrawlState) : CrawlState :=
  if 0 <? length (queue st) then
    {| visited := visited st; queue := queue st; succeeded := succeeded st;
       failed := failed st;
       world := sleep (delayBetweenRequests config) (world st) |}
  else st.

(** The part of the loop body after the two [continue] tests. *)
Definition visit (config : CrawlConfig) (url : jsstring) (depth : Z)
    (st : CrawlState) : CrawlState :=
  let w := notify config url depth st in
  let (result, w) := crawlWithFallback url config w in
  pause config (record config url depth st result w).

(** One turn of the [while] loop: [queue.shift()], the two [continue]
    tests, then the visit.  The loop condition rules out the empty
    queue. *)
Definition iteration (config : CrawlConfig) (startDomain : jsstring)
    (st : CrawlState) : CrawlState :=
  match queue st with
  | [] => st
  | entry :: rest =>
      let st := {| visited := visited st; queue := rest;
                   succeeded := succeeded st; failed := failed st;
                   world := world st |} in
      let url := e_url entry in
      let depth := e_depth entry in
      if set_has url (visited st) || (maxDepth config <? depth)%Z then st
      else if negb (shouldCrawl url startDomain config) then st
      else visit config url depth st
  end.

(** The [while] loop, with [fuel] bounding the number of turns. *)
Fixpoint crawl_loop (fuel : nat) (config : CrawlConfig)
    (startDomain : jsstring) (st : CrawlState) : option CrawlState :=
  if running config st then
    match fuel with
    | O => None
    | S fuel' => crawl_loop fuel' config startDomain
                   (iteration config startDomain st)
    end
  else Some st.

Definition initial_state (startUrl : jsstring) (w : World) : CrawlState :=
  {| visited := [];
     queue := [{| e_url := normalizeUrl startUrl; e_depth := 0 |}];
     succeeded := []; failed := []; world := w |}.

Definition crawlRecursively (fuel : nat) (startUrl : jsstring)
    (options : RecursiveCrawlOptions) (w : World)
  : option (RecursiveCrawlResult * World) :=
  let startTime := now w in
  let config := make_config options in
  let startDomain := extractDomain startUrl in
  match crawl_loop fuel config startDomain (initial_state startUrl w) with
  | None => None
  | Some st =>
      let totalTime := (now (world st) - startTime)%Z in
      Some ({| r_success := succeeded st; r_failed := failed st;
               totalTime := totalTime; visitedUrls := visited st |},
            world st)
  end.

(** *** Runs *)

(** The addresses of the two result lists. *)
Definition recorded (st : CrawlState) : list jsstring :=
  map url (succeeded st) ++ map f_url (failed st).

(** The states that the loop passes through when started in [st0]. *)
Inductive reachable (config : CrawlConfig) (startDomain : jsstring)
    (st0 : CrawlState) : CrawlState -> Prop :=
| reach_start : reachable config startDomain st0 st0
| reach_step st :
    reachable config startDomain st0 st ->
    running config st = true ->
    reachable config startDomain st0 (iteration config startDomain st).

(** The state with the head of the queue taken off by [queue.shift()]. *)
Definition shifted (st : CrawlState) : CrawlState :=
  {| visited := visited st; queue := tl (queue st);
     succeeded := succeeded st; failed := failed st; world := world st |}.

(** The three ways through one turn of the loop. *)
Inductive turn (config : CrawlConfig) (startDomain : jsstring)
    (st : CrawlState) : CrawlState -> Prop :=
| turn_skip entry rest :
    queue st = entry :: rest ->
    set_has (e_url entry) (visited st) = true
    \/ (maxDepth config < e_depth entry)%Z
    \/ shouldCrawl (e_url entry) startDomain config = false ->
    turn config startDomain st (shifted st)
| turn_visit entry rest :
    queue st = entry :: rest ->
    set_has (e_url entry) (visited st) = false ->
    (e_depth entry <= maxDepth config)%Z ->
    shouldCrawl (e_url entry) startDomain config = true ->
    turn config startDomain st
      (visit config (e_url entry) (e_depth entry) (shifted st)).

(** Budget left: the number of pages that may still be processed. *)
Definition budget_left (config : CrawlConfig) (st : CrawlState) : nat :=
  Z.to_nat (maxPages config - Z.of_nat (processed st)).

(** Addresses in the form in which they enter the queue. *)
Definition normalized (a : jsstring) : Prop := exists x, a = normalizeUrl x.

(** The bookkeeping invariant of the loop: the visited set has no
    duplicate and holds the same addresses as the two result lists;
    everything queued or visited is a normalized address. *)
Definition bookkeeping (st : CrawlState) : Prop :=
  NoDup (visited st)
  /\ Permutation (visited st) (recorded st)
  /\ (forall e, In e (queue st) -> normalized (e_url e))
  /\ (forall a, In a (visited st) -> normalized a).

(** With [maxDepth = 0] the queue never holds anything but the start
    entry, and a turn of the loop only takes the head off the queue. *)
Definition only_seed (startUrl : jsstring) (st : CrawlState) : Prop :=
  (forall e, In e (queue st) ->
             e = {| e_url := normalizeUrl startUrl; e_depth := 0 |})
  /\ (forall a, In a (visited st) -> a = normalizeUrl startUrl).

(** *** Attempts seen from outside *)

(** The attempt got an HTML page from the network: a response with a
    status 2xx, an HTML content type and a readable body. *)
Definition fetched_html (o : FetchOutcome) : option jsstring :=
  match o with
  | Rejected _ => None
  | Responded r =>
      let ct := or_default (contentType r) [] in
      if resp_ok r
         && (includes ct (js "text/html") || includes ct (js "application/xhtml"))
      then match body r with
           | Ok html => Some html
           | Throw _ => None
           end
      else None
  end.

(** The two extraction failures of [attemptCrawl]: no content found, or
    normalized content below 100 characters. *)
Definition extraction_fails (html url : jsstring) (images : option bool)
  : bool :=
  match defuddle html url with
  | None => true
  | Some r =>
      match d_content r with
      | [] => true
      | c =>
          length (htmlToMarkdown c {| md_includeImages := or_default images false |})
          <? 100
      end
  end.

Definition strategy_names : list jsstring :=
  map js ["default"; "chrome-mac"; "firefox"; "mobile"; "googlebot"]%string.

(** The request profile of a strategy, read off its user agent and
    compared with the user agent of the first strategy: the same browser
    on another system, another browser on the same system, a mobile
    browser, or a program that declares itself a crawler. *)
Inductive Browser := Chrome | Firefox | OtherBrowser.
Inductive System := Windows | Macintosh | Android | OtherSystem.

Definition browser_of (ua : jsstring) : Browser :=
  if includes ua (js "Firefox/") then Firefox
  else if includes ua (js "Chrome/") then Chrome
  else OtherBrowser.

Definition system_of (ua : jsstring) : System :=
  if includes ua (js "Android") then Android
  else if includes ua (js "Windows NT") then Windows
  else if includes ua (js "Macintosh") then Macintosh
  else OtherSystem.

Definition same_browser (a b : jsstring) : bool :=
  match browser_of a, browser_of b with
  | Chrome, Chrome | Firefox, Firefox | OtherBrowser, OtherBrowser => true
  | _, _ => false
  end.

Definition same_system (a b : jsstring) : bool :=
  match system_of a, system_of b with
  | Windows, Windows | Macintosh, Macintosh | Android, Android
  | OtherSystem, OtherSystem => true
  | _, _ => false
  end.

Inductive Profile :=
| DefaultProfile
| AlternateBrowser
| AlternateSystem
| MobileProfile
| DeclaredCrawler
| OtherProfile.

Definition agent_of (s : Strategy) : jsstring :=
  or_default (header_get (js "User-Agent") (s_headers s)) [].

Definition profile_of (s : Strategy) : Profile :=
  let ua := agent_of s in
  let first := user_agent 0 in
  if JS.eqb ua first then DefaultProfile
  else if includes ua (js "bot") then DeclaredCrawler
  else if includes ua (js "Mobile") then MobileProfile
  else if same_browser ua first && negb (same_system ua first)
  then AlternateSystem
  else if negb (same_browser ua first) && same_system ua first
  then AlternateBrowser
  else OtherProfile.

End WithPlatform.
End Crawler.

Import Crawler.

(** ** A logging platform *)

(** Any platform can be observed: the world is paired with the list of
    the addresses handed to [fetch], in the order of the requests. *)
Module Logging.

Definition Logged (P : Platform) : Platform :=
  {| World := (@World P * list jsstring)%type;
     parseURL := @parseURL P;
     resolveURL := @resolveURL P;
     fetch := fun url h t wl =>
                let (o, w) := @fetch P url h t (fst wl) in
                (o, (w, snd wl ++ [url]));
     sleep := fun ms wl => (@sleep P ms (fst wl), snd wl);
     now := fun wl => @now P (fst wl);
     defuddle := @defuddle P;
     anchors := @anchors P |}.

(** The caller's options on the logged platform: the progress callback
    acts on the caller's world and does not see the log. *)
Definition lift_options {P : Platform} (o : @RecursiveCrawlOptions P)
  : @RecursiveCrawlOptions (Logged P) :=
  {| o_timeout := o_timeout o;
     o_includeImages := o_includeImages o;
     o_headers := o_headers o;
     o_maxDepth := o_maxDepth o;
     o_maxPages := o_maxPages o;
     o_sameDomainOnly := o_sameDomainOnly o;
     o_excludePatterns := o_excludePatterns o;
     o_includePatterns := o_includePatterns o;
     o_delayBetweenRequests := o_delayBetweenRequests o;
     o_useFallback := o_useFallback o;
     o_onProgress :=
       match o_onProgress o with
       | Some f => Some (fun p (wl : @World (Logged P)) => (f p (fst wl), snd wl))
       | None => None
       end |}.

(** A configuration whose progress callback leaves the log alone. *)
Definition log_blind {P : Platform} (config : @CrawlConfig (Logged P)) : Prop :=
  forall cb, onProgress config = Some cb ->
  forall p wl, snd (cb p wl) = snd wl.

(** The requests made so far. *)
Definition log_of {P : Platform} (st : @CrawlState (Logged P))
  : list jsstring := snd (world st).

End Logging.

Import Logging.

(** ** A small site *)

(** A concrete platform on which the crawler can be run: the URL model
    above, a table of pages, a clock that counts requests and delays. *)
Module Site.

Definition filler : string :=
  "Lorem ipsum dolor sit amet, consectetur adipiscing elit, sed do eiusmod tempor incididunt ut labore et dolore magna aliqua.".

Definition article (heading : string) : jsstring :=
  js ("<h1>" ++ heading ++ "</h1><p>" ++ filler ++ "</p>")%string.

Definition html_page (final : string) (html : jsstring) : FetchOutcome :=
  Responded {| status := 200; statusText := js "OK";
               contentType := Some (js "text/html; charset=utf-8");
               body := Ok html; resp_url := js final |}.

Definition not_found : FetchOutcome :=
  Responded {| status := 404; statusText := js "Not Found";
               contentType := Some (js "text/html");
               body := Ok (js "<h1>404</h1>"); resp_url := [] |}.

Definition home : string := "https://a.test".

Definition home_links : list string :=
  ["https://a.test/p1"; "https://a.test/p2"; "https://a.test/p3";
   "https://a.test/p4"; "https://a.test/p5"; "https://a.test/p6";
   "https://a.test/p7"; "https://a.test/p8"; "https://a.test/p9";
   "https://a.test/p10"]%string.

(** The pages: the home page with ten links, the ten pages it links to,
    a page whose content is too short, and an address that redirects. *)
Definition serve (url : jsstring) : FetchOutcome :=
  if JS.eqb url (js home) then html_page home (article "Home")
  else if existsb (fun l => JS.eqb url (js l)) home_links then
    html_page "" (article "Page")
  else if JS.eqb url (js "https://a.test/short") then
    html_page "https://a.test/short" (js "<p>too short</p>")
  else if JS.eqb url (js "https://a.test/old") then
    html_page "https://a.test/new" (article "Moved")
  else if startsWith url (js "http") then not_found
  else Rejected (js "Invalid URL").

Definition link_to (target : string) : Anchor :=
  {| a_href := js target; a_textContent := js target |}.

#[export] Instance platform : Platform :=
  {| World := Z;
     parseURL := Url.parse;
     resolveURL := fun href base =>
                     match Url.parse href with
                     | Some _ => Some href
                     | None => None
                     end;
     fetch := fun url _ _ w => (serve url, (w + 1)%Z);
     sleep := fun ms w => (w + ms)%Z;
     now := fun w => w;
     defuddle := fun html _ =>
                   Some {| d_content := html; d_title := js "A page";
                           d_published := []; d_author := []; d_site := [] |};
     anchors := fun _ url =>
                  if JS.eqb url (js home) then map link_to home_links else [] |}.

Definition with_max_pages (n : Z) : RecursiveCrawlOptions :=
  {| o_timeout := None; o_includeImages := None; o_headers := None;
     o_maxDepth := None; o_maxPages := Some n; o_sameDomainOnly := None;
     o_excludePatterns := None; o_includePatterns := None;
     o_delayBetweenRequests := None; o_useFallback := None;
     o_onProgress := None |}.

Definition with_max_depth (n : Z) : RecursiveCrawlOptions :=
  {| o_timeout := None; o_includeImages := None; o_headers := None;
     o_maxDepth := Some n; o_maxPages := None; o_sameDomainOnly := None;
     o_excludePatterns := None; o_includePatterns := None;
     o_delayBetweenRequests := None; o_useFallback := None;
     o_onProgress := None |}.

Definition P0 : Platform := platform.

Definition missing : jsstring := js "https://a.test/missing".
Definition short : jsstring := js "https://a.test/short".
Definition moved : jsstring := js "https://a.test/old".
Definition config0 : @CrawlConfig P0 := make_config no_options.

End Site.

(** ** Orders and counts of a run *)

Module Run.
Section WithPlatform.
Context {P : Platform}.

(** The depths in the order in which the loop meets them: those of the
    failures filed so far, then those of the entries that wait in the
    queue. *)
Definition depths (st : CrawlState) : list Z :=
  map f_depth (failed st) ++ map e_depth (queue st).

(** Breadth first: the depths never decrease along [depths], the queue
    spans at most two levels, no depth is negative and no failure lies
    deeper than [maxDepth]. *)
Definition level_order (config : CrawlConfig) (st : CrawlState) : Prop :=
  StronglySorted Z.le (depths st)
  /\ (forall e e', In e (queue st) -> In e' (queue st) ->
                   (e_depth e' <= e_depth e + 1)%Z)
  /\ (forall e, In e (queue st) -> (0 <= e_depth e)%Z)
  /\ (forall f, In f (failed st) -> (0 <= f_depth f <= maxDepth config)%Z).

(** What every record of a result satisfies: a page has a title, at
    least 100 characters of content and the word count of that content; a
    failure has a message and names every strategy that was to be
    tried. *)
Definition page_ok (page : ClipResult) : Prop :=
  title page <> []
  /\ 100 <= length (content page)
  /\ wordCount page = countWords (content page).

Definition failure_ok (config : CrawlConfig) (f : CrawlFailure) : Prop :=
  f_error f <> []
  /\ f_attemptedStrategies f = map s_name (strategiesToTry config).

End WithPlatform.
End Run.

(** Options for the small site. *)
Module Filters.

(** An exclude pattern: the addresses that contain [needle] are left
    out. *)
Definition containing (needle : string) : Pattern :=
  fun url => includes url (js needle).

Definition excluding (needle : string) : @RecursiveCrawlOptions Site.platform :=
  {| o_timeout := None; o_includeImages := None; o_headers := None;
     o_maxDepth := None; o_maxPages := None; o_sameDomainOnly := None;
     o_excludePatterns := Some [containing needle]; o_includePatterns := None;
     o_delayBetweenRequests := None; o_useFallback := None;
     o_onProgress := None |}.

(** Options with a [User-Agent] header of the caller. *)
Definition sending (agent : string) : @RecursiveCrawlOptions Site.platform :=
  {| o_timeout := None; o_includeImages := None;
     o_headers := Some [(js "User-Agent", js agent)];
     o_maxDepth := None; o_maxPages := None; o_sameDomainOnly := None;
     o_excludePatterns := None; o_includePatterns := None;
     o_delayBetweenRequests := None; o_useFallback := None;
     o_onProgress := None |}.

End Filters.

(** A platform like the small site whose pages all carry a given list of
    anchors. *)
Module Shelf.

Definition platform (page_anchors : list Anchor) : Platform :=
  {| World := Z;
     parseURL := Url.parse;
     resolveURL := fun href base =>
                     match Url.parse href with
                     | Some _ => Some href
                     | None => None
                     end;
     fetch := fun url _ _ w => (Site.serve url, (w + 1)%Z);
     sleep := fun ms w => (w + ms)%Z;
     now := fun w => w;
     defuddle := fun html _ =>
                   Some {| d_content := html; d_title := js "A page";
                           d_published := []; d_author := []; d_site := [] |};
     anchors := fun _ _ => page_anchors |}.

End Shelf.

(** ** Normal forms *)

Module Address.

(** What [normalizeUrl] makes of the fields of a parsed address. *)
Definition normal_form_of (u : URL) : jsstring :=
  toLowerCase (strip (protocol u ++ js "//" ++ host u ++ pathname u)).

End Address.

(** ** Where a pattern can match *)

Module RegexSpec.

(** A match of [r] takes at least its first character from the subject. *)
Fixpoint head_consumes (r : re) : bool :=
  match r with
  | Chr _ | Cls _ => true
  | Seq r1 _ => head_consumes r1
  | Alt r1 r2 => head_consumes r1 && head_consumes r2
  | Cap _ r1 => head_consumes r1
  | Eps | Star _ _ => false
  end.

(** A match of [r] may begin with the character [c]. *)
Fixpoint starts (ic : bool) (r : re) (c : N) : bool :=
  match r with
  | Chr c0 => chr_eq ic c c0
  | Cls p => p c
  | Seq r1 _ => if head_consumes r1 then starts ic r1 c else true
  | Alt r1 r2 => starts ic r1 c || starts ic r2 c
  | Cap _ r1 => starts ic r1 c
  | Eps | Star _ _ => true
  end.

(** No match of [r] begins inside [pre] when [tail] follows it. *)
Fixpoint rejected_before (r : RegExp) (pre tail : jsstring) : Prop :=
  match pre with
  | [] => True
  | c :: pre' =>
      exec_at r (c :: pre' ++ tail) = None /\ rejected_before r pre' tail
  end.

(** A pattern whose matches begin with the character [x]. *)
Definition begins_with (x : N) (r : RegExp) : Prop :=
  head_consumes (source r) = true
  /\ forall c, chr_eq (ignoreCase r) c x = false ->
               starts (ignoreCase r) (source r) c = false.

End RegexSpec.

Import RegexSpec.

(** ** Text as scans *)

(** What the counting and the white-space steps compute, written as
    scans over the text, to be compared with the patterns of the
    source. *)
Module Scan.

Definition TAB : N := 9.
Definition SPACE : N := 32.
Definition AMP : N := 38.     (* & *)
Definition SHARP : N := 35.   (* # *)
Definition SEMI : N := 59.    (* ; *)

(** The number of maximal runs of characters of the class [p]; [inside]
    tells that the character before was of the class. *)
Fixpoint runs (p : N -> bool) (inside : bool) (s : jsstring) : nat :=
  match s with
  | [] => 0
  | c :: s' =>
      if p c then (if inside then 0 else 1) + runs p true s'
      else runs p false s'
  end.

(** Each run of blanks replaced by one space; [inside] tells that the
    character before was a blank. *)
Fixpoint squeeze (inside : bool) (s : jsstring) : jsstring :=
  match s with
  | [] => []
  | c :: s' =>
      if blank c then
        if inside then squeeze true s' else SPACE :: squeeze true s'
      else c :: squeeze false s'
  end.

(** Each run of line feeds cut down to two; [seen] counts the line feeds
    just before. *)
Fixpoint cap_lines (seen : nat) (s : jsstring) : jsstring :=
  match s with
  | [] => []
  | c :: s' =>
      if (c =? NL)%N then
        if seen <? 2 then NL :: cap_lines (S seen) s' else cap_lines (S seen) s'
      else c :: cap_lines 0 s'
  end.

End Scan.

Import Scan.

(** ** The steps of the conversion *)

Module Steps.

(** The expression of [element] and of [element_nocap]: [a] is the
    opening text with the tag name, [b] the closing tag. *)
Definition element_re (a b : jsstring) : re :=
  seq [lit_of a; Star true (not_chr GT); Chr GT; Cap 1 (Star false any);
       lit_of b].

Definition element_nocap_re (a b : jsstring) : re :=
  seq [lit_of a; Star true (not_chr GT); Chr GT; Star false any; lit_of b].

(** The replacements of [htmlToMarkdown] that work on tags, in the order
    of the source, with or without images. *)
Definition tag_rules (images : bool) : list (RegExp * list piece) :=
  [(element_nocap "script", []);
   (element_nocap "style", []);
   (element "h1", [Txt nl; Txt "# "; Ref 1; Txt nl]);
   (element "h2", [Txt nl; Txt "## "; Ref 1; Txt nl]);
   (element "h3", [Txt nl; Txt "### "; Ref 1; Txt nl]);
   (element "h4", [Txt nl; Txt "#### "; Ref 1; Txt nl]);
   (element "p", [Txt nl; Ref 1; Txt nl]);
   (br, [Txt nl]);
   (element "li", [Txt "- "; Ref 1; Txt nl]);
   (open_or_close "ul", [Txt nl]);
   (open_or_close "ol", [Txt nl]);
   (element "strong", [Txt "**"; Ref 1; Txt "**"]);
   (element "b", [Txt "**"; Ref 1; Txt "**"]);
   (element "em", [Txt "*"; Ref 1; Txt "*"]);
   (element "a", [Ref 1])]
  ++ (if images then
        [(img_src_alt, [Txt "!["; Ref 2; Txt "]("; Ref 1; Txt ")"]);
         (img_src, [Txt "![]("; Ref 1; Txt ")"])]
      else [(img_any, [])])
  ++ [(any_tag, [])].

Definition apply_rule (text : jsstring) (rule : RegExp * list piece)
  : jsstring := replace (fst rule) (snd rule) text.

(** The steps of [htmlToMarkdown] after the tags. *)
Definition finish (text : jsstring) : jsstring :=
  let text := decodeHtmlEntities text in
  let text := replace (rx (at_least3 NL)) [Txt nl; Txt nl] text in
  let text := replace (rx (plus blank)) [Txt " "] text in
  trim text.

(** One turn of the loop of [decodeHtmlEntities]. *)
Definition named_step (result : jsstring) (e : string * string) : jsstring :=
  replace (rx (lit (fst e))) [Txt (snd e)] result.

(** Text without markup: a word has no [<], no [&] and no white space;
    a sentence is a list of words with one space between them. *)
Definition plain_char (c : N) : bool :=
  negb (c =? LT)%N && negb (c =? AMP)%N && negb (is_space c).

Definition word (w : jsstring) : bool :=
  match w with [] => false | _ => forallb plain_char w end.

Fixpoint sentence (ws : list jsstring) : jsstring :=
  match ws with
  | [] => []
  | [w] => w
  | w :: ws' => w ++ SPACE :: sentence ws'
  end.

(** The attributes of an opening tag: nothing, or a space followed by
    characters other than [<] and [>]. *)
Definition attributes (attrs : jsstring) : bool :=
  match attrs with
  | [] => true
  | c :: _ => (c =? SPACE)%N
  end
  && forallb (fun c => negb (c =? GT)%N && negb (c =? LT)%N) attrs.

(** An element: opening tag with attributes, content, closing tag. *)
Definition tagged (tag : string) (attrs content : jsstring) : jsstring :=
  js ("<" ++ tag)%string ++ attrs ++ GT :: content ++ js ("</" ++ tag ++ ">")%string.

End Steps.

Import Steps.

Import RegexSpec Scan Steps.

(** ** Flat documents *)

Module Document.

(** A piece of markup, the place of its rule among the rules and what
    that rule makes of it. *)
Record segment := {
  seg_source : jsstring;
  seg_rule : nat;
  seg_result : jsstring
}.

(** The piece when the first [j] rules have been applied. *)
Definition state (j : nat) (s : segment) : jsstring :=
  if seg_rule s <? j then seg_result s else seg_source s.

(** The rules before its own find nothing in the piece, whatever follows
    it; its own rule matches it as a whole, whatever follows it; and the
    result has no [<] for the rules after it. *)
Definition seg_ok (rules : list (RegExp * list piece)) (s : segment) : Prop :=
  ~ In LT (seg_result s)
  /\ Forall (fun rule => forall tail,
               rejected_before (fst rule) (seg_source s) tail)
       (firstn (seg_rule s) rules)
  /\ match nth_error rules (seg_rule s) with
     | Some rule =>
         exists c m cs,
           seg_source s = c :: m
           /\ (forall tail, exec_at (fst rule) (c :: m ++ tail) = Some (tail, cs))
           /\ subst (snd rule) cs = seg_result s
     | None => seg_source s = seg_result s
     end.

(** The block elements with a rule of their own. *)
Inductive kind := Heading1 | Heading2 | Heading3 | Heading4 | Paragraph | Item.

Definition kind_tag (k : kind) : string :=
  match k with
  | Heading1 => "h1" | Heading2 => "h2" | Heading3 => "h3" | Heading4 => "h4"
  | Paragraph => "p"
  | Item => "li"
  end.

(** The place of the rule of a block in [tag_rules]. *)
Definition kind_rule (k : kind) : nat :=
  match k with
  | Heading1 => 2 | Heading2 => 3 | Heading3 => 4 | Heading4 => 5
  | Paragraph => 6
  | Item => 8
  end.

(** What the template of the rule puts before the content: the words
    before it on its line, and the line feed before the line. *)
Definition kind_mark (k : kind) : list jsstring :=
  match k with
  | Heading1 => [js "#"] | Heading2 => [js "##"]
  | Heading3 => [js "###"] | Heading4 => [js "####"]
  | Paragraph => []
  | Item => [js "-"]
  end.

Definition kind_lead (k : kind) : jsstring :=
  match k with
  | Item => []
  | _ => [NL]
  end.

(** A block: its element, the attributes of its opening tag and the words
    of its content. *)
Record block := {
  b_kind : kind;
  b_attrs : jsstring;
  b_words : list jsstring
}.

Definition well_formed (b : block) : Prop :=
  b_words b <> [] /\ Forall (fun w => word w = true) (b_words b)
  /\ attributes (b_attrs b) = true.

Definition block_source (b : block) : jsstring :=
  tagged (kind_tag (b_kind b)) (b_attrs b) (sentence (b_words b)).

(** The line of a block in the result, and the lines of a sequence of
    blocks: a line feed ends each line, and a blank line stands before
    each block but a list item. *)
Definition line (b : block) : jsstring :=
  sentence (kind_mark (b_kind b) ++ b_words b).

Fixpoint document (bs : list block) : jsstring :=
  match bs with
  | [] => []
  | b :: rest =>
      line b ++
      match rest with
      | [] => []
      | b' :: _ => NL :: kind_lead (b_kind b') ++ document rest
      end
  end.

(** Lines, one after the other. *)
Fixpoint lines (ls : list jsstring) : jsstring :=
  match ls with
  | [] => []
  | l :: rest =>
      l ++ match rest with
           | [] => []
           | _ :: _ => NL :: lines rest
           end
  end.

(** What the rules make of a block, before the white space is put in
    order. *)
Definition block_result (b : block) : jsstring :=
  kind_lead (b_kind b) ++ line b ++ [NL].

Definition block_segment (b : block) : segment :=
  {| seg_source := block_source b;
     seg_rule := kind_rule (b_kind b);
     seg_result := block_result b |}.

End Document.

Import Document.

(** A small page of blocks. *)
Module Leaflet.

Definition title : block :=
  {| b_kind := Heading1; b_attrs := []; b_words := [js "Crawling"] |}.
Definition intro : block :=
  {| b_kind := Paragraph; b_attrs := js " class=lead";
     b_words := [js "Two"; js "steps:"] |}.
Definition first : block :=
  {| b_kind := Item; b_attrs := []; b_words := [js "fetch"] |}.
Definition second : block :=
  {| b_kind := Item; b_attrs := []; b_words := [js "convert"] |}.

End Leaflet.

(** ** A journal of the run *)

(** Any platform can keep a journal: the world is paired with the list of
    what the crawler did to it, in order: the requests, the delays and
    the calls of the progress callback. *)
Module Journal.

Inductive event :=
| Requested (url : jsstring)
| Slept (ms : Z)
| Reported (p : CrawlProgress).

Definition Journaled (P : Platform) : Platform :=
  {| World := (@World P * list event)%type;
     parseURL := @parseURL P;
     resolveURL := @resolveURL P;
     fetch := fun url h t wl =>
                let (o, w) := @fetch P url h t (fst wl) in
                (o, (w, snd wl ++ [Requested url]));
     sleep := fun ms wl => (@sleep P ms (fst wl), snd wl ++ [Slept ms]);
     now := fun wl => @now P (fst wl);
     defuddle := @defuddle P;
     anchors := @anchors P |}.

(** The caller's options with a progress callback that writes to the
    journal, after the callback of the caller, if any, has acted on the
    caller's world. *)
Definition reporting {P : Platform} (o : @RecursiveCrawlOptions P)
  : @RecursiveCrawlOptions (Journaled P) :=
  {| o_timeout := o_timeout o;
     o_includeImages := o_includeImages o;
     o_headers := o_headers o;
     o_maxDepth := o_maxDepth o;
     o_maxPages := o_maxPages o;
     o_sameDomainOnly := o_sameDomainOnly o;
     o_excludePatterns := o_excludePatterns o;
     o_includePatterns := o_includePatterns o;
     o_delayBetweenRequests := o_delayBetweenRequests o;
     o_useFallback := o_useFallback o;
     o_onProgress :=
       Some (fun p (wl : @World (Journaled P)) =>
               (match o_onProgress o with
                | Some f => f p (fst wl)
                | None => fst wl
                end,
                snd wl ++ [Reported p])) |}.

(** A configuration whose progress callback writes to the journal. *)
Definition reports {P : Platform} (config : @CrawlConfig (Journaled P))
  : Prop :=
  exists cb, onProgress config = Some cb
             /\ forall p wl, snd (cb p wl) = snd wl ++ [Reported p].

Definition journal_of {P : Platform} (st : @CrawlState (Journaled P))
  : list event := snd (world st).

(** The requests of one visit: [k] attempts, half a second apart. *)
Fixpoint attempts (url : jsstring) (k : nat) : list event :=
  match k with
  | 0 => []
  | S k' =>
      Requested url ::
      match k' with
      | 0 => []
      | S _ => Slept 500 :: attempts url k'
      end
  end.

(** One visit: the progress reported, the number of attempts and whether
    the delay between requests was taken after it. *)
Record visit_trace := {
  v_progress : CrawlProgress;
  v_attempts : nat;
  v_delay : bool
}.

Definition trace (delay : Z) (v : visit_trace) : list event :=
  Reported (v_progress v)
  :: attempts (currentUrl (v_progress v)) (v_attempts v)
  ++ (if v_delay v then [Slept delay] else []).

(** What holds of each visit of a run. *)
Definition visit_ok {P : Platform} (config : @CrawlConfig P)
    (v : visit_trace) : Prop :=
  1 <= v_attempts v <= (if useFallback config then 5 else 1)
  /\ successCount (v_progress v) + failedCount (v_progress v)
     = processedCount (v_progress v)
  /\ (0 <= currentDepth (v_progress v) <= maxDepth config)%Z.

End Journal.

Import Journal.

Import RegexSpec Scan Steps.

(** ** Image tags *)

Module Images.

Definition EQUALS : N := 61.

(** The value of an attribute between double quotes: characters of words
    other than the double quote, [>] and [=]. *)
Definition value_char (c : N) : bool :=
  plain_char c && negb (c =? QUOTE)%N && negb (c =? GT)%N
  && negb (c =? EQUALS)%N.

Definition value (v : jsstring) : bool := forallb value_char v.

(** An attribute after a space, and an [img] tag with its attributes. *)
Definition attribute (name : string) (v : jsstring) : jsstring :=
  SPACE :: js name ++ EQUALS :: QUOTE :: v ++ [QUOTE].

Definition img (attrs : jsstring) : jsstring := js "<img" ++ attrs ++ [GT].

(** The options of a conversion with images. *)
Definition illustrated : MarkdownOptions := {| md_includeImages := true |}.

(** A repetition of the class [p] cannot go on into [rest]. *)
Definition stops (p : N -> bool) (rest : jsstring) : Prop :=
  match rest with [] => True | d :: _ => p d = false end.

(** Every proper suffix of [w] satisfies [Q]. *)
Definition all_suffixes (Q : jsstring -> Prop) (w : jsstring) : Prop :=
  forall w1 c w2, w = w1 ++ c :: w2 -> Q w2.

(** The parts of the two patterns of an image with a source, from the
    right: what follows the last attribute, the [alt] attribute and what
    follows it, and the [src] attribute with what follows it in each of
    the two patterns. *)
Definition closing : re :=
  Seq (Star true (not_chr GT)) (Seq (opt SLASH) (Chr GT)).
Definition alt_part : re := Seq (attr_value "alt" 2) closing.
Definition src_alt_part : re :=
  Seq (attr_value "src" 1) (Seq (Star true (not_chr GT)) alt_part).
Definition src_part : re := Seq (attr_value "src" 1) closing.

(** The end of a match: the rest of the subject and the captures. *)
Definition found (s : jsstring) (cs : caps) : option (jsstring * caps) :=
  Some (s, cs).

End Images.

Import Images.


(** * Properties *)

(** ** Strings and sets *)

Module JSFacts.

Lemma eqb_eq a b : JS.eqb a b = true <-> a = b.
Proof.
  unfold JS.eqb. destruct (list_eq_dec N.eq_dec a b); split; congruence.
Qed.

Lemma eqb_refl a : JS.eqb a a = true.
Proof. now apply eqb_eq. Qed.

Lemma eqb_neq a b : JS.eqb a b = false <-> a <> b.
Proof.
  unfold JS.eqb. destruct (list_eq_dec N.eq_dec a b); split; congruence.
Qed.

Lemma set_has_In x s : set_has x s = true <-> In x s.
Proof.
  unfold set_has. rewrite existsb_exists. split.
  - intros [y [Hy He]]. apply eqb_eq in He. now subst.
  - intros H. exists x. split; [assumption | apply eqb_refl].
Qed.

Lemma set_has_not_In x s : set_has x s = false <-> ~ In x s.
Proof.
  rewrite <- set_has_In. destruct (set_has x s); split; congruence.
Qed.

Lemma NoDup_app_disjoint (A : Type) (l1 l2 : list A) (a : A) :
  NoDup (l1 ++ l2) -> In a l1 -> ~ In a l2.
Proof.
  induction l1 as [| x l1 IH]; simpl; intros Hnd Ha Hb; [contradiction |].
  inversion Hnd as [| ? ? Hx Hnd']; subst.
  destruct Ha as [-> | Ha].
  - apply Hx. apply in_or_app. now right.
  - now apply IH.
Qed.

End JSFacts.

Import JSFacts.

(** ** One page and the fallback loop *)

Section AttemptFacts.
Context {P : Platform}.

(** A successful attempt builds its record around the address it was
    asked for. *)
Lemma clip_of_outcome_url url options outcome clip links :
  clip_of_outcome url options outcome = Ok (clip, links) ->
  Crawler.url clip = url.
Proof.
  unfold clip_of_outcome, bind, throw_if.
  destruct outcome as [m | r]; [discriminate |].
  destruct (negb (resp_ok r)); [discriminate |].
  destruct (negb (includes _ _) && negb (includes _ _)); [discriminate |].
  destruct (body r) as [html | m]; [| discriminate].
  destruct (defuddle html url) as [d |]; [| discriminate].
  destruct (d_content d); [discriminate |].
  destruct (length _ <? 100); [discriminate |].
  intros H. injection H as H _. now subst clip.
Qed.

Lemma attemptCrawl_url url options w clip links w' :
  attemptCrawl url options w = (Ok (clip, links), w') ->
  Crawler.url clip = url.
Proof.
  unfold attemptCrawl. destruct (fetch _ _ _ _) as [o w1].
  intros H. injection H as H _. eauto using clip_of_outcome_url.
Qed.

(** The result of the fallback loop is either a success that carries a
    page for the requested address, or a failure without a page. *)
Lemma try_strategies_data url config todo attempted w res w' :
  try_strategies url config todo attempted w = (res, w') ->
  (success res = true /\ exists page, data res = Some page
                                      /\ Crawler.url page = url)
  \/ (success res = false /\ data res = None).
Proof.
  revert attempted w. induction todo as [| s rest IH]; intros attempted w; simpl.
  - intros H. injection H as H _. subst res. now right.
  - destruct (attemptCrawl _ _ _) as [[[clip links] | m] w1] eqn:Ha.
    + intros H. injection H as H _. subst res. left. simpl. split; [reflexivity |].
      exists clip. split; [reflexivity |]. eauto using attemptCrawl_url.
    + destruct rest as [| s2 rest'].
      * intros H. injection H as H _. subst res. now right.
      * apply IH.
Qed.

(** The names recorded by the fallback loop when every attempt throws. *)
Lemma try_strategies_all_fail url config todo :
  (forall s w, In s todo ->
     is_ok (fst (attemptCrawl url (attempt_options config s) w)) = false) ->
  todo <> [] ->
  forall attempted w,
    let res := fst (try_strategies url config todo attempted w) in
    success res = false
    /\ data res = None
    /\ attemptedStrategies res = attempted ++ map s_name todo
    /\ exists m, error res = Some m.
Proof.
  induction todo as [| s rest IH]; intros Hfail Hne attempted w; [congruence |].
  simpl.
  pose proof (Hfail s w (or_introl eq_refl)) as Hs.
  destruct (attemptCrawl url (attempt_options config s) w)
    as [[[clip links] | m] w1]; simpl in Hs; [discriminate |].
  destruct rest as [| s2 rest'].
  - simpl. repeat split; eauto.
  - assert (Hrest : forall s0 w0, In s0 (s2 :: rest') ->
              is_ok (fst (attemptCrawl url (attempt_options config s0) w0)) = false)
      by (intros; apply Hfail; now right).
    specialize (IH Hrest ltac:(discriminate) (attempted ++ [s_name s]) (sleep 500 w1)).
    cbv zeta in IH. destruct IH as (H1 & H2 & H3 & H4).
    repeat split; try assumption.
    rewrite H3, <- app_assoc. reflexivity.
Qed.

End AttemptFacts.

(** ** The main loop *)

Section LoopFacts.
Context {P : Platform}.
Variable config : CrawlConfig.
Variable startDomain : jsstring.

Lemma pause_fields st :
  visited (pause config st) = visited st
  /\ queue (pause config st) = queue st
  /\ succeeded (pause config st) = succeeded st
  /\ failed (pause config st) = failed st.
Proof. unfold pause. destruct (0 <? length (queue st)); simpl; auto. Qed.

(** What a visit does to the local state: the address joins the visited
    set and exactly one record for it joins exactly one of the lists. *)
Lemma visit_spec u d st :
  let res := fst (crawlWithFallback u config (notify config u d st)) in
  let st' := visit config u d st in
  visited st' = visited st ++ [u]
  /\ ((exists page,
         success res = true /\ data res = Some page /\ Crawler.url page = u
         /\ succeeded st' = succeeded st ++ [page]
         /\ failed st' = failed st
         /\ queue st' =
              if (d <? maxDepth config)%Z then
                queue st ++ next_entries d (visited st ++ [u])
                              (or_default (extractedLinks res) [])
              else queue st)
      \/ (success res = false
          /\ succeeded st' = succeeded st
          /\ failed st' = failed st ++ [failure_of u d res]
          /\ queue st' = queue st)).
Proof.
  unfold visit. cbv zeta.
  destruct (crawlWithFallback u config (notify config u d st)) as [res w] eqn:Hc.
  destruct (pause_fields (record config u d st res w)) as (Hv & Hq & Hs & Hf).
  rewrite Hv, Hq, Hs, Hf. simpl fst.
  unfold crawlWithFallback in Hc. apply try_strategies_data in Hc.
  unfold record.
  destruct Hc as [[Hsucc [page [Hd Hu]]] | [Hsucc Hd]]; rewrite Hsucc, Hd; simpl.
  - split; [reflexivity |]. left. exists page. auto 10.
  - split; [reflexivity |]. right. auto.
Qed.

Lemma processed_visit u d st :
  processed (visit config u d st) = S (processed st).
Proof.
  destruct (visit_spec u d st) as [_ [[page (_ & _ & _ & Hs & Hf & _)] | (_ & Hs & Hf & _)]];
    unfold processed; rewrite Hs, Hf, ?length_app; simpl; lia.
Qed.

Lemma recorded_visit u d st :
  Permutation (recorded (visit config u d st)) (u :: recorded st).
Proof.
  unfold recorded.
  destruct (visit_spec u d st) as [_ [[page (_ & _ & Hu & Hs & Hf & _)] | (_ & Hs & Hf & _)]];
    rewrite Hs, Hf, map_app; simpl.
  - rewrite Hu, <- app_assoc. simpl. symmetry. apply Permutation_middle.
  - rewrite app_assoc. symmetry. apply Permutation_cons_append.
Qed.

Lemma running_queue st :
  running config st = true ->
  exists entry rest, queue st = entry :: rest.
Proof.
  unfold running. destruct (queue st) as [| e q]; simpl; [discriminate | eauto].
Qed.

Lemma iteration_turn st :
  running config st = true ->
  turn config startDomain st (iteration config startDomain st).
Proof.
  intros Hr. destruct (running_queue st Hr) as (e & q & Hq).
  unfold iteration. rewrite Hq. simpl visited.
  assert (Hsh : shifted st =
                {| visited := visited st; queue := q; succeeded := succeeded st;
                   failed := failed st; world := world st |})
    by (unfold shifted; now rewrite Hq).
  rewrite <- Hsh.
  destruct (set_has (e_url e) (visited st)) eqn:Hv; simpl.
  { eapply turn_skip; eauto. }
  destruct (maxDepth config <? e_depth e)%Z eqn:Hd.
  { eapply turn_skip; eauto. right. left. now apply Z.ltb_lt. }
  destruct (shouldCrawl (e_url e) startDomain config) eqn:Hs; simpl.
  - eapply turn_visit; eauto. now apply Z.ltb_ge.
  - eapply turn_skip; eauto.
Qed.

Lemma running_budget st :
  running config st = true -> 0 < budget_left config st.
Proof.
  unfold running, budget_left. intros H. apply andb_prop in H as [_ H].
  apply Z.ltb_lt in H. lia.
Qed.

Lemma not_running_budget st :
  budget_left config st = 0 -> running config st = false.
Proof.
  unfold running, budget_left. intros H.
  destruct (Z.of_nat (processed st) <? maxPages config)%Z eqn:E.
  - apply Z.ltb_lt in E. lia.
  - apply andb_false_r.
Qed.

Lemma crawl_loop_terminates_aux n :
  forall m st, budget_left config st <= n -> length (queue st) <= m ->
  exists fuel st', crawl_loop fuel config startDomain st = Some st'.
Proof.
  induction n as [| n IHn]; intros m st Hb Hq.
  - exists 0, st. simpl. rewrite not_running_budget; [reflexivity | lia].
  - revert st Hb Hq. induction m as [| m IHm]; intros st Hb Hq.
    + exists 0, st. simpl. unfold running.
      destruct (queue st); simpl in *; [reflexivity | lia].
    + destruct (running config st) eqn:Hr.
      2:{ exists 0, st. simpl. now rewrite Hr. }
      pose proof (running_budget st Hr) as Hpos.
      assert (Hnext : exists fuel st',
                 crawl_loop fuel config startDomain
                   (iteration config startDomain st) = Some st').
      { destruct (iteration_turn st Hr) as [e q Hqe _ | e q Hqe _ _ _].
        - apply IHm.
          + unfold budget_left, processed, shifted in *. simpl. lia.
          + unfold shifted. simpl. rewrite Hqe in *. simpl in *. lia.
        - apply (IHn (length (queue (visit config (e_url e) (e_depth e) (shifted st))))).
          + unfold budget_left in *. rewrite processed_visit.
            unfold processed, shifted in *. simpl. lia.
          + lia. }
      destruct Hnext as (fuel & st' & Hl).
      exists (S fuel), st'. simpl. now rewrite Hr.
Qed.

(** The loop ends, whatever the network answers. *)
Lemma crawl_loop_terminates st :
  exists fuel st', crawl_loop fuel config startDomain st = Some st'.
Proof. eapply crawl_loop_terminates_aux; eauto. Qed.

Lemma crawl_loop_reachable st0 fuel :
  forall st st', reachable config startDomain st0 st ->
  crawl_loop fuel config startDomain st = Some st' ->
  reachable config startDomain st0 st' /\ running config st' = false.
Proof.
  induction fuel as [| fuel IH]; intros st st' Hreach; simpl;
    destruct (running config st) eqn:Hr; try discriminate.
  - intros H. injection H as <-. auto.
  - intros H. eapply IH; [| exact H]. now constructor.
  - intros H. injection H as <-. auto.
Qed.

(** An invariant of the turns holds throughout the run. *)
Lemma reachable_ind_turn (I : CrawlState -> Prop) st0 :
  I st0 ->
  (forall st st', I st -> running config st = true ->
                 turn config startDomain st st' -> I st') ->
  forall st, reachable config startDomain st0 st -> I st.
Proof.
  intros H0 Hstep st Hreach. induction Hreach; [assumption |].
  eapply Hstep; eauto using iteration_turn.
Qed.

End LoopFacts.

(** ** The claims about the main loop *)

Section LoopClaims.
Context {P : Platform}.

Lemma running_exact config st :
  (Z.of_nat (processed st) <= maxPages config)%Z ->
  running config st = false <->
  queue st = [] \/ Z.of_nat (processed st) = maxPages config.
Proof.
  intros Hle. unfold running. split.
  - intros H. apply andb_false_iff in H as [H | H].
    + left. destruct (queue st); [reflexivity | discriminate].
    + right. apply Z.ltb_ge in H. lia.
  - intros [H | H].
    + now rewrite H.
    + apply andb_false_iff. right. apply Z.ltb_ge. lia.
Qed.

Lemma budget_invariant config dom st0 :
  (Z.of_nat (processed st0) <= maxPages config)%Z ->
  forall st, reachable config dom st0 st ->
  (Z.of_nat (processed st) <= maxPages config)%Z.
Proof.
  intros H0. apply reachable_ind_turn; [assumption |].
  intros st st' Hle Hr Ht.
  apply andb_prop in Hr as [_ Hr]. apply Z.ltb_lt in Hr.
  destruct Ht.
  - unfold processed, shifted in *. simpl. lia.
  - rewrite processed_visit. unfold processed, shifted in *. simpl. lia.
Qed.

Lemma crawlRecursively_state fuel startUrl options w r w' :
  crawlRecursively fuel startUrl options w = Some (r, w') ->
  exists st,
    crawl_loop fuel (make_config options) (extractDomain startUrl)
      (initial_state startUrl w) = Some st
    /\ r_success r = succeeded st /\ r_failed r = failed st
    /\ visitedUrls r = visited st /\ w' = world st.
Proof.
  unfold crawlRecursively.
  destruct (crawl_loop _ _ _ _) as [st |]; [| discriminate].
  intros H. injection H as <- <-. exists st. simpl. auto.
Qed.

Lemma crawlRecursively_reachable fuel startUrl options w r w' :
  crawlRecursively fuel startUrl options w = Some (r, w') ->
  exists st,
    reachable (make_config options) (extractDomain startUrl)
      (initial_state startUrl w) st
    /\ running (make_config options) st = false
    /\ r_success r = succeeded st /\ r_failed r = failed st
    /\ visitedUrls r = visited st /\ w' = world st.
Proof.
  intros H. apply crawlRecursively_state in H as (st & Hl & Hrest).
  exists st. eapply crawl_loop_reachable in Hl; [| constructor].
  destruct Hl. auto.
Qed.

Lemma crawlRecursively_terminates startUrl options w :
  exists fuel r w', crawlRecursively fuel startUrl options w = Some (r, w').
Proof.
  destruct (crawl_loop_terminates (make_config options) (extractDomain startUrl)
              (initial_state startUrl w)) as (fuel & st & H).
  exists fuel. unfold crawlRecursively. rewrite H. eauto.
Qed.

Lemma one_page_run config dom startUrl w fuel st :
  maxPages config = 1%Z ->
  (0 <= maxDepth config)%Z ->
  shouldCrawl (normalizeUrl startUrl) dom config = true ->
  crawl_loop fuel config dom (initial_state startUrl w) = Some st ->
  processed st = 1.
Proof.
  intros Hone Hdepth Hshould Hl.
  set (st0 := initial_state startUrl w) in *.
  assert (Hrun : running config st0 = true).
  { unfold running. rewrite Hone. reflexivity. }
  destruct fuel as [| fuel]; simpl in Hl; rewrite Hrun in Hl; [discriminate |].
  assert (Hit : iteration config dom st0
                = visit config (normalizeUrl startUrl) 0 (shifted st0)).
  { unfold iteration. simpl. rewrite Hshould.
    replace (maxDepth config <? 0)%Z with false
      by (symmetry; apply Z.ltb_ge; lia).
    reflexivity. }
  rewrite Hit in Hl.
  assert (Hstop : running config
                    (visit config (normalizeUrl startUrl) 0 (shifted st0))
                  = false).
  { unfold running. rewrite processed_visit, Hone. simpl.
    apply andb_false_r. }
  destruct fuel; simpl in Hl; rewrite Hstop in Hl;
    injection Hl as <-; now rewrite processed_visit.
Qed.

(** C1. With a page budget [maxPages] that is not negative, the two
    result lists together never hold more than [maxPages] records at any
    state of the run; the loop condition fails exactly when the queue is
    empty or the count equals [maxPages]; the loop does end, for every
    behaviour of the network; and with [maxPages = 1] a start page that
    passes the filters is the one page processed, whatever links it
    has. *)
Theorem budget_respected (startUrl : jsstring)
    (options : RecursiveCrawlOptions) (w : World) :
  let config := make_config options in
  let dom := extractDomain startUrl in
  let st0 := initial_state startUrl w in
  (0 <= maxPages config)%Z ->
  (forall st, reachable config dom st0 st ->
     (Z.of_nat (length (succeeded st) + length (failed st))
      <= maxPages config)%Z
     /\ (running config st = false <->
         queue st = []
         \/ Z.of_nat (length (succeeded st) + length (failed st))
            = maxPages config))
  /\ (exists fuel r w',
        crawlRecursively fuel startUrl options w = Some (r, w'))
  /\ (forall fuel r w',
        crawlRecursively fuel startUrl options w = Some (r, w') ->
        (Z.of_nat (length (r_success r) + length (r_failed r))
         <= maxPages config)%Z)
  /\ (maxPages config = 1%Z ->
      (0 <= maxDepth config)%Z ->
      shouldCrawl (normalizeUrl startUrl) dom config = true ->
      forall fuel r w',
        crawlRecursively fuel startUrl options w = Some (r, w') ->
        length (r_success r) + length (r_failed r) = 1).
Proof.
  intros config dom st0 Hpos.
  assert (Hinv : forall st, reachable config dom st0 st ->
                   (Z.of_nat (processed st) <= maxPages config)%Z).
  { apply budget_invariant. exact Hpos. }
  split; [| split; [| split]].
  - intros st Hreach. specialize (Hinv st Hreach). split; [exact Hinv |].
    now apply running_exact.
  - apply crawlRecursively_terminates.
  - intros fuel r w' H.
    apply crawlRecursively_reachable in H as (st & Hreach & _ & Hs & Hf & _).
    rewrite Hs, Hf. now apply Hinv.
  - intros Hone Hdepth Hshould fuel r w' H.
    apply crawlRecursively_state in H as (st & Hl & Hs & Hf & _).
    rewrite Hs, Hf. eapply one_page_run; eauto.
Qed.

End LoopClaims.

(** The home page of the small site has ten links; with a budget of one
    page the crawl processes that page only. *)
Lemma budget_respected_witness :
  (0 <= maxPages (make_config (Site.with_max_pages 1)))%Z
  /\ length (@anchors Site.platform (Site.article "Home") (js Site.home)) = 10
  /\ exists r w',
       crawlRecursively 1 (js Site.home) (Site.with_max_pages 1) 0%Z
       = Some (r, w')
       /\ length (r_success r) + length (r_failed r) = 1.
Proof.
  assert (H0 : (0 <= maxPages (make_config (Site.with_max_pages 1)))%Z)
    by (vm_compute; discriminate).
  split; [exact H0 |]. split; [reflexivity |].
  destruct (crawlRecursively 1 (js Site.home) (Site.with_max_pages 1) 0%Z)
    as [[r w'] |] eqn:E; [| vm_compute in E; discriminate].
  exists r, w'. split; [reflexivity |].
  destruct (budget_respected (js Site.home) (Site.with_max_pages 1) 0%Z H0)
    as (_ & _ & _ & H1).
  apply (H1 eq_refl ltac:(vm_compute; discriminate) ltac:(vm_compute; reflexivity)
            1 r w' E).
Defined.

Section VisitClaims.
Context {P : Platform}.

Lemma next_entries_normalized d seen links e :
  In e (next_entries d seen links) -> normalized (e_url e).
Proof.
  unfold next_entries. rewrite in_map_iff. intros (a & <- & Ha). simpl.
  apply filter_In in Ha as [Ha _]. apply in_map_iff in Ha as (l & <- & _).
  now exists (l_url l).
Qed.

Lemma bookkeeping_initial startUrl w : bookkeeping (initial_state startUrl w).
Proof.
  unfold bookkeeping, recorded. simpl. repeat split.
  - constructor.
  - constructor.
  - intros e [<- | []]. now exists startUrl.
  - intros a [].
Qed.

Lemma bookkeeping_turn config dom st st' :
  bookkeeping st -> turn config dom st st' -> bookkeeping st'.
Proof.
  intros (Hnd & Hperm & Hq & Hv) Ht. destruct Ht as [e q Hqe _ | e q Hqe Hnew _ _].
  - unfold bookkeeping, recorded, shifted in *. simpl. repeat split; auto.
    intros e' He'. apply Hq. rewrite Hqe in *. simpl in He'. now right.
  - set (sh := shifted st).
    assert (Hqsh : forall e', In e' (queue sh) -> normalized (e_url e')).
    { intros e' He'. apply Hq. rewrite Hqe. right.
      unfold sh, shifted in He'. simpl in He'. now rewrite Hqe in He'. }
    assert (He : normalized (e_url e)) by (apply Hq; rewrite Hqe; now left).
    pose proof (recorded_visit config (e_url e) (e_depth e) sh) as Hrec.
    destruct (visit_spec config (e_url e) (e_depth e) sh) as [Hvis Hcase].
    cbv zeta in Hvis, Hcase.
    apply set_has_not_In in Hnew.
    unfold bookkeeping. rewrite Hvis. change (visited sh) with (visited st).
    repeat split.
    + apply NoDup_app; try assumption.
      * constructor; [intros [] | constructor].
      * intros a Ha [<- | []]. contradiction.
    + rewrite Hrec. change (recorded sh) with (recorded st).
      rewrite <- Hperm. symmetry. apply Permutation_cons_append.
    + intros e' He'.
      destruct Hcase as [(page & _ & _ & _ & _ & _ & Hqueue) | (_ & _ & _ & Hqueue)];
        rewrite Hqueue in He'; auto.
      destruct (e_depth e <? maxDepth config)%Z; auto.
      apply in_app_or in He' as [He' | He']; eauto using next_entries_normalized.
    + intros a Ha. apply in_app_or in Ha as [Ha | [<- | []]]; auto.
Qed.

Lemma bookkeeping_reachable config dom startUrl w st :
  reachable config dom (initial_state startUrl w) st -> bookkeeping st.
Proof.
  revert st. apply reachable_ind_turn; [apply bookkeeping_initial |].
  intros st st' H _ Ht. eauto using bookkeeping_turn.
Qed.

Lemma bookkeeping_NoDup_recorded st :
  bookkeeping st -> NoDup (recorded st).
Proof.
  intros (Hnd & Hperm & _). eapply Permutation_NoDup; eauto.
Qed.

(** C2. At every state of every run, and in the result, no address
    occurs twice in the success list and the failure list taken
    together: an address is in at most one of the lists, at most once,
    and every recorded address is a normalized one. *)
Theorem no_address_recorded_twice (startUrl : jsstring)
    (options : RecursiveCrawlOptions) (w : World) :
  let config := make_config options in
  let dom := extractDomain startUrl in
  (forall st, reachable config dom (initial_state startUrl w) st ->
     NoDup (map url (succeeded st) ++ map f_url (failed st)))
  /\ (forall fuel r w',
        crawlRecursively fuel startUrl options w = Some (r, w') ->
        NoDup (map url (r_success r) ++ map f_url (r_failed r))
        /\ (forall a, In a (map url (r_success r)) ->
                      ~ In a (map f_url (r_failed r)))
        /\ (forall a, In a (map url (r_success r) ++ map f_url (r_failed r)) ->
                      normalized a)).
Proof.
  intros config dom. split.
  - intros st Hreach. apply bookkeeping_NoDup_recorded.
    eauto using bookkeeping_reachable.
  - intros fuel r w' H.
    apply crawlRecursively_reachable in H as (st & Hreach & _ & Hs & Hf & _).
    rewrite Hs, Hf. apply bookkeeping_reachable in Hreach.
    pose proof (bookkeeping_NoDup_recorded Hreach) as Hnd.
    unfold recorded in Hnd. split; [exact Hnd |]. split.
    + intros a Ha Hb. eapply NoDup_app_disjoint; eauto.
    + destruct Hreach as (_ & Hperm & _ & Hv). intros a Ha. apply Hv.
      eapply Permutation_in; [symmetry; exact Hperm | exact Ha].
Qed.

(** C10. The visited addresses of the result are exactly the addresses
    of the two result lists; a turn of the loop either leaves the three
    collections alone or adds one new address to the visited set and one
    record for that address to exactly one list. *)
Theorem visited_matches_records (startUrl : jsstring)
    (options : RecursiveCrawlOptions) (w : World) :
  let config := make_config options in
  let dom := extractDomain startUrl in
  (forall fuel r w',
     crawlRecursively fuel startUrl options w = Some (r, w') ->
     Permutation (visitedUrls r)
       (map url (r_success r) ++ map f_url (r_failed r))
     /\ (forall a, In a (visitedUrls r) <->
                   In a (map url (r_success r))
                   \/ In a (map f_url (r_failed r))))
  /\ (forall st,
        reachable config dom (initial_state startUrl w) st ->
        running config st = true ->
        let st' := iteration config dom st in
        (visited st' = visited st /\ succeeded st' = succeeded st
         /\ failed st' = failed st)
        \/ exists u,
             visited st' = visited st ++ [u] /\ ~ In u (visited st)
             /\ ((exists page, url page = u
                    /\ succeeded st' = succeeded st ++ [page]
                    /\ failed st' = failed st)
                 \/ (exists f, f_url f = u
                       /\ failed st' = failed st ++ [f]
                       /\ succeeded st' = succeeded st))).
Proof.
  intros config dom. split.
  - intros fuel r w' H.
    apply crawlRecursively_reachable in H as (st & Hreach & _ & Hs & Hf & Hv & _).
    rewrite Hs, Hf, Hv. apply bookkeeping_reachable in Hreach.
    destruct Hreach as (_ & Hperm & _). split; [exact Hperm |].
    intros a. rewrite <- in_app_iff. split; intros Ha.
    + eapply Permutation_in; eauto.
    + eapply Permutation_in; [symmetry |]; eauto.
  - intros st _ Hrun st'. subst st'.
    destruct (iteration_turn config dom st Hrun) as [e q Hqe _ | e q Hqe Hnew _ _].
    + left. unfold shifted. simpl. auto.
    + right. exists (e_url e).
      destruct (visit_spec config (e_url e) (e_depth e) (shifted st)) as [Hvis Hcase].
      cbv zeta in Hvis, Hcase. split; [exact Hvis |].
      split; [now apply set_has_not_In |].
      destruct Hcase as [(page & _ & _ & Hu & Hs & Hf & _) | (_ & Hs & Hf & _)].
      * left. exists page. auto.
      * right. exists (failure_of (e_url e) (e_depth e)
                         (fst (crawlWithFallback (e_url e) config
                                 (notify config (e_url e) (e_depth e) (shifted st))))).
        auto.
Qed.

End VisitClaims.

(** ** Depth zero *)

Section DepthZero.
Context {P : Platform}.
Variable config : CrawlConfig.
Variable dom : jsstring.
Variable startUrl : jsstring.
Hypothesis depth_zero : maxDepth config = 0%Z.

Lemma only_seed_turn st st' :
  only_seed startUrl st -> turn config dom st st' ->
  only_seed startUrl st' /\ queue st' = tl (queue st).
Proof.
  intros [Hq Hv] Ht. destruct Ht as [e q Hqe _ | e q Hqe _ _ _].
  - split; [| reflexivity]. split; unfold shifted; simpl; auto.
    intros e' He'. apply Hq. rewrite Hqe in *. now right.
  - assert (He : e = {| e_url := normalizeUrl startUrl; e_depth := 0 |}) by (apply Hq; rewrite Hqe; now left).
    destruct (visit_spec config (e_url e) (e_depth e) (shifted st)) as [Hvis Hcase].
    cbv zeta in Hvis, Hcase.
    assert (Hqueue : queue (visit config (e_url e) (e_depth e) (shifted st))
                     = tl (queue st)).
    { destruct Hcase as [(page & _ & _ & _ & _ & _ & Hqueue) | (_ & _ & _ & Hqueue)];
        rewrite Hqueue; [| reflexivity].
      rewrite He, depth_zero. reflexivity. }
    split; [| exact Hqueue]. split.
    + rewrite Hqueue. intros e' He'. apply Hq. rewrite Hqe in *. now right.
    + rewrite Hvis. intros a Ha. apply in_app_or in Ha as [Ha | [<- | []]].
      * now apply Hv.
      * now rewrite He.
Qed.

Lemma only_seed_reachable w st :
  reachable config dom (initial_state startUrl w) st -> only_seed startUrl st.
Proof.
  revert st. apply reachable_ind_turn.
  - split; simpl; [intros e [<- | []]; reflexivity | intros a []].
  - intros st st' H _ Ht. now apply (only_seed_turn H Ht).
Qed.

End DepthZero.

(** ** Requests seen through the log *)

Section LogFacts.
Variable P : Platform.

Lemma lift_options_log_blind (options : @RecursiveCrawlOptions P) :
  log_blind (make_config (Logging.lift_options options)).
Proof.
  unfold log_blind, make_config, Logging.lift_options. simpl.
  destruct (o_onProgress options); intros cb H; [| discriminate].
  injection H as <-. reflexivity.
Qed.

Lemma try_strategies_log url config todo :
  forall attempted (wl : @World (Logged P)) a,
  In a (snd (snd (try_strategies url config todo attempted wl))) ->
  In a (snd wl) \/ a = url.
Proof.
  induction todo as [| s rest IH]; intros attempted wl a; simpl; [auto |].
  unfold attemptCrawl at 1. simpl.
  destruct (@fetch P url _ _ (fst wl)) as [o w1].
  destruct (clip_of_outcome url _ o) as [[clip links] | m]; simpl.
  - intros Ha. apply in_app_or in Ha as [Ha | [<- | []]]; auto.
  - destruct rest as [| s2 rest']; simpl.
    + intros Ha. apply in_app_or in Ha as [Ha | [<- | []]]; auto.
    + intros Ha. apply IH in Ha. simpl in Ha.
      destruct Ha as [Ha | Ha]; [| auto].
      apply in_app_or in Ha as [Ha | [<- | []]]; auto.
Qed.

Lemma visit_log config u d (st : @CrawlState (Logged P)) a :
  log_blind config ->
  In a (log_of (visit config u d st)) -> In a (log_of st) \/ a = u.
Proof.
  intros Hblind. unfold visit, log_of.
  assert (Hn : snd (notify config u d st) = snd (world st)).
  { unfold notify. destruct (onProgress config) as [cb |] eqn:E; [| reflexivity].
    now apply Hblind. }
  pose proof (try_strategies_log u config (strategiesToTry config) []
                (notify config u d st) a) as Hlog.
  unfold crawlWithFallback.
  destruct (try_strategies u config (strategiesToTry config) []
              (notify config u d st)) as [res w1].
  simpl in Hlog. rewrite Hn in Hlog.
  assert (Hw : snd (world (pause config (record config u d st res w1))) = snd w1).
  { unfold pause, record.
    destruct (success res), (data res); simpl;
      match goal with |- context [if ?c then _ else _] => destruct c end;
      reflexivity. }
  rewrite Hw. exact Hlog.
Qed.

(** Every request goes to an address that is in the visited set. *)
Lemma log_within_visited config dom st0 :
  log_blind config ->
  (forall a, In a (log_of st0) -> In a (visited st0)) ->
  forall st, reachable config dom st0 st ->
  forall a, In a (log_of st) -> In a (visited st).
Proof.
  intros Hblind H0.
  intros st Hreach. pattern st.
  eapply reachable_ind_turn; [exact H0 | | exact Hreach].
  clear st Hreach.
  intros st st' Hinv _ Ht a Ha. destruct Ht as [e q _ _ | e q _ _ _ _].
  - apply Hinv. exact Ha.
  - destruct (visit_spec config (e_url e) (e_depth e) (shifted st)) as [Hvis _].
    cbv zeta in Hvis. rewrite Hvis. apply in_or_app.
    apply visit_log in Ha; [| assumption].
    destruct Ha as [Ha | ->]; [left; now apply Hinv | right; now left].
Qed.

(** C9. With [maxDepth = 0], on any platform and with its requests
    logged: every request of the run goes to the (normalized) start
    address, no other address is visited, at most one page is processed,
    the queue never holds a discovered link, and every turn of the loop
    leaves the queue one entry shorter.  This rests on two facts that
    hold for every [maxDepth]: an entry deeper than [maxDepth] is
    skipped, and a visit at a depth that is not below [maxDepth] adds
    nothing to the queue. *)
Theorem depth_zero_fetches_only_start (startUrl : jsstring)
    (options : @RecursiveCrawlOptions P) (w : @World P) :
  o_maxDepth options = Some 0%Z ->
  let config := make_config (Logging.lift_options options) in
  let dom := @extractDomain (Logged P) startUrl in
  let start := @normalizeUrl (Logged P) startUrl in
  (forall st,
     reachable config dom (@initial_state (Logged P) startUrl (w, [])) st ->
     (forall e, In e (queue st) -> e = {| e_url := start; e_depth := 0 |})
     /\ (running config st = true ->
         queue (iteration config dom st) = tl (queue st))
     /\ (forall a, In a (log_of st) -> a = start))
  /\ (forall fuel r w' log,
        @crawlRecursively (Logged P) fuel startUrl (Logging.lift_options options)
          (w, []) = Some (r, (w', log)) ->
        (forall a, In a log -> a = start)
        /\ (forall a, In a (visitedUrls r) -> a = start)
        /\ length (r_success r) + length (r_failed r) <= 1)
  /\ (forall (cfg : @CrawlConfig P) d st entry rest,
        queue st = entry :: rest ->
        (maxDepth cfg < e_depth entry)%Z ->
        iteration cfg d st = shifted st)
  /\ (forall (cfg : @CrawlConfig P) u depth st,
        ~ (depth < maxDepth cfg)%Z ->
        queue (visit cfg u depth st) = queue st).
Proof.
  intros Hzero config dom start.
  assert (Hd : maxDepth config = 0%Z).
  { unfold config, make_config, Logging.lift_options. simpl. now rewrite Hzero. }
  assert (Hblind : log_blind config) by apply lift_options_log_blind.
  assert (Hall : forall st,
             reachable config dom (@initial_state (Logged P) startUrl (w, [])) st ->
             only_seed startUrl st
             /\ forall a, In a (log_of st) -> a = start).
  { intros st Hreach.
    pose proof (only_seed_reachable Hd Hreach) as Hseed.
    split; [exact Hseed |]. intros a Ha. apply Hseed.
    eapply log_within_visited; eauto. intros a' []. }
  split; [| split; [| split]].
  - intros st Hreach. destruct (Hall st Hreach) as [[Hq Hv] Hlog].
    split; [exact Hq |]. split; [| exact Hlog].
    intros Hrun.
    assert (Hos : only_seed startUrl st) by (split; assumption).
    apply (only_seed_turn Hd Hos (iteration_turn config dom st Hrun)).
  - intros fuel r w' log H.
    apply (@crawlRecursively_reachable (Logged P) fuel startUrl
             (Logging.lift_options options) (w, []) r (w', log)) in H
      as (st & Hreach & _ & Hs & Hf & Hv & Hw).
    destruct (Hall st Hreach) as [[_ Hvis] Hlog].
    split; [| split].
    + intros a Ha. apply Hlog. unfold log_of. rewrite <- Hw. exact Ha.
    + rewrite Hv. exact Hvis.
    + rewrite Hs, Hf. apply bookkeeping_reachable in Hreach.
      destruct Hreach as (Hnd & Hperm & _).
      assert (Hlen : length (recorded st) = length (visited st))
        by (symmetry; now apply Permutation_length).
      unfold recorded in Hlen. rewrite length_app, !length_map in Hlen.
      rewrite Hlen. clear Hlen Hperm Hv.
      revert Hnd Hvis. generalize (visited st) as vs.
      intros [| a [| b l]] Hnd Hvis; simpl; try lia.
      exfalso. inversion Hnd as [| ? ? Hna _]; subst. apply Hna.
      rewrite (Hvis a), (Hvis b); simpl; auto.
  - intros cfg d st entry rest Hq Hdeep. unfold iteration, shifted.
    rewrite Hq. simpl.
    replace (maxDepth cfg <? e_depth entry)%Z with true
      by (symmetry; now apply Z.ltb_lt).
    now rewrite orb_true_r.
  - intros cfg u depth st Hdepth.
    destruct (visit_spec cfg u depth st) as [_ Hcase]. cbv zeta in Hcase.
    destruct Hcase as [(page & _ & _ & _ & _ & _ & Hqueue) | (_ & _ & _ & Hqueue)];
      rewrite Hqueue; [| reflexivity].
    replace (depth <? maxDepth cfg)%Z with false
      by (symmetry; now apply Z.ltb_ge, Z.nlt_ge).
    reflexivity.
Qed.

End LogFacts.

(** ** Fallback and failures *)

Section FallbackClaims.
Context {P : Platform}.

Lemma strategies_names : map s_name strategies = strategy_names.
Proof. reflexivity. Qed.

Lemma extraction_failure_throws url options o html :
  fetched_html o = Some html ->
  extraction_fails html url (at_includeImages options) = true ->
  is_ok (clip_of_outcome url options o) = false.
Proof.
  unfold fetched_html, extraction_fails, clip_of_outcome, bind, throw_if.
  destruct o as [m | r]; [discriminate |].
  destruct (resp_ok r); cbn [negb andb]; [| discriminate].
  destruct (includes _ (js "text/html")), (includes _ (js "application/xhtml"));
    cbn [negb andb orb]; try discriminate;
    (destruct (body r) as [h | m]; [| discriminate];
     intros H; injection H as ->;
     destruct (defuddle html url) as [d |]; [| reflexivity];
     cbv beta iota;
     destruct (d_content d) eqn:Hc; [reflexivity |];
     cbv beta iota; rewrite Hc;
     intros Hlen; rewrite Hlen; reflexivity).
Qed.

Lemma bad_status_throws url options r :
  resp_ok r = false -> is_ok (clip_of_outcome url options (Responded r)) = false.
Proof.
  intros H. unfold clip_of_outcome, bind, throw_if. rewrite H. reflexivity.
Qed.

Lemma iteration_visits config dom st e rest :
  queue st = e :: rest ->
  set_has (e_url e) (visited st) = false ->
  (e_depth e <= maxDepth config)%Z ->
  shouldCrawl (e_url e) dom config = true ->
  iteration config dom st = visit config (e_url e) (e_depth e) (shifted st).
Proof.
  intros Hq Hv Hd Hs. unfold iteration, shifted. rewrite Hq. simpl.
  rewrite Hv, Hs. simpl.
  replace (maxDepth config <? e_depth e)%Z with false
    by (symmetry; apply Z.ltb_ge; lia).
  reflexivity.
Qed.

(** When every strategy to try fails for an address, the fallback loop
    reports a failure that names all of them in order, and the turn of
    the main loop that visits the address files the failure and goes on
    with the rest of the queue. *)
Lemma exhausted_strategies url config :
  (forall s w, In s (strategiesToTry config) ->
     is_ok (fst (attemptCrawl url (attempt_options config s) w)) = false) ->
  (forall w,
     let res := fst (crawlWithFallback url config w) in
     success res = false
     /\ attemptedStrategies res = map s_name (strategiesToTry config))
  /\ (forall dom st depth rest,
        queue st = {| e_url := url; e_depth := depth |} :: rest ->
        set_has url (visited st) = false ->
        (depth <= maxDepth config)%Z ->
        shouldCrawl url dom config = true ->
        let st' := iteration config dom st in
        (exists f,
           failed st' = failed st ++ [f]
           /\ f_url f = url /\ f_depth f = depth
           /\ f_attemptedStrategies f = map s_name (strategiesToTry config))
        /\ succeeded st' = succeeded st
        /\ visited st' = visited st ++ [url]
        /\ queue st' = rest
        /\ (forall fuel, running config st = true ->
              crawl_loop (S fuel) config dom st = crawl_loop fuel config dom st')).
Proof.
  intros Hfail.
  assert (Hne : strategiesToTry config <> []).
  { unfold strategiesToTry. destruct (useFallback config); discriminate. }
  assert (Hres : forall w,
            let res := fst (crawlWithFallback url config w) in
            success res = false
            /\ attemptedStrategies res = map s_name (strategiesToTry config)).
  { intros w. unfold crawlWithFallback.
    destruct (try_strategies_all_fail url config Hfail Hne [] w) as (H1 & _ & H3 & _).
    cbv zeta. auto. }
  split; [exact Hres |].
  intros dom st depth rest Hq Hv Hd Hs st'. subst st'.
  rewrite (iteration_visits config dom st Hq Hv Hd Hs). simpl e_url. simpl e_depth.
  destruct (visit_spec config url depth (shifted st)) as [Hvis Hcase].
  cbv zeta in Hvis, Hcase.
  destruct (Hres (notify config url depth (shifted st))) as [Hsucc Hnames].
  destruct Hcase as [(page & Htrue & _) | (_ & Hs' & Hf' & Hq')];
    [congruence |].
  split; [| split; [| split; [| split]]].
  - eexists. split; [exact Hf' |]. simpl. auto.
  - exact Hs'.
  - exact Hvis.
  - rewrite Hq'. unfold shifted. simpl. now rewrite Hq.
  - intros fuel Hrun. simpl. rewrite Hrun.
    now rewrite (iteration_visits config dom st Hq Hv Hd Hs).
Qed.

(** C5, as the code has it.  With fallback enabled, when each of the
    five strategies fails for an address, the result of
    [crawlWithFallback] is a failure whose list of attempted strategies
    is, in the order tried, [default], [chrome-mac], [firefox], [mobile],
    [googlebot], five names: the default profile, then the same browser
    on another system, another browser on the same system, the mobile
    profile and the declared crawler; the turn of the main loop files a
    [CrawlFailure] with that list and continues with the next entry of
    the queue. *)
Theorem fallback_exhaustion (url : jsstring) (config : CrawlConfig) :
  useFallback config = true ->
  (forall s w, In s strategies ->
     is_ok (fst (attemptCrawl url (attempt_options config s) w)) = false) ->
  (forall w,
     let res := fst (crawlWithFallback url config w) in
     success res = false
     /\ attemptedStrategies res = strategy_names
     /\ length (attemptedStrategies res) = 5)
  /\ map s_name strategies = strategy_names
  /\ map profile_of strategies
     = [DefaultProfile; AlternateSystem; AlternateBrowser; MobileProfile;
        DeclaredCrawler]
  /\ (forall dom st depth rest,
        queue st = {| e_url := url; e_depth := depth |} :: rest ->
        set_has url (visited st) = false ->
        (depth <= maxDepth config)%Z ->
        shouldCrawl url dom config = true ->
        let st' := iteration config dom st in
        (exists f,
           failed st' = failed st ++ [f]
           /\ f_url f = url /\ f_depth f = depth
           /\ f_attemptedStrategies f = strategy_names)
        /\ succeeded st' = succeeded st
        /\ visited st' = visited st ++ [url]
        /\ queue st' = rest
        /\ (forall fuel, running config st = true ->
              crawl_loop (S fuel) config dom st = crawl_loop fuel config dom st')).
Proof.
  intros Hfb Hfail.
  assert (Htry : strategiesToTry config = strategies)
    by (unfold strategiesToTry; now rewrite Hfb).
  destruct (exhausted_strategies url config) as [Hres Hturn].
  { rewrite Htry. exact Hfail. }
  rewrite Htry, strategies_names in *.
  split; [| split; [| split]].
  - intros w. destruct (Hres w) as [H1 H2]. cbv zeta. rewrite H2. auto.
  - reflexivity.
  - vm_compute. reflexivity.
  - exact Hturn.
Qed.

(** C3, as the code has it.  An attempt that gets an HTML page but fails
    to extract content from it (no content, or fewer than 100
    characters) fails like any other attempt: when it is not the last
    one, the loop waits and tries the next strategy.  When this happens
    for each strategy tried, the [CrawlFailure] filed names every
    strategy tried, all five with fallback and [default] alone without,
    never none; and the run goes on with the next entry of the queue. *)
Theorem extraction_failure_exhausts_strategies (url : jsstring)
    (config : CrawlConfig) :
  (forall s w, In s (strategiesToTry config) ->
     exists html,
       fetched_html
         (fst (fetch url (at_headers (attempt_options config s))
                 (timeout config) w)) = Some html
       /\ extraction_fails html url (includeImages config) = true) ->
  (forall w,
     let res := fst (crawlWithFallback url config w) in
     success res = false
     /\ attemptedStrategies res
        = (if useFallback config then strategy_names else [js "default"])
     /\ attemptedStrategies res <> [])
  /\ (forall s next rest attempted w o w1 html,
        fetch url (at_headers (attempt_options config s)) (timeout config) w
        = (o, w1) ->
        fetched_html o = Some html ->
        extraction_fails html url (includeImages config) = true ->
        try_strategies url config (s :: next :: rest) attempted w
        = try_strategies url config (next :: rest) (attempted ++ [s_name s])
            (sleep 500 w1))
  /\ (forall dom st depth rest,
        queue st = {| e_url := url; e_depth := depth |} :: rest ->
        set_has url (visited st) = false ->
        (depth <= maxDepth config)%Z ->
        shouldCrawl url dom config = true ->
        let st' := iteration config dom st in
        (exists f,
           failed st' = failed st ++ [f]
           /\ f_url f = url /\ f_depth f = depth
           /\ f_attemptedStrategies f
              = (if useFallback config then strategy_names else [js "default"]))
        /\ succeeded st' = succeeded st
        /\ visited st' = visited st ++ [url]
        /\ queue st' = rest
        /\ (forall fuel, running config st = true ->
              crawl_loop (S fuel) config dom st = crawl_loop fuel config dom st')).
Proof.
  intros Hext.
  assert (Hnames : map s_name (strategiesToTry config)
                   = if useFallback config then strategy_names else [js "default"]).
  { unfold strategiesToTry. destruct (useFallback config); reflexivity. }
  destruct (exhausted_strategies url config) as [Hres Hturn].
  { intros s w Hin. destruct (Hext s w Hin) as (html & Hf & He).
    unfold attemptCrawl.
    change (at_timeout (attempt_options config s)) with (timeout config).
    destruct (fetch url _ _ w) as [o w1]. simpl in *.
    eapply extraction_failure_throws; eauto. }
  rewrite Hnames in *. split; [| split].
  - intros w. destruct (Hres w) as [H1 H2]. cbv zeta. rewrite H2.
    repeat split; auto. destruct (useFallback config); discriminate.
  - intros s next rest attempted w o w1 html Hf Hhtml Hfail.
    cbn [try_strategies]. unfold attemptCrawl at 1.
    change (at_timeout (attempt_options config s)) with (timeout config).
    rewrite Hf.
    pose proof (extraction_failure_throws url (attempt_options config s) o
                  Hhtml Hfail) as Hthrow.
    destruct (clip_of_outcome url (attempt_options config s) o)
      as [[clip links] | m]; [discriminate | reflexivity].
  - exact Hturn.
Qed.

(** C4, as the code has it.  A successful attempt returns the page
    record and the links, built from the body of a 2xx response; the
    address of the record is the address that was requested, and the
    record that a visit appends to the success list carries the address
    taken from the queue. *)
Theorem attempt_keeps_requested_address :
  (forall url options w clip links w',
     attemptCrawl url options w = (Ok (clip, links), w') ->
     exists resp html parsed,
       fetch url (at_headers options) (at_timeout options) w
       = (Responded resp, w')
       /\ resp_ok resp = true
       /\ body resp = Ok html
       /\ defuddle html url = Some parsed
       /\ Crawler.url clip = url
       /\ content clip
          = htmlToMarkdown (d_content parsed)
              {| md_includeImages := or_default (at_includeImages options) false |}
       /\ 100 <= length (content clip)
       /\ links = extractLinks html url)
  /\ (forall config u d st page,
        succeeded (visit config u d st) = succeeded st ++ [page] ->
        Crawler.url page = u).
Proof.
  split.
  - intros url options w clip links w'. unfold attemptCrawl.
    destruct (fetch url _ _ w) as [o w1] eqn:Hf.
    intros H. injection H as H <-.
    unfold clip_of_outcome, bind, throw_if in H.
    destruct o as [m | r]; [discriminate |].
    destruct (resp_ok r) eqn:Hok; cbn [negb] in H; [| discriminate].
    destruct (negb (includes _ _) && negb (includes _ _)); [discriminate |].
    destruct (body r) as [html | m] eqn:Hb; [| discriminate].
    destruct (defuddle html url) as [d |] eqn:Hd; [| discriminate].
    destruct (d_content d) eqn:Hc; [discriminate |].
    destruct (length _ <? 100) eqn:Hlen; [discriminate |].
    injection H as <- <-. exists r, html, d. simpl.
    repeat split; auto.
    apply Nat.ltb_ge in Hlen. exact Hlen.
  - intros config u d st page H.
    destruct (visit_spec config u d st) as [_ Hcase]. cbv zeta in Hcase.
    destruct Hcase as [(page' & _ & _ & Hu & Hs & _) | (_ & Hs & _)];
      rewrite Hs in H.
    + apply app_inv_head in H. injection H as <-. exact Hu.
    + rewrite <- (app_nil_r (succeeded st)) in H at 1.
      apply app_inv_head in H. discriminate.
Qed.

End FallbackClaims.

(** ** Runs on the small site *)

Module SiteRuns.
Import Site.

(** The whole site, eleven pages, crawled with the default options. *)
Lemma no_address_recorded_twice_witness :
  exists r w',
    @crawlRecursively P0 30 (js Site.home) no_options 0%Z = Some (r, w')
    /\ NoDup (map url (r_success r) ++ map f_url (r_failed r)).
Proof.
  destruct (@crawlRecursively P0 30 (js Site.home) no_options 0%Z)
    as [[r w'] |] eqn:E; [| vm_compute in E; discriminate].
  exists r, w'. split; [reflexivity |].
  destruct (@no_address_recorded_twice P0 (js Site.home) no_options 0%Z)
    as [_ H].
  exact (proj1 (H 30 r w' E)).
Defined.

Lemma visited_matches_records_witness :
  exists r w',
    @crawlRecursively P0 30 (js Site.home) no_options 0%Z = Some (r, w')
    /\ Permutation (visitedUrls r)
         (map url (r_success r) ++ map f_url (r_failed r)).
Proof.
  destruct (@crawlRecursively P0 30 (js Site.home) no_options 0%Z)
    as [[r w'] |] eqn:E; [| vm_compute in E; discriminate].
  exists r, w'. split; [reflexivity |].
  destruct (@visited_matches_records P0 (js Site.home) no_options 0%Z)
    as [H _].
  exact (proj1 (H 30 r w' E)).
Defined.

(** The home page has ten links; with [maxDepth = 0] the only request
    goes to the home page. *)
Lemma depth_zero_fetches_only_start_witness :
  o_maxDepth (Site.with_max_depth 0) = Some 0%Z
  /\ exists r w' log,
       @crawlRecursively (Logging.Logged P0) 5 (js Site.home)
         (Logging.lift_options (Site.with_max_depth 0)) (0%Z, [])
       = Some (r, (w', log))
       /\ (forall a, In a log -> a = js Site.home)
       /\ length (r_success r) + length (r_failed r) <= 1.
Proof.
  split; [reflexivity |].
  destruct (@crawlRecursively (Logging.Logged P0) 5 (js Site.home)
              (Logging.lift_options (Site.with_max_depth 0)) (0%Z, []))
    as [[r [w' log]] |] eqn:E; [| vm_compute in E; discriminate].
  exists r, w', log. split; [reflexivity |].
  destruct (@depth_zero_fetches_only_start P0 (js Site.home)
              (Site.with_max_depth 0) 0%Z eq_refl) as (_ & H & _).
  destruct (H 5 r w' log E) as (H1 & _ & H3).
  split; [| exact H3].
  intros a Ha. rewrite (H1 a Ha). vm_compute. reflexivity.
Defined.

(** C5 as stated fails in the order of the profiles: the second
    strategy tried, [chrome-mac], has the browser of the default profile
    on another system, and the third, [firefox], another browser on the
    system of the default profile. *)
Lemma second_strategy_is_alternate_system :
  map s_name strategies = strategy_names
  /\ map profile_of strategies
     <> [DefaultProfile; AlternateBrowser; AlternateSystem; MobileProfile;
         DeclaredCrawler]
  /\ (browser_of (user_agent 1) = browser_of (user_agent 0)
      /\ system_of (user_agent 0) = Windows
      /\ system_of (user_agent 1) = Macintosh)
  /\ (browser_of (user_agent 0) = Chrome
      /\ browser_of (user_agent 2) = Firefox
      /\ system_of (user_agent 2) = system_of (user_agent 0)).
Proof.
  split; [reflexivity |]. split; [vm_compute; discriminate |].
  split; (split; [| split]); vm_compute; reflexivity.
Qed.

(** An address that answers 404 to every strategy. *)
Lemma fallback_exhaustion_witness :
  useFallback config0 = true
  /\ (forall s w, In s strategies ->
        is_ok (fst (@attemptCrawl P0 missing (attempt_options config0 s) w))
        = false)
  /\ attemptedStrategies (fst (@crawlWithFallback P0 missing config0 0%Z))
     = strategy_names.
Proof.
  assert (H1 : useFallback config0 = true) by reflexivity.
  assert (H2 : forall s w, In s strategies ->
            is_ok (fst (@attemptCrawl P0 missing (attempt_options config0 s) w))
            = false)
    by (intros s w _; vm_compute; reflexivity).
  split; [exact H1 |]. split; [exact H2 |].
  destruct (@fallback_exhaustion P0 missing config0 H1 H2) as [Hres _].
  exact (proj1 (proj2 (Hres 0%Z))).
Defined.

Lemma short_page_fetched_not_extracted :
  forall s w, In s (strategiesToTry config0) ->
  exists html,
    fetched_html
      (fst (@fetch P0 short (at_headers (attempt_options config0 s))
              (timeout config0) w)) = Some html
    /\ @extraction_fails P0 html short (includeImages config0) = true.
Proof.
  intros s w _. exists (js "<p>too short</p>").
  split; vm_compute; reflexivity.
Defined.

Lemma extraction_failure_exhausts_strategies_witness :
  attemptedStrategies (fst (@crawlWithFallback P0 short config0 0%Z))
  = strategy_names.
Proof.
  destruct (@extraction_failure_exhausts_strategies P0 short config0
              short_page_fetched_not_extracted) as (Hres & _ & _).
  exact (proj1 (proj2 (Hres 0%Z))).
Defined.

(** C3 as stated fails: the page is fetched with status 200 by each of
    the five strategies, the extraction fails each time, and the failure
    filed lists all five strategies, not fewer. *)
Lemma extraction_failure_lists_every_strategy :
  (forall s w, In s strategies ->
     exists html,
       fetched_html
         (fst (@fetch P0 short (at_headers (attempt_options config0 s))
                 (timeout config0) w)) = Some html
       /\ @extraction_fails P0 html short (includeImages config0) = true)
  /\ exists r w' f,
       @crawlRecursively P0 5 short no_options 0%Z = Some (r, w')
       /\ r_success r = []
       /\ r_failed r = [f]
       /\ f_attemptedStrategies f = strategy_names
       /\ ~ (length (f_attemptedStrategies f) < length strategies).
Proof.
  split; [exact short_page_fetched_not_extracted |].
  destruct (@crawlRecursively P0 5 short no_options 0%Z)
    as [[r w'] |] eqn:E; vm_compute in E; [| discriminate].
  injection E as <- <-.
  eexists _, _, _. split; [reflexivity |].
  split; [reflexivity |]. split; [reflexivity |]. split; [reflexivity |].
  simpl. lia.
Qed.

(** C4 as stated fails: the request for [/old] is answered from [/new]
    after a redirect, the attempt succeeds, and the page record carries
    [/old]. *)
Lemma page_record_keeps_requested_address :
  exists resp w1 clip links w2,
    @fetch P0 moved (at_headers (attempt_options config0 (hd_strategy)))
      (timeout config0) 0%Z = (Responded resp, w1)
    /\ resp_url resp = js "https://a.test/new"
    /\ @attemptCrawl P0 moved (attempt_options config0 hd_strategy) 0%Z
       = (Ok (clip, links), w2)
    /\ url clip = js "https://a.test/old"
    /\ url clip <> resp_url resp.
Proof.
  destruct (@attemptCrawl P0 moved (attempt_options config0 hd_strategy) 0%Z)
    as [[[clip links] | m] w2] eqn:E; vm_compute in E; [| discriminate].
  injection E as <- <- <-.
  eexists _, _, _, _, _. split; [reflexivity |].
  split; [reflexivity |]. split; [reflexivity |]. split; [reflexivity |].
  vm_compute. discriminate.
Qed.

Lemma attempt_keeps_requested_address_witness :
  exists clip links w',
    @attemptCrawl P0 moved (attempt_options config0 hd_strategy) 0%Z
    = (Ok (clip, links), w')
    /\ url clip = moved.
Proof.
  destruct (@attemptCrawl P0 moved (attempt_options config0 hd_strategy) 0%Z)
    as [[[clip links] | m] w'] eqn:E; [| vm_compute in E; discriminate].
  exists clip, links, w'. split; [reflexivity |].
  destruct (proj1 (@attempt_keeps_requested_address P0) _ _ _ _ _ _ E)
    as (resp & html & parsed & _ & _ & _ & _ & H & _).
  exact H.
Defined.

End SiteRuns.

(** ** The URL model *)

Module UrlFacts.

Lemma span_spec p s a b :
  span p s = (a, b) ->
  s = a ++ b /\ forallb p a = true
  /\ match b with [] => True | c :: _ => p c = false end.
Proof.
  revert a b. induction s as [| c s IH]; simpl; intros a b H.
  - injection H as <- <-. auto.
  - destruct (p c) eqn:Hc.
    + destruct (span p s) as [a' b'] eqn:Hs. injection H as <- <-.
      destruct (IH a' b' eq_refl) as (-> & Ha & Hb). simpl. rewrite Hc. auto.
    + injection H as <- <-. simpl. auto.
Qed.

Lemma span_app p l r :
  forallb p l = true ->
  match r with [] => True | c :: _ => p c = false end ->
  span p (l ++ r) = (l, r).
Proof.
  intros Hl Hr. induction l as [| c l IH]; simpl in *.
  - destruct r as [| c r]; [reflexivity |]. simpl. now rewrite Hr.
  - apply andb_prop in Hl as [Hc Hl]. rewrite Hc, (IH Hl). reflexivity.
Qed.

(** Comparisons of code units are settled by arithmetic where the
    context decides them, and by cases otherwise. *)
Ltac settle :=
  repeat match goal with
         | |- context [(?a <=? ?b)%N] =>
             first [ replace (a <=? b)%N with true
                       by (symmetry; apply N.leb_le; lia)
                   | replace (a <=? b)%N with false
                       by (symmetry; apply N.leb_gt; lia) ]
         | |- context [(?a =? ?b)%N] =>
             first [ replace (a =? b)%N with true
                       by (symmetry; apply N.eqb_eq; lia)
                   | replace (a =? b)%N with false
                       by (symmetry; apply N.eqb_neq; lia) ]
         end.

Ltac chars :=
  settle;
  repeat match goal with
         | |- context [(?a <=? ?b)%N] => destruct (N.leb_spec a b); settle
         | |- context [(?a =? ?b)%N] => destruct (N.eqb_spec a b); settle
         | H : context [(?a <=? ?b)%N] |- _ => destruct (N.leb_spec a b)
         | H : context [(?a =? ?b)%N] |- _ => destruct (N.eqb_spec a b)
         end;
  simpl in *; try reflexivity; try discriminate; try lia.

Lemma lower_char_idem c : lower_char (lower_char c) = lower_char c.
Proof. unfold lower_char. chars. Qed.

Lemma toLowerCase_idem s : toLowerCase (toLowerCase s) = toLowerCase s.
Proof.
  unfold toLowerCase. rewrite map_map. apply map_ext. apply lower_char_idem.
Qed.

Lemma toLowerCase_app a b :
  toLowerCase (a ++ b) = toLowerCase a ++ toLowerCase b.
Proof. apply map_app. Qed.

Lemma lower_char_slash c : (lower_char c =? SLASH)%N = (c =? SLASH)%N.
Proof. unfold lower_char, SLASH. chars. Qed.

Lemma host_kind_lower c : host_kind_of (lower_char c) = host_kind_of c.
Proof.
  unfold lower_char.
  destruct ((65 <=? c) && (c <=? 90))%N eqn:E; [| reflexivity].
  apply andb_prop in E as [E1 E2]. apply N.leb_le in E1, E2.
  unfold host_kind_of, latin, digit, HYPHEN, DOT. settle. reflexivity.
Qed.

Lemma host_scan_lower st s : host_scan st (toLowerCase s) = host_scan st s.
Proof.
  revert st. induction s as [| c s IH]; intros st; simpl; [reflexivity |].
  rewrite host_kind_lower. destruct (host_step st (host_kind_of c)); auto.
Qed.

Lemma host_kind_stops c :
  stops_authority c = true -> host_kind_of c = HOther.
Proof.
  unfold stops_authority, host_kind_of, latin, digit, SLASH, QUERY, HASH,
    HYPHEN, DOT. chars.
Qed.

Lemma host_scan_chars st s :
  host_scan st s = true ->
  forallb (fun c => negb (stops_authority c)) s = true.
Proof.
  revert st. induction s as [| c s IH]; intros st; simpl; [reflexivity |].
  destruct (stops_authority c) eqn:Hc.
  - rewrite (host_kind_stops c Hc). destruct st as [| l h]; simpl; try discriminate.
    destruct h; discriminate.
  - destruct (host_step st (host_kind_of c)); [apply IH | discriminate].
Qed.

Lemma seg_step_lower st c : seg_step st (lower_char c) = seg_step st c.
Proof.
  unfold lower_char.
  destruct ((65 <=? c) && (c <=? 90))%N eqn:E; [| reflexivity].
  apply andb_prop in E as [E1 E2]. apply N.leb_le in E1, E2.
  unfold seg_step, path_char, SLASH, DOT. simpl existsb. settle. reflexivity.
Qed.

Lemma path_scan_lower st s : path_scan st (toLowerCase s) = path_scan st s.
Proof.
  revert st. induction s as [| c s IH]; intros st; simpl; [reflexivity |].
  rewrite seg_step_lower. destruct (seg_step st c); auto.
Qed.

Lemma seg_step_stops st c : stops_path c = true -> seg_step st c = None.
Proof.
  unfold stops_path, seg_step, path_char, QUERY, HASH, SLASH, DOT.
  simpl existsb. chars.
Qed.

Lemma path_scan_chars st s :
  path_scan st s = true -> forallb (fun c => negb (stops_path c)) s = true.
Proof.
  revert st. induction s as [| c s IH]; intros st; simpl; [reflexivity |].
  destruct (stops_path c) eqn:Hc.
  - now rewrite (seg_step_stops st c Hc).
  - destruct (seg_step st c); [apply IH | discriminate].
Qed.

Lemma path_scan_drop_slash st s :
  path_scan st (s ++ [SLASH]) = true -> path_scan st s = true.
Proof.
  revert st. induction s as [| c s IH]; intros st; simpl.
  - destruct st; simpl; auto; discriminate.
  - destruct (seg_step st c); [apply IH | discriminate].
Qed.

End UrlFacts.

Module NormalizeFacts.
Import UrlFacts.

Lemma parse_inv x u :
  parse x = Some u ->
  exists scheme auth path,
    (toLowerCase scheme = js "http" \/ toLowerCase scheme = js "https")
    /\ host_ok auth = true /\ path_ok path = true
    /\ (path = [] \/ exists p', path = SLASH :: p')
    /\ u = {| protocol := toLowerCase scheme ++ [COLON];
              host := toLowerCase auth;
              hostname := toLowerCase auth;
              pathname := match path with [] => [SLASH] | _ => path end |}.
Proof.
  unfold parse.
  destruct (span (not_chr COLON) x) as [scheme rest].
  destruct rest as [| c1 [| c2 [| c3 rest2]]]; try discriminate.
  destruct ((c1 =? COLON)%N && (c2 =? SLASH)%N && (c3 =? SLASH)%N); simpl;
    [| discriminate].
  destruct (is_special (toLowerCase scheme)) eqn:Hsp; [| discriminate].
  destruct (span _ rest2) as [auth tail] eqn:Hauth.
  destruct (span _ tail) as [path rest3] eqn:Hpath.
  destruct (host_ok auth) eqn:Hh; [| discriminate].
  destruct (path_ok path) eqn:Hp; [| discriminate].
  simpl. intros H. injection H as <-.
  exists scheme, auth, path. repeat split; auto.
  - unfold is_special in Hsp. apply orb_prop in Hsp as [H | H];
      apply eqb_eq in H; auto.
  - apply span_spec in Hauth as (_ & _ & Hhead).
    destruct tail as [| c tail]; simpl in Hpath.
    + injection Hpath as <- _. now left.
    + destruct (negb ((c =? QUERY)%N || (c =? HASH)%N)) eqn:Hc.
      * destruct (span _ tail) as [a b]. injection Hpath as <- _.
        right. exists a. f_equal.
        apply negb_false_iff in Hhead. apply negb_true_iff in Hc.
        apply orb_false_iff in Hc as [Hq Hx]. rewrite Hq, Hx in Hhead.
        rewrite !orb_false_r in Hhead. now apply N.eqb_eq.
      * injection Hpath as <- _. now left.
Qed.

Lemma parse_canonical scheme auth q :
  scheme = js "http" \/ scheme = js "https" ->
  host_ok auth = true -> path_ok q = true ->
  (q = [] \/ exists q', q = SLASH :: q') ->
  parse (scheme ++ [COLON; SLASH; SLASH] ++ toLowerCase auth ++ toLowerCase q)
  = Some {| protocol := scheme ++ [COLON];
            host := toLowerCase auth;
            hostname := toLowerCase auth;
            pathname := match toLowerCase q with
                        | [] => [SLASH]
                        | _ => toLowerCase q
                        end |}.
Proof.
  intros Hs Hh Hp Hq. unfold parse.
  rewrite (span_app (not_chr COLON) scheme
             ([COLON; SLASH; SLASH] ++ toLowerCase auth ++ toLowerCase q));
    [| destruct Hs as [-> | ->]; reflexivity | reflexivity].
  cbn [app]. rewrite !N.eqb_refl. cbn [andb].
  replace (is_special (toLowerCase scheme)) with true
    by (destruct Hs as [-> | ->]; reflexivity).
  replace (toLowerCase scheme) with scheme
    by (destruct Hs as [-> | ->]; reflexivity).
  rewrite (span_app _ (toLowerCase auth) (toLowerCase q)).
  2:{ apply (host_scan_chars HStart). rewrite host_scan_lower. exact Hh. }
  2:{ destruct Hq as [-> | [q' ->]]; simpl; [exact I | reflexivity]. }
  rewrite <- (app_nil_r (toLowerCase q)) at 1.
  rewrite (span_app _ (toLowerCase q) []).
  2:{ apply (path_scan_chars SegOther). rewrite path_scan_lower. exact Hp. }
  2:{ exact I. }
  unfold host_ok, path_ok. rewrite host_scan_lower, path_scan_lower.
  unfold host_ok, path_ok in Hh, Hp. rewrite Hh, Hp. cbn [andb].
  rewrite toLowerCase_idem. reflexivity.
Qed.

Lemma endsWith_slash_snoc s c :
  endsWith (s ++ [c]) (js "/") = (c =? SLASH)%N.
Proof.
  unfold endsWith. rewrite rev_app_distr.
  change (rev (js "/")) with [SLASH]. cbn [rev app startsWith].
  destruct (rev s); cbn [startsWith]; rewrite andb_true_r; apply N.eqb_sym.
Qed.

Lemma endsWith_two_slashes s :
  endsWith (s ++ [SLASH; SLASH]) (js "//") = true.
Proof.
  unfold endsWith. rewrite rev_app_distr. simpl.
  destruct (rev s); reflexivity.
Qed.

Lemma strip_slash s : s <> [] -> strip (s ++ [SLASH]) = s.
Proof.
  intros Hs. unfold strip. rewrite endsWith_slash_snoc, N.eqb_refl.
  rewrite length_app. simpl.
  replace (1 <? length s + 1) with true.
  - simpl. unfold drop_last. apply removelast_last.
  - symmetry. apply Nat.ltb_lt. destruct s; [congruence | simpl; lia].
Qed.

Lemma strip_other s c : (c =? SLASH)%N = false -> strip (s ++ [c]) = s ++ [c].
Proof.
  intros Hc. unfold strip. now rewrite endsWith_slash_snoc, Hc.
Qed.

Lemma endsWith_two_slashes_inv s :
  endsWith s (js "//") = true -> exists body, s = body ++ [SLASH; SLASH].
Proof.
  unfold endsWith. change (rev (js "//")) with [SLASH; SLASH].
  intros H. exists (rev (skipn 2 (rev s))).
  rewrite <- (rev_involutive s) at 1.
  destruct (rev s) as [| a [| b r]]; cbn [startsWith] in H;
    try discriminate.
  - destruct (SLASH =? a)%N; discriminate.
  - apply andb_prop in H as [Ha H]. apply andb_prop in H as [Hb _].
    apply N.eqb_eq in Ha, Hb. subst a b.
    cbn [skipn rev]. now rewrite <- app_assoc.
Qed.

Section WithParser.
Context {P : Platform}.
(** The parser of the platform agrees with the model wherever the model
    answers: nothing is assumed of it on the other addresses. *)
Hypothesis parser : forall s u, Url.parse s = Some u -> parseURL s = Some u.

Lemma normalizeUrl_strip x u :
  Url.parse x = Some u ->
  normalizeUrl x
  = toLowerCase (strip (protocol u ++ js "//" ++ host u ++ pathname u)).
Proof.
  intros H. unfold normalizeUrl, strip. now rewrite (parser _ H).
Qed.

(** Brings the argument of [strip] to the form [t]. *)
Ltac reshape t :=
  match goal with
  | |- context [strip ?s] =>
      replace s with t by (rewrite <- ?app_assoc; reflexivity)
  end.

Lemma canonical_fixed y : canonical y -> normalizeUrl y = y.
Proof.
  intros (scheme & auth & q & Hs & Hh & Hp & Hq & ->).
  assert (Hq' : q = [] \/ exists q', q = SLASH :: q').
  { destruct Hq as [-> | (q' & body & c & H & _)]; [now left | right; eauto]. }
  rewrite (@normalizeUrl_strip _ _ (@parse_canonical scheme auth q Hs Hh Hp Hq')).
  cbn [protocol host pathname].
  assert (Hlow : toLowerCase scheme = scheme)
    by (destruct Hs as [-> | ->]; reflexivity).
  destruct Hq as [-> | (q' & body & c & Hq0 & Hlast & Hc)].
  - cbn [toLowerCase map].
    reshape ((scheme ++ [COLON; SLASH; SLASH] ++ toLowerCase auth) ++ [SLASH]).
    rewrite strip_slash by (destruct scheme; discriminate).
    rewrite !toLowerCase_app, toLowerCase_idem, Hlow, app_nil_r. reflexivity.
  - destruct (toLowerCase q) as [| c0 l0] eqn:Hlq;
      [rewrite Hq0 in Hlq; discriminate |].
    rewrite <- Hlq. clear Hlq c0 l0 Hq0 Hq' Hp. subst q.
    rewrite toLowerCase_app. cbn [toLowerCase map].
    fold (toLowerCase body).
    reshape ((scheme ++ [COLON; SLASH; SLASH] ++ toLowerCase auth
              ++ toLowerCase body) ++ [lower_char c]).
    rewrite strip_other by (now rewrite lower_char_slash).
    rewrite <- !app_assoc.
    rewrite !toLowerCase_app, !toLowerCase_idem, Hlow.
    cbn [toLowerCase map]. rewrite lower_char_idem. reflexivity.
Qed.

Lemma normalizeUrl_canonical x u :
  Url.parse x = Some u ->
  endsWith (pathname u) (js "//") = false ->
  canonical (normalizeUrl x).
Proof.
  intros Hx Hends. rewrite (@normalizeUrl_strip _ _ Hx).
  apply parse_inv in Hx as (scheme & auth & path & Hs & Hh & Hp & Hq & ->).
  simpl in *.
  assert (Hlow : forall s, toLowerCase scheme = s ->
            s = js "http" \/ s = js "https" -> toLowerCase s = s).
  { intros s _ [-> | ->]; reflexivity. }
  set (sch := toLowerCase scheme) in *.
  assert (Hsch : toLowerCase sch = sch) by (apply (Hlow sch eq_refl Hs)).
  destruct Hq as [-> | [p' ->]].
  - (* no path: the serialised path is the single slash *)
    exists sch, auth, []. repeat split; auto.
    reshape ((sch ++ [COLON; SLASH; SLASH] ++ toLowerCase auth) ++ [SLASH]).
    rewrite strip_slash by (destruct sch; discriminate).
    rewrite !toLowerCase_app, toLowerCase_idem, Hsch, app_nil_r. reflexivity.
  - set (path := SLASH :: p') in *.
    assert (Hne : path <> []) by discriminate.
    destruct (exists_last Hne) as (body & c & Hpath).
    destruct (c =? SLASH)%N eqn:Hc.
    + (* one trailing slash, removed *)
      apply N.eqb_eq in Hc. subst c.
      assert (Hbody : path_ok body = true).
      { unfold path_ok in *. apply path_scan_drop_slash. now rewrite <- Hpath. }
      rewrite Hpath.
      reshape ((sch ++ [COLON; SLASH; SLASH] ++ toLowerCase auth ++ body) ++ [SLASH]).
      rewrite strip_slash by (destruct sch; discriminate).
      exists sch, auth, body. repeat split; auto.
      * destruct body as [| b body']; [now left | right].
        assert (Hb : b = SLASH).
        { unfold path in Hpath. simpl in Hpath. now injection Hpath as <-. }
        subst b.
        destruct (exists_last (l := SLASH :: body') ltac:(discriminate))
          as (body2 & c2 & Hb2).
        exists body', body2, c2. split; [reflexivity |]. split; [exact Hb2 |].
        destruct (c2 =? SLASH)%N eqn:Hc2; [| reflexivity].
        apply N.eqb_eq in Hc2. subst c2. exfalso.
        rewrite Hpath, Hb2, <- app_assoc in Hends. simpl app in Hends.
        rewrite endsWith_two_slashes in Hends. discriminate.
      * rewrite !toLowerCase_app, toLowerCase_idem, Hsch. reflexivity.
    + (* no trailing slash *)
      rewrite Hpath.
      reshape ((sch ++ [COLON; SLASH; SLASH] ++ toLowerCase auth ++ body) ++ [c]).
      rewrite strip_other by exact Hc.
      exists sch, auth, path. repeat split; auto.
      * right. exists p', body, c. auto.
      * rewrite <- !app_assoc, !toLowerCase_app, toLowerCase_idem, Hsch.
        rewrite Hpath, toLowerCase_app. reflexivity.
Qed.

(** With two slashes at the end of the path, each normalisation takes
    one of them off. *)
Lemma normalizeUrl_double_slash x u :
  Url.parse x = Some u ->
  endsWith (pathname u) (js "//") = true ->
  normalizeUrl (normalizeUrl x) <> normalizeUrl x.
Proof.
  intros Hx Hends. rewrite (@normalizeUrl_strip _ _ Hx).
  apply parse_inv in Hx as (scheme & auth & path & Hs & Hh & Hp & Hq & ->).
  simpl in *.
  set (sch := toLowerCase scheme) in *.
  assert (Hsch : toLowerCase sch = sch)
    by (destruct Hs as [E | E]; rewrite E; reflexivity).
  destruct (endsWith_two_slashes_inv _ Hends) as [body Hbody].
  destruct Hq as [-> | [p' ->]].
  - apply (f_equal (@length N)) in Hbody. rewrite length_app in Hbody.
    simpl in Hbody. lia.
  - set (q := body ++ [SLASH]).
    assert (Hpath : SLASH :: p' = q ++ [SLASH])
      by (unfold q; now rewrite <- app_assoc).
    assert (Hq : path_ok q = true).
    { unfold path_ok in *. apply path_scan_drop_slash. now rewrite <- Hpath. }
    assert (Hq' : q = [] \/ exists q', q = SLASH :: q').
    { right. unfold q. destruct body as [| b body'].
      - now exists [].
      - exists (body' ++ [SLASH]). simpl in Hbody.
        injection Hbody as <- _. reflexivity. }
    rewrite Hpath.
    reshape ((sch ++ [COLON; SLASH; SLASH] ++ toLowerCase auth ++ q) ++ [SLASH]).
    rewrite strip_slash by (destruct sch; discriminate).
    assert (Hy : toLowerCase
                   (sch ++ [COLON; SLASH; SLASH] ++ toLowerCase auth ++ q)
                 = sch ++ [COLON; SLASH; SLASH] ++ toLowerCase auth
                   ++ toLowerCase q).
    { rewrite !toLowerCase_app, toLowerCase_idem, Hsch. reflexivity. }
    rewrite Hy.
    rewrite (@normalizeUrl_strip _ _ (@parse_canonical sch auth q Hs Hh Hq Hq')).
    cbn [protocol host pathname].
    assert (Hlq : toLowerCase q = toLowerCase body ++ [SLASH])
      by (unfold q; now rewrite toLowerCase_app).
    rewrite Hlq. clear Hlq Hy.
    destruct (toLowerCase body ++ [SLASH]) as [| c0 l0] eqn:E;
      [destruct (toLowerCase body); discriminate |].
    rewrite <- E. clear E c0 l0.
    reshape ((sch ++ [COLON; SLASH; SLASH] ++ toLowerCase auth
              ++ toLowerCase body) ++ [SLASH]).
    rewrite strip_slash by (destruct sch; discriminate).
    intros E. apply (f_equal (@length N)) in E.
    unfold toLowerCase in E. rewrite ?length_map, ?length_app in E.
    rewrite ?length_map, ?length_app in E. simpl in E. lia.
Qed.

End WithParser.
End NormalizeFacts.

(** ** Address normalisation and the same-domain filter *)

Section AddressClaims.
Context {P : Platform}.

(** C7, as the code has it.  On the addresses of the URL model, for any
    platform whose parser agrees with the model where the model answers,
    normalising twice gives the same as normalising once exactly when the
    parsed path of the address does not end in two slashes. *)
Theorem normalizeUrl_idempotent_without_double_slash :
  (forall s u, Url.parse s = Some u -> parseURL s = Some u) ->
  forall x u,
    Url.parse x = Some u ->
    (endsWith (pathname u) (js "//") = false ->
     normalizeUrl (normalizeUrl x) = normalizeUrl x)
    /\ (endsWith (pathname u) (js "//") = true ->
        normalizeUrl (normalizeUrl x) <> normalizeUrl x).
Proof.
  intros parser x u Hx. split; intros Hends.
  - apply (NormalizeFacts.canonical_fixed parser).
    eapply NormalizeFacts.normalizeUrl_canonical; eauto.
  - eapply NormalizeFacts.normalizeUrl_double_slash; eauto.
Qed.

(** C8, as the code has it.  [extractDomain] is the lower-case host
    name of an address that parses and the empty string otherwise; the
    same-domain test is equality with the domain of the start address:
    an address with an empty domain is rejected when the start domain is
    not empty, and passes the test when the start domain is empty too. *)
Theorem same_domain_is_equality :
  (forall url,
     extractDomain url
     = match parseURL url with
       | Some parsed => toLowerCase (hostname parsed)
       | None => []
       end)
  /\ (forall url dom config,
        sameDomainOnly config = true ->
        shouldCrawl url dom config = true ->
        extractDomain url = dom)
  /\ (forall url dom config,
        sameDomainOnly config = true ->
        extractDomain url = [] -> dom <> [] ->
        shouldCrawl url dom config = false)
  /\ (forall url config,
        sameDomainOnly config = true ->
        extractDomain url = [] ->
        excludePatterns config = None -> includePatterns config = None ->
        shouldCrawl url [] config = true).
Proof.
  split; [reflexivity |]. split; [| split].
  - intros url dom config Hsame. unfold shouldCrawl. rewrite Hsame. simpl.
    destruct (JS.eqb (extractDomain url) dom) eqn:E; simpl; [| discriminate].
    intros _. now apply eqb_eq.
  - intros url dom config Hsame Hempty Hdom. unfold shouldCrawl.
    rewrite Hsame, Hempty. simpl.
    replace (JS.eqb [] dom) with false; [reflexivity |].
    symmetry. apply eqb_neq. congruence.
  - intros url config Hsame Hempty Hex Hin. unfold shouldCrawl.
    rewrite Hsame, Hempty, Hex, Hin. reflexivity.
Qed.

End AddressClaims.

Module AddressRuns.
Import Site.

(** C7 as stated fails: an address with two trailing slashes loses one
    of them at each normalisation. *)
Lemma normalizeUrl_not_idempotent :
  @normalizeUrl P0 (js "http://a.test/x//") = js "http://a.test/x/"
  /\ @normalizeUrl P0 (@normalizeUrl P0 (js "http://a.test/x//"))
     = js "http://a.test/x"
  /\ @normalizeUrl P0 (@normalizeUrl P0 (js "http://a.test/x//"))
     <> @normalizeUrl P0 (js "http://a.test/x//").
Proof.
  split; [vm_compute; reflexivity |].
  split; [vm_compute; reflexivity |].
  vm_compute. discriminate.
Qed.

Lemma normalizeUrl_idempotent_without_double_slash_witness :
  @normalizeUrl P0 (js "HTTPS://A.test/Docs/?q=1#top") = js "https://a.test/docs"
  /\ @normalizeUrl P0 (@normalizeUrl P0 (js "HTTPS://A.test/Docs/?q=1#top"))
     = @normalizeUrl P0 (js "HTTPS://A.test/Docs/?q=1#top").
Proof.
  split; [vm_compute; reflexivity |].
  destruct (Url.parse (js "HTTPS://A.test/Docs/?q=1#top")) as [u |] eqn:E;
    [| vm_compute in E; discriminate].
  apply (@normalizeUrl_idempotent_without_double_slash P0
           (fun s v H => H) _ u E).
  vm_compute in E. injection E as <-. vm_compute. reflexivity.
Defined.

(** C8 as stated fails: when the start address does not parse, an
    address without a domain passes the same-domain test, and the crawl
    visits it. *)
Lemma empty_domain_passes_same_domain_filter :
  sameDomainOnly config0 = true
  /\ @extractDomain P0 (js "not a url") = []
  /\ @extractDomain P0 (js "neither") = []
  /\ @shouldCrawl P0 (js "neither") (@extractDomain P0 (js "not a url")) config0
     = true
  /\ exists r w',
       @crawlRecursively P0 5 (js "not a url") no_options 0%Z = Some (r, w')
       /\ visitedUrls r = [js "not a url"].
Proof.
  do 4 (split; [vm_compute; reflexivity |]).
  destruct (@crawlRecursively P0 5 (js "not a url") no_options 0%Z)
    as [[r w'] |] eqn:E; vm_compute in E; [| discriminate].
  injection E as <- <-. eexists _, _. split; reflexivity.
Qed.

Lemma same_domain_is_equality_witness :
  @extractDomain P0 (js "https://A.Test/x") = js "a.test"
  /\ @shouldCrawl P0 (js "neither") (js "a.test") config0 = false.
Proof.
  split; [vm_compute; reflexivity |].
  destruct (@same_domain_is_equality P0) as (_ & _ & H & _).
  apply H; [reflexivity | vm_compute; reflexivity | vm_compute; discriminate].
Defined.

End AddressRuns.

(** ** Markup to text *)

Module MarkupRuns.

(** C6.  The recursive crawler's conversion rewrites the headings [h1]
    to [h4] and decodes named and decimal entities; the headings [h5]
    and [h6] lose their tags without getting a prefix, and a hexadecimal
    entity stays as it is. *)
Theorem htmlToMarkdown_misses_h5_h6_and_hex :
  htmlToMarkdown (js "<h1>Title</h1>") plain = js "# Title"
  /\ htmlToMarkdown (js "<h2>Title</h2>") plain = js "## Title"
  /\ htmlToMarkdown (js "<h3>Title</h3>") plain = js "### Title"
  /\ htmlToMarkdown (js "<h4>Title</h4>") plain = js "#### Title"
  /\ htmlToMarkdown (js "<h5>Title</h5>") plain = js "Title"
  /\ htmlToMarkdown (js "<h6>Title</h6>") plain = js "Title"
  /\ decodeHtmlEntities (js "&lt;b&gt; &amp; &#65;") = js "<b> & A"
  /\ decodeHtmlEntities (js "&#x41;") = js "&#x41;"
  /\ htmlToMarkdown (js "caf&#xe9;") plain = js "caf&#xe9;".
Proof.
  do 8 (split; [vm_compute; reflexivity |]). vm_compute. reflexivity.
Qed.

End MarkupRuns.

Import Run.

(** ** Orders and records of a run *)

Module RunFacts.

Lemma StronglySorted_app (l1 l2 : list Z) :
  StronglySorted Z.le (l1 ++ l2) <->
  StronglySorted Z.le l1 /\ StronglySorted Z.le l2
  /\ forall x y, In x l1 -> In y l2 -> (x <= y)%Z.
Proof.
  induction l1 as [| a l1 IH]; simpl.
  - split; [intros H; repeat split; [constructor | exact H | intros x y []]
           | intros (_ & H & _); exact H].
  - split.
    + intros H. apply StronglySorted_inv in H as [H Ha].
      apply IH in H as (H1 & H2 & H12). rewrite Forall_app in Ha.
      destruct Ha as [Ha1 Ha2]. repeat split.
      * now constructor.
      * exact H2.
      * intros x y [<- | Hx] Hy; [| now apply H12].
        rewrite Forall_forall in Ha2. now apply Ha2.
    + intros (H1 & H2 & H12). apply StronglySorted_inv in H1 as [H1 Ha].
      constructor.
      * apply IH. repeat split; auto.
      * apply Forall_app. split; [exact Ha |].
        apply Forall_forall. intros y Hy. apply H12; auto.
Qed.

Section WithPlatform.
Context {P : Platform}.

Lemma next_entries_depth d seen links e :
  In e (next_entries d seen links) -> e_depth e = (d + 1)%Z.
Proof.
  unfold next_entries. rewrite in_map_iff. now intros (a & <- & _).
Qed.

Lemma one_level_sorted (l : list FrontierEntry) d :
  (forall x, In x l -> e_depth x = d) -> StronglySorted Z.le (map e_depth l).
Proof.
  induction l as [| n l IH]; intros Hall; simpl; constructor.
  - apply IH. intros x Hx. apply Hall. now right.
  - apply Forall_forall. intros y Hy. apply in_map_iff in Hy as (z & <- & Hz).
    rewrite (Hall n), (Hall z); simpl; auto. lia.
Qed.

Lemma level_order_initial config startUrl w :
  level_order config (initial_state startUrl w).
Proof.
  unfold level_order, depths. simpl. split; [| split; [| split]].
  - repeat constructor.
  - intros e e' [<- | []] [<- | []]. simpl. lia.
  - intros e [<- | []]. simpl. lia.
  - intros f [].
Qed.

Lemma level_order_turn config dom st st' :
  level_order config st -> turn config dom st st' -> level_order config st'.
Proof.
  intros (Hs & Hq & Hpos & Hf) Ht. unfold depths in Hs.
  destruct Ht as [e q Hqe _ | e q Hqe _ Hd _].
  - (* the head of the queue is dropped *)
    rewrite Hqe in *. unfold level_order, depths, shifted. simpl.
    rewrite Hqe. simpl. simpl in Hs.
    apply StronglySorted_app in Hs as (H1 & H2 & H12).
    apply StronglySorted_inv in H2 as [H2 _].
    split; [| split; [| split]]; auto.
    + apply StronglySorted_app. split; [exact H1 |]. split; [exact H2 |].
      intros x y Hx Hy. apply H12; simpl; auto.
    + intros a b Ha Hb. apply Hq; simpl; auto.
    + intros a Ha. apply Hpos. simpl. auto.
  - (* the head of the queue is visited *)
    rewrite Hqe in *. simpl in Hs.
    assert (H0 : (0 <= e_depth e)%Z) by (apply Hpos; now left).
    destruct (visit_spec config (e_url e) (e_depth e) (shifted st)) as [_ Hcase].
    cbv zeta in Hcase.
    assert (Hsq : queue (shifted st) = q) by (unfold shifted; simpl; now rewrite Hqe).
    change (failed (shifted st)) with (failed st) in Hcase.
    rewrite Hsq in Hcase.
    pose proof Hs as Hs0.
    apply StronglySorted_app in Hs as (H1 & H2 & H12).
    apply StronglySorted_inv in H2 as [H2 Hhead]. rewrite Forall_forall in Hhead.
    destruct Hcase as [(page & _ & _ & _ & _ & Hfl & Hqueue) | (_ & _ & Hfl & Hqueue)].
    + (* a page: the links join the queue one level down *)
      set (new := next_entries (e_depth e) (visited (shifted st) ++ [e_url e])
                    (or_default
                       (extractedLinks
                          (fst (crawlWithFallback (e_url e) config
                                  (notify config (e_url e) (e_depth e) (shifted st)))))
                       [])) in *.
      assert (Hin : forall x, In x (queue (visit config (e_url e) (e_depth e) (shifted st))) ->
                      In x q \/ e_depth x = (e_depth e + 1)%Z).
      { intros x Hx. rewrite Hqueue in Hx.
        destruct (e_depth e <? maxDepth config)%Z; [| now left].
        apply in_app_or in Hx as [Hx | Hx]; [now left | right].
        eapply next_entries_depth; eauto. }
      assert (Hlow : forall x, In x q -> (e_depth e <= e_depth x)%Z).
      { intros x Hx. apply Hhead. now apply in_map. }
      assert (Hhigh : forall x, In x q -> (e_depth x <= e_depth e + 1)%Z).
      { intros x Hx. apply (Hq e x); simpl; auto. }
      unfold level_order, depths. rewrite Hfl. split; [| split; [| split]].
      * apply StronglySorted_app. split; [exact H1 |]. split.
        -- rewrite Hqueue. destruct (e_depth e <? maxDepth config)%Z; [| exact H2].
           rewrite map_app. apply StronglySorted_app. split; [exact H2 |]. split.
           ++ apply (@one_level_sorted new (e_depth e + 1)%Z).
              intros x Hx. eapply next_entries_depth; eauto.
           ++ intros x y Hx Hy. apply in_map_iff in Hx as (a & <- & Ha).
              apply in_map_iff in Hy as (b & <- & Hb).
              rewrite (next_entries_depth _ _ _ _ Hb). now apply Hhigh.
        -- intros x y Hx Hy. apply in_map_iff in Hy as (b & <- & Hb).
           apply Hin in Hb as [Hb | Hb].
           ++ apply H12; [exact Hx |]. simpl. right. now apply in_map.
           ++ rewrite Hb. specialize (H12 x (e_depth e) Hx (or_introl eq_refl)). lia.
      * intros a b Ha Hb. apply Hin in Ha, Hb.
        destruct Ha as [Ha | Ha], Hb as [Hb | Hb].
        -- apply Hq; simpl; auto.
        -- rewrite Hb. specialize (Hlow a Ha). lia.
        -- rewrite Ha. specialize (Hhigh b Hb). lia.
        -- lia.
      * intros a Ha. apply Hin in Ha as [Ha | Ha]; [| lia].
        apply Hpos. simpl. auto.
      * exact Hf.
    + (* a failure: it is filed at the depth of the entry *)
      unfold level_order, depths. rewrite Hfl, Hqueue.
      rewrite map_app, <- app_assoc. simpl. split; [| split; [| split]].
      * exact Hs0.
      * intros a b Ha Hb. apply Hq; simpl; auto.
      * intros a Ha. apply Hpos. simpl. auto.
      * intros f H. apply in_app_or in H as [H | [<- | []]]; [now apply Hf | simpl; lia].
Qed.

Lemma level_order_reachable config dom startUrl w st :
  reachable config dom (initial_state startUrl w) st -> level_order config st.
Proof.
  revert st. apply reachable_ind_turn; [apply level_order_initial |].
  intros st st' H _ Ht. eauto using level_order_turn.
Qed.

(** Every address in the visited set has passed the filter. *)
Lemma visited_filtered config dom st0 :
  (forall a, In a (visited st0) -> shouldCrawl a dom config = true) ->
  forall st, reachable config dom st0 st ->
  forall a, In a (visited st) -> shouldCrawl a dom config = true.
Proof.
  intros H0 st Hreach. pattern st.
  eapply reachable_ind_turn; [exact H0 | | exact Hreach].
  clear st Hreach.
  intros st st' Hinv _ Ht a Ha. destruct Ht as [e q _ _ | e q _ _ _ Hs].
  - now apply Hinv.
  - destruct (visit_spec config (e_url e) (e_depth e) (shifted st)) as [Hvis _].
    cbv zeta in Hvis. rewrite Hvis in Ha.
    apply in_app_or in Ha as [Ha | [<- | []]]; [now apply Hinv | exact Hs].
Qed.

Lemma shouldCrawl_parts url dom config :
  shouldCrawl url dom config = true ->
  (sameDomainOnly config = true -> extractDomain url = dom)
  /\ (forall ps pattern, excludePatterns config = Some ps -> In pattern ps ->
                         pattern url = false)
  /\ (forall ps, includePatterns config = Some ps -> ps <> [] ->
                 exists pattern, In pattern ps /\ pattern url = true).
Proof.
  unfold shouldCrawl. intros H.
  destruct (sameDomainOnly config && negb (JS.eqb (extractDomain url) dom)) eqn:E1;
    [discriminate |].
  destruct (existsb (fun pattern => pattern url)
              (or_default (excludePatterns config) [])) eqn:E2; [discriminate |].
  repeat split.
  - intros Hsame. rewrite Hsame in E1. simpl in E1.
    apply negb_false_iff in E1. now apply eqb_eq.
  - intros ps pattern Hps Hin. rewrite Hps in E2. simpl in E2.
    destruct (pattern url) eqn:Ep; [| reflexivity].
    assert (Hex : existsb (fun pattern => pattern url) ps = true)
      by (apply existsb_exists; eauto).
    congruence.
  - intros ps Hps Hne. rewrite Hps in H. destruct ps as [| p ps]; [congruence |].
    apply existsb_exists in H as (pattern & Hin & Hp). eauto.
Qed.

(** *** The records *)

Lemma clip_of_outcome_page url options outcome clip links :
  clip_of_outcome url options outcome = Ok (clip, links) -> page_ok clip.
Proof.
  unfold clip_of_outcome, bind, throw_if.
  destruct outcome as [m | r]; [discriminate |].
  destruct (negb (resp_ok r)); [discriminate |].
  destruct (negb (includes _ _) && negb (includes _ _)); [discriminate |].
  destruct (body r) as [html | m]; [| discriminate].
  destruct (defuddle html url) as [d |]; [| discriminate].
  destruct (d_content d); [discriminate |].
  destruct (length _ <? 100) eqn:Hlen; [discriminate |].
  intros H. injection H as H _. subst clip. unfold page_ok. simpl.
  repeat split.
  - destruct (d_title d); [vm_compute |]; discriminate.
  - now apply Nat.ltb_ge in Hlen.
Qed.

Lemma attemptCrawl_page url options w clip links w' :
  attemptCrawl url options w = (Ok (clip, links), w') -> page_ok clip.
Proof.
  unfold attemptCrawl. destruct (fetch _ _ _ _) as [o w1].
  intros H. injection H as H _. eauto using clip_of_outcome_page.
Qed.

Lemma try_strategies_records url config todo :
  forall attempted w,
  let res := fst (try_strategies url config todo attempted w) in
  (forall page, data res = Some page -> page_ok page)
  /\ (success res = false ->
      attemptedStrategies res = attempted ++ map s_name todo).
Proof.
  induction todo as [| s rest IH]; intros attempted w; simpl.
  - split; [discriminate |]. intros _. now rewrite app_nil_r.
  - destruct (attemptCrawl _ _ _) as [[[clip links] | m] w1] eqn:Ha.
    + simpl. split; [| discriminate].
      intros page H. injection H as <-. eauto using attemptCrawl_page.
    + destruct rest as [| s2 rest'].
      * simpl. split; [discriminate | reflexivity].
      * specialize (IH (attempted ++ [s_name s]) (sleep 500 w1)).
        cbv zeta in IH. destruct IH as [IH1 IH2]. split; [exact IH1 |].
        intros Hf. rewrite (IH2 Hf), <- app_assoc. reflexivity.
Qed.

Lemma failure_of_ok url depth config w :
  let res := fst (crawlWithFallback url config w) in
  success res = false -> failure_ok config (failure_of url depth res).
Proof.
  intros res Hf. unfold failure_ok, failure_of. simpl. split.
  - destruct (error res) as [[| c m] |]; try discriminate;
      vm_compute; discriminate.
  - unfold res, crawlWithFallback in *.
    destruct (try_strategies_records url config (strategiesToTry config) [] w)
      as [_ H]. now apply H.
Qed.

Lemma records_turn config dom st st' :
  Forall page_ok (succeeded st) /\ Forall (failure_ok config) (failed st) ->
  turn config dom st st' ->
  Forall page_ok (succeeded st') /\ Forall (failure_ok config) (failed st').
Proof.
  intros [Hs Hf] Ht. destruct Ht as [e q _ _ | e q _ _ _ _]; [now split |].
  destruct (visit_spec config (e_url e) (e_depth e) (shifted st)) as [_ Hcase].
  cbv zeta in Hcase.
  change (failed (shifted st)) with (failed st) in Hcase.
  change (succeeded (shifted st)) with (succeeded st) in Hcase.
  destruct Hcase as [(page & _ & Hd & _ & Hs' & Hf' & _) | (Hfail & Hs' & Hf' & _)];
    rewrite Hs', Hf'.
  - split; [| exact Hf]. apply Forall_app. split; [exact Hs |].
    constructor; [| constructor].
    unfold crawlWithFallback in Hd.
    destruct (try_strategies_records (e_url e) config (strategiesToTry config) []
                (notify config (e_url e) (e_depth e) (shifted st))) as [H _].
    now apply H.
  - split; [exact Hs |]. apply Forall_app. split; [exact Hf |].
    constructor; [| constructor]. now apply failure_of_ok.
Qed.

Lemma records_reachable config dom startUrl w st :
  reachable config dom (initial_state startUrl w) st ->
  Forall page_ok (succeeded st) /\ Forall (failure_ok config) (failed st).
Proof.
  revert st. apply reachable_ind_turn; [split; constructor |].
  intros st st' H _ Ht. eauto using records_turn.
Qed.

(** *** Runs that visit nothing *)

Lemma crawl_loop_idle config dom st fuel :
  running config st = false -> crawl_loop fuel config dom st = Some st.
Proof. intros H. destruct fuel; simpl; now rewrite H. Qed.

Lemma crawl_loop_too_deep config dom startUrl w fuel :
  (maxDepth config < 0)%Z ->
  exists st,
    crawl_loop (S fuel) config dom (initial_state startUrl w) = Some st
    /\ visited st = [] /\ succeeded st = [] /\ failed st = [] /\ world st = w.
Proof.
  intros Hd.
  destruct (running config (initial_state startUrl w)) eqn:Hr.
  - cbn [crawl_loop]. rewrite Hr. unfold iteration. cbn [initial_state queue].
    cbn [e_depth visited set_has existsb orb].
    replace (maxDepth config <? 0)%Z with true by (symmetry; now apply Z.ltb_lt).
    eexists. split; [apply crawl_loop_idle; reflexivity |]. simpl. auto.
  - eexists. split; [now apply crawl_loop_idle |]. simpl. auto.
Qed.

End WithPlatform.
End RunFacts.

Import Run RunFacts.

(** ** What a run guarantees about its result *)

Section RunClaims.
Context {P : Platform}.

(** X1. Every address that a run visits, and so every address of its
    success and failure lists, has passed [shouldCrawl]: unless
    [sameDomainOnly] is off its domain is the domain of the start
    address, no exclude pattern accepts it, and when include patterns are
    given one of them accepts it. *)
Theorem visited_addresses_pass_filter (startUrl : jsstring)
    (options : RecursiveCrawlOptions) (w : World) :
  let config := make_config options in
  forall fuel r w',
    crawlRecursively fuel startUrl options w = Some (r, w') ->
    forall a,
      In a (visitedUrls r) \/ In a (map url (r_success r))
      \/ In a (map f_url (r_failed r)) ->
      shouldCrawl a (extractDomain startUrl) config = true
      /\ (sameDomainOnly config = true ->
          extractDomain a = extractDomain startUrl)
      /\ (forall ps pattern,
            excludePatterns config = Some ps -> In pattern ps ->
            pattern a = false)
      /\ (forall ps,
            includePatterns config = Some ps -> ps <> [] ->
            exists pattern, In pattern ps /\ pattern a = true).
Proof.
  intros config fuel r w' H a Ha.
  apply crawlRecursively_reachable in H as (st & Hreach & _ & Hs & Hf & Hv & _).
  assert (Hin : In a (visited st)).
  { pose proof (bookkeeping_reachable Hreach) as (_ & Hperm & _).
    rewrite Hs, Hf, Hv in Ha. destruct Ha as [Ha | Ha]; [exact Ha |].
    eapply Permutation_in; [symmetry; exact Hperm |].
    unfold recorded. apply in_or_app. exact Ha. }
  assert (Hpass : shouldCrawl a (extractDomain startUrl) config = true).
  { eapply visited_filtered; [| exact Hreach | exact Hin]. intros a' []. }
  split; [exact Hpass |]. now apply shouldCrawl_parts.
Qed.

(** X2. The crawl is breadth first.  At every state of a run the depths
    of the queue never decrease from its head to its end and span at most
    two levels, and no failure filed lies deeper than an entry that still
    waits; in the result the failures stand in order of depth, each at a
    depth between 0 and [maxDepth]. *)
Theorem breadth_first_order (startUrl : jsstring)
    (options : RecursiveCrawlOptions) (w : World) :
  let config := make_config options in
  let dom := extractDomain startUrl in
  (forall st,
     reachable config dom (initial_state startUrl w) st ->
     StronglySorted Z.le (map e_depth (queue st))
     /\ (forall e e', In e (queue st) -> In e' (queue st) ->
                      (e_depth e' <= e_depth e + 1)%Z)
     /\ (forall f e, In f (failed st) -> In e (queue st) ->
                     (f_depth f <= e_depth e)%Z))
  /\ (forall fuel r w',
        crawlRecursively fuel startUrl options w = Some (r, w') ->
        StronglySorted Z.le (map f_depth (r_failed r))
        /\ (forall f, In f (r_failed r) ->
                      (0 <= f_depth f <= maxDepth config)%Z)).
Proof.
  intros config dom. split.
  - intros st Hreach.
    destruct (level_order_reachable Hreach) as (Hs & Hq & _ & _).
    apply StronglySorted_app in Hs as (_ & H2 & H12).
    split; [exact H2 |]. split; [exact Hq |].
    intros f e Hf He. apply H12; now apply in_map.
  - intros fuel r w' H.
    apply crawlRecursively_reachable in H as (st & Hreach & _ & _ & Hf & _).
    rewrite Hf.
    destruct (level_order_reachable Hreach) as (Hs & _ & _ & Hb).
    apply StronglySorted_app in Hs as (H1 & _ & _). auto.
Qed.

(** X3. The records of a result are well formed: every page of the
    success list has a title, at least 100 characters of content and the
    word count of that content; every failure has an error message and
    names all the strategies that were to be tried, five with fallback
    and one without. *)
Theorem records_are_well_formed (startUrl : jsstring)
    (options : RecursiveCrawlOptions) (w : World) :
  let config := make_config options in
  forall fuel r w',
    crawlRecursively fuel startUrl options w = Some (r, w') ->
    (forall page, In page (r_success r) ->
       title page <> []
       /\ 100 <= length (content page)
       /\ wordCount page = countWords (content page))
    /\ (forall f, In f (r_failed r) ->
          f_error f <> []
          /\ f_attemptedStrategies f
             = (if useFallback config then strategy_names else [js "default"])
          /\ length (f_attemptedStrategies f)
             = (if useFallback config then 5 else 1)).
Proof.
  intros config fuel r w' H.
  apply crawlRecursively_reachable in H as (st & Hreach & _ & Hs & Hf & _).
  rewrite Hs, Hf. destruct (records_reachable Hreach) as [Hp Hfl].
  rewrite Forall_forall in Hp, Hfl. split; [exact Hp |].
  intros f Hin. destruct (Hfl f Hin) as [He Ha]. split; [exact He |].
  rewrite Ha. unfold strategiesToTry. fold config.
  destruct (useFallback config); split; reflexivity.
Qed.

(** X4. Nothing to crawl.  With a page budget of zero or less the loop
    is not entered, and with a negative [maxDepth] the start entry is
    taken off the queue and skipped: in both cases the three lists of the
    result are empty and the world is as it was, no request made and no
    delay taken. *)
Theorem nothing_to_crawl (startUrl : jsstring)
    (options : RecursiveCrawlOptions) (w : World) :
  let config := make_config options in
  let nothing r :=
    r_success r = [] /\ r_failed r = [] /\ visitedUrls r = [] in
  ((maxPages config <= 0)%Z ->
   forall fuel, exists r,
     crawlRecursively fuel startUrl options w = Some (r, w) /\ nothing r)
  /\ ((maxDepth config < 0)%Z ->
      forall fuel, exists r,
        crawlRecursively (S fuel) startUrl options w = Some (r, w)
        /\ nothing r).
Proof.
  intros config nothing. split.
  - intros Hp fuel. unfold crawlRecursively. fold config.
    rewrite crawl_loop_idle.
    + eexists. split; [reflexivity |]. unfold nothing. simpl. auto.
    + unfold running. simpl. apply Z.ltb_ge. exact Hp.
  - intros Hd fuel. unfold crawlRecursively. fold config.
    destruct (crawl_loop_too_deep config (extractDomain startUrl) startUrl w fuel Hd)
      as (st & -> & Hv & Hs & Hf & Hw).
    rewrite Hw. eexists. split; [reflexivity |]. unfold nothing. simpl. auto.
Qed.

End RunClaims.

Module RunWitnesses.
Import Site.

(** The small site crawled without the addresses that contain [/p1]. *)
Lemma visited_addresses_pass_filter_witness :
  exists r w',
    @crawlRecursively P0 30 (js Site.home) (Filters.excluding "/p1") 0%Z
    = Some (r, w')
    /\ forall a, In a (visitedUrls r) -> includes a (js "/p1") = false.
Proof.
  destruct (@crawlRecursively P0 30 (js Site.home) (Filters.excluding "/p1") 0%Z)
    as [[r w'] |] eqn:E; [| vm_compute in E; discriminate].
  exists r, w'. split; [reflexivity |].
  intros a Hin.
  destruct (@visited_addresses_pass_filter P0 (js Site.home)
              (Filters.excluding "/p1") 0%Z 30 r w' E a (or_introl Hin))
    as (_ & _ & Hex & _).
  apply (Hex [Filters.containing "/p1"] (Filters.containing "/p1") eq_refl).
  now left.
Defined.

Lemma breadth_first_order_witness :
  exists r w',
    @crawlRecursively P0 5 short no_options 0%Z = Some (r, w')
    /\ StronglySorted Z.le (map f_depth (r_failed r)).
Proof.
  destruct (@crawlRecursively P0 5 short no_options 0%Z)
    as [[r w'] |] eqn:E; [| vm_compute in E; discriminate].
  exists r, w'. split; [reflexivity |].
  destruct (@breadth_first_order P0 short no_options 0%Z) as [_ H].
  exact (proj1 (H 5 r w' E)).
Defined.

Lemma records_are_well_formed_witness :
  exists r w',
    @crawlRecursively P0 30 (js Site.home) no_options 0%Z = Some (r, w')
    /\ forall page, In page (r_success r) -> 100 <= length (content page).
Proof.
  destruct (@crawlRecursively P0 30 (js Site.home) no_options 0%Z)
    as [[r w'] |] eqn:E; [| vm_compute in E; discriminate].
  exists r, w'. split; [reflexivity |].
  intros page Hin.
  destruct (@records_are_well_formed P0 (js Site.home) no_options 0%Z 30 r w' E)
    as [H _].
  exact (proj1 (proj2 (H page Hin))).
Defined.

Lemma nothing_to_crawl_witness :
  (exists r,
     @crawlRecursively P0 0 (js Site.home) (with_max_pages 0) 7%Z = Some (r, 7%Z)
     /\ visitedUrls r = [])
  /\ (exists r,
        @crawlRecursively P0 1 (js Site.home) (with_max_depth (-1)) 7%Z
        = Some (r, 7%Z)
        /\ visitedUrls r = []).
Proof.
  destruct (@nothing_to_crawl P0 (js Site.home) (with_max_pages 0) 7%Z)
    as [H1 _].
  destruct (@nothing_to_crawl P0 (js Site.home) (with_max_depth (-1)) 7%Z)
    as [_ H2].
  split.
  - destruct (H1 ltac:(vm_compute; discriminate) 0) as (r & Hr & _ & _ & Hv).
    exists r. split; [exact Hr | exact Hv].
  - destruct (H2 ltac:(vm_compute; reflexivity) 0) as (r & Hr & _ & _ & Hv).
    exists r. split; [exact Hr | exact Hv].
Defined.

End RunWitnesses.

Import Run RunFacts.

(** ** Counting the requests *)

Module RequestFacts.
Section Counts.
Variable P : Platform.

Lemma attemptCrawl_logged url options (wl : @World (Logged P)) :
  exists r w1,
    @attemptCrawl (Logged P) url options wl = (r, (w1, snd wl ++ [url])).
Proof.
  unfold attemptCrawl. simpl. destruct (@fetch P url _ _ (fst wl)) as [o w1].
  eauto.
Qed.

(** The fallback loop on the logged platform: it makes one request to
    [url] for each strategy that it names, it names the strategies in
    their order, and it stops early only on a success. *)
Lemma try_strategies_trace url (config : @CrawlConfig (Logged P)) todo :
  todo <> [] ->
  forall attempted (wl : @World (Logged P)),
  let out := try_strategies url config todo attempted wl in
  exists k,
    1 <= k <= length todo
    /\ attemptedStrategies (fst out) = attempted ++ map s_name (firstn k todo)
    /\ snd (snd out) = snd wl ++ repeat url k
    /\ (success (fst out) = false -> k = length todo).
Proof.
  induction todo as [| s rest IH]; intros Hne attempted wl; [congruence |].
  destruct (attemptCrawl_logged url (attempt_options config s) wl)
    as (r & w1 & Ha).
  cbv zeta. cbn [try_strategies]. rewrite Ha.
  destruct r as [[clip links] | m].
  - exists 1. cbn [fst snd success attemptedStrategies length firstn map repeat].
    split; [lia |]. split; [reflexivity |]. split; [reflexivity | discriminate].
  - destruct rest as [| s2 rest'].
    + exists 1. cbn [fst snd success attemptedStrategies length firstn map repeat].
      split; [lia |]. split; [reflexivity |]. split; reflexivity.
    + destruct (IH ltac:(discriminate) (attempted ++ [s_name s])
                  (@sleep (Logged P) 500 (w1, snd wl ++ [url])))
        as (k & Hk & Hnames & Hlog & Hall).
      exists (S k). cbv zeta in *. split; [cbn [length] in *; lia |].
      split; [| split].
      * rewrite Hnames, <- app_assoc. reflexivity.
      * rewrite Hlog. cbn [sleep Logged snd repeat]. rewrite <- app_assoc.
        reflexivity.
      * intros Hf. rewrite (Hall Hf). reflexivity.
Qed.

Lemma strategiesToTry_length (config : @CrawlConfig (Logged P)) :
  strategiesToTry config <> []
  /\ length (strategiesToTry config) = (if useFallback config then 5 else 1)
  /\ map s_name (strategiesToTry config)
     = (if useFallback config then strategy_names else [js "default"]).
Proof.
  unfold strategiesToTry. destruct (useFallback config); simpl;
    repeat split; discriminate.
Qed.

(** What a visit adds to the log. *)
Lemma visit_requests config u d (st : @CrawlState (Logged P)) :
  log_blind config ->
  exists k,
    1 <= k <= (if useFallback config then 5 else 1)
    /\ log_of (visit config u d st) = log_of st ++ repeat u k.
Proof.
  intros Hblind. unfold visit, log_of.
  assert (Hn : snd (notify config u d st) = snd (world st)).
  { unfold notify. destruct (onProgress config) as [cb |] eqn:E; [| reflexivity].
    now apply Hblind. }
  destruct (strategiesToTry_length config) as (Hne & Hlen & _).
  destruct (@try_strategies_trace u config (strategiesToTry config) Hne []
              (notify config u d st)) as (k & Hk & _ & Hlog & _).
  cbv zeta in Hlog. unfold crawlWithFallback.
  destruct (try_strategies u config (strategiesToTry config) []
              (notify config u d st)) as [res w1].
  simpl in Hlog. rewrite Hn in Hlog.
  assert (Hw : snd (world (pause config (record config u d st res w1))) = snd w1).
  { unfold pause, record.
    destruct (success res), (data res); simpl;
      match goal with |- context [if ?c then _ else _] => destruct c end;
      reflexivity. }
  exists k. rewrite Hw, <- Hlen. auto.
Qed.

(** The number of requests against the number of records. *)
Lemma requests_bounded config dom st0 :
  log_blind config ->
  length (log_of st0) <= 5 * processed st0 ->
  processed st0 <= length (log_of st0) ->
  forall st, reachable config dom st0 st ->
  processed st <= length (log_of st) <= 5 * processed st
  /\ (useFallback config = false -> length (log_of st0) = processed st0 ->
      length (log_of st) = processed st).
Proof.
  intros Hblind H0 H1 st Hreach. pattern st.
  eapply reachable_ind_turn; [| | exact Hreach].
  - split; [lia | auto].
  - clear st Hreach. intros st st' [Hinv Heq] _ Ht.
    destruct Ht as [e q _ _ | e q _ _ _ _].
    + unfold log_of, processed, shifted in *. simpl. auto.
    + rewrite processed_visit.
      destruct (@visit_requests config (e_url e) (e_depth e) (shifted st) Hblind)
        as (k & Hk & Hlog).
      rewrite Hlog, length_app, repeat_length.
      change (log_of (shifted st)) with (log_of st).
      change (processed (shifted st)) with (processed st).
      split.
      * destruct (useFallback config); lia.
      * intros Hfb Hst. specialize (Heq Hfb Hst). rewrite Hfb in Hk. lia.
Qed.

End Counts.
End RequestFacts.

Import Run RunFacts RequestFacts.

(** ** The requests of a run *)

Section RequestClaims.
Variable P : Platform.

(** X5. One request per attempt.  On any platform, with its requests
    logged, [crawlWithFallback] names a first part of the strategies to
    try, at least one, in their order, and has sent exactly one request
    to the address for each strategy named; a failure names them all, a
    success carries a page for the address. *)
Theorem one_request_per_attempt (url : jsstring)
    (config : @CrawlConfig (Logged P)) (wl : @World (Logged P)) :
  let out := @crawlWithFallback (Logged P) url config wl in
  let names := if useFallback config then strategy_names else [js "default"] in
  exists k,
    1 <= k <= length names
    /\ attemptedStrategies (fst out) = firstn k names
    /\ snd (snd out) = snd wl ++ repeat url k
    /\ (success (fst out) = false -> attemptedStrategies (fst out) = names)
    /\ (success (fst out) = true ->
        exists page, data (fst out) = Some page /\ Crawler.url page = url).
Proof.
  intros out names. subst out. unfold crawlWithFallback.
  destruct (strategiesToTry_length config) as (Hne & Hlen & Hnames).
  destruct (@try_strategies_trace P url config (strategiesToTry config) Hne [] wl)
    as (k & Hk & Hatt & Hlog & Hall).
  cbv zeta in Hatt, Hlog, Hall.
  assert (Hl : length names = length (strategiesToTry config)).
  { unfold names. rewrite Hlen. destruct (useFallback config); reflexivity. }
  exists k. split; [lia |].
  assert (Hfirst : attemptedStrategies
                     (fst (try_strategies url config (strategiesToTry config) [] wl))
                   = firstn k names).
  { rewrite Hatt. cbn [app]. unfold names. rewrite <- Hnames.
    now rewrite firstn_map. }
  split; [exact Hfirst |]. split; [exact Hlog |]. split.
  - intros Hf. rewrite Hfirst, (Hall Hf), <- Hl. apply firstn_all.
  - intros Ht.
    destruct (try_strategies url config (strategiesToTry config) [] wl)
      as [res w1] eqn:E.
    apply try_strategies_data in E. cbn [fst] in *.
    destruct E as [[_ Hpage] | [E _]]; [exact Hpage | congruence].
Qed.

(** X6. The requests of a run.  With the requests logged, a run sends at
    least one and at most five requests for each record of its result,
    exactly one without fallback, so never more than five times the page
    budget; and every request goes to an address of the visited set. *)
Theorem requests_within_budget (startUrl : jsstring)
    (options : @RecursiveCrawlOptions P) (w : @World P) :
  let config := make_config (Logging.lift_options options) in
  forall fuel r w' log,
    @crawlRecursively (Logged P) fuel startUrl (Logging.lift_options options)
      (w, []) = Some (r, (w', log)) ->
    let records := length (r_success r) + length (r_failed r) in
    records <= length log <= 5 * records
    /\ (useFallback config = false -> length log = records)
    /\ ((0 <= maxPages config)%Z ->
        (Z.of_nat (length log) <= 5 * maxPages config)%Z)
    /\ (forall a, In a log -> In a (visitedUrls r)).
Proof.
  intros config fuel r w' log H.
  apply (@crawlRecursively_reachable (Logged P) fuel startUrl
           (Logging.lift_options options) (w, []) r (w', log)) in H
    as (st & Hreach & _ & Hs & Hf & Hv & Hw).
  assert (Hblind : log_blind config) by apply lift_options_log_blind.
  assert (Hlog : log = log_of st) by (unfold log_of; now rewrite <- Hw).
  cbv zeta. rewrite Hs, Hf, Hv, Hlog. fold (processed st).
  set (st0 := @initial_state (Logged P) startUrl (w, [])) in *.
  assert (H0 : length (log_of st0) <= 5 * processed st0) by (unfold st0, log_of, processed; simpl; lia).
  assert (H1 : processed st0 <= length (log_of st0)) by (unfold st0, log_of, processed; simpl; lia).
  destruct (@requests_bounded P config (@extractDomain (Logged P) startUrl)
              st0 Hblind H0 H1 st Hreach) as [Hb He].
  split; [exact Hb |]. split; [| split].
  - intros Hfb. now apply He.
  - intros Hpos.
    assert (Hp : (Z.of_nat (processed st) <= maxPages config)%Z).
    { eapply budget_invariant; [| exact Hreach]. simpl. exact Hpos. }
    lia.
  - eapply log_within_visited; eauto. intros a [].
Qed.

End RequestClaims.

Module RequestWitnesses.
Import Site.

(** The address that answers 404: five requests, five names. *)
Lemma one_request_per_attempt_witness :
  exists k,
    attemptedStrategies
      (fst (@crawlWithFallback (Logged P0) missing
              (make_config (Logging.lift_options no_options)) (0%Z, [])))
    = firstn k strategy_names
    /\ snd (snd (@crawlWithFallback (Logged P0) missing
                   (make_config (Logging.lift_options no_options)) (0%Z, [])))
       = repeat missing k.
Proof.
  destruct (@one_request_per_attempt P0 missing
              (make_config (Logging.lift_options no_options)) (0%Z, []))
    as (k & _ & H1 & H2 & _).
  exists k. split; [exact H1 | exact H2].
Defined.

(** The whole site: eleven pages, eleven requests. *)
Lemma requests_within_budget_witness :
  exists r w' log,
    @crawlRecursively (Logged P0) 30 (js Site.home)
      (Logging.lift_options no_options) (0%Z, []) = Some (r, (w', log))
    /\ length log <= 5 * (length (r_success r) + length (r_failed r)).
Proof.
  destruct (@crawlRecursively (Logged P0) 30 (js Site.home)
              (Logging.lift_options no_options) (0%Z, []))
    as [[r [w' log]] |] eqn:E; [| vm_compute in E; discriminate].
  exists r, w', log. split; [reflexivity |].
  destruct (@requests_within_budget P0 (js Site.home) no_options 0%Z
              30 r w' log E) as [[_ H] _].
  exact H.
Defined.

End RequestWitnesses.

(** ** Strings: prefixes, suffixes and cuts *)

Module StringFacts.

Lemma startsWith_spec s p :
  startsWith s p = true <-> exists t, s = p ++ t.
Proof.
  revert s. induction p as [| c p IH]; intros s.
  - split; [intros _; now exists s | intros _; destruct s; reflexivity].
  - destruct s as [| d s]; cbn [startsWith app].
    + split; [discriminate | intros [t H]; discriminate].
    + rewrite andb_true_iff, IH. split.
      * intros [Hc [t ->]]. apply N.eqb_eq in Hc. subst d. now exists t.
      * intros [t H]. injection H as -> ->. split; [apply N.eqb_refl | now exists t].
Qed.

Lemma endsWith_spec s p :
  endsWith s p = true <-> exists t, s = t ++ p.
Proof.
  unfold endsWith. rewrite startsWith_spec. split.
  - intros [t H]. exists (rev t).
    rewrite <- (rev_involutive s), H, rev_app_distr, rev_involutive. reflexivity.
  - intros [t ->]. exists (rev t). apply rev_app_distr.
Qed.

Lemma before_prefix sep s : exists t, s = before sep s ++ t.
Proof.
  induction s as [| c s [t IH]]; simpl.
  - now exists [].
  - destruct (c =? sep)%N.
    + now exists (c :: s).
    + exists t. simpl. now rewrite <- IH.
Qed.

Lemma before_without sep s : ~ In sep (before sep s).
Proof.
  induction s as [| c s IH]; simpl; [tauto |].
  destruct (N.eqb_spec c sep) as [| Hne]; simpl; [tauto |].
  intros [H | H]; auto.
Qed.

Lemma before_In sep s c : In c (before sep s) -> In c s.
Proof.
  destruct (before_prefix sep s) as [t H]. intros Hc. rewrite H.
  apply in_or_app. now left.
Qed.

(** A cut at [sep] keeps a prefix that has no [sep]. *)
Lemma before_keeps_prefix sep p t :
  ~ In sep p -> exists t', before sep (p ++ t) = p ++ t'.
Proof.
  induction p as [| c p IH]; intros Hp; simpl.
  - now exists (before sep t).
  - destruct (N.eqb_spec c sep) as [-> | Hne]; [exfalso; apply Hp; now left |].
    destruct IH as [t' IH]; [intros H; apply Hp; now right |].
    exists t'. now rewrite IH.
Qed.

Lemma before_all sep s : ~ In sep s -> before sep s = s.
Proof.
  induction s as [| c s IH]; intros Hs; simpl; [reflexivity |].
  destruct (N.eqb_spec c sep) as [-> | Hne]; [exfalso; apply Hs; now left |].
  rewrite IH; [reflexivity |]. intros H. apply Hs. now right.
Qed.

Lemma before_stop sep s t : ~ In sep s -> before sep (s ++ sep :: t) = s.
Proof.
  induction s as [| c s IH]; intros Hs; simpl.
  - now rewrite N.eqb_refl.
  - destruct (N.eqb_spec c sep) as [-> | Hne]; [exfalso; apply Hs; now left |].
    rewrite IH; [reflexivity |]. intros H. apply Hs. now right.
Qed.

Lemma startsWith_before s p sep :
  ~ In sep p -> startsWith s p = true -> startsWith (before sep s) p = true.
Proof.
  intros Hp H. apply startsWith_spec in H as [t ->].
  destruct (@before_keeps_prefix sep p t Hp) as [t' ->].
  apply startsWith_spec. now exists t'.
Qed.

End StringFacts.

(** ** Request headers *)

Module HeaderFacts.

(** Object spread as a look-up: a key of the second record wins. *)
Lemma header_get_spread k a b :
  header_get k (spread a b)
  = match header_get k b with
    | Some v => Some v
    | None => header_get k a
    end.
Proof.
  unfold spread.
  assert (Hmap : forall a0,
            header_get k
              (map (fun kv => match header_get (fst kv) b with
                              | Some v => (fst kv, v)
                              | None => kv
                              end) a0 ++
               filter (fun kv => match header_get (fst kv) a with
                                 | Some _ => false
                                 | None => true
                                 end) b)
            = match header_get k a0 with
              | Some v =>
                  match header_get k b with
                  | Some v' => Some v'
                  | None => Some v
                  end
              | None =>
                  header_get k
                    (filter (fun kv => match header_get (fst kv) a with
                                       | Some _ => false
                                       | None => true
                                       end) b)
              end).
  { induction a0 as [| [k0 v0] a0 IH]; [reflexivity |].
    cbn [map app fst]. destruct (header_get k0 b) as [vb |] eqn:Hb;
      cbn [header_get]; destruct (JS.eqb k k0) eqn:E.
    - apply eqb_eq in E. subst k0. now rewrite Hb.
    - exact IH.
    - apply eqb_eq in E. subst k0. now rewrite Hb.
    - exact IH. }
  rewrite Hmap. destruct (header_get k a) as [va |] eqn:Ha.
  - destruct (header_get k b); reflexivity.
  - clear Hmap. induction b as [| [k0 v0] b IH]; [reflexivity |].
    cbn [filter fst header_get].
    destruct (JS.eqb k k0) eqn:E.
    + apply eqb_eq in E. subst k0. rewrite Ha. cbn [header_get].
      now rewrite eqb_refl.
    + destruct (header_get k0 a); [exact IH |].
      cbn [header_get]. now rewrite E.
Qed.

(** The keys of the headers of a strategy do not depend on its user
    agent. *)
Lemma getHeaders_keys x y k :
  match header_get k (getHeaders x) with Some _ => false | None => true end
  = match header_get k (getHeaders y) with Some _ => false | None => true end.
Proof.
  unfold getHeaders. cbn [header_get].
  repeat match goal with
         | |- context [JS.eqb k ?s] => destruct (JS.eqb k s); [reflexivity |]
         end.
  reflexivity.
Qed.

Lemma spread_getHeaders x y h ua :
  header_get (js "User-Agent") h = Some ua ->
  spread (getHeaders x) h = spread (getHeaders y) h.
Proof.
  intros H. unfold spread. f_equal.
  - unfold getHeaders. cbn [map fst]. now rewrite H.
  - apply filter_ext. intros kv. apply getHeaders_keys.
Qed.

End HeaderFacts.

Import StringFacts HeaderFacts.

(** ** Headers, links and file addresses *)

Section PageClaims.
Context {P : Platform}.

(** X7. The headers of the caller override those of the strategy, key by
    key.  A caller who sets [User-Agent] therefore gets the same request
    headers from each of the five strategies: the fallback then repeats
    one and the same request. *)
Theorem caller_headers_override (config : CrawlConfig) :
  (forall s k,
     header_get k (at_headers (attempt_options config s))
     = match header_get k (or_default (headers config) []) with
       | Some v => Some v
       | None => header_get k (s_headers s)
       end)
  /\ (forall h ua,
        headers config = Some h ->
        header_get (js "User-Agent") h = Some ua ->
        forall s, In s strategies ->
          header_get (js "User-Agent") (at_headers (attempt_options config s))
          = Some ua
          /\ attempt_options config s = attempt_options config hd_strategy).
Proof.
  split.
  - intros s k. unfold attempt_options. cbn [at_headers].
    apply header_get_spread.
  - intros h ua Hh Hua s Hs. split.
    + unfold attempt_options. cbn [at_headers].
      rewrite header_get_spread, Hh. cbn [or_default]. now rewrite Hua.
    + unfold attempt_options, hd_strategy. rewrite Hh. cbn [or_default s_headers].
      f_equal.
      unfold strategies in Hs. cbn [In] in Hs.
      destruct Hs as [<- | [<- | [<- | [<- | [<- | []]]]]]; cbn [s_headers];
        eapply spread_getHeaders; eauto.
Qed.

(** X8. Every link that [extractLinks] returns comes from an anchor of
    the page whose address resolved to an [http] or [https] address that
    is not a file address; the link holds that address cut before the
    first [#] and [?], so it starts with [http://] or [https://] and
    contains neither character; its text has at most 100 characters and
    its depth is 0.  There are no more links than anchors. *)
Theorem extracted_links_are_clean (html baseUrl : jsstring) :
  (forall l, In l (extractLinks html baseUrl) ->
     (startsWith (l_url l) (js "http://") = true
      \/ startsWith (l_url l) (js "https://") = true)
     /\ ~ In HASH (l_url l) /\ ~ In QUERY (l_url l)
     /\ length (l_text l) <= 100
     /\ l_depth l = 0%Z
     /\ exists anchor absoluteUrl,
          In anchor (anchors html baseUrl)
          /\ resolveURL (a_href anchor) baseUrl = Some absoluteUrl
          /\ isFileUrl absoluteUrl = false
          /\ l_url l = before QUERY (before HASH absoluteUrl)
          /\ l_text l = slice0 100 (trim (a_textContent anchor)))
  /\ length (extractLinks html baseUrl) <= length (anchors html baseUrl).
Proof.
  unfold extractLinks. generalize (anchors html baseUrl) as anchorList.
  generalize (@nil jsstring) as seen.
  intros seen anchorList. revert seen.
  induction anchorList as [| anchor rest IH]; intros seen.
  - split; [intros l [] | reflexivity].
  - assert (Hskip : forall seen',
              (forall l, In l (extractLinks_from rest baseUrl seen') ->
                 (startsWith (l_url l) (js "http://") = true
                  \/ startsWith (l_url l) (js "https://") = true)
                 /\ ~ In HASH (l_url l) /\ ~ In QUERY (l_url l)
                 /\ length (l_text l) <= 100
                 /\ l_depth l = 0%Z
                 /\ exists anchor0 absoluteUrl,
                      In anchor0 (anchor :: rest)
                      /\ resolveURL (a_href anchor0) baseUrl = Some absoluteUrl
                      /\ isFileUrl absoluteUrl = false
                      /\ l_url l = before QUERY (before HASH absoluteUrl)
                      /\ l_text l = slice0 100 (trim (a_textContent anchor0)))
              /\ length (extractLinks_from rest baseUrl seen')
                 <= length (anchor :: rest)).
    { intros seen'. destruct (IH seen') as [H1 H2]. split; [| simpl; lia].
      intros l Hl. destruct (H1 l Hl) as (A & B & C & D & E & a0 & u0 & F & G).
      repeat (split; [assumption |]). exists a0, u0. split; [now right | exact G]. }
    cbn [extractLinks_from].
    destruct (a_href anchor) as [| c href] eqn:Hhref; [apply Hskip |].
    destruct (resolveURL (c :: href) baseUrl) as [absoluteUrl |] eqn:Hres;
      [| apply Hskip].
    destruct (set_has absoluteUrl seen); [apply Hskip |].
    destruct (negb (startsWith absoluteUrl (js "http://"))
              && negb (startsWith absoluteUrl (js "https://"))) eqn:Hhttp;
      [apply Hskip |].
    destruct (isFileUrl absoluteUrl) eqn:Hfile; [apply Hskip |].
    destruct (Hskip (seen ++ [absoluteUrl])) as [H1 _].
    destruct (IH (seen ++ [absoluteUrl])) as [_ H2].
    split; [| simpl in *; lia].
    intros l [<- | Hl]; [| now apply H1]. cbn [l_url l_text l_depth].
    split; [| split; [| split; [| split; [| split]]]].
    + apply andb_false_iff in Hhttp.
      destruct Hhttp as [Hh | Hh]; apply negb_false_iff in Hh; [left | right];
        apply startsWith_before; try apply startsWith_before; try exact Hh;
        vm_compute; intuition discriminate.
    + intros Hin. apply before_In in Hin. now apply before_without in Hin.
    + apply before_without.
    + unfold slice0. rewrite length_firstn. lia.
    + reflexivity.
    + exists anchor, absoluteUrl. rewrite Hhref.
      repeat (split; [first [now left | assumption | reflexivity] |]).
      reflexivity.
Qed.


End PageClaims.

(** X10. [isFileUrl] looks at the end of the lower-cased address: an
    address is a file address exactly when, lower-cased, it ends in one
    of the 25 extensions.  So an address that ends in an extension
    written in any letter case is a file address, an address without a
    dot is not, and letter case never matters. *)
Theorem isFileUrl_by_extension :
  (forall url,
     isFileUrl url = true <->
     exists ext stem,
       In ext fileExtensions /\ toLowerCase url = stem ++ js ext)
  /\ (forall stem suffix ext,
        In ext fileExtensions -> toLowerCase suffix = js ext ->
        isFileUrl (stem ++ suffix) = true)
  /\ (forall url, ~ In DOT url -> isFileUrl url = false)
  /\ (forall url, isFileUrl (toLowerCase url) = isFileUrl url)
  /\ length fileExtensions = 25.
Proof.
  assert (Hiff : forall url,
            isFileUrl url = true <->
            exists ext stem,
              In ext fileExtensions /\ toLowerCase url = stem ++ js ext).
  { intros url. unfold isFileUrl. rewrite existsb_exists. split.
    - intros (ext & Hin & He). apply endsWith_spec in He as [stem He]. eauto.
    - intros (ext & stem & Hin & He). exists ext. split; [exact Hin |].
      apply endsWith_spec. eauto. }
  split; [exact Hiff |]. split; [| split; [| split]].
  - intros stem suffix ext Hin Hs. apply Hiff.
    exists ext, (toLowerCase stem). split; [exact Hin |].
    unfold toLowerCase in *. now rewrite map_app, Hs.
  - intros url Hdot. destruct (isFileUrl url) eqn:E; [| reflexivity].
    exfalso. apply Hiff in E as (ext & stem & Hin & He).
    assert (Hd : In DOT (js ext)).
    { assert (Hall : forallb (fun e => existsb (N.eqb DOT) (js e)) fileExtensions
                     = true) by (vm_compute; reflexivity).
      rewrite forallb_forall in Hall. apply Hall in Hin.
      apply existsb_exists in Hin as (c & Hc & Hcd).
      apply N.eqb_eq in Hcd. now subst c. }
    assert (Hl : In DOT (toLowerCase url))
      by (rewrite He; apply in_or_app; now right).
    unfold toLowerCase in Hl. apply in_map_iff in Hl as (c & Hc & Hin').
    assert (c = DOT).
    { unfold lower_char, DOT in *.
      destruct ((65 <=? c) && (c <=? 90))%N eqn:Hr; [| exact Hc].
      apply andb_prop in Hr as [Hr _]. apply N.leb_le in Hr. lia. }
    subst c. contradiction.
  - intros url. unfold isFileUrl. now rewrite UrlFacts.toLowerCase_idem.
  - reflexivity.
Qed.

Module PageWitnesses.
Import Site.

Lemma caller_headers_override_witness :
  Forall
    (fun s =>
       header_get (js "User-Agent")
         (at_headers (@attempt_options P0 (make_config (Filters.sending "mine")) s))
       = Some (js "mine"))
    strategies.
Proof.
  apply Forall_forall. intros s Hs.
  destruct (@caller_headers_override P0 (make_config (Filters.sending "mine")))
    as [_ H].
  exact (proj1 (H [(js "User-Agent", js "mine")] (js "mine") eq_refl eq_refl s Hs)).
Defined.

(** A page with a link to a section, a mail address and a file. *)
Lemma extracted_links_are_clean_witness :
  let page := Shelf.platform [link_to "https://a.test/p#top"; link_to "mailto:a@a.test";
                              link_to "https://a.test/d.pdf"] in
  map l_url (@extractLinks page [] (js Site.home)) = [js "https://a.test/p"]
  /\ forall l, In l (@extractLinks page [] (js Site.home)) -> ~ In HASH (l_url l).
Proof.
  intros page. split; [vm_compute; reflexivity |].
  intros l Hl.
  destruct (@extracted_links_are_clean page [] (js Site.home)) as [H _].
  exact (proj1 (proj2 (H l Hl))).
Defined.


Lemma isFileUrl_by_extension_witness :
  isFileUrl (js "https://a.test/Report.PDF") = true
  /\ isFileUrl (js "https://a/test") = false.
Proof.
  destruct isFileUrl_by_extension as (_ & H1 & H2 & _).
  split.
  - apply (H1 (js "https://a.test/Report") (js ".PDF") ".pdf"%string).
    + vm_compute. auto 10.
    + vm_compute. reflexivity.
  - apply H2. vm_compute. intuition discriminate.
Defined.

End PageWitnesses.

Import Address StringFacts UrlFacts NormalizeFacts.

(** ** Addresses of the URL model, taken apart and put together *)

Module ParseFacts.

(** The parts of an address that parses. *)
Lemma parse_shape x u :
  parse x = Some u ->
  exists scheme auth path rest,
    x = scheme ++ [COLON; SLASH; SLASH] ++ auth ++ path ++ rest
    /\ forallb (not_chr COLON) scheme = true
    /\ is_special (toLowerCase scheme) = true
    /\ host_ok auth = true /\ path_ok path = true
    /\ (path = [] \/ exists p', path = SLASH :: p')
    /\ (rest = [] \/ exists c t, rest = c :: t /\ stops_path c = true)
    /\ u = {| protocol := toLowerCase scheme ++ [COLON];
              host := toLowerCase auth;
              hostname := toLowerCase auth;
              pathname := match path with [] => [SLASH] | _ => path end |}.
Proof.
  unfold parse.
  destruct (span (not_chr COLON) x) as [scheme rest0] eqn:Hsch.
  apply span_spec in Hsch as (Hx & Hscheme & _).
  destruct rest0 as [| c1 [| c2 [| c3 rest2]]]; try discriminate.
  destruct ((c1 =? COLON)%N && (c2 =? SLASH)%N && (c3 =? SLASH)%N) eqn:Hc;
    simpl; [| discriminate].
  apply andb_prop in Hc as [Hc Hc3]. apply andb_prop in Hc as [Hc1 Hc2].
  apply N.eqb_eq in Hc1, Hc2, Hc3. subst c1 c2 c3.
  destruct (is_special (toLowerCase scheme)) eqn:Hsp; [| discriminate].
  destruct (span _ rest2) as [auth tail] eqn:Hauth.
  destruct (span _ tail) as [path rest3] eqn:Hpath.
  destruct (host_ok auth) eqn:Hh; [| discriminate].
  destruct (path_ok path) eqn:Hp; [| discriminate].
  simpl. intros H. injection H as <-.
  apply span_spec in Hauth as (Hr2 & _ & Hhead).
  apply span_spec in Hpath as (Htail & _ & Hhead3).
  exists scheme, auth, path, rest3.
  split; [subst; reflexivity |]. repeat (split; [assumption |]).
  split; [| split; [| reflexivity]].
  - destruct path as [| c p']; [now left | right]. exists p'. f_equal.
    subst tail. cbn [app] in Hhead.
    assert (Hcp : path_ok (c :: p') = true) by exact Hp.
    apply (path_scan_chars SegOther) in Hcp. cbn [forallb] in Hcp.
    apply andb_prop in Hcp as [Hcp _]. unfold stops_path in Hcp.
    apply negb_false_iff in Hhead. apply negb_true_iff in Hcp.
    apply orb_false_iff in Hcp as [Hq Hx']. rewrite Hq, Hx' in Hhead.
    rewrite !orb_false_r in Hhead. now apply N.eqb_eq.
  - destruct rest3 as [| c t]; [now left | right]. exists c, t.
    split; [reflexivity |]. unfold stops_path. now apply negb_false_iff.
Qed.

(** An address put together from parts that fit parses to these parts,
    whatever query or fragment follows. *)
Lemma parse_build scheme auth path rest :
  forallb (not_chr COLON) scheme = true ->
  is_special (toLowerCase scheme) = true ->
  host_ok auth = true -> path_ok path = true ->
  (path = [] \/ exists p', path = SLASH :: p') ->
  (rest = [] \/ exists c t, rest = c :: t /\ stops_path c = true) ->
  parse (scheme ++ [COLON; SLASH; SLASH] ++ auth ++ path ++ rest)
  = Some {| protocol := toLowerCase scheme ++ [COLON];
            host := toLowerCase auth;
            hostname := toLowerCase auth;
            pathname := match path with [] => [SLASH] | _ => path end |}.
Proof.
  intros Hs Hsp Hh Hp Hq Hr. unfold parse.
  rewrite (span_app (not_chr COLON) scheme
             ([COLON; SLASH; SLASH] ++ auth ++ path ++ rest));
    [| exact Hs | reflexivity].
  cbn [app]. rewrite !N.eqb_refl, Hsp. cbn [andb].
  rewrite (span_app _ auth (path ++ rest)).
  2:{ apply (host_scan_chars HStart). exact Hh. }
  2:{ destruct Hq as [-> | [p' ->]]; cbn [app].
      - destruct Hr as [-> | (c & t & -> & Hc)]; [exact I |].
        unfold stops_path in Hc. apply negb_false_iff.
        apply orb_prop in Hc as [Hc | Hc]; rewrite Hc;
          now rewrite ?orb_true_r.
      - reflexivity. }
  rewrite (span_app _ path rest).
  2:{ apply (path_scan_chars SegOther). exact Hp. }
  2:{ destruct Hr as [-> | (c & t & -> & Hc)]; [exact I |].
      now apply negb_false_iff. }
  now rewrite Hh, Hp.
Qed.

(** The parts of an address that parses hold neither [?] nor [#]. *)
Lemma special_scheme_chars scheme c :
  is_special (toLowerCase scheme) = true -> stops_path c = true ->
  ~ In c scheme.
Proof.
  intros Hsp Hc Hin.
  assert (Hl : In (lower_char c) (toLowerCase scheme))
    by (unfold toLowerCase; now apply in_map).
  assert (Hlc : lower_char c = c).
  { unfold stops_path, QUERY, HASH in Hc. unfold lower_char.
    apply orb_prop in Hc as [Hc | Hc]; apply N.eqb_eq in Hc; subst c;
      reflexivity. }
  rewrite Hlc in Hl.
  unfold is_special in Hsp.
  apply orb_prop in Hsp as [Hsp | Hsp]; apply eqb_eq in Hsp; rewrite Hsp in Hl;
    unfold stops_path, QUERY, HASH in Hc;
    apply orb_prop in Hc as [Hc | Hc]; apply N.eqb_eq in Hc; subst c;
    vm_compute in Hl; intuition discriminate.
Qed.

Lemma forallb_without (p : N -> bool) s c :
  forallb (fun x => negb (p x)) s = true -> p c = true -> ~ In c s.
Proof.
  intros Hs Hc Hin. rewrite forallb_forall in Hs. apply Hs in Hin.
  now rewrite Hc in Hin.
Qed.

Lemma stops_path_authority c : stops_path c = true -> stops_authority c = true.
Proof.
  unfold stops_path, stops_authority. intros H.
  apply orb_prop in H as [H | H]; rewrite H; now rewrite ?orb_true_r.
Qed.

Lemma address_chars scheme auth path c :
  is_special (toLowerCase scheme) = true ->
  host_ok auth = true -> path_ok path = true ->
  stops_path c = true ->
  ~ In c (scheme ++ [COLON; SLASH; SLASH] ++ auth ++ path).
Proof.
  intros Hsp Hh Hp Hc Hin.
  apply in_app_or in Hin as [Hin | Hin];
    [eapply special_scheme_chars; eauto |].
  apply in_app_or in Hin as [Hin | Hin].
  { unfold stops_path, QUERY, HASH in Hc.
    apply orb_prop in Hc as [Hc | Hc]; apply N.eqb_eq in Hc; subst c;
      vm_compute in Hin; intuition discriminate. }
  apply in_app_or in Hin as [Hin | Hin].
  - apply (host_scan_chars HStart) in Hh.
    eapply forallb_without; eauto using stops_path_authority.
  - apply (path_scan_chars SegOther) in Hp.
    eapply forallb_without; eauto.
Qed.

(** Cutting an address before its first [#] and [?]. *)
Lemma cut_query_fragment a rest :
  ~ In HASH a -> ~ In QUERY a ->
  (rest = [] \/ exists c t, rest = c :: t /\ stops_path c = true) ->
  before QUERY (before HASH (a ++ rest)) = a.
Proof.
  intros Hh Hq [-> | (c & t & -> & Hc)].
  - rewrite app_nil_r. rewrite (@before_all HASH a Hh). now apply before_all.
  - unfold stops_path in Hc. apply orb_prop in Hc as [Hc | Hc];
      apply N.eqb_eq in Hc; subst c.
    + destruct (@before_keeps_prefix HASH (a ++ [QUERY]) t) as [t' Ht].
      { intros Hin. apply in_app_or in Hin as [Hin | [Hin | []]];
          [contradiction | discriminate]. }
      rewrite <- app_assoc in Ht. cbn [app] in Ht. rewrite Ht.
      rewrite <- app_assoc. cbn [app]. now apply before_stop.
    + rewrite before_stop by exact Hh. now apply before_all.
Qed.

(** Lower case goes through the parser. *)
Lemma forallb_lower (p : N -> bool) s :
  (forall c, p (lower_char c) = p c) ->
  forallb p (toLowerCase s) = forallb p s.
Proof.
  intros H. unfold toLowerCase. induction s as [| c s IH]; simpl; [reflexivity |].
  now rewrite H, IH.
Qed.

Lemma lower_char_is c x :
  (x <? 65)%N = true -> (lower_char c =? x)%N = (c =? x)%N.
Proof.
  intros Hx. apply N.ltb_lt in Hx. unfold lower_char.
  destruct ((65 <=? c) && (c <=? 90))%N eqn:E; [| reflexivity].
  apply andb_prop in E as [E1 E2]. apply N.leb_le in E1, E2.
  destruct (N.eqb_spec (c + 32) x), (N.eqb_spec c x); try reflexivity; lia.
Qed.

Lemma stops_path_lower c : stops_path (lower_char c) = stops_path c.
Proof.
  unfold stops_path, QUERY, HASH. now rewrite !lower_char_is by reflexivity.
Qed.

(** [strip] and lower case commute. *)
Lemma endsWith_slash_lower s :
  endsWith (toLowerCase s) (js "/") = endsWith s (js "/").
Proof.
  destruct s as [| c s] using rev_ind; [reflexivity |].
  rewrite toLowerCase_app. cbn [toLowerCase map].
  now rewrite !endsWith_slash_snoc, lower_char_slash.
Qed.

Lemma strip_lower s : toLowerCase (strip s) = strip (toLowerCase s).
Proof.
  unfold strip. rewrite endsWith_slash_lower.
  replace (length (toLowerCase s)) with (length s)
    by (unfold toLowerCase; now rewrite length_map).
  destruct (endsWith s (js "/") && (1 <? length s)); [| reflexivity].
  unfold drop_last, toLowerCase.
  destruct s as [| c s] using rev_ind; [reflexivity |].
  rewrite map_app. cbn [map]. now rewrite !removelast_last.
Qed.

Lemma path_scan_snoc_slash st s :
  path_scan st s = true -> path_scan st (s ++ [SLASH]) = true.
Proof.
  revert st. induction s as [| c s IH]; intros st; simpl.
  - destruct st; simpl; auto; discriminate.
  - destruct (seg_step st c); [apply IH | discriminate].
Qed.

Section WithParser.
Context {P : Platform}.
Hypothesis parser : forall s u, Url.parse s = Some u -> parseURL s = Some u.

Lemma normalizeUrl_parsed x u :
  Url.parse x = Some u -> normalizeUrl x = normal_form_of u.
Proof.
  intros H. unfold normalizeUrl, normal_form_of, strip.
  now rewrite (parser _ H).
Qed.

Lemma extractDomain_parsed x u :
  Url.parse x = Some u -> extractDomain x = toLowerCase (hostname u).
Proof. intros H. unfold extractDomain. now rewrite (parser _ H). Qed.

End WithParser.

(** The normal form of an address of the model, written out: the
    lower-case scheme and host and the lower-case path without its last
    slash. *)
Lemma normal_form_shape scheme auth path :
  (path = [] \/ exists p', path = SLASH :: p') ->
  exists body,
    normal_form_of
      {| protocol := toLowerCase scheme ++ [COLON];
         host := toLowerCase auth;
         hostname := toLowerCase auth;
         pathname := match path with [] => [SLASH] | _ => path end |}
    = toLowerCase scheme ++ [COLON; SLASH; SLASH] ++ toLowerCase auth
      ++ toLowerCase body
    /\ (path = body \/ path = body ++ [SLASH])
    /\ (body = [] \/ exists b', body = SLASH :: b').
Proof.
  intros Hq. unfold normal_form_of. cbn [protocol host pathname].
  set (A := toLowerCase scheme ++ [COLON; SLASH; SLASH] ++ toLowerCase auth).
  assert (Hpre : forall t,
            (toLowerCase scheme ++ [COLON]) ++ js "//" ++ toLowerCase auth ++ t
            = A ++ t).
  { intros t. unfold A. rewrite <- !app_assoc. reflexivity. }
  assert (Hlow : toLowerCase A = A).
  { unfold A. rewrite !toLowerCase_app, !toLowerCase_idem. reflexivity. }
  assert (Hne : A <> []) by (unfold A; destruct (toLowerCase scheme); discriminate).
  assert (Hout : forall t,
            toLowerCase scheme ++ [COLON; SLASH; SLASH] ++ toLowerCase auth ++ t
            = A ++ t).
  { intros t. unfold A. rewrite <- !app_assoc. reflexivity. }
  rewrite Hpre. setoid_rewrite Hout. clearbody A.
  destruct Hq as [-> | [p' ->]].
  - exists []. rewrite strip_slash by exact Hne.
    rewrite Hlow. cbn [toLowerCase map]. rewrite app_nil_r. auto.
  - destruct (exists_last (l := SLASH :: p') ltac:(discriminate))
      as (body & c & Hpath).
    rewrite Hpath. destruct (c =? SLASH)%N eqn:Hc.
    + apply N.eqb_eq in Hc. subst c. exists body.
      rewrite app_assoc, strip_slash by (destruct A; [congruence | discriminate]).
      rewrite toLowerCase_app, Hlow.
      split; [reflexivity |]. split; [now right |].
      destruct body as [| b body']; [now left | right]. exists body'.
      cbn [app] in Hpath. now injection Hpath as <-.
    + exists (body ++ [c]). rewrite app_assoc, strip_other by exact Hc.
      rewrite <- app_assoc, toLowerCase_app, Hlow.
      split; [reflexivity |]. split; [now left |].
      right. exists p'. now rewrite <- Hpath.
Qed.

End ParseFacts.

Import Address StringFacts UrlFacts NormalizeFacts ParseFacts.

(** ** Addresses that normalise to the same *)

Module NormalFormFacts.

(** Two parsed addresses whose fields agree up to letter case have the
    same normal form. *)
Lemma normal_form_lower scheme auth path :
  normal_form_of
    {| protocol := toLowerCase (toLowerCase scheme) ++ [COLON];
       host := toLowerCase (toLowerCase auth);
       hostname := toLowerCase (toLowerCase auth);
       pathname := match toLowerCase path with
                   | [] => [SLASH]
                   | _ => toLowerCase path
                   end |}
  = normal_form_of
      {| protocol := toLowerCase scheme ++ [COLON];
         host := toLowerCase auth;
         hostname := toLowerCase auth;
         pathname := match path with [] => [SLASH] | _ => path end |}.
Proof.
  unfold normal_form_of. cbn [protocol host pathname].
  rewrite !strip_lower. f_equal.
  rewrite !toLowerCase_app, !toLowerCase_idem. do 3 f_equal.
  destruct path; [reflexivity |]. cbn [toLowerCase map].
  now rewrite map_map, (map_ext _ _ lower_char_idem), lower_char_idem.
Qed.

Lemma lower_parts scheme auth path rest :
  forallb (not_chr COLON) scheme = true ->
  is_special (toLowerCase scheme) = true ->
  host_ok auth = true -> path_ok path = true ->
  (path = [] \/ exists p', path = SLASH :: p') ->
  (rest = [] \/ exists c t, rest = c :: t /\ stops_path c = true) ->
  forallb (not_chr COLON) (toLowerCase scheme) = true
  /\ is_special (toLowerCase (toLowerCase scheme)) = true
  /\ host_ok (toLowerCase auth) = true /\ path_ok (toLowerCase path) = true
  /\ (toLowerCase path = [] \/ exists p', toLowerCase path = SLASH :: p')
  /\ (toLowerCase rest = []
      \/ exists c t, toLowerCase rest = c :: t /\ stops_path c = true).
Proof.
  intros Hs Hsp Hh Hp Hq Hr. split; [| split; [| split; [| split; [| split]]]].
  - rewrite forallb_lower; [exact Hs |]. intros c. unfold not_chr, COLON.
    now rewrite lower_char_is by reflexivity.
  - now rewrite toLowerCase_idem.
  - unfold host_ok in *. now rewrite host_scan_lower.
  - unfold path_ok in *. now rewrite path_scan_lower.
  - destruct Hq as [-> | [p' ->]]; [now left | right].
    exists (toLowerCase p'). reflexivity.
  - destruct Hr as [-> | (c & t & -> & Hc)]; [now left | right].
    exists (lower_char c), (toLowerCase t). split; [reflexivity |].
    now rewrite stops_path_lower.
Qed.

Section WithParser.
Context {P : Platform}.
Hypothesis parser : forall s u, Url.parse s = Some u -> parseURL s = Some u.

(** The normalized address has the domain of the address. *)
Lemma extractDomain_normalizeUrl x u :
  Url.parse x = Some u -> extractDomain (normalizeUrl x) = extractDomain x.
Proof.
  intros Hx. rewrite (@normalizeUrl_parsed _ parser _ _ Hx).
  destruct (@parse_shape x u Hx)
    as (scheme & auth & path & rest & _ & Hs & Hsp & Hh & Hp & Hq & _ & Hu).
  rewrite (@extractDomain_parsed _ parser _ _ Hx), Hu. cbn [hostname].
  destruct (@normal_form_shape scheme auth path Hq)
    as (body & Hform & Hbody & Hb). rewrite Hform.
  assert (Hpb : path_ok body = true).
  { destruct Hbody as [<- | Hbody]; [exact Hp |].
    unfold path_ok in *. apply path_scan_drop_slash. now rewrite <- Hbody. }
  destruct (@lower_parts scheme auth body [] Hs Hsp Hh Hpb Hb (or_introl eq_refl))
    as (Ls & Lsp & Lh & Lp & Lq & Lr).
  pose proof (@parse_build _ _ _ _ Ls Lsp Lh Lp Lq Lr) as Hn.
  cbn [toLowerCase map] in Hn. rewrite app_nil_r in Hn.
  rewrite (@extractDomain_parsed _ parser _ _ Hn). cbn [hostname].
  now rewrite !toLowerCase_idem.
Qed.

End WithParser.

End NormalFormFacts.

Section NormalFormClaims.
Context {P : Platform}.
Import NormalFormFacts.

(** X11. On the addresses of the URL model, [normalizeUrl] does not tell
    apart addresses that differ in letter case, in what follows the first
    [?] or [#], or by one slash at the end; and the normalized address
    has the domain of the address itself. *)
Theorem normalizeUrl_identifies :
  (forall s u, Url.parse s = Some u -> parseURL s = Some u) ->
  forall x u,
    Url.parse x = Some u ->
    normalizeUrl (toLowerCase x) = normalizeUrl x
    /\ normalizeUrl (before QUERY (before HASH x)) = normalizeUrl x
    /\ (forall c t, stops_path c = true ->
          normalizeUrl (before QUERY (before HASH x) ++ c :: t) = normalizeUrl x)
    /\ (~ In QUERY x -> ~ In HASH x -> endsWith x (js "/") = false ->
        normalizeUrl (x ++ js "/") = normalizeUrl x)
    /\ extractDomain (normalizeUrl x) = extractDomain x.
Proof.
  intros parser x u Hx.
  rewrite (@normalizeUrl_parsed _ parser _ _ Hx).
  destruct (@parse_shape x u Hx)
    as (scheme & auth & path & rest & Hshape & Hs & Hsp & Hh & Hp & Hq & Hr & Hu).
  set (a := scheme ++ [COLON; SLASH; SLASH] ++ auth ++ path).
  assert (Hxa : x = a ++ rest).
  { rewrite Hshape. unfold a. rewrite <- !app_assoc. reflexivity. }
  assert (Hcut : before QUERY (before HASH x) = a).
  { rewrite Hxa. apply cut_query_fragment; [| | exact Hr];
      apply address_chars; auto. }
  assert (Hbuild : forall rest',
            (rest' = [] \/ exists c t, rest' = c :: t /\ stops_path c = true) ->
            Url.parse (a ++ rest') = Some u).
  { intros rest' Hr'. unfold a. rewrite <- !app_assoc. rewrite Hu.
    now apply parse_build. }
  split; [| split; [| split; [| split]]].
  - (* letter case *)
    destruct (@lower_parts scheme auth path rest Hs Hsp Hh Hp Hq Hr) as (Ls & Lsp & Lh & Lp & Lq & Lr).
    assert (Hlx : toLowerCase x
                  = toLowerCase scheme ++ [COLON; SLASH; SLASH]
                    ++ toLowerCase auth ++ toLowerCase path ++ toLowerCase rest).
    { rewrite Hshape, !toLowerCase_app. reflexivity. }
    pose proof (@parse_build _ _ _ _ Ls Lsp Lh Lp Lq Lr) as Hl. rewrite <- Hlx in Hl.
    rewrite (@normalizeUrl_parsed _ parser _ _ Hl), Hu. apply normal_form_lower.
  - (* query and fragment *)
    rewrite Hcut. rewrite <- (app_nil_r a).
    now rewrite (@normalizeUrl_parsed _ parser _ _ (Hbuild [] (or_introl eq_refl))).
  - intros c t Hc. rewrite Hcut.
    assert (Hct : Url.parse (a ++ c :: t) = Some u)
      by (apply Hbuild; right; eauto).
    now rewrite (@normalizeUrl_parsed _ parser _ _ Hct).
  - (* one slash at the end *)
    intros Hnq Hnh Hends.
    assert (Hrest : rest = []).
    { destruct Hr as [-> | (c & t & -> & Hc)]; [reflexivity | exfalso].
      assert (Hin : In c x) by (rewrite Hxa; apply in_or_app; right; now left).
      unfold stops_path in Hc. apply orb_prop in Hc as [Hc | Hc];
        apply N.eqb_eq in Hc; subst c; contradiction. }
    subst rest. rewrite app_nil_r in Hxa.
    assert (Hp' : path_ok (path ++ [SLASH]) = true)
      by (unfold path_ok in *; now apply path_scan_snoc_slash).
    assert (Hq' : path ++ [SLASH] = [] \/ exists p', path ++ [SLASH] = SLASH :: p').
    { right. destruct Hq as [-> | [p' ->]]; [now exists [] |].
      now exists (p' ++ [SLASH]). }
    pose proof (@parse_build scheme auth (path ++ [SLASH]) [] Hs Hsp Hh Hp' Hq' (or_introl eq_refl))
      as Hslash.
    assert (Hxs : x ++ js "/"
                  = scheme ++ [COLON; SLASH; SLASH] ++ auth
                    ++ (path ++ [SLASH]) ++ []).
    { rewrite Hxa. unfold a. rewrite app_nil_r, <- !app_assoc. reflexivity. }
    rewrite <- Hxs in Hslash. rewrite (@normalizeUrl_parsed _ parser _ _ Hslash), Hu.
    unfold normal_form_of. cbn [protocol host pathname]. f_equal.
    set (A := (toLowerCase scheme ++ [COLON]) ++ js "//" ++ toLowerCase auth).
    assert (Hpre : forall t,
              (toLowerCase scheme ++ [COLON]) ++ js "//" ++ toLowerCase auth ++ t
              = A ++ t)
      by (intros t; unfold A; rewrite <- !app_assoc; reflexivity).
    assert (HA : A <> [])
      by (unfold A; destruct (toLowerCase scheme); discriminate).
    rewrite !Hpre. clearbody A.
    assert (Hm : forall l : list N,
              l <> [] ->
              match l return jsstring with [] => [SLASH] | _ :: _ => l end = l)
      by (intros [| ? ?] Hl; [congruence | reflexivity]).
    rewrite (Hm (path ++ [SLASH])) by (destruct path; discriminate).
    rewrite app_assoc, strip_slash by (destruct A; [congruence | discriminate]).
    destruct path as [| c0 path' _] using rev_ind.
    + rewrite app_nil_r. now rewrite strip_slash.
    + rewrite (Hm (path' ++ [c0])) by (destruct path'; discriminate).
      rewrite app_assoc, strip_other; [reflexivity |].
      rewrite Hxa in Hends. unfold a in Hends.
      rewrite !app_assoc in Hends. rewrite endsWith_slash_snoc in Hends.
      exact Hends.
  - (* the domain *)
    rewrite <- (@normalizeUrl_parsed _ parser _ _ Hx).
    eapply extractDomain_normalizeUrl; eauto.
Qed.

(** X12. The start address is the first one visited.  When the start
    address is an address of the URL model, no patterns are given, the
    depth limit is not negative and the budget is at least one page, the
    normalized start address passes the same-domain test against its own
    domain and is the first address of the visited list. *)
Theorem start_address_is_visited :
  (forall s u, Url.parse s = Some u -> parseURL s = Some u) ->
  forall startUrl u options w,
    Url.parse startUrl = Some u ->
    let config := make_config options in
    excludePatterns config = None ->
    includePatterns config = None ->
    (0 <= maxDepth config)%Z ->
    (1 <= maxPages config)%Z ->
    shouldCrawl (normalizeUrl startUrl) (extractDomain startUrl) config = true
    /\ forall fuel r w',
         crawlRecursively fuel startUrl options w = Some (r, w') ->
         exists others, visitedUrls r = normalizeUrl startUrl :: others.
Proof.
  intros parser startUrl u options w Hu config Hex Hin Hd Hp.
  assert (Hdom : extractDomain (normalizeUrl startUrl) = extractDomain startUrl).
  { eapply extractDomain_normalizeUrl; eauto. }
  assert (Hpass : shouldCrawl (normalizeUrl startUrl) (extractDomain startUrl)
                    config = true).
  { unfold shouldCrawl. rewrite Hdom, eqb_refl, Hex, Hin.
    now rewrite andb_false_r. }
  split; [exact Hpass |].
  intros fuel r w' H.
  apply crawlRecursively_reachable in H as (st & Hreach & Hstop & _ & _ & Hv & _).
  fold config in Hreach, Hstop. rewrite Hv. clear Hv.
  set (st0 := initial_state startUrl w) in *.
  assert (Hrun0 : running config st0 = true).
  { unfold running, processed, st0, initial_state.
    cbn [queue succeeded failed length Nat.add Nat.ltb Nat.leb andb].
    apply Z.ltb_lt. change (Z.of_nat 0) with 0%Z. lia. }
  assert (Hinv : st = st0 \/ exists others,
                   visited st = normalizeUrl startUrl :: others).
  { clear Hstop. induction Hreach as [| st Hreach IH Hrun]; [now left |]. right.
    destruct IH as [-> | [others Ho]].
    - exists []. unfold st0.
      rewrite (@iteration_visits P config (extractDomain startUrl)
                 (initial_state startUrl w) _ [] eq_refl);
        [| reflexivity | exact Hd | exact Hpass].
      cbn [e_url e_depth].
      destruct (visit_spec config (normalizeUrl startUrl) 0
                  (shifted (initial_state startUrl w))) as [Hvis _].
      cbv zeta in Hvis. rewrite Hvis. reflexivity.
    - destruct (iteration_turn config (extractDomain startUrl) st Hrun)
        as [e q _ _ | e q _ _ _ _].
      + exists others. exact Ho.
      + destruct (visit_spec config (e_url e) (e_depth e) (shifted st))
          as [Hvis _].
        cbv zeta in Hvis. rewrite Hvis. change (visited (shifted st)) with (visited st).
        rewrite Ho. now exists (others ++ [e_url e]). }
  destruct Hinv as [-> | Hinv]; [congruence | exact Hinv].
Qed.

End NormalFormClaims.

Module NormalFormWitnesses.
Import Site.

Lemma normalizeUrl_identifies_witness :
  @normalizeUrl P0 (js "https://a.test/Docs" ++ js "/")
  = @normalizeUrl P0 (js "https://a.test/Docs")
  /\ @normalizeUrl P0 (toLowerCase (js "https://a.test/Docs"))
     = @normalizeUrl P0 (js "https://a.test/Docs").
Proof.
  destruct (Url.parse (js "https://a.test/Docs")) as [u |] eqn:E;
    [| vm_compute in E; discriminate].
  destruct (@normalizeUrl_identifies P0 (fun s u H => H) _ u E)
    as (H1 & _ & _ & H & _).
  split; [| exact H1].
  apply H; vm_compute; first [reflexivity | intuition discriminate].
Defined.

Lemma start_address_is_visited_witness :
  exists r w' others,
    @crawlRecursively P0 30 (js "HTTPS://A.test/") no_options 0%Z = Some (r, w')
    /\ visitedUrls r = js "https://a.test" :: others.
Proof.
  destruct (@crawlRecursively P0 30 (js "HTTPS://A.test/") no_options 0%Z)
    as [[r w'] |] eqn:E; [| vm_compute in E; discriminate].
  destruct (Url.parse (js "HTTPS://A.test/")) as [u |] eqn:Eu;
    [| vm_compute in Eu; discriminate].
  destruct (@start_address_is_visited P0 (fun s u H => H)
              (js "HTTPS://A.test/") u no_options 0%Z Eu eq_refl eq_refl
              ltac:(vm_compute; discriminate) ltac:(vm_compute; discriminate))
    as [_ H].
  destruct (H 30 r w' E) as [others Ho].
  exists r, w', others. split; [reflexivity |].
  rewrite Ho. f_equal.
Defined.

End NormalFormWitnesses.

Import RegexSpec Scan Steps StringFacts UrlFacts.

(** ** The matcher *)

Module RegexFacts.

Section Run.
Variable R : Type.

Lemma run_nil ic r cs (k : jsstring -> caps -> option R) :
  head_consumes r = true -> run ic r [] cs k = None.
Proof.
  revert cs k. induction r; intros cs k H; simpl in *; try discriminate; auto.
  - apply andb_prop in H as [H1 H2]. now rewrite IHr1, IHr2.
Qed.

Lemma run_no_start ic r c s cs (k : jsstring -> caps -> option R) :
  head_consumes r = true -> starts ic r c = false ->
  run ic r (c :: s) cs k = None.
Proof.
  revert cs k. induction r; intros cs k Hc Hs; simpl in *; try discriminate.
  - now rewrite Hs.
  - now rewrite Hs.
  - rewrite Hc in Hs. auto.
  - apply andb_prop in Hc as [H1 H2]. apply orb_false_iff in Hs as [S1 S2].
    now rewrite IHr1, IHr2.
  - auto.
Qed.

Lemma star_lazy_scan p t rest (k : jsstring -> option R) :
  (forall c, In c t -> p c = true) ->
  (forall c s, In c t -> k (c :: s) = None) ->
  star_lazy p (t ++ rest) k = star_lazy p rest k.
Proof.
  induction t as [| c t IH]; intros Hp Hk; [reflexivity |].
  simpl. rewrite (Hk c (t ++ rest)) by now left.
  rewrite (Hp c) by now left.
  apply IH; intros; [apply Hp | apply Hk]; now right.
Qed.

Lemma star_greedy_stop p c s (k : jsstring -> option R) :
  p c = false -> star_greedy p (c :: s) k = k (c :: s).
Proof. intros H. simpl. now rewrite H. Qed.

End Run.

Section Replace.
Variable r : RegExp.
Variable f : jsstring -> caps -> jsstring.
Hypothesis consuming : head_consumes (source r) = true.

Lemma exec_at_nil : exec_at r [] = None.
Proof. unfold exec_at. now apply run_nil. Qed.

Lemma exec_at_no_start c s :
  starts (ignoreCase r) (source r) c = false -> exec_at r (c :: s) = None.
Proof. intros H. unfold exec_at. now apply run_no_start. Qed.

Lemma replace_from_nil : replace_from r f [] 0 = [].
Proof. simpl. now rewrite exec_at_nil. Qed.

Lemma replace_from_rejected pre tail :
  rejected_before r pre tail ->
  replace_from r f (pre ++ tail) 0 = pre ++ replace_from r f tail 0.
Proof.
  induction pre as [| c pre IH]; intros H; [reflexivity |].
  destruct H as [Hc H]. cbn [app replace_from]. cbn [app] in Hc. rewrite Hc.
  now rewrite IH.
Qed.

Lemma rejected_no_start t tail :
  (forall c, In c t -> starts (ignoreCase r) (source r) c = false) ->
  rejected_before r t tail.
Proof.
  induction t as [| c t IH]; intros H; simpl; [exact I |].
  split; [apply exec_at_no_start | apply IH]; intros; apply H; simpl; auto.
Qed.

Lemma replace_from_plain t tail :
  (forall c, In c t -> starts (ignoreCase r) (source r) c = false) ->
  replace_from r f (t ++ tail) 0 = t ++ replace_from r f tail 0.
Proof. intros H. now apply replace_from_rejected, rejected_no_start. Qed.

Lemma replace_from_skip u v :
  replace_from r f (u ++ v) (length u) = replace_from r f v 0.
Proof. induction u as [| c u IH]; [reflexivity | exact IH]. Qed.

(** A match of the characters [c :: m] at the head of the subject. *)
Lemma replace_from_match c m rest cs :
  exec_at r (c :: m ++ rest) = Some (rest, cs) ->
  replace_from r f (c :: m ++ rest) 0
  = f (c :: m) cs ++ replace_from r f rest 0.
Proof.
  intros H. cbn [replace_from]. rewrite H.
  replace (length (c :: m ++ rest) - length rest) with (S (length m))
    by (cbn [length]; rewrite length_app; lia).
  replace (firstn (S (length m)) (c :: m ++ rest)) with (c :: m)
    by (cbn [firstn]; now rewrite firstn_app, firstn_all, Nat.sub_diag, app_nil_r).
  now rewrite replace_from_skip.
Qed.

End Replace.

(** The rest left by a match is a part of the subject, and a proper
    part when the pattern consumes. *)
Lemma run_rest ic r s' cs' :
  forall s cs (k : jsstring -> caps -> option (jsstring * caps)),
  (forall s2 cs2, k s2 cs2 = Some (s', cs') -> length s' <= length s2) ->
  run ic r s cs k = Some (s', cs') ->
  length s' <= length s /\ (head_consumes r = true -> length s' < length s).
Proof.
  induction r; intros s cs k Hk Hrun; simpl in *.
  - split; [eauto | discriminate].
  - destruct s as [| x s]; [discriminate |].
    destruct (chr_eq ic x c); [| discriminate].
    apply Hk in Hrun. simpl. split; intros; lia.
  - destruct s as [| x s]; [discriminate |].
    destruct (p x); [| discriminate].
    apply Hk in Hrun. simpl. split; intros; lia.
  - apply IHr1 in Hrun; [exact Hrun |].
    intros s2 cs2 H2. apply IHr2 in H2; [| exact Hk]. tauto.
  - destruct (run ic r1 s cs k) as [x |] eqn:E1.
    + injection Hrun as ->. apply IHr1 in E1; [| exact Hk].
      destruct E1 as [E1 E1']. split; [exact E1 |].
      intros Hb. apply andb_prop in Hb as [Hb _]. auto.
    + apply IHr2 in Hrun; [| exact Hk].
      destruct Hrun as [E2 E2']. split; [exact E2 |].
      intros Hb. apply andb_prop in Hb as [_ Hb]. auto.
  - split; [| discriminate].
    destruct greedy.
    + revert Hrun. induction s as [| x s IHs]; simpl; intros Hrun.
      * now apply Hk in Hrun.
      * destruct (p x).
        -- destruct (star_greedy p s (fun s'0 => k s'0 cs)) eqn:E.
           ++ injection Hrun as ->. specialize (IHs eq_refl). lia.
           ++ apply Hk in Hrun. exact Hrun.
        -- apply Hk in Hrun. exact Hrun.
    + revert Hrun. induction s as [| x s IHs]; simpl; intros Hrun.
      * destruct (k [] cs) eqn:E; [| discriminate].
        injection Hrun as ->. now apply Hk in E.
      * destruct (k (x :: s) cs) eqn:E.
        -- injection Hrun as ->. now apply Hk in E.
        -- destruct (p x); [| discriminate]. apply IHs in Hrun. lia.
  - apply IHr in Hrun; [exact Hrun |].
    intros s2 cs2 H2. now apply Hk in H2.
Qed.

Lemma exec_at_rest r s rest cs :
  head_consumes (source r) = true ->
  exec_at r s = Some (rest, cs) -> length rest < length s.
Proof.
  intros Hc H. unfold exec_at in H. apply run_rest in H.
  - now apply H.
  - intros s2 cs2 H2. injection H2 as -> _. lia.
Qed.

(** A match of the text [w] at the head of the subject. *)
Lemma replace_fn_match r f w rest cs :
  head_consumes (source r) = true ->
  exec_at r (w ++ rest) = Some (rest, cs) ->
  replace_fn r f (w ++ rest) = f w cs ++ replace_fn r f rest.
Proof.
  intros Hc H. unfold replace_fn. destruct w as [| c m].
  - apply exec_at_rest in H; [| exact Hc]. simpl in H. lia.
  - cbn [app]. now apply replace_from_match.
Qed.

(** A stage that finds nothing in [pre ++ t ++ post]. *)
Lemma replace_fn_nothing r f pre t post :
  head_consumes (source r) = true ->
  rejected_before r pre (t ++ post) ->
  (forall c, In c t -> starts (ignoreCase r) (source r) c = false) ->
  rejected_before r post [] ->
  replace_fn r f (pre ++ t ++ post) = pre ++ t ++ post.
Proof.
  intros Hc Hpre Ht Hpost. unfold replace_fn.
  rewrite replace_from_rejected by assumption.
  rewrite replace_from_plain by assumption.
  rewrite <- (app_nil_r post) at 1.
  rewrite replace_from_rejected by assumption.
  rewrite replace_from_nil by assumption. now rewrite app_nil_r.
Qed.

Lemma replace_fn_plain r f t :
  head_consumes (source r) = true ->
  (forall c, In c t -> starts (ignoreCase r) (source r) c = false) ->
  replace_fn r f t = t.
Proof.
  intros Hc Ht.
  pose proof (@replace_fn_nothing r f [] t [] Hc I Ht I) as H.
  cbn [app] in H. now rewrite app_nil_r in H.
Qed.

End RegexFacts.

Import RegexFacts.

Module MatchFacts.

Lemma chr_eq_refl ic c : chr_eq ic c c = true.
Proof. unfold chr_eq. destruct ic; apply N.eqb_refl. Qed.

(** A character below [A] is matched by itself only, with or without
    the [i] flag. *)
Lemma chr_eq_other ic c x :
  (x <? 65)%N = true -> (c =? x)%N = false -> chr_eq ic c x = false.
Proof.
  intros Hx Hc. apply N.ltb_lt in Hx. apply N.eqb_neq in Hc.
  unfold chr_eq. destruct ic; [| now apply N.eqb_neq].
  assert (Hux : upper_char x = x).
  { unfold upper_char. settle. reflexivity. }
  rewrite Hux. unfold upper_char.
  destruct ((97 <=? c) && (c <=? 122))%N eqn:E.
  - apply andb_prop in E as [E1 E2]. apply N.leb_le in E1, E2.
    apply N.eqb_neq. lia.
  - now apply N.eqb_neq.
Qed.

Section Run.
Variable R : Type.

Lemma run_lit ic l X cs (k : jsstring -> caps -> option R) :
  run ic (lit_of l) (l ++ X) cs k = k X cs.
Proof.
  induction l as [| c l IH]; [reflexivity |].
  destruct l as [| d l].
  - simpl. now rewrite chr_eq_refl.
  - change (lit_of (c :: d :: l)) with (Seq (Chr c) (lit_of (d :: l))).
    cbn [run app]. rewrite chr_eq_refl. exact IH.
Qed.

Lemma run_lit_mismatch ic c0 l c s cs (k : jsstring -> caps -> option R) :
  chr_eq ic c c0 = false -> run ic (lit_of (c0 :: l)) (c :: s) cs k = None.
Proof.
  intros H. destruct l; simpl; now rewrite H.
Qed.

Lemma run_lit_mismatch2 ic c0 c1 l d s cs (k : jsstring -> caps -> option R) :
  chr_eq ic d c1 = false ->
  forall c, run ic (lit_of (c0 :: c1 :: l)) (c :: d :: s) cs k = None.
Proof.
  intros H c. change (lit_of (c0 :: c1 :: l)) with (Seq (Chr c0) (lit_of (c1 :: l))).
  cbn [run]. destruct (chr_eq ic c c0); [| reflexivity].
  now apply run_lit_mismatch.
Qed.

(** A greedy repetition runs to the end of the class when what follows
    succeeds there. *)
Lemma star_greedy_all p u v (k : jsstring -> option R) r :
  forallb p u = true ->
  match v with [] => True | d :: _ => p d = false end ->
  k v = Some r -> star_greedy p (u ++ v) k = Some r.
Proof.
  induction u as [| c u IH]; intros Hu Hv Hk.
  - cbn [app]. destruct v as [| d v]; simpl; [exact Hk |].
    now rewrite Hv.
  - cbn [forallb] in Hu. apply andb_prop in Hu as [Hc Hu].
    cbn [app star_greedy]. rewrite Hc. now rewrite (IH Hu Hv Hk).
Qed.

(** A greedy repetition followed by nothing that can fail takes the
    whole run. *)
Lemma star_greedy_total p s (cs : caps) (k : jsstring -> caps -> option R) :
  (forall s', exists r, k s' cs = Some r) ->
  star_greedy p s (fun s' => k s' cs) = k (snd (span p s)) cs.
Proof.
  intros Hk. induction s as [| c s IH]; [reflexivity |].
  cbn [star_greedy span]. destruct (p c).
  - rewrite IH. destruct (span p s) as [a b]. cbn [snd].
    now destruct (Hk b) as [r ->].
  - reflexivity.
Qed.

(** A lazy repetition goes on while what follows fails. *)
Lemma star_lazy_search p t rest (k : jsstring -> option R) :
  forallb p t = true ->
  (forall u c v, t = u ++ c :: v -> k (c :: v ++ rest) = None) ->
  star_lazy p (t ++ rest) k = star_lazy p rest k.
Proof.
  induction t as [| c t IH]; intros Hp Hk; [reflexivity |].
  cbn [forallb] in Hp. apply andb_prop in Hp as [Hc Hp].
  cbn [app star_lazy]. rewrite (Hk [] c t eq_refl), Hc.
  apply IH; [exact Hp |]. intros u d v ->. apply (Hk (c :: u) d v). reflexivity.
Qed.

Lemma star_lazy_now p s (k : jsstring -> option R) r :
  k s = Some r -> star_lazy p s k = Some r.
Proof. intros H. destruct s; simpl; now rewrite H. Qed.

End Run.

Lemma span_parts p s :
  s = fst (span p s) ++ snd (span p s)
  /\ forallb p (fst (span p s)) = true
  /\ match snd (span p s) with [] => True | c :: _ => p c = false end.
Proof.
  destruct (span p s) as [a b] eqn:E. now apply span_spec in E.
Qed.

Lemma span_shorter p s : length (snd (span p s)) <= length s.
Proof.
  destruct (span_parts p s) as [H _]. rewrite H at 2. rewrite length_app. lia.
Qed.

Lemma firstn_prefix (t s : jsstring) :
  firstn (length (t ++ s) - length s) (t ++ s) = t.
Proof.
  replace (length (t ++ s) - length s) with (length t)
    by (rewrite length_app; lia).
  now rewrite firstn_app, firstn_all, Nat.sub_diag, app_nil_r.
Qed.

(** The scan after a match at the head: the replacement, then the scan
    of what the match left. *)
Lemma replace_from_hit r f c s rest cs :
  exec_at r (c :: s) = Some (rest, cs) ->
  (exists m, s = m ++ rest) ->
  replace_from r f (c :: s) 0
  = f (firstn (length (c :: s) - length rest) (c :: s)) cs
    ++ replace_from r f rest 0.
Proof.
  intros H [m ->]. cbn [replace_from]. rewrite H.
  replace (length (c :: m ++ rest) - length rest) with (S (length m))
    by (cbn [length]; rewrite length_app; lia).
  now rewrite replace_from_skip.
Qed.

Lemma count_from_skip r u v :
  count_from r (u ++ v) (length u) = count_from r v 0.
Proof. induction u as [| c u IH]; [reflexivity | exact IH]. Qed.

End MatchFacts.

Import RegexSpec Scan Steps StringFacts UrlFacts RegexFacts MatchFacts.

(** ** Patterns as scans *)

Module ScanFacts.

(** *** Patterns of one class *)

Lemma exec_class p c s :
  exec_at (rx (Cls p)) (c :: s) = if p c then Some (s, []) else None.
Proof. reflexivity. Qed.

Lemma exec_plus p c s :
  exec_at (rx (plus p)) (c :: s)
  = if p c then Some (snd (span p s), []) else None.
Proof.
  unfold exec_at, plus. cbn [source ignoreCase rx run].
  destruct (p c); [| reflexivity].
  apply (star_greedy_total p s [] (fun s' cs => Some (s', cs))). eauto.
Qed.

Lemma exec_plus_nil p : exec_at (rx (plus p)) [] = None.
Proof. reflexivity. Qed.

(** *** Counting *)

Lemma count_class p s : count_matches (rx (Cls p)) s = length (filter p s).
Proof.
  unfold count_matches. induction s as [| c s IH]; [reflexivity |].
  cbn [count_from filter]. rewrite exec_class. destruct (p c).
  - replace (length (c :: s) - length s - 1) with 0 by (cbn [length]; lia).
    cbn [length]. now rewrite IH.
  - exact IH.
Qed.

Lemma runs_true_span p s : runs p true s = runs p false (snd (span p s)).
Proof.
  induction s as [| c s IH]; [reflexivity |].
  cbn [runs span]. destruct (p c) eqn:Hc.
  - rewrite IH. now destruct (span p s).
  - cbn [snd runs]. now rewrite Hc.
Qed.

Lemma count_plus p s : count_matches (rx (plus p)) s = runs p false s.
Proof.
  unfold count_matches.
  assert (H : forall n s, length s <= n ->
                count_from (rx (plus p)) s 0 = runs p false s).
  { clear s. induction n as [| n IH]; intros [| c s] Hn; try reflexivity;
      [cbn [length] in Hn; lia |].
    cbn [count_from runs]. rewrite exec_plus. destruct (p c).
    - destruct (span_parts p s) as (Hs & _ & _).
      replace (length (c :: s) - length (snd (span p s)) - 1)
        with (length (fst (span p s)))
        by (rewrite Hs at 2; cbn [length]; rewrite length_app; lia).
      rewrite Hs at 1. rewrite count_from_skip, runs_true_span.
      rewrite IH; [reflexivity |].
      pose proof (span_shorter p s). cbn [length] in Hn. lia.
    - apply IH. cbn [length] in Hn. lia. }
  now apply (H (length s)).
Qed.

(** A character outside the class ends a run. *)
Lemma runs_app p inside a c b :
  p c = false ->
  runs p inside (a ++ c :: b) = runs p inside a + runs p false b.
Proof.
  intros Hc. revert inside. induction a as [| x a IH]; intros inside.
  - cbn [app runs]. now rewrite Hc.
  - cbn [app runs]. destruct (p x); rewrite IH; lia.
Qed.

Lemma runs_bound p inside s : runs p inside s <= length s.
Proof.
  revert inside. induction s as [| c s IH]; intros inside; [reflexivity |].
  cbn [runs length]. destruct (p c); [destruct inside |];
    match goal with |- context [runs p ?b s] => specialize (IH b) end; lia.
Qed.

Lemma runs_none p inside s :
  (forall c, In c s -> p c = false) -> runs p inside s = 0.
Proof.
  revert inside. induction s as [| c s IH]; intros inside H; [reflexivity |].
  cbn [runs]. rewrite (H c) by now left. apply IH. intros; apply H; now right.
Qed.

(** *** Runs of blanks *)

Lemma squeeze_true_span s :
  squeeze true s = squeeze false (snd (span blank s)).
Proof.
  induction s as [| c s IH]; [reflexivity |].
  cbn [squeeze span]. destruct (blank c) eqn:Hc.
  - rewrite IH. now destruct (span blank s).
  - cbn [snd squeeze]. now rewrite Hc.
Qed.

Lemma replace_blank s :
  replace (rx (plus blank)) [Txt " "] s = squeeze false s.
Proof.
  unfold replace, replace_fn.
  assert (H : forall n s, length s <= n ->
                replace_from (rx (plus blank)) (fun _ cs => subst [Txt " "] cs) s 0
                = squeeze false s).
  { clear s. induction n as [| n IH]; intros [| c s] Hn; try reflexivity;
      [cbn [length] in Hn; lia |].
    destruct (blank c) eqn:Hc.
    - destruct (span_parts blank s) as (Hs & _ & _).
      rewrite (@replace_from_hit _ _ c s (snd (span blank s)) []).
      + cbn [squeeze]. rewrite Hc, squeeze_true_span.
        rewrite IH; [reflexivity |].
        pose proof (span_shorter blank s). cbn [length] in Hn. lia.
      + now rewrite exec_plus, Hc.
      + eauto.
    - cbn [replace_from squeeze]. rewrite exec_plus, Hc.
      rewrite IH; [reflexivity |]. cbn [length] in Hn. lia. }
  now apply (H (length s)).
Qed.

Lemma blank_space : blank SPACE = true.
Proof. reflexivity. Qed.

Lemma squeeze_out inside s c :
  In c (squeeze inside s) -> c = SPACE \/ (blank c = false /\ In c s).
Proof.
  revert inside. induction s as [| x s IH]; intros inside; [intros [] |].
  cbn [squeeze]. destruct (blank x) eqn:Hx.
  - destruct inside.
    + intros H. apply IH in H as [H | [H1 H2]]; [now left |].
      right. split; [assumption | now right].
    + intros [<- | H]; [now left |].
      apply IH in H as [H | [H1 H2]]; [now left |].
      right. split; [assumption | now right].
  - intros [<- | H]; [right; split; [assumption | now left] |].
    apply IH in H as [H | [H1 H2]]; auto. right. split; [assumption | now right].
Qed.

(** After a blank the squeezed text goes on with a character that is not
    a space. *)
Lemma squeeze_head s : startsWith (squeeze true s) [SPACE] = false.
Proof.
  induction s as [| c s IH]; [reflexivity |].
  cbn [squeeze]. destruct (blank c) eqn:Hc; [exact IH |].
  cbn [startsWith]. destruct (N.eqb_spec SPACE c) as [<- |]; [| reflexivity].
  discriminate.
Qed.

Lemma startsWith_longer s c p :
  startsWith s [c] = false -> startsWith s (c :: p) = false.
Proof.
  destruct s as [| d s]; [reflexivity |]. cbn [startsWith].
  destruct (c =? d)%N; [| reflexivity]. now destruct s.
Qed.

Lemma squeeze_no_double inside s :
  includes (squeeze inside s) [SPACE; SPACE] = false.
Proof.
  revert inside. induction s as [| c s IH]; intros inside; [reflexivity |].
  cbn [squeeze]. destruct (blank c) eqn:Hc.
  - destruct inside; [apply IH |].
    cbn [includes startsWith]. rewrite N.eqb_refl, IH. cbn [andb].
    now rewrite squeeze_head.
  - cbn [includes startsWith]. rewrite IH.
    destruct (N.eqb_spec SPACE c) as [<- |]; [discriminate | reflexivity].
Qed.

Lemma startsWith_nil s : startsWith s [] = true.
Proof. now destruct s. Qed.

Lemma squeeze_starts p s :
  forallb (fun c => negb (blank c)) p = true ->
  startsWith (squeeze false s) p = true -> startsWith s p = true.
Proof.
  revert s. induction p as [| x p IH]; intros s Hp H; [apply startsWith_nil |].
  cbn [forallb] in Hp. apply andb_prop in Hp as [Hx Hp].
  apply negb_true_iff in Hx.
  destruct s as [| c s]; [discriminate |]. cbn [squeeze] in H.
  destruct (blank c) eqn:Hc; cbn [startsWith] in *.
  - apply andb_prop in H as [H _]. apply N.eqb_eq in H. subst x. discriminate.
  - apply andb_prop in H as [H1 H2]. rewrite H1. now apply IH.
Qed.

Lemma squeeze_includes p inside s :
  p <> [] -> forallb (fun c => negb (blank c)) p = true ->
  includes (squeeze inside s) p = true -> includes s p = true.
Proof.
  intros Hne Hp. destruct p as [| x p]; [congruence |].
  assert (Hx : blank x = false).
  { cbn [forallb] in Hp. apply andb_prop in Hp as [Hx _].
    now apply negb_true_iff. }
  revert inside. induction s as [| c s IH]; intros inside; [discriminate |].
  cbn [squeeze]. destruct (blank c) eqn:Hc.
  - destruct inside.
    + intros H. apply IH in H. cbn [includes]. rewrite H. apply orb_true_r.
    + cbn [includes]. intros H. apply orb_prop in H as [H | H].
      * cbn [startsWith] in H. apply andb_prop in H as [H _].
        apply N.eqb_eq in H. subst x. discriminate.
      * apply IH in H. rewrite H. apply orb_true_r.
  - cbn [includes]. intros H. apply orb_prop in H as [H | H].
    + assert (Hs : startsWith (squeeze false (c :: s)) (x :: p) = true)
        by (cbn [squeeze]; now rewrite Hc).
      apply squeeze_starts in Hs; [| exact Hp]. now rewrite Hs.
    + apply IH in H. rewrite H. apply orb_true_r.
Qed.

(** *** Runs of line feeds *)

Lemma exec_lines s :
  exec_at (rx (at_least3 NL)) s
  = match s with
    | x1 :: x2 :: x3 :: t =>
        if ((x1 =? NL) && (x2 =? NL) && (x3 =? NL))%N
        then Some (snd (span (N.eqb NL) t), [])
        else None
    | _ => None
    end.
Proof.
  unfold exec_at, at_least3. cbn [seq source ignoreCase rx run chr_eq].
  destruct s as [| x1 [| x2 [| x3 t]]]; try reflexivity;
    destruct (x1 =? NL)%N; try reflexivity;
    destruct (x2 =? NL)%N; try reflexivity.
  destruct (x3 =? NL)%N; [| reflexivity]. cbn [andb].
  apply (star_greedy_total (N.eqb NL) t [] (fun s' cs => Some (s', cs))). eauto.
Qed.

Lemma cap_lines_skip k s :
  2 <= k -> cap_lines k s = cap_lines 0 (snd (span (N.eqb NL) s)).
Proof.
  revert k. induction s as [| c s IH]; intros k Hk; [reflexivity |].
  cbn [cap_lines span]. rewrite (N.eqb_sym NL c).
  destruct (c =? NL)%N eqn:Hc.
  - replace (k <? 2) with false by (symmetry; apply Nat.ltb_ge; lia).
    rewrite IH by lia. now destruct (span (N.eqb NL) s).
  - cbn [snd cap_lines]. now rewrite Hc.
Qed.

Lemma cap_lines_one s :
  (forall t, s <> NL :: NL :: t) -> cap_lines 1 s = cap_lines 0 s.
Proof.
  intros H. destruct s as [| x [| y t]]; [reflexivity | |].
  - cbn [cap_lines]. now destruct (x =? NL)%N.
  - cbn [cap_lines]. destruct (N.eqb_spec x NL) as [-> |]; [| reflexivity].
    destruct (N.eqb_spec y NL) as [-> |]; [| reflexivity].
    now specialize (H t).
Qed.

Lemma replace_lines s :
  replace (rx (at_least3 NL)) [Txt nl; Txt nl] s = cap_lines 0 s.
Proof.
  unfold replace, replace_fn.
  assert (H : forall n s, length s <= n ->
                replace_from (rx (at_least3 NL))
                  (fun _ cs => subst [Txt nl; Txt nl] cs) s 0
                = cap_lines 0 s).
  { clear s. induction n as [| n IH]; intros [| c s] Hn; try reflexivity;
      [cbn [length] in Hn; lia |].
    destruct (exec_at (rx (at_least3 NL)) (c :: s)) as [[rest cs] |] eqn:E.
    - rewrite exec_lines in E.
      destruct s as [| x2 [| x3 t]]; try discriminate.
      destruct ((c =? NL)%N && (x2 =? NL)%N && (x3 =? NL)%N) eqn:E3;
        [| discriminate].
      apply andb_prop in E3 as [E3 H3]. apply andb_prop in E3 as [H1 H2].
      apply N.eqb_eq in H1, H2, H3. subst c x2 x3.
      injection E as <- <-.
      destruct (span_parts (N.eqb NL) t) as (Ht & _ & _).
      rewrite (@replace_from_hit _ _ NL (NL :: NL :: t)
                 (snd (span (N.eqb NL) t)) []).
      + cbn [cap_lines]. rewrite N.eqb_refl. cbn [Nat.ltb Nat.leb].
        rewrite (@cap_lines_skip 3 t) by lia.
        rewrite IH; [reflexivity |].
        pose proof (span_shorter (N.eqb NL) t). cbn [length] in Hn. lia.
      + rewrite exec_lines. now rewrite N.eqb_refl.
      + exists (NL :: NL :: fst (span (N.eqb NL) t)). cbn [app]. now rewrite <- Ht.
    - cbn [replace_from]. rewrite E.
      rewrite IH by (cbn [length] in Hn; lia).
      cbn [cap_lines]. destruct (N.eqb_spec c NL) as [-> |]; [| reflexivity].
      cbn [Nat.ltb Nat.leb]. f_equal. symmetry. apply cap_lines_one.
      intros t ->. rewrite exec_lines in E. cbn in E. discriminate. }
  now apply (H (length s)).
Qed.

(** The capped text has no three line feeds in a row; after one line
    feed it does not go on with two, after two with none. *)
Lemma cap_lines_shape s :
  forall k,
    includes (cap_lines k s) [NL; NL; NL] = false
    /\ (1 <= k -> startsWith (cap_lines k s) [NL; NL] = false)
    /\ (2 <= k -> startsWith (cap_lines k s) [NL] = false).
Proof.
  induction s as [| c s IH]; intros k; [repeat split; reflexivity |].
  cbn [cap_lines]. destruct (N.eqb_spec c NL) as [-> | Hc].
  - destruct (k <? 2) eqn:Hk.
    + apply Nat.ltb_lt in Hk.
      destruct (IH (S k)) as (Ha & Hb & Hc).
      split; [| split].
      * cbn [includes startsWith]. rewrite N.eqb_refl, Ha. cbn [andb].
        rewrite orb_false_r.
        destruct k as [| k].
        -- apply Hb. lia.
        -- apply startsWith_longer. apply Hc. lia.
      * intros Hk1. cbn [startsWith]. rewrite N.eqb_refl. cbn [andb].
        apply Hc. lia.
      * intros Hk2. lia.
    + apply Nat.ltb_ge in Hk. destruct (IH (S k)) as (Ha & Hb & Hc).
      split; [exact Ha |]. split; intros _; [apply Hb | apply Hc]; lia.
  - assert (Hn : (NL =? c)%N = false) by (apply N.eqb_neq; congruence).
    destruct (IH 0) as (Ha & _ & _).
    split; [| split]; intros; cbn [includes startsWith]; rewrite Hn;
      [exact Ha | reflexivity | reflexivity].
Qed.

(** *** Infixes *)

Lemma includes_spec s p :
  includes s p = true <-> exists a b, s = a ++ p ++ b.
Proof.
  induction s as [| c s IH].
  - cbn [includes]. rewrite orb_false_r, startsWith_spec. split.
    + intros [t H]. now exists [], t.
    + intros (a & b & H). destruct a; [| discriminate]. now exists b.
  - cbn [includes]. rewrite orb_true_iff, startsWith_spec, IH. split.
    + intros [[t H] | (a & b & H)].
      * now exists [], t.
      * exists (c :: a), b. cbn [app]. now rewrite H.
    + intros (a & b & H). destruct a as [| x a].
      * left. now exists b.
      * right. cbn [app] in H. injection H as _ H. now exists a, b.
Qed.

Lemma includes_infix l m r p :
  includes m p = true -> includes (l ++ m ++ r) p = true.
Proof.
  rewrite !includes_spec. intros (a & b & ->).
  exists (l ++ a), (b ++ r). now rewrite <- !app_assoc.
Qed.

Lemma includes_one s c : includes s [c] = false <-> ~ In c s.
Proof.
  split.
  - intros H Hin. apply in_split in Hin as (a & b & ->).
    assert (Ht : includes (a ++ c :: b) [c] = true)
      by (apply includes_spec; now exists a, b).
    congruence.
  - intros H. destruct (includes s [c]) eqn:E; [| reflexivity].
    apply includes_spec in E as (a & b & ->). exfalso. apply H.
    apply in_or_app. right. now left.
Qed.

(** *** Trimming *)

Lemma trimStart_suffix s : exists l, s = l ++ trimStart s.
Proof.
  induction s as [| c s [l IH]]; [now exists [] |].
  cbn [trimStart]. destruct (is_space c).
  - exists (c :: l). cbn [app]. now rewrite <- IH.
  - now exists [].
Qed.

Lemma trimStart_head s c rest :
  trimStart s = c :: rest -> is_space c = false.
Proof.
  induction s as [| x s IH]; [discriminate |].
  cbn [trimStart]. destruct (is_space x) eqn:Hx; [exact IH |].
  intros H. now injection H as <- _.
Qed.

Lemma trim_infix s : exists l r, s = l ++ trim s ++ r.
Proof.
  unfold trim. destruct (trimStart_suffix s) as [l Hl].
  destruct (trimStart_suffix (rev (trimStart s))) as [r Hr].
  exists l, (rev r). rewrite <- rev_app_distr, <- Hr, rev_involutive. exact Hl.
Qed.

(** A trimmed text neither begins nor ends with white space. *)
Lemma trim_ends s :
  (forall c rest, trim s = c :: rest -> is_space c = false)
  /\ (forall body c, trim s = body ++ [c] -> is_space c = false).
Proof.
  unfold trim. split.
  - intros c rest H.
    destruct (trimStart_suffix (rev (trimStart s))) as [l Hl].
    assert (Hu : trimStart s = (c :: rest) ++ rev l).
    { rewrite <- H, <- rev_app_distr, <- Hl. now rewrite rev_involutive. }
    eapply trimStart_head; eauto.
  - intros body c H.
    assert (Hv : trimStart (rev (trimStart s)) = c :: rev body).
    { rewrite <- (rev_involutive (trimStart (rev (trimStart s)))), H.
      now rewrite rev_app_distr. }
    eapply trimStart_head; eauto.
Qed.

Lemma trimStart_fixed s :
  match s with [] => True | c :: _ => is_space c = false end ->
  trimStart s = s.
Proof. destruct s as [| c s]; [reflexivity |]. cbn [trimStart]. now intros ->. Qed.

Lemma trim_fixed s :
  match s with [] => True | c :: _ => is_space c = false end ->
  match rev s with [] => True | c :: _ => is_space c = false end ->
  trim s = s.
Proof.
  intros H1 H2. unfold trim. rewrite (trimStart_fixed s H1).
  rewrite (trimStart_fixed (rev s) H2). apply rev_involutive.
Qed.

End ScanFacts.

Import RegexSpec Scan Steps StringFacts UrlFacts RegexFacts MatchFacts ScanFacts.

(** ** Words and white space *)

Module TextFacts.

Lemma hangul_not_latin c : hangul c = true -> latin c = false.
Proof.
  unfold hangul, latin. intros H. apply andb_prop in H as [H _].
  apply N.leb_le in H.
  replace (c <=? 90)%N with false by (symmetry; apply N.leb_gt; lia).
  replace (c <=? 122)%N with false by (symmetry; apply N.leb_gt; lia).
  now rewrite !andb_false_r.
Qed.

Lemma countWords_scan text :
  countWords text = length (filter hangul text) + runs latin false text.
Proof. unfold countWords. now rewrite count_class, count_plus. Qed.

Lemma words_bound inside s :
  length (filter hangul s) + runs latin inside s <= length s.
Proof.
  revert inside. induction s as [| c s IH]; intros inside; [reflexivity |].
  cbn [filter runs length]. destruct (hangul c) eqn:Hh.
  - rewrite (hangul_not_latin c Hh). cbn [length]. specialize (IH false). lia.
  - destruct (latin c); [destruct inside; specialize (IH true) | specialize (IH false)];
      lia.
Qed.

(** The conversion ends with the three white-space steps. *)
Lemma htmlToMarkdown_ends html options :
  exists text,
    htmlToMarkdown html options = trim (squeeze false (cap_lines 0 text)).
Proof.
  unfold htmlToMarkdown. cbv zeta. eexists.
  rewrite replace_blank, replace_lines. reflexivity.
Qed.

End TextFacts.

Import TextFacts.

(** X13. [countWords] counts every Hangul syllable and every maximal run
    of Latin letters: nothing else counts, a character that is neither
    separates the words on its two sides, and the count never exceeds the
    length of the text. *)
Theorem countWords_counts :
  (forall text,
     countWords text = length (filter hangul text) + runs latin false text)
  /\ (forall text,
        (forall c, In c text -> hangul c = false /\ latin c = false) ->
        countWords text = 0)
  /\ (forall a c b,
        hangul c = false -> latin c = false ->
        countWords (a ++ c :: b) = countWords a + countWords b)
  /\ (forall text, countWords text <= length text).
Proof.
  split; [exact countWords_scan |]. split; [| split].
  - intros text H. rewrite countWords_scan.
    rewrite runs_none by (intros c Hc; now apply H).
    replace (filter hangul text) with (@nil N); [reflexivity |].
    symmetry. induction text as [| c text IH]; [reflexivity |].
    cbn [filter]. destruct (H c (or_introl eq_refl)) as [-> _].
    apply IH. intros; apply H; now right.
  - intros a c b Hh Hl. rewrite !countWords_scan.
    rewrite runs_app by exact Hl. rewrite filter_app. cbn [filter].
    rewrite Hh, length_app. lia.
  - intros text. rewrite countWords_scan. apply words_bound.
Qed.

(** X14. Whatever the markup, the text that [htmlToMarkdown] returns has
    its white space in order: it has no tab, no two spaces in a row, no
    three line feeds in a row, and it neither begins nor ends with a
    white-space character. *)
Theorem markdown_white_space (html : jsstring) (options : MarkdownOptions) :
  let out := htmlToMarkdown html options in
  ~ In TAB out
  /\ includes out (js "  ") = false
  /\ includes out [NL; NL; NL] = false
  /\ (forall c rest, out = c :: rest -> is_space c = false)
  /\ (forall body c, out = body ++ [c] -> is_space c = false).
Proof.
  intros out. destruct (htmlToMarkdown_ends html options) as [text Hout].
  fold out in Hout. rewrite Hout. clear Hout out.
  set (squeezed := squeeze false (cap_lines 0 text)).
  destruct (trim_infix squeezed) as (l & r & Hin).
  split; [| split; [| split]].
  - intros H.
    assert (Hs : In TAB squeezed).
    { rewrite Hin. apply in_or_app. right. apply in_or_app. now left. }
    apply squeeze_out in Hs as [Hs | [Hs _]]; discriminate.
  - destruct (includes (trim squeezed) (js "  ")) eqn:E; [| reflexivity].
    apply (@includes_infix l _ r _) in E. rewrite <- Hin in E.
    unfold squeezed in E.
    change (js "  ") with [SPACE; SPACE] in E.
    now rewrite squeeze_no_double in E.
  - destruct (includes (trim squeezed) [NL; NL; NL]) eqn:E; [| reflexivity].
    apply (@includes_infix l _ r _) in E. rewrite <- Hin in E.
    unfold squeezed in E. apply squeeze_includes in E;
      [| discriminate | reflexivity].
    destruct (cap_lines_shape text 0) as [Hcap _]. congruence.
  - apply trim_ends.
Qed.

Module TextWitnesses.

Lemma countWords_counts_witness :
  countWords (js "two words" ++ 44%N :: js "한글") = 2 + 2.
Proof.
  destruct countWords_counts as (_ & _ & H & _).
  rewrite H by reflexivity. vm_compute. reflexivity.
Defined.

Lemma markdown_white_space_witness :
  includes (htmlToMarkdown (js "<p>a  b</p>") plain) (js "  ") = false.
Proof.
  exact (proj1 (proj2 (markdown_white_space (js "<p>a  b</p>") plain))).
Defined.

End TextWitnesses.

Import RegexSpec Scan Steps StringFacts UrlFacts RegexFacts MatchFacts ScanFacts.

(** ** The rules of the conversion *)

Module RuleFacts.

Lemma htmlToMarkdown_stages html options :
  htmlToMarkdown html options
  = finish (fold_left apply_rule (tag_rules (md_includeImages options)) html).
Proof. destruct options as [[|]]; reflexivity. Qed.

Lemma finish_scan text :
  finish text = trim (squeeze false (cap_lines 0 (decodeHtmlEntities text))).
Proof. unfold finish. cbv zeta. now rewrite replace_blank, replace_lines. Qed.

Lemma not_In_eqb x s c : ~ In x s -> In c s -> (c =? x)%N = false.
Proof.
  intros Hs Hc. apply N.eqb_neq. intros ->. contradiction.
Qed.

(** *** Rules that find nothing *)

Lemma begins_plain x r f s :
  (x <? 65)%N = true -> begins_with x r -> ~ In x s ->
  replace_fn r f s = s.
Proof.
  intros Hx [Hc Hs] Hno. apply replace_fn_plain; [exact Hc |].
  intros c Hin. apply Hs. apply chr_eq_other; [exact Hx |].
  eapply not_In_eqb; eauto.
Qed.

(** A rule that fails at the head of a text, cannot start in its middle
    and finds nothing in its end. *)
Lemma begins_nothing x r f c0 mid post :
  (x <? 65)%N = true -> begins_with x r ->
  exec_at r (c0 :: mid ++ post) = None ->
  ~ In x mid -> rejected_before r post [] ->
  replace_fn r f (c0 :: mid ++ post) = c0 :: mid ++ post.
Proof.
  intros Hx [Hc Hs] H0 Hmid Hpost.
  change (c0 :: mid ++ post) with ([c0] ++ mid ++ post).
  apply replace_fn_nothing; auto.
  - cbn [rejected_before app]. auto.
  - intros c Hin. apply Hs. apply chr_eq_other; [exact Hx |].
    eapply not_In_eqb; eauto.
Qed.

Ltac begins :=
  split;
  [ vm_compute; reflexivity
  | let c := fresh "c" in
    let H := fresh "H" in
    intros c H; vm_compute in H; vm_compute; rewrite ?H; reflexivity ].

Lemma tag_rules_begin images :
  Forall (fun rule => begins_with LT (fst rule)) (tag_rules images).
Proof.
  destruct images; unfold tag_rules; cbn [app];
    repeat (apply Forall_cons; [cbn [fst]; begins |]); apply Forall_nil.
Qed.

Lemma rules_plain rules s :
  Forall (fun rule => begins_with LT (fst rule)) rules ->
  ~ In LT s ->
  fold_left apply_rule rules s = s.
Proof.
  induction 1 as [| rule rules Hr _ IH]; intros Hs; [reflexivity |].
  cbn [fold_left]. unfold apply_rule at 2, replace.
  rewrite (@begins_plain LT (fst rule) _ s eq_refl Hr Hs). now apply IH.
Qed.

Lemma rules_nothing rules c0 mid post :
  Forall (fun rule => begins_with LT (fst rule)) rules ->
  Forall (fun rule => exec_at (fst rule) (c0 :: mid ++ post) = None) rules ->
  Forall (fun rule => rejected_before (fst rule) post []) rules ->
  ~ In LT mid ->
  fold_left apply_rule rules (c0 :: mid ++ post) = c0 :: mid ++ post.
Proof.
  intros Hb H0 Hp Hmid. induction rules as [| rule rules IH]; [reflexivity |].
  inversion Hb as [| ? ? Hb1 Hb2]; inversion H0 as [| ? ? H01 H02];
    inversion Hp as [| ? ? Hp1 Hp2]; subst.
  cbn [fold_left]. unfold apply_rule at 2, replace.
  rewrite (@begins_nothing LT (fst rule) _ c0 mid post eq_refl Hb1 H01 Hmid Hp1).
  now apply IH.
Qed.

Lemma Forall_firstn_skipn (A : Type) (Q : A -> Prop) k (l : list A) :
  Forall Q l -> Forall Q (firstn k l) /\ Forall Q (skipn k l).
Proof.
  intros H. rewrite <- (firstn_skipn k l) in H. now apply Forall_app in H.
Qed.

Lemma nth_error_split_at (A : Type) (l : list A) k x :
  nth_error l k = Some x -> l = firstn k l ++ x :: skipn (S k) l.
Proof.
  revert l. induction k as [| k IH]; intros [| y l] H; try discriminate.
  - injection H as ->. reflexivity.
  - cbn [firstn skipn app]. f_equal. now apply IH.
Qed.

(** *** The pattern of an element *)

(** On an element whose attributes have no [>] and whose content has no
    [<], the pattern matches the whole element and captures the
    content. *)
Lemma exec_element a b' attrs t rest :
  forallb (not_chr GT) attrs = true -> ~ In LT t ->
  exec_at (rxi (element_re a (LT :: b')))
    (a ++ attrs ++ GT :: t ++ (LT :: b') ++ rest)
  = Some (rest, [(1, t)]).
Proof.
  intros Ha Ht. unfold exec_at, element_re. cbn [seq source ignoreCase rxi run].
  rewrite (@run_lit _ true a (attrs ++ GT :: t ++ (LT :: b') ++ rest)).
  apply star_greedy_all; [exact Ha | reflexivity |].
  rewrite chr_eq_refl.
  rewrite star_lazy_scan.
  - cbn [star_lazy app]. rewrite (@run_lit _ true (LT :: b') rest).
    now rewrite firstn_prefix.
  - reflexivity.
  - intros c s Hc. apply run_lit_mismatch.
    apply chr_eq_other; [reflexivity |].
    eapply not_In_eqb; eauto.
Qed.

(** The pattern of any tag on a tag. *)
Lemma exec_any_tag c name rest :
  forallb (not_chr GT) (c :: name) = true ->
  exec_at any_tag (LT :: (c :: name) ++ GT :: rest) = Some (rest, []).
Proof.
  intros Hn. cbn [forallb] in Hn. apply andb_prop in Hn as [Hc Hn].
  unfold exec_at, any_tag, plus. cbn [seq source ignoreCase rx run app chr_eq].
  rewrite N.eqb_refl, Hc.
  erewrite star_greedy_all; [reflexivity | exact Hn | reflexivity |].
  now rewrite N.eqb_refl.
Qed.

(** *** Entities *)

Lemma entities_begin :
  Forall (fun e => begins_with AMP (rx (lit (fst e)))) entities
  /\ begins_with AMP numeric_entity.
Proof.
  split; [| begins]. unfold entities.
  repeat (apply Forall_cons; [cbn [fst]; begins |]). apply Forall_nil.
Qed.

(** Nothing to decode without an ampersand. *)
Lemma decodeHtmlEntities_plain s :
  ~ In AMP s -> decodeHtmlEntities s = s.
Proof.
  intros Hs. unfold decodeHtmlEntities. destruct entities_begin as [He Hn].
  assert (Hfold : fold_left
                    (fun result e => replace (rx (lit (fst e))) [Txt (snd e)] result)
                    entities s = s).
  { induction He as [| e es H1 _ IH]; [reflexivity |].
    cbn [fold_left]. unfold replace at 2.
    rewrite (@begins_plain AMP _ _ s eq_refl H1 Hs). exact IH. }
  rewrite Hfold. now apply (@begins_plain AMP numeric_entity _ s eq_refl Hn).
Qed.

(** *** Words and sentences *)

Lemma plain_char_spec c :
  plain_char c = true ->
  c <> LT /\ c <> AMP /\ is_space c = false /\ blank c = false /\ c <> NL.
Proof.
  unfold plain_char. intros H. apply andb_prop in H as [H H3].
  apply andb_prop in H as [H1 H2]. rewrite !negb_true_iff in *.
  apply N.eqb_neq in H1, H2. repeat (split; [assumption |]).
  split.
  - unfold blank. unfold is_space in H3.
    destruct (N.eqb_spec c 32) as [-> |]; [discriminate |].
    destruct (N.eqb_spec c 9) as [-> |]; [discriminate | reflexivity].
  - intros ->. discriminate.
Qed.

Lemma word_spec w :
  word w = true -> w <> [] /\ forall c, In c w -> plain_char c = true.
Proof.
  unfold word. destruct w as [| c w]; [discriminate |]. intros H.
  split; [discriminate |]. now apply forallb_forall.
Qed.

Lemma word_app a w b :
  forallb plain_char a = true -> word w = true -> forallb plain_char b = true ->
  word (a ++ w ++ b) = true.
Proof.
  intros Ha Hw Hb. destruct (word_spec w Hw) as [Hne Hall].
  assert (H : forallb plain_char (a ++ w ++ b) = true).
  { rewrite !forallb_app, Ha, Hb. cbn [andb]. rewrite andb_true_r.
    now apply forallb_forall. }
  unfold word. destruct (a ++ w ++ b) eqn:E; [| exact H].
  destruct a; [destruct w; [congruence | discriminate] | discriminate].
Qed.

(** The characters of a sentence are those of its words and the space. *)
Lemma sentence_chars ws c :
  Forall (fun w => word w = true) ws -> In c (sentence ws) ->
  c = SPACE \/ plain_char c = true.
Proof.
  induction 1 as [| w ws Hw Hws IH]; [intros [] |].
  destruct (word_spec w Hw) as [_ Hall].
  destruct ws as [| w2 ws].
  - cbn [sentence]. right. now apply Hall.
  - change (sentence (w :: w2 :: ws)) with (w ++ SPACE :: sentence (w2 :: ws)).
    intros Hin. apply in_app_or in Hin as [Hin | [<- | Hin]]; auto.
Qed.

Lemma sentence_without ws x :
  Forall (fun w => word w = true) ws ->
  x <> SPACE -> plain_char x = false -> ~ In x (sentence ws).
Proof.
  intros Hws Hx Hp Hin. apply sentence_chars in Hin as [-> | Hin]; congruence.
Qed.

Lemma sentence_prefix a w ws :
  sentence ((a ++ w) :: ws) = a ++ sentence (w :: ws).
Proof.
  destruct ws as [| w2 ws]; [reflexivity |].
  change (sentence ((a ++ w) :: w2 :: ws))
    with ((a ++ w) ++ SPACE :: sentence (w2 :: ws)).
  now rewrite <- app_assoc.
Qed.

Lemma sentence_suffix ws w b :
  sentence (ws ++ [w ++ b]) = sentence (ws ++ [w]) ++ b.
Proof.
  induction ws as [| x ws IH]; [reflexivity |].
  destruct ws as [| y ws].
  - cbn [app sentence]. rewrite <- app_assoc. reflexivity.
  - change (sentence ((x :: y :: ws) ++ [w ++ b]))
      with (x ++ SPACE :: sentence ((y :: ws) ++ [w ++ b])).
    change (sentence ((x :: y :: ws) ++ [w]))
      with (x ++ SPACE :: sentence ((y :: ws) ++ [w])).
    rewrite IH, <- app_assoc. reflexivity.
Qed.

(** A sentence between two runs of word characters is a sentence. *)
Lemma sentence_wrap a b ws :
  ws <> [] -> Forall (fun w => word w = true) ws ->
  forallb plain_char a = true -> forallb plain_char b = true ->
  exists ws', ws' <> [] /\ Forall (fun w => word w = true) ws'
              /\ a ++ sentence ws ++ b = sentence ws'.
Proof.
  intros Hne Hws Ha Hb.
  destruct (exists_last Hne) as (ws0 & w & ->).
  apply Forall_app in Hws as [Hws0 Hw]. inversion Hw as [| ? ? Hw1 _]; subst.
  rewrite <- sentence_suffix.
  destruct ws0 as [| w1 ws1].
  - exists [a ++ w ++ b]. split; [discriminate |]. split; [| reflexivity].
    constructor; [| constructor]. now apply word_app.
  - inversion Hws0 as [| ? ? Hw0 Hws1]; subst.
    exists ((a ++ w1) :: ws1 ++ [w ++ b]). split; [discriminate |]. split.
    + constructor.
      * rewrite <- (app_nil_r w1). now apply word_app.
      * apply Forall_app. split; [exact Hws1 |]. constructor; [| constructor].
        now apply (@word_app [] w b).
    + cbn [app]. now rewrite sentence_prefix.
Qed.

(** A sentence begins and ends with a character of a word. *)
Lemma sentence_head ws :
  ws <> [] -> Forall (fun w => word w = true) ws ->
  exists c rest, sentence ws = c :: rest /\ plain_char c = true.
Proof.
  intros Hne Hws. destruct ws as [| w ws]; [congruence |].
  inversion Hws as [| ? ? Hw _]; subst.
  destruct (word_spec w Hw) as [Hw0 Hall].
  destruct w as [| c w]; [congruence |].
  destruct ws as [| w2 ws].
  - exists c, w. split; [reflexivity |]. apply Hall. now left.
  - exists c, (w ++ SPACE :: sentence (w2 :: ws)). split; [reflexivity |].
    apply Hall. now left.
Qed.

Lemma sentence_last ws :
  ws <> [] -> Forall (fun w => word w = true) ws ->
  exists body d, sentence ws = body ++ [d] /\ plain_char d = true.
Proof.
  intros Hne Hws. destruct (exists_last Hne) as (ws0 & w & ->).
  apply Forall_app in Hws as [_ Hw]. inversion Hw as [| ? ? Hw1 _]; subst.
  destruct (word_spec w Hw1) as [Hw0 Hall].
  destruct (exists_last Hw0) as (w0 & d & ->).
  exists (sentence (ws0 ++ [w0])), d. split; [apply sentence_suffix |].
  apply Hall. apply in_or_app. right. now left.
Qed.

(** *** The last steps on a sentence *)

Lemma squeeze_plain w rest :
  (forall c, In c w -> blank c = false) ->
  squeeze false (w ++ rest) = w ++ squeeze false rest.
Proof.
  induction w as [| c w IH]; intros H; [reflexivity |].
  cbn [app squeeze]. rewrite (H c (or_introl eq_refl)). f_equal.
  apply IH. intros; apply H; now right.
Qed.

Lemma squeeze_word inside w rest :
  word w = true -> squeeze inside (w ++ rest) = w ++ squeeze false rest.
Proof.
  intros Hw. destruct (word_spec w Hw) as [Hne Hall].
  assert (Hb : forall c, In c w -> blank c = false).
  { intros c Hc. now apply plain_char_spec, Hall. }
  destruct w as [| c w]; [congruence |].
  cbn [app squeeze]. rewrite (Hb c (or_introl eq_refl)). f_equal.
  apply squeeze_plain. intros; apply Hb; now right.
Qed.

Lemma squeeze_sentence ws :
  Forall (fun w => word w = true) ws -> ws <> [] ->
  forall inside rest,
    squeeze inside (sentence ws ++ rest) = sentence ws ++ squeeze false rest.
Proof.
  induction 1 as [| w ws Hw Hws IH]; [congruence |]. intros _ inside rest.
  destruct ws as [| w2 ws].
  - cbn [sentence]. now apply squeeze_word.
  - change (sentence (w :: w2 :: ws)) with (w ++ SPACE :: sentence (w2 :: ws)).
    rewrite <- !app_assoc. rewrite squeeze_word by exact Hw.
    cbn [app squeeze]. change (blank SPACE) with true. cbv iota.
    now rewrite IH by discriminate.
Qed.

Lemma cap_lines_plain body rest :
  ~ In NL body -> cap_lines 0 (body ++ rest) = body ++ cap_lines 0 rest.
Proof.
  induction body as [| c body IH]; intros H; [reflexivity |].
  cbn [app cap_lines].
  destruct (N.eqb_spec c NL) as [-> | _]; [exfalso; apply H; now left |].
  f_equal. apply IH. intros Hin. apply H. now right.
Qed.

Lemma cap_lines_body k body rest :
  body <> [] -> ~ In NL body ->
  cap_lines k (body ++ rest) = body ++ cap_lines 0 rest.
Proof.
  intros Hne H. destruct body as [| c body]; [congruence |].
  cbn [app cap_lines].
  destruct (N.eqb_spec c NL) as [-> | _]; [exfalso; apply H; now left |].
  f_equal. apply cap_lines_plain. intros Hin. apply H. now right.
Qed.

(** A sentence alone on its line comes out of the last steps as it is. *)
Lemma finish_frame lead trail ws :
  lead = [] \/ lead = [NL] -> trail = [] \/ trail = [NL] ->
  ws <> [] -> Forall (fun w => word w = true) ws ->
  finish (lead ++ sentence ws ++ trail) = sentence ws.
Proof.
  intros Hlead Htrail Hne Hws. rewrite finish_scan.
  assert (Hamp : ~ In AMP (sentence ws))
    by (apply sentence_without; [exact Hws | discriminate | reflexivity]).
  assert (Hnl : ~ In NL (sentence ws))
    by (apply sentence_without; [exact Hws | discriminate | reflexivity]).
  assert (Hbody : sentence ws <> []).
  { destruct (sentence_head Hne Hws) as (c & rest & -> & _). discriminate. }
  assert (Hdec : decodeHtmlEntities (lead ++ sentence ws ++ trail)
                 = lead ++ sentence ws ++ trail).
  { apply decodeHtmlEntities_plain. intros Hin.
    apply in_app_or in Hin as [Hin | Hin];
      [destruct Hlead as [-> | ->]; [destruct Hin | destruct Hin as [H | []]; discriminate] |].
    apply in_app_or in Hin as [Hin | Hin]; [now apply Hamp |].
    destruct Htrail as [-> | ->]; [destruct Hin | destruct Hin as [H | []]; discriminate]. }
  rewrite Hdec.
  assert (Hcap : cap_lines 0 (lead ++ sentence ws ++ trail)
                 = lead ++ sentence ws ++ trail).
  { assert (Ht : cap_lines 0 trail = trail)
      by (destruct Htrail as [-> | ->]; reflexivity).
    destruct Hlead as [-> | ->]; cbn [app cap_lines].
    - now rewrite cap_lines_plain, Ht.
    - change (NL =? NL)%N with true. change (0 <? 2) with true. cbv iota.
      now rewrite cap_lines_body, Ht. }
  rewrite Hcap.
  assert (Hsq : squeeze false (lead ++ sentence ws ++ trail)
                = lead ++ sentence ws ++ trail).
  { assert (Ht : squeeze false trail = trail)
      by (destruct Htrail as [-> | ->]; reflexivity).
    destruct Hlead as [-> | ->]; cbn [app squeeze].
    - now rewrite squeeze_sentence, Ht.
    - change (blank NL) with false. cbv iota.
      now rewrite squeeze_sentence, Ht. }
  rewrite Hsq.
  destruct (sentence_head Hne Hws) as (c & rest & Hc & Hpc).
  destruct (sentence_last Hne Hws) as (body & d & Hd & Hpd).
  apply plain_char_spec in Hpc as (_ & _ & Hsc & _).
  apply plain_char_spec in Hpd as (_ & _ & Hsd & _).
  unfold trim.
  assert (H1 : trimStart (lead ++ sentence ws ++ trail) = sentence ws ++ trail).
  { rewrite Hc. destruct Hlead as [-> | ->]; cbn [app trimStart].
    - now rewrite Hsc.
    - change (is_space NL) with true. cbv iota. now rewrite Hsc. }
  rewrite H1, rev_app_distr, Hd, rev_app_distr. cbn [rev app].
  assert (H2 : trimStart (rev trail ++ d :: rev body) = d :: rev body).
  { destruct Htrail as [-> | ->]; cbn [rev app trimStart].
    - now rewrite Hsd.
    - change (is_space NL) with true. cbv iota. now rewrite Hsd. }
  rewrite H2. cbn [rev]. now rewrite rev_involutive.
Qed.

End RuleFacts.

Import RegexSpec Scan Steps StringFacts UrlFacts RegexFacts MatchFacts ScanFacts RuleFacts.

(** ** Elements *)

Module ElementFacts.

Lemma without_spec x s :
  forallb (not_chr x) s = true <-> ~ In x s.
Proof.
  rewrite forallb_forall. unfold not_chr. split.
  - intros H Hin. specialize (H x Hin). now rewrite N.eqb_refl in H.
  - intros H c Hc. apply negb_true_iff, N.eqb_neq. intros ->. contradiction.
Qed.

Lemma attributes_spec attrs :
  attributes attrs = true ->
  forallb (not_chr GT) attrs = true /\ forallb (not_chr LT) attrs = true
  /\ (attrs = [] \/ exists rest, attrs = SPACE :: rest).
Proof.
  unfold attributes. intros H. apply andb_prop in H as [H1 H2].
  rewrite forallb_forall in H2. split; [| split].
  - apply forallb_forall. intros c Hc. apply H2 in Hc.
    now apply andb_prop in Hc as [Hc _].
  - apply forallb_forall. intros c Hc. apply H2 in Hc.
    now apply andb_prop in Hc as [_ Hc].
  - destruct attrs as [| c rest]; [now left |]. right. exists rest.
    apply N.eqb_eq in H1. now subst.
Qed.

Lemma Forall_removelast (A : Type) (Q : A -> Prop) (l : list A) :
  Forall Q l -> Forall Q (removelast l).
Proof.
  induction 1 as [| x l Hx Hl IH]; [constructor |].
  cbn [removelast]. destruct l; [constructor |]. now constructor.
Qed.

Lemma tag_rules_last images :
  tag_rules images = removelast (tag_rules images) ++ [(any_tag, [])].
Proof. destruct images; reflexivity. Qed.

Section Element.
Variables (images : bool) (tag : string) (name close attrs t : jsstring).
Hypothesis Hopen : js ("<" ++ tag)%string = LT :: name.
Hypothesis Hclose : js ("</" ++ tag ++ ">")%string = LT :: close.
Hypothesis Hname : forallb (not_chr LT) name = true.
Hypothesis Hattrs : attributes attrs = true.
Hypothesis Ht : forallb (not_chr LT) t = true.

Lemma tagged_parts :
  tagged tag attrs t = LT :: (name ++ attrs ++ GT :: t) ++ LT :: close.
Proof.
  unfold tagged. rewrite Hopen, Hclose. cbn [app].
  now rewrite <- !app_assoc.
Qed.

Lemma inside_without : ~ In LT (name ++ attrs ++ GT :: t).
Proof.
  apply without_spec. destruct (attributes_spec attrs Hattrs) as (_ & Ha & _).
  rewrite !forallb_app. cbn [forallb]. now rewrite Hname, Ha, Ht.
Qed.

(** The rule of the element applies, the rules before it find nothing
    and the rules after it have no tag left to work on. *)
Lemma element_rule k template :
  nth_error (tag_rules images) k = Some (element tag, template) ->
  Forall (fun rule => exec_at (fst rule) (tagged tag attrs t) = None)
    (firstn k (tag_rules images)) ->
  Forall (fun rule => rejected_before (fst rule) (LT :: close) [])
    (firstn k (tag_rules images)) ->
  forallb (not_chr LT) (subst template [(1, t)]) = true ->
  fold_left apply_rule (tag_rules images) (tagged tag attrs t)
  = subst template [(1, t)].
Proof.
  intros Hk H0 Hc Hout.
  rewrite (nth_error_split_at _ _ Hk) at 1.
  destruct (Forall_firstn_skipn k (tag_rules_begin images)) as [Hb1 _].
  destruct (Forall_firstn_skipn (S k) (tag_rules_begin images)) as [_ Hb2].
  rewrite fold_left_app. cbn [fold_left].
  rewrite tagged_parts in *.
  rewrite rules_nothing; [| exact Hb1 | exact H0 | exact Hc | exact inside_without].
  assert (Hrule : apply_rule (LT :: (name ++ attrs ++ GT :: t) ++ LT :: close)
                    (element tag, template) = subst template [(1, t)]).
  { unfold apply_rule, replace. cbn [fst snd].
    assert (Hex : exec_at (element tag)
                    ((LT :: (name ++ attrs ++ GT :: t) ++ LT :: close) ++ [])
                  = Some ([], [(1, t)])).
    { unfold element, lit. rewrite Hopen, Hclose.
      replace ((LT :: (name ++ attrs ++ GT :: t) ++ LT :: close) ++ [])
        with ((LT :: name) ++ attrs ++ GT :: t ++ (LT :: close) ++ []).
      - apply exec_element; [apply attributes_spec, Hattrs |].
        now apply without_spec.
      - cbn [app]. now rewrite <- !app_assoc, !app_nil_r. }
    assert (Hhead : head_consumes (source (element tag)) = true).
    { pose proof (tag_rules_begin images) as Hb. rewrite Forall_forall in Hb.
      apply nth_error_In in Hk. apply Hb in Hk. now destruct Hk. }
    rewrite <- (app_nil_r (LT :: (name ++ attrs ++ GT :: t) ++ LT :: close)) at 1.
    rewrite (@replace_fn_match _ _ _ _ _ Hhead Hex).
    unfold replace_fn. rewrite replace_from_nil by exact Hhead.
    apply app_nil_r. }
  rewrite Hrule. apply rules_plain; [exact Hb2 |]. now apply without_spec.
Qed.

(** An element without a rule of its own loses its two tags to the last
    rule. *)
Lemma other_element :
  name <> [] -> forallb (not_chr GT) name = true ->
  Forall (fun rule => exec_at (fst rule) (tagged tag attrs t) = None)
    (removelast (tag_rules images)) ->
  Forall (fun rule => rejected_before (fst rule) (LT :: close) [])
    (removelast (tag_rules images)) ->
  replace any_tag [] (LT :: close) = [] ->
  fold_left apply_rule (tag_rules images) (tagged tag attrs t) = t.
Proof.
  intros Hne Hgt H0 Hc Hlast.
  rewrite (tag_rules_last images) at 1.
  pose proof (Forall_removelast (tag_rules_begin images)) as Hb.
  rewrite fold_left_app. cbn [fold_left].
  rewrite tagged_parts in *.
  rewrite rules_nothing; [| exact Hb | exact H0 | exact Hc | exact inside_without].
  unfold apply_rule, replace in *. cbn [fst snd].
  destruct (attributes_spec attrs Hattrs) as (Ha & _ & _).
  assert (Hex : exec_at any_tag
                  ((LT :: name ++ attrs ++ [GT]) ++ t ++ LT :: close)
                = Some (t ++ LT :: close, [])).
  { destruct name as [| c name']; [congruence |].
    replace ((LT :: (c :: name') ++ attrs ++ [GT]) ++ t ++ LT :: close)
      with (LT :: (c :: name' ++ attrs) ++ GT :: t ++ LT :: close)
      by (cbn [app]; now rewrite <- !app_assoc).
    apply exec_any_tag. change (c :: name' ++ attrs) with ((c :: name') ++ attrs).
    now rewrite forallb_app, Hgt, Ha. }
  replace (LT :: (name ++ attrs ++ GT :: t) ++ LT :: close)
    with ((LT :: name ++ attrs ++ [GT]) ++ t ++ LT :: close)
    by (cbn [app]; now rewrite <- !app_assoc).
  assert (Hhead : head_consumes (source any_tag) = true) by reflexivity.
  rewrite (@replace_fn_match _ _ _ _ _ Hhead Hex).
  unfold replace_fn in *. rewrite replace_from_plain; [| exact Hhead |].
  - rewrite Hlast. cbn [subst app]. apply app_nil_r.
  - intros c Hin. rewrite forallb_forall in Ht. specialize (Ht c Hin).
    unfold not_chr in Ht. apply negb_true_iff in Ht.
    cbn [any_tag rx source ignoreCase seq starts head_consumes chr_eq].
    exact Ht.
Qed.

End Element.

End ElementFacts.

Import ElementFacts.

Module ElementRules.

Ltac rejects attrs Hattrs :=
  first
    [ vm_compute; reflexivity
    | let Hs := fresh "Hs" in
      let rest := fresh "rest" in
      destruct (attributes_spec attrs Hattrs) as (_ & _ & [Hs | [rest Hs]]);
      rewrite Hs; vm_compute; reflexivity ].

Ltac all_reject attrs Hattrs :=
  repeat (apply Forall_cons; [cbn [fst]; rejects attrs Hattrs |]);
  apply Forall_nil.

Ltac all_rejected :=
  repeat (apply Forall_cons;
          [cbn [fst]; vm_compute; repeat (split; [reflexivity |]); exact I |]);
  apply Forall_nil.

Ltac by_rule images tag name close idx attrs Hattrs Ht :=
  etransitivity;
  [ eapply (@element_rule images tag name close attrs) with (k := idx);
    [ vm_compute; reflexivity
    | vm_compute; reflexivity
    | vm_compute; reflexivity
    | exact Hattrs
    | exact Ht
    | unfold tag_rules; reflexivity
    | unfold tag_rules; cbn [firstn app]; all_reject attrs Hattrs
    | unfold tag_rules; cbn [firstn app]; all_rejected
    | cbn [subst group Nat.eqb]; rewrite ?forallb_app, Ht;
      vm_compute; reflexivity ]
  | first [reflexivity | apply app_nil_r] ].

Ltac by_last images tag name close attrs Hattrs Ht :=
  eapply (@other_element images tag name close attrs);
  [ vm_compute; reflexivity
  | vm_compute; reflexivity
  | vm_compute; reflexivity
  | exact Hattrs
  | exact Ht
  | discriminate
  | vm_compute; reflexivity
  | destruct images; unfold tag_rules; cbn [removelast app];
    all_reject attrs Hattrs
  | destruct images; unfold tag_rules; cbn [removelast app]; all_rejected
  | vm_compute; reflexivity ].

(** What the rules make of an element whose content has no [<]. *)
Lemma rules_on_elements images attrs t :
  attributes attrs = true -> forallb (not_chr LT) t = true ->
  let rules tag :=
    fold_left apply_rule (tag_rules images) (tagged tag attrs t) in
  (rules "h1"%string = [NL] ++ (js "#" ++ SPACE :: t) ++ [NL]
   /\ rules "h2"%string = [NL] ++ (js "##" ++ SPACE :: t) ++ [NL]
   /\ rules "h3"%string = [NL] ++ (js "###" ++ SPACE :: t) ++ [NL]
   /\ rules "h4"%string = [NL] ++ (js "####" ++ SPACE :: t) ++ [NL])
  /\ (rules "p"%string = [NL] ++ t ++ [NL]
      /\ rules "li"%string = [] ++ (js "-" ++ SPACE :: t) ++ [NL]
      /\ rules "a"%string = t)
  /\ (rules "strong"%string = js "**" ++ t ++ js "**"
      /\ rules "b"%string = js "**" ++ t ++ js "**"
      /\ rules "em"%string = js "*" ++ t ++ js "*")
  /\ (rules "h5"%string = t /\ rules "h6"%string = t /\ rules "div"%string = t
      /\ rules "span"%string = t).
Proof.
  intros Hattrs Ht rules. unfold rules.
  split; [| split; [| split]].
  - split; [| split; [| split]].
    + by_rule images "h1"%string (js "h1") (js "/h1>") 2 attrs Hattrs Ht.
    + by_rule images "h2"%string (js "h2") (js "/h2>") 3 attrs Hattrs Ht.
    + by_rule images "h3"%string (js "h3") (js "/h3>") 4 attrs Hattrs Ht.
    + by_rule images "h4"%string (js "h4") (js "/h4>") 5 attrs Hattrs Ht.
  - split; [| split].
    + by_rule images "p"%string (js "p") (js "/p>") 6 attrs Hattrs Ht.
    + by_rule images "li"%string (js "li") (js "/li>") 8 attrs Hattrs Ht.
    + by_rule images "a"%string (js "a") (js "/a>") 14 attrs Hattrs Ht.
  - split; [| split].
    + by_rule images "strong"%string (js "strong") (js "/strong>") 11 attrs Hattrs Ht.
    + by_rule images "b"%string (js "b") (js "/b>") 12 attrs Hattrs Ht.
    + by_rule images "em"%string (js "em") (js "/em>") 13 attrs Hattrs Ht.
  - split; [| split; [| split]].
    + by_last images "h5"%string (js "h5") (js "/h5>") attrs Hattrs Ht.
    + by_last images "h6"%string (js "h6") (js "/h6>") attrs Hattrs Ht.
    + by_last images "div"%string (js "div") (js "/div>") attrs Hattrs Ht.
    + by_last images "span"%string (js "span") (js "/span>") attrs Hattrs Ht.
Qed.

End ElementRules.

Import ElementRules.

Module SentenceFacts.

Lemma sentence_lead a ws :
  ws <> [] -> sentence (a :: ws) = a ++ SPACE :: sentence ws.
Proof. destruct ws; [congruence | reflexivity]. Qed.

Lemma finish_sentence ws :
  ws <> [] -> Forall (fun w => word w = true) ws ->
  finish (sentence ws) = sentence ws.
Proof.
  intros Hne Hws.
  rewrite <- (@finish_frame [] [] ws) at 2 by auto.
  cbn [app]. now rewrite app_nil_r.
Qed.

Lemma finish_wrapped a b ws :
  ws <> [] -> Forall (fun w => word w = true) ws ->
  forallb plain_char a = true -> forallb plain_char b = true ->
  finish (a ++ sentence ws ++ b) = a ++ sentence ws ++ b.
Proof.
  intros Hne Hws Ha Hb.
  destruct (@sentence_wrap a b ws Hne Hws Ha Hb) as (ws' & Hne' & Hws' & ->).
  now apply finish_sentence.
Qed.

Lemma finish_led lead trail a ws :
  lead = [] \/ lead = [NL] -> trail = [] \/ trail = [NL] ->
  word a = true ->
  ws <> [] -> Forall (fun w => word w = true) ws ->
  finish (lead ++ (a ++ SPACE :: sentence ws) ++ trail)
  = a ++ SPACE :: sentence ws.
Proof.
  intros Hlead Htrail Ha Hne Hws. rewrite <- (@sentence_lead a ws Hne).
  apply finish_frame; auto. discriminate.
Qed.

End SentenceFacts.

Import SentenceFacts.

(** X15. An element with a rule of its own becomes its markdown form and
    any other element becomes its content.  For a content of words
    separated by single spaces (no [<], no [&]) and attributes that are
    empty or begin with a space: [h1] to [h4] give the content after one
    to four sharps and a space, [li] after a dash and a space, [strong]
    and [b] between two pairs of stars, [em] between two stars; [p], [a],
    [h5], [h6], [div] and [span] give the content alone, as does the
    content without any tag. *)
Theorem elements_to_markdown (ws : list jsstring) (attrs : jsstring)
    (options : MarkdownOptions) :
  ws <> [] -> Forall (fun w => word w = true) ws ->
  attributes attrs = true ->
  let t := sentence ws in
  let convert tag := htmlToMarkdown (tagged tag attrs t) options in
  (convert "h1"%string = js "# " ++ t
   /\ convert "h2"%string = js "## " ++ t
   /\ convert "h3"%string = js "### " ++ t
   /\ convert "h4"%string = js "#### " ++ t)
  /\ (convert "p"%string = t
      /\ convert "li"%string = js "- " ++ t
      /\ convert "a"%string = t)
  /\ (convert "strong"%string = js "**" ++ t ++ js "**"
      /\ convert "b"%string = js "**" ++ t ++ js "**"
      /\ convert "em"%string = js "*" ++ t ++ js "*")
  /\ (convert "h5"%string = t /\ convert "h6"%string = t
      /\ convert "div"%string = t /\ convert "span"%string = t)
  /\ htmlToMarkdown t options = t.
Proof.
  intros Hne Hws Hattrs t convert. unfold convert.
  assert (Ht : forallb (not_chr LT) t = true).
  { apply without_spec.
    apply sentence_without; [exact Hws | discriminate | reflexivity]. }
  rewrite !htmlToMarkdown_stages.
  destruct (rules_on_elements (md_includeImages options) attrs t Hattrs Ht)
    as ((E1 & E2 & E3 & E4) & (Ep & Eli & Ea) & (Es & Eb & Ee)
        & (E5 & E6 & Ed & Esp)).
  rewrite E1, E2, E3, E4, Ep, Eli, Ea, Es, Eb, Ee, E5, E6, Ed, Esp.
  unfold t.
  split; [| split; [| split; [| split]]].
  - split; [| split; [| split]];
      (rewrite finish_led; [reflexivity | now right | now right
                           | reflexivity | exact Hne | exact Hws]).
  - split; [| split].
    + apply finish_frame; auto.
    + rewrite finish_led; [reflexivity | now left | now right
                          | reflexivity | exact Hne | exact Hws].
    + now apply finish_sentence.
  - split; [| split]; now apply finish_wrapped.
  - split; [| split; [| split]]; now apply finish_sentence.
  - rewrite rules_plain;
      [now apply finish_sentence | apply tag_rules_begin
      | now apply without_spec].
Qed.

Module ElementWitnesses.

Lemma elements_to_markdown_witness :
  htmlToMarkdown (js "<h2 id=top>Hello world</h2>") plain
  = js "## Hello world".
Proof.
  assert (Hne : [js "Hello"; js "world"] <> []) by discriminate.
  assert (Hws : Forall (fun w => word w = true) [js "Hello"; js "world"])
    by (repeat constructor).
  assert (Hattrs : attributes (js " id=top") = true) by reflexivity.
  exact (proj1 (proj2 (proj1
           (@elements_to_markdown _ _ plain Hne Hws Hattrs)))).
Defined.

End ElementWitnesses.

Import RegexSpec Scan Steps StringFacts UrlFacts RegexFacts MatchFacts ScanFacts RuleFacts.
Import ElementFacts.

(** ** Markup that leaves no trace *)

Module RemovalFacts.

Section Front.
Variable x : N.
Hypothesis small : (x <? 65)%N = true.

Lemma begins_no_start r s :
  begins_with x r -> ~ In x s ->
  forall c, In c s -> starts (ignoreCase r) (source r) c = false.
Proof.
  intros [_ Hs] Hno c Hin. apply Hs. apply chr_eq_other; [exact small |].
  eapply not_In_eqb; eauto.
Qed.

(** A text without the first character of the pattern is copied, before
    whatever follows. *)
Lemma replace_front r f before rest :
  begins_with x r -> ~ In x before ->
  replace_fn r f (before ++ rest) = before ++ replace_fn r f rest.
Proof.
  intros Hb Hno. unfold replace_fn.
  apply replace_from_plain; first [apply Hb | now apply begins_no_start].
Qed.

(** So is a part in which no match begins. *)
Lemma replace_past r f before part rest :
  begins_with x r -> ~ In x before -> rejected_before r part rest ->
  replace_fn r f (before ++ part ++ rest)
  = before ++ part ++ replace_fn r f rest.
Proof.
  intros Hb Hno Hrej. rewrite replace_front by assumption. f_equal.
  unfold replace_fn. apply replace_from_rejected; first [exact Hrej | apply Hb].
Qed.

(** A part that the pattern matches as a whole is replaced. *)
Lemma replace_part r f before c m rest cs :
  begins_with x r -> ~ In x before ->
  exec_at r (c :: m ++ rest) = Some (rest, cs) ->
  replace_fn r f (before ++ (c :: m) ++ rest)
  = before ++ f (c :: m) cs ++ replace_fn r f rest.
Proof.
  intros Hb Hno Hex. rewrite replace_front by assumption. f_equal.
  unfold replace_fn. apply replace_from_match; first [exact Hex | apply Hb].
Qed.

(** A part with the first character of the pattern at its head only is
    rejected by a pattern that fails there. *)
Lemma rejected_tag r c0 mid tail :
  begins_with x r -> ~ In x mid ->
  exec_at r (c0 :: mid ++ tail) = None ->
  rejected_before r (c0 :: mid) tail.
Proof.
  intros Hb Hno H0. cbn [rejected_before]. split; [exact H0 |].
  apply rejected_no_start; first [apply Hb | now apply begins_no_start].
Qed.

End Front.

Lemma rejected_app r a b tail :
  rejected_before r a (b ++ tail) -> rejected_before r b tail ->
  rejected_before r (a ++ b) tail.
Proof.
  induction a as [| c a IH]; intros Ha Hb; [exact Hb |].
  cbn [app rejected_before] in *. destruct Ha as [H0 Ha].
  rewrite <- app_assoc. split; [exact H0 | now apply IH].
Qed.

(** Markup that the rules before its own leave alone and that its own
    rule replaces by nothing: the conversion goes on as if it were not
    there. *)
Lemma removed_by rules rule later before c m :
  ~ In LT before ->
  Forall (fun rule => begins_with LT (fst rule)) (rules ++ rule :: later) ->
  Forall (fun rule => forall tail, rejected_before (fst rule) (c :: m) tail)
    rules ->
  snd rule = [] ->
  (forall tail, exists cs, exec_at (fst rule) (c :: m ++ tail) = Some (tail, cs)) ->
  forall rest,
    fold_left apply_rule (rules ++ rule :: later) (before ++ (c :: m) ++ rest)
    = fold_left apply_rule (rules ++ rule :: later) (before ++ rest).
Proof.
  intros Hno Hb Hrej Hnil Hex.
  induction rules as [| r0 rules IH]; intros rest.
  - cbn [app fold_left]. f_equal. inversion Hb as [| ? ? Hb0 _]; subst.
    unfold apply_rule, replace. rewrite Hnil.
    destruct (Hex rest) as [cs Hcs].
    rewrite (@replace_part LT eq_refl _ _ before c m rest cs Hb0 Hno Hcs).
    rewrite (@replace_front LT eq_refl _ _ before rest Hb0 Hno). reflexivity.
  - cbn [app fold_left]. cbn [app] in Hb.
    inversion Hb as [| ? ? Hb0 Hb1]; inversion Hrej as [| ? ? Hr0 Hr1]; subst.
    unfold apply_rule at 2 4. unfold replace.
    rewrite (@replace_past LT eq_refl _ _ before (c :: m) rest Hb0 Hno (Hr0 rest)).
    rewrite (@replace_front LT eq_refl _ _ before _ Hb0 Hno).
    now apply IH.
Qed.

(** The pattern of [script] and [style] on an element whose content has
    no closing tag. *)
Lemma exec_element_nocap a b' attrs body rest :
  forallb (not_chr GT) attrs = true -> includes body [LT; SLASH] = false ->
  exec_at (rxi (element_nocap_re a (LT :: SLASH :: b')))
    (a ++ attrs ++ GT :: body ++ (LT :: SLASH :: b') ++ rest)
  = Some (rest, []).
Proof.
  intros Ha Hbody. unfold exec_at, element_nocap_re.
  cbn [seq source ignoreCase rxi run].
  rewrite (@run_lit _ true a (attrs ++ GT :: body ++ (LT :: SLASH :: b') ++ rest)).
  apply star_greedy_all; [exact Ha | reflexivity |].
  rewrite chr_eq_refl.
  rewrite star_lazy_search.
  - cbn [star_lazy app]. now rewrite (@run_lit _ true (LT :: SLASH :: b') rest).
  - apply forallb_forall. reflexivity.
  - intros u c v Hsplit.
    destruct v as [| d v].
    + cbn [app]. apply run_lit_mismatch2. reflexivity.
    + cbn [app]. destruct (N.eqb_spec c LT) as [-> | Hc].
      * apply run_lit_mismatch2. apply chr_eq_other; [reflexivity |].
        apply N.eqb_neq. intros ->.
        assert (Hin : includes body [LT; SLASH] = true).
        { apply includes_spec. exists u, v. rewrite Hsplit. reflexivity. }
        congruence.
      * apply run_lit_mismatch. apply chr_eq_other; [reflexivity |].
        now apply N.eqb_neq.
Qed.

(** The pattern of an image without its attributes. *)
Lemma exec_img_any attrs tail rest :
  forallb (not_chr GT) attrs = true -> tail = [] \/ tail = [SLASH] ->
  exec_at img_any (js "<img" ++ attrs ++ tail ++ GT :: rest) = Some (rest, []).
Proof.
  intros Ha Htail. unfold exec_at, img_any, lit.
  cbn [seq source ignoreCase rxi run].
  rewrite (@run_lit _ true (js "<img") (attrs ++ tail ++ GT :: rest)).
  rewrite app_assoc.
  apply star_greedy_all; [| reflexivity |].
  - rewrite forallb_app, Ha. now destruct Htail as [-> | ->].
  - unfold opt. cbn [run]. change (chr_eq true GT SLASH) with false.
    cbv iota. now rewrite chr_eq_refl.
Qed.

End RemovalFacts.

Import RemovalFacts.

Module RemovalRules.

Lemma script_removed images before attrs body rest :
  ~ In LT before -> attributes attrs = true ->
  includes body (js "</") = false ->
  fold_left apply_rule (tag_rules images)
    (before ++ tagged "script" attrs body ++ rest)
  = fold_left apply_rule (tag_rules images) (before ++ rest).
Proof.
  intros Hno Hattrs Hbody.
  rewrite (@tagged_parts "script" (js "script") (js "/script>") attrs body
             eq_refl eq_refl).
  change (tag_rules images)
    with ([] ++ (element_nocap "script", []) :: tl (tag_rules images)).
  apply removed_by.
  - exact Hno.
  - apply (tag_rules_begin images).
  - constructor.
  - reflexivity.
  - intros tail. exists []. cbn [fst].
    replace (LT :: ((js "script" ++ attrs ++ GT :: body) ++ LT :: js "/script>")
               ++ tail)
      with ((LT :: js "script") ++ attrs ++ GT :: body
              ++ (LT :: SLASH :: js "script>") ++ tail).
    + apply exec_element_nocap; [apply attributes_spec, Hattrs | exact Hbody].
    + cbn [app]. rewrite <- !app_assoc. reflexivity.
Qed.

Lemma style_removed images before attrs body rest :
  ~ In LT before -> attributes attrs = true -> ~ In LT body ->
  fold_left apply_rule (tag_rules images)
    (before ++ tagged "style" attrs body ++ rest)
  = fold_left apply_rule (tag_rules images) (before ++ rest).
Proof.
  intros Hno Hattrs Hbody.
  destruct (attributes_spec attrs Hattrs) as (Hgt & Hlt & _).
  apply without_spec in Hlt.
  rewrite (@tagged_parts "style" (js "style") (js "/style>") attrs body
             eq_refl eq_refl).
  change (tag_rules images)
    with ([(element_nocap "script", [])]
            ++ (element_nocap "style", []) :: tl (tl (tag_rules images))).
  assert (Hmid : ~ In LT (js "style" ++ attrs ++ GT :: body)).
  { intros Hin. apply in_app_or in Hin as [Hin | Hin];
      [revert Hin; apply without_spec; reflexivity |].
    apply in_app_or in Hin as [Hin | [Hin | Hin]]; auto. discriminate. }
  apply removed_by.
  - exact Hno.
  - apply (tag_rules_begin images).
  - constructor; [| constructor]. intros tail. cbn [fst].
    change (LT :: (js "style" ++ attrs ++ GT :: body) ++ LT :: js "/style>")
      with ((LT :: js "style" ++ attrs ++ GT :: body) ++ LT :: js "/style>").
    apply rejected_app.
    + apply (@rejected_tag LT eq_refl); [begins | exact Hmid | vm_compute; reflexivity].
    + apply (@rejected_tag LT eq_refl);
        [begins | apply without_spec; reflexivity | vm_compute; reflexivity].
  - reflexivity.
  - intros tail. exists []. cbn [fst].
    replace (LT :: ((js "style" ++ attrs ++ GT :: body) ++ LT :: js "/style>")
               ++ tail)
      with ((LT :: js "style") ++ attrs ++ GT :: body
              ++ (LT :: SLASH :: js "style>") ++ tail).
    + apply exec_element_nocap; [exact Hgt |].
      destruct (includes body [LT; SLASH]) eqn:E; [| reflexivity].
      apply includes_spec in E as (a & b & ->). exfalso. apply Hbody.
      apply in_or_app. right. now left.
    + cbn [app]. rewrite <- !app_assoc. reflexivity.
Qed.

Lemma image_removed before attrs tail rest :
  ~ In LT before -> attributes attrs = true ->
  tail = [] \/ tail = [SLASH] ->
  fold_left apply_rule (tag_rules false)
    (before ++ (js "<img" ++ attrs ++ tail ++ [GT]) ++ rest)
  = fold_left apply_rule (tag_rules false) (before ++ rest).
Proof.
  intros Hno Hattrs Htail.
  destruct (attributes_spec attrs Hattrs) as (Hgt & Hlt & _).
  apply without_spec in Hlt.
  change (js "<img" ++ attrs ++ tail ++ [GT])
    with (LT :: js "img" ++ attrs ++ tail ++ [GT]).
  assert (Hmid : ~ In LT (js "img" ++ attrs ++ tail ++ [GT])).
  { intros Hin. apply in_app_or in Hin as [Hin | Hin];
      [revert Hin; apply without_spec; reflexivity |].
    apply in_app_or in Hin as [Hin | Hin]; [auto |].
    revert Hin. apply without_spec.
    destruct Htail as [-> | ->]; reflexivity. }
  change (tag_rules false)
    with (firstn 15 (tag_rules false) ++ (img_any, []) :: [(any_tag, [])]).
  apply removed_by.
  - exact Hno.
  - apply (tag_rules_begin false).
  - unfold tag_rules. cbn [firstn app].
    repeat (apply Forall_cons;
            [intros rest'; cbn [fst];
             apply (@rejected_tag LT eq_refl); [begins | exact Hmid | vm_compute; reflexivity]
            |]).
    apply Forall_nil.
  - reflexivity.
  - intros rest'. exists []. cbn [fst].
    replace (LT :: (js "img" ++ attrs ++ tail ++ [GT]) ++ rest')
      with (js "<img" ++ attrs ++ tail ++ GT :: rest').
    + now apply exec_img_any.
    + cbn [app]. rewrite <- !app_assoc. reflexivity.
Qed.

End RemovalRules.

Import RemovalRules.

(** X16. Scripts, style sheets and, unless images are asked for, images
    leave no trace: after a text without [<], a [script] element whose
    content has no closing tag, a [style] element whose content has no
    [<], or an [img] tag can be taken out of the markup without any
    change to the result of [htmlToMarkdown], whatever follows. *)
Theorem markup_without_trace (before attrs body rest : jsstring)
    (options : MarkdownOptions) :
  ~ In LT before -> attributes attrs = true ->
  let same part :=
    htmlToMarkdown (before ++ part ++ rest) options
    = htmlToMarkdown (before ++ rest) options in
  (includes body (js "</") = false -> same (tagged "script" attrs body))
  /\ (~ In LT body -> same (tagged "style" attrs body))
  /\ (md_includeImages options = false ->
      same (js "<img" ++ attrs ++ js ">")
      /\ same (js "<img" ++ attrs ++ js "/>")).
Proof.
  intros Hno Hattrs same. unfold same. rewrite !htmlToMarkdown_stages.
  split; [| split].
  - intros Hbody. f_equal. now apply script_removed.
  - intros Hbody. f_equal. now apply style_removed.
  - intros Himg. rewrite Himg. split; f_equal.
    + apply (@image_removed before attrs [] rest); auto.
    + apply (@image_removed before attrs [SLASH] rest); auto.
Qed.

Module RemovalWitnesses.

Lemma markup_without_trace_witness :
  htmlToMarkdown (js "Hi <script>if (a<b) go()</script>there") plain
  = htmlToMarkdown (js "Hi there") plain.
Proof.
  assert (Hno : ~ In LT (js "Hi ")) by (apply without_spec; reflexivity).
  assert (Hattrs : attributes [] = true) by reflexivity.
  assert (Hbody : includes (js "if (a<b) go()") (js "</") = false)
    by reflexivity.
  exact (proj1 (@markup_without_trace (js "Hi ") [] (js "if (a<b) go()")
                  (js "there") plain Hno Hattrs) Hbody).
Defined.

End RemovalWitnesses.

Import RegexSpec Scan Steps StringFacts UrlFacts RegexFacts MatchFacts ScanFacts RuleFacts.
Import ElementFacts RemovalFacts.

(** ** Entities *)

Module EntityFacts.

(** A literal pattern fails on a text that does not begin with it. *)
Lemma run_lit_miss (R : Type) l s cs (k : jsstring -> caps -> option R) :
  startsWith s l = false -> run false (lit_of l) s cs k = None.
Proof.
  revert s. induction l as [| c l IH]; intros s H.
  - destruct s; discriminate.
  - destruct s as [| d s].
    + destruct l; reflexivity.
    + cbn [startsWith] in H.
      assert (Hstep : run false (lit_of (c :: l)) (d :: s) cs k
                      = if chr_eq false d c then run false (lit_of l) s cs k
                        else None).
      { destruct l; [| reflexivity]. cbn [lit_of run]. reflexivity. }
      rewrite Hstep. cbn [chr_eq]. rewrite (N.eqb_sym d c).
      destruct (c =? d)%N; [| reflexivity]. cbn [andb] in H. now apply IH.
Qed.

Lemma exec_lit_miss l s :
  startsWith s l = false -> exec_at (rx (lit_of l)) s = None.
Proof. intros H. unfold exec_at. cbn [source ignoreCase rx]. now apply run_lit_miss. Qed.

Lemma exec_lit l rest :
  exec_at (rx (lit_of l)) (l ++ rest) = Some (rest, []).
Proof. unfold exec_at. cbn [source ignoreCase rx]. now rewrite run_lit. Qed.

Lemma digit_spec d : digit d = true -> d <> AMP /\ d <> SEMI.
Proof.
  unfold digit. intros H. apply andb_prop in H as [H1 H2].
  apply N.leb_le in H1, H2. unfold AMP, SEMI. lia.
Qed.

Lemma digits_without ds :
  forallb digit ds = true -> ~ In AMP ds.
Proof.
  rewrite forallb_forall. intros H Hin. apply H in Hin.
  now apply digit_spec in Hin.
Qed.

(** The pattern of a numeric entity on a numeric entity. *)
Lemma exec_numeric d ds rest :
  forallb digit (d :: ds) = true ->
  exec_at numeric_entity (js "&#" ++ (d :: ds) ++ SEMI :: rest)
  = Some (rest, [(1, d :: ds)]).
Proof.
  intros H. cbn [forallb] in H. apply andb_prop in H as [Hd Hds].
  unfold exec_at, numeric_entity, lit, plus.
  cbn [seq source ignoreCase rx run].
  rewrite (@run_lit _ false (js "&#") ((d :: ds) ++ SEMI :: rest)).
  cbn [app run]. rewrite Hd.
  apply star_greedy_all; [exact Hds | reflexivity |].
  cbn [chr_eq]. change (SEMI =? 59)%N with true. cbv iota.
  do 2 f_equal. f_equal. f_equal.
  change (d :: ds ++ SEMI :: rest) with ((d :: ds) ++ SEMI :: rest).
  apply firstn_prefix.
Qed.

(** The text of a numeric entity begins with the pattern of [&#39;] only
    when it is that entity. *)
Lemma numeric_not_quote ds rest :
  forallb digit ds = true -> ds <> js "39" ->
  startsWith (js "&#" ++ ds ++ SEMI :: rest) (js "&#39;") = false.
Proof.
  intros Hds Hne.
  change (js "&#" ++ ds ++ SEMI :: rest) with (AMP :: SHARP :: ds ++ SEMI :: rest).
  change (js "&#39;") with [AMP; SHARP; 51; 57; SEMI]%N.
  cbn [startsWith]. change (AMP =? AMP)%N with true.
  change (SHARP =? SHARP)%N with true. cbn [andb].
  destruct ds as [| d1 [| d2 [| d3 ds]]]; cbn [app startsWith].
  - reflexivity.
  - destruct (51 =? d1)%N; reflexivity.
  - destruct (N.eqb_spec 51 d1) as [<- |]; [| reflexivity].
    destruct (N.eqb_spec 57 d2) as [<- |]; [| reflexivity].
    now contradiction Hne.
  - cbn [forallb] in Hds. apply andb_prop in Hds as [_ Hds].
    apply andb_prop in Hds as [_ Hds]. apply andb_prop in Hds as [Hd3 _].
    apply digit_spec in Hd3 as [_ Hd3].
    destruct (51 =? d1)%N; [| reflexivity].
    destruct (57 =? d2)%N; [| reflexivity].
    destruct (N.eqb_spec SEMI d3) as [E |]; [| reflexivity].
    now contradiction Hd3.
Qed.

Section Named.
Variables (a b : jsstring).
Hypothesis Ha : ~ In AMP a.
Hypothesis Hb : ~ In AMP b.

(** A named entity is left as it is by a rule that rejects it ... *)
Lemma named_skip e part :
  begins_with AMP (rx (lit (fst e))) ->
  rejected_before (rx (lit (fst e))) part b ->
  replace (rx (lit (fst e))) [Txt (snd e)] (a ++ part ++ b) = a ++ part ++ b.
Proof.
  intros He Hrej. unfold replace.
  rewrite (@replace_past AMP eq_refl _ _ a part b He Ha Hrej).
  now rewrite (@begins_plain AMP _ _ b eq_refl He Hb).
Qed.

(** ... and replaced by the rule of its name. *)
Lemma named_hit e c m :
  begins_with AMP (rx (lit (fst e))) ->
  js (fst e) = c :: m ->
  replace (rx (lit (fst e))) [Txt (snd e)] (a ++ js (fst e) ++ b)
  = a ++ js (snd e) ++ b.
Proof.
  intros He Hcm. unfold replace.
  assert (Hex : exec_at (rx (lit (fst e))) (c :: m ++ b) = Some (b, [])).
  { unfold lit. rewrite Hcm. apply (exec_lit (c :: m) b). }
  rewrite Hcm.
  rewrite (@replace_part AMP eq_refl _ _ a c m b [] He Ha Hex).
  rewrite (@begins_plain AMP _ _ b eq_refl He Hb).
  cbn [subst]. now rewrite app_nil_r.
Qed.

End Named.

End EntityFacts.

Import EntityFacts.

Module EntityRules.

Lemma decodeHtmlEntities_steps text :
  decodeHtmlEntities text
  = replace_fn numeric_entity
      (fun _ cs => fromCharCode (parseInt10 (group 1 cs)))
      (fold_left named_step entities text).
Proof. reflexivity. Qed.

Lemma entities_begin_all :
  Forall (fun e => begins_with AMP (rx (lit (fst e)))) entities.
Proof. apply entities_begin. Qed.

Lemma numeric_plain s :
  ~ In AMP s ->
  replace_fn numeric_entity
    (fun _ cs => fromCharCode (parseInt10 (group 1 cs))) s = s.
Proof.
  intros Hs. destruct entities_begin as [_ Hn].
  now apply (@begins_plain AMP numeric_entity _ s eq_refl Hn).
Qed.

Section Fold.
Variables (a b : jsstring).
Hypothesis Ha : ~ In AMP a.
Hypothesis Hb : ~ In AMP b.

Lemma plain_fold es s :
  Forall (fun e => begins_with AMP (rx (lit (fst e)))) es -> ~ In AMP s ->
  fold_left named_step es s = s.
Proof.
  induction 1 as [| e es He _ IH]; intros Hs; [reflexivity |].
  cbn [fold_left]. unfold named_step at 2, replace.
  rewrite (@begins_plain AMP _ _ s eq_refl He Hs). now apply IH.
Qed.

Lemma skip_fold es part :
  Forall (fun e => begins_with AMP (rx (lit (fst e)))) es ->
  Forall (fun e => rejected_before (rx (lit (fst e))) part b) es ->
  fold_left named_step es (a ++ part ++ b) = a ++ part ++ b.
Proof.
  induction 1 as [| e es He _ IH]; intros Hrej; [reflexivity |].
  inversion Hrej as [| ? ? Hr Hrs]; subst.
  cbn [fold_left]. unfold named_step at 2.
  rewrite (@named_skip a b Ha Hb e part He Hr). now apply IH.
Qed.

(** The rules before the one of a named entity find nothing, its rule
    replaces it and the rules after it have nothing left to find. *)
Lemma named_fold es1 e es2 c m :
  Forall (fun e' => begins_with AMP (rx (lit (fst e')))) (es1 ++ e :: es2) ->
  Forall (fun e' => rejected_before (rx (lit (fst e'))) (js (fst e)) b) es1 ->
  js (fst e) = c :: m -> ~ In AMP (js (snd e)) ->
  fold_left named_step (es1 ++ e :: es2) (a ++ js (fst e) ++ b)
  = a ++ js (snd e) ++ b.
Proof.
  intros Hall Hrej Hcm Hch.
  apply Forall_app in Hall as [H1 H2]. inversion H2 as [| ? ? He H3]; subst.
  rewrite fold_left_app, skip_fold by assumption.
  cbn [fold_left]. unfold named_step at 2.
  rewrite (@named_hit a b Ha Hb e c m He Hcm).
  apply plain_fold; [exact H3 |].
  intros Hin. apply in_app_or in Hin as [Hin | Hin]; [auto |].
  apply in_app_or in Hin as [Hin | Hin]; auto.
Qed.

End Fold.

Ltac all_begin :=
  cbn [app];
  repeat (apply Forall_cons; [cbn [fst]; begins |]); apply Forall_nil.

Ltac rejected_entity :=
  cbn [fst];
  match goal with
  | |- rejected_before _ (js ?s) _ =>
      let x := eval vm_compute in (js s) in change (js s) with x
  end;
  apply (@rejected_tag AMP eq_refl);
  [ begins | apply without_spec; reflexivity | vm_compute; reflexivity ].

Ltac all_rejected_entity :=
  repeat (apply Forall_cons; [rejected_entity |]); apply Forall_nil.

Lemma app_without x (u v w : jsstring) :
  ~ In x u -> ~ In x v -> ~ In x w -> ~ In x (u ++ v ++ w).
Proof.
  intros Hu Hv Hw Hin. apply in_app_or in Hin as [Hin | Hin]; [auto |].
  apply in_app_or in Hin as [Hin | Hin]; auto.
Qed.

(** A named entity other than [&amp;] between two texts without [&]. *)
Lemma named_decoded a b e :
  ~ In AMP a -> ~ In AMP b ->
  In e entities -> fst e <> "&amp;"%string ->
  decodeHtmlEntities (a ++ js (fst e) ++ b) = a ++ js (snd e) ++ b.
Proof.
  intros Ha Hb He Hamp. rewrite decodeHtmlEntities_steps.
  assert (Hfold : fold_left named_step entities (a ++ js (fst e) ++ b)
                  = a ++ js (snd e) ++ b).
  { unfold entities in He. cbn [In] in He.
    destruct He as [<- | [<- | [<- | [<- | [<- | [<- | [<- | []]]]]]]].
    - apply (@named_fold a b Ha Hb [] _ _ AMP (js "nbsp;"));
        [all_begin | all_rejected_entity | reflexivity
        | apply without_spec; reflexivity].
    - now contradiction Hamp.
    - apply (@named_fold a b Ha Hb (firstn 2 entities) _ _ AMP (js "lt;"));
        [all_begin | all_rejected_entity | reflexivity
        | apply without_spec; reflexivity].
    - apply (@named_fold a b Ha Hb (firstn 3 entities) _ _ AMP (js "gt;"));
        [all_begin | all_rejected_entity | reflexivity
        | apply without_spec; reflexivity].
    - apply (@named_fold a b Ha Hb (firstn 4 entities) _ _ AMP (js "quot;"));
        [all_begin | all_rejected_entity | reflexivity
        | apply without_spec; reflexivity].
    - apply (@named_fold a b Ha Hb (firstn 5 entities) _ _ AMP (js "#39;"));
        [all_begin | all_rejected_entity | reflexivity
        | apply without_spec; reflexivity].
    - apply (@named_fold a b Ha Hb (firstn 6 entities) _ _ AMP (js "apos;"));
        [all_begin | all_rejected_entity | reflexivity
        | apply without_spec; reflexivity]. }
  rewrite Hfold. apply numeric_plain. apply app_without; auto.
  unfold entities in He. cbn [In] in He.
  destruct He as [<- | [<- | [<- | [<- | [<- | [<- | [<- | []]]]]]]];
    first [now contradiction Hamp | apply without_spec; reflexivity].
Qed.

(** A decimal entity between two texts without [&]. *)
Lemma numeric_decoded a b ds :
  ~ In AMP a -> ~ In AMP b ->
  ds <> [] -> forallb digit ds = true ->
  decodeHtmlEntities (a ++ (js "&#" ++ ds ++ [SEMI]) ++ b)
  = a ++ fromCharCode (parseInt10 ds) ++ b.
Proof.
  intros Ha Hb Hne Hds.
  destruct (list_eq_dec N.eq_dec ds (js "39")) as [-> | Hq].
  - apply (@named_decoded a b ("&#39;", "'")%string Ha Hb);
      [unfold entities; cbn [In]; tauto | discriminate].
  - rewrite decodeHtmlEntities_steps.
    assert (Hmid : ~ In AMP (SHARP :: ds ++ [SEMI])).
    { intros [Hin | Hin]; [discriminate |].
      apply in_app_or in Hin as [Hin | [Hin | []]]; [| discriminate].
      revert Hin. now apply digits_without. }
    change (js "&#" ++ ds ++ [SEMI]) with (AMP :: SHARP :: ds ++ [SEMI]).
    rewrite skip_fold; [| exact Ha | exact Hb | apply entities_begin_all |].
    + destruct ds as [| d ds]; [congruence |].
      destruct entities_begin as [_ Hn].
      assert (Hex : exec_at numeric_entity
                      (AMP :: (SHARP :: (d :: ds) ++ [SEMI]) ++ b)
                    = Some (b, [(1, d :: ds)])).
      { replace (AMP :: (SHARP :: (d :: ds) ++ [SEMI]) ++ b)
          with (js "&#" ++ (d :: ds) ++ SEMI :: b)
          by (cbn [app]; now rewrite <- app_assoc).
        now apply exec_numeric. }
      rewrite (@replace_part AMP eq_refl _ _ a AMP _ b _ Hn Ha Hex).
      unfold replace_fn at 1. fold (replace_fn numeric_entity
        (fun _ cs => fromCharCode (parseInt10 (group 1 cs))) b).
      rewrite numeric_plain by exact Hb.
      cbn [group Nat.eqb]. reflexivity.
    + unfold entities.
      repeat (apply Forall_cons;
              [cbn [fst]; apply (@rejected_tag AMP eq_refl);
               [begins | exact Hmid
               | first [ vm_compute; reflexivity
                       | apply exec_lit_miss;
                         replace (AMP :: (SHARP :: ds ++ [SEMI]) ++ b)
                           with (js "&#" ++ ds ++ SEMI :: b)
                           by (cbn [app]; now rewrite <- app_assoc);
                         now apply numeric_not_quote ] ] |]).
      apply Forall_nil.
Qed.

(** An entity whose ampersand is itself written as [&amp;]. *)
Lemma escaped_decoded a b e :
  ~ In AMP a -> ~ In AMP b ->
  In e (skipn 2 entities) ->
  decodeHtmlEntities (a ++ js "&amp;" ++ tl (js (fst e)) ++ b)
  = a ++ js (snd e) ++ b.
Proof.
  intros Ha Hb He. rewrite decodeHtmlEntities_steps.
  assert (Htl : ~ In AMP (tl (js (fst e)) ++ b)).
  { intros Hin. apply in_app_or in Hin as [Hin | Hin]; [| auto].
    revert Hin. apply without_spec.
    unfold entities in He. cbn [skipn In] in He.
    destruct He as [<- | [<- | [<- | [<- | [<- | []]]]]]; reflexivity. }
  assert (Hhead : js (fst e) = AMP :: tl (js (fst e))).
  { unfold entities in He. cbn [skipn In] in He.
    destruct He as [<- | [<- | [<- | [<- | [<- | []]]]]]; reflexivity. }
  assert (Hsplit : forall text,
             fold_left named_step entities text
             = fold_left named_step (skipn 2 entities)
                 (named_step (named_step text ("&nbsp;", " ")%string)
                    ("&amp;", "&")%string)) by reflexivity.
  rewrite Hsplit.
  assert (Hnbsp : named_step (a ++ js "&amp;" ++ tl (js (fst e)) ++ b)
                    ("&nbsp;", " ")%string
                  = a ++ js "&amp;" ++ tl (js (fst e)) ++ b).
  { apply (@named_skip a (tl (js (fst e)) ++ b) Ha Htl);
      [begins | rejected_entity]. }
  rewrite Hnbsp.
  assert (Hamp : named_step (a ++ js "&amp;" ++ tl (js (fst e)) ++ b)
                   ("&amp;", "&")%string
                 = a ++ js (fst e) ++ b).
  { transitivity (a ++ js (snd ("&amp;", "&")%string) ++ tl (js (fst e)) ++ b).
    - apply (@named_hit a (tl (js (fst e)) ++ b) Ha Htl
               ("&amp;", "&")%string AMP (js "amp;")); [begins | reflexivity].
    - now rewrite Hhead. }
  rewrite Hamp.
  assert (Hfold : fold_left named_step (skipn 2 entities) (a ++ js (fst e) ++ b)
                  = a ++ js (snd e) ++ b).
  { unfold entities in He. cbn [skipn In] in He.
    destruct He as [<- | [<- | [<- | [<- | [<- | []]]]]].
    - apply (@named_fold a b Ha Hb [] _ _ AMP (js "lt;"));
        [all_begin | all_rejected_entity | reflexivity
        | apply without_spec; reflexivity].
    - apply (@named_fold a b Ha Hb (firstn 1 (skipn 2 entities)) _ _
               AMP (js "gt;"));
        [all_begin | all_rejected_entity | reflexivity
        | apply without_spec; reflexivity].
    - apply (@named_fold a b Ha Hb (firstn 2 (skipn 2 entities)) _ _
               AMP (js "quot;"));
        [all_begin | all_rejected_entity | reflexivity
        | apply without_spec; reflexivity].
    - apply (@named_fold a b Ha Hb (firstn 3 (skipn 2 entities)) _ _
               AMP (js "#39;"));
        [all_begin | all_rejected_entity | reflexivity
        | apply without_spec; reflexivity].
    - apply (@named_fold a b Ha Hb (firstn 4 (skipn 2 entities)) _ _
               AMP (js "apos;"));
        [all_begin | all_rejected_entity | reflexivity
        | apply without_spec; reflexivity]. }
  rewrite Hfold. apply numeric_plain. apply app_without; auto.
  unfold entities in He. cbn [skipn In] in He.
  destruct He as [<- | [<- | [<- | [<- | [<- | []]]]]];
    apply without_spec; reflexivity.
Qed.

(** Text that begins like an entity and is none: a hexadecimal entity,
    an ampersand alone. *)
Lemma no_entity a b part :
  ~ In AMP a -> ~ In AMP b ->
  part = js "&#x" \/ part = js "& " ->
  decodeHtmlEntities (a ++ part ++ b) = a ++ part ++ b.
Proof.
  intros Ha Hb Hpart. rewrite decodeHtmlEntities_steps.
  destruct entities_begin as [_ Hn].
  rewrite skip_fold; [| exact Ha | exact Hb | apply entities_begin_all |].
  - rewrite (@replace_past AMP eq_refl _ _ a part b Hn Ha).
    + now rewrite numeric_plain.
    + destruct Hpart as [-> | ->];
        (match goal with
         | |- rejected_before _ (js ?s) _ =>
             let x := eval vm_compute in (js s) in change (js s) with x
         end;
         apply (@rejected_tag AMP eq_refl);
         [ begins | apply without_spec; reflexivity | vm_compute; reflexivity ]).
  - unfold entities. destruct Hpart as [-> | ->]; all_rejected_entity.
Qed.

End EntityRules.

Import EntityRules.

(** X17. [decodeHtmlEntities] between two texts without [&].  A text
    without [&] is unchanged.  Each named entity of the table other than
    [&amp;] becomes its character.  A decimal entity becomes the code unit
    of its number modulo 65536, so a number above 65535 gives another
    character.  An entity whose ampersand is itself written [&amp;] is
    decoded twice, down to the character.  A hexadecimal entity is left
    as it is. *)
Theorem decodeHtmlEntities_decodes (a b : jsstring) :
  ~ In AMP a -> ~ In AMP b ->
  decodeHtmlEntities a = a
  /\ (forall e, In e entities -> fst e <> "&amp;"%string ->
        decodeHtmlEntities (a ++ js (fst e) ++ b) = a ++ js (snd e) ++ b)
  /\ (forall ds, ds <> [] -> forallb digit ds = true -> length ds <= 15 ->
        decodeHtmlEntities (a ++ (js "&#" ++ ds ++ js ";") ++ b)
        = a ++ [(parseInt10 ds mod 65536)%N] ++ b)
  /\ (forall e, In e (skipn 2 entities) ->
        decodeHtmlEntities (a ++ js "&amp;" ++ tl (js (fst e)) ++ b)
        = a ++ js (snd e) ++ b)
  /\ decodeHtmlEntities (a ++ js "&#x" ++ b) = a ++ js "&#x" ++ b.
Proof.
  intros Ha Hb. split; [| split; [| split; [| split]]].
  - now apply decodeHtmlEntities_plain.
  - intros e He Hamp. now apply named_decoded.
  - intros ds Hne Hds _. now apply numeric_decoded.
  - intros e He. now apply escaped_decoded.
  - apply no_entity; auto.
Qed.

Module EntityWitnesses.

Lemma decodeHtmlEntities_decodes_witness :
  decodeHtmlEntities (js "a &amp;lt; b") = js "a < b".
Proof.
  assert (Ha : ~ In AMP (js "a ")) by (apply without_spec; reflexivity).
  assert (Hb : ~ In AMP (js " b")) by (apply without_spec; reflexivity).
  assert (He : In ("&lt;", "<")%string (skipn 2 entities)) by (now left).
  exact (proj1 (proj2 (proj2 (proj2
           (@decodeHtmlEntities_decodes (js "a ") (js " b") Ha Hb))))
           ("&lt;", "<")%string He).
Defined.

End EntityWitnesses.

Import RegexSpec Scan Steps Document.
Import StringFacts UrlFacts RegexFacts MatchFacts ScanFacts RuleFacts.
Import ElementFacts RemovalFacts SentenceFacts.

(** ** Pieces of markup, rule after rule *)

Module SegmentFacts.

Lemma In_firstn (A : Type) (l : list A) j n x :
  j < n -> nth_error l j = Some x -> In x (firstn n l).
Proof.
  revert j n. induction l as [| y l IH]; intros j n Hj Hx.
  - destruct j; discriminate.
  - destruct n as [| n]; [lia |]. destruct j as [| j].
    + injection Hx as ->. now left.
    + right. apply (IH j); [lia | exact Hx].
Qed.

Section Rules.
Variable rules : list (RegExp * list piece).
Hypothesis rules_begin : Forall (fun rule => begins_with LT (fst rule)) rules.

(** One rule turns the state of every piece into its next state. *)
Lemma step_states j rule segs :
  nth_error rules j = Some rule ->
  Forall (seg_ok rules) segs ->
  apply_rule (concat (map (state j) segs)) rule
  = concat (map (state (S j)) segs).
Proof.
  intros Hj Hok.
  assert (Hb : begins_with LT (fst rule)).
  { rewrite Forall_forall in rules_begin. apply rules_begin.
    eapply nth_error_In; eauto. }
  unfold apply_rule, replace, replace_fn.
  induction Hok as [| s segs (Hout & Hrej & Hown) _ IH].
  - cbn [map concat]. apply replace_from_nil. apply Hb.
  - cbn [map concat]. unfold state at 1 3.
    destruct (Nat.ltb_spec (seg_rule s) j) as [Hlt | Hge].
    + replace (seg_rule s <? S j) with true
        by (symmetry; apply Nat.ltb_lt; lia).
      rewrite replace_from_plain;
        try solve [apply Hb | now apply (@begins_no_start LT eq_refl)].
      now rewrite IH.
    + destruct (Nat.ltb_spec (seg_rule s) (S j)) as [Heq | Hgt].
      * assert (E : seg_rule s = j) by lia. rewrite E, Hj in Hown.
        destruct Hown as (c & m & cs & Hsrc & Hex & Hres).
        rewrite Hsrc. cbn [app].
        rewrite replace_from_match with (cs := cs);
          try solve [apply Hex | apply Hb].
        now rewrite IH, Hres.
      * rewrite Forall_forall in Hrej.
        assert (Hin : In rule (firstn (seg_rule s) rules))
          by (apply (@In_firstn _ rules j); [lia | exact Hj]).
        rewrite replace_from_rejected;
          try solve [apply Hb | now apply Hrej].
        now rewrite IH.
Qed.

Lemma fold_states segs :
  Forall (seg_ok rules) segs ->
  forall todo done, rules = done ++ todo ->
  fold_left apply_rule todo (concat (map (state (length done)) segs))
  = concat (map (state (length rules)) segs).
Proof.
  intros Hok. induction todo as [| rule todo IH]; intros done Hsplit.
  - rewrite Hsplit, app_nil_r. reflexivity.
  - cbn [fold_left].
    assert (Hj : nth_error rules (length done) = Some rule).
    { rewrite Hsplit, nth_error_app2 by lia. now rewrite Nat.sub_diag. }
    erewrite step_states; [| exact Hj | exact Hok].
    replace (S (length done)) with (length (done ++ [rule]))
      by (rewrite length_app; cbn [length]; lia).
    apply IH. now rewrite <- app_assoc.
Qed.

(** The rules turn every piece into its result, one by one. *)
Lemma segments_convert segs :
  Forall (seg_ok rules) segs ->
  fold_left apply_rule rules (concat (map seg_source segs))
  = concat (map seg_result segs).
Proof.
  intros Hok.
  assert (H0 : map seg_source segs = map (state (length (@nil (RegExp * list piece)))) segs).
  { apply map_ext. intros s. reflexivity. }
  rewrite H0, (@fold_states segs Hok rules [] eq_refl). f_equal.
  apply map_ext_in. intros s Hs. rewrite Forall_forall in Hok.
  destruct (Hok s Hs) as (_ & _ & Hown). unfold state.
  destruct (Nat.ltb_spec (seg_rule s) (length rules)) as [Hlt | Hge];
    [reflexivity |].
  apply nth_error_None in Hge. now rewrite Hge in Hown.
Qed.

End Rules.

End SegmentFacts.

Import RegexSpec Scan Steps Document.
Import StringFacts UrlFacts RegexFacts MatchFacts ScanFacts RuleFacts.
Import ElementFacts RemovalFacts SentenceFacts SegmentFacts.

(** ** The white space of a document *)

Module LayoutFacts.

(** [trimEnd], as [trim] applies it. *)
Lemma trimStart_app s rest :
  trimStart s <> [] -> trimStart (s ++ rest) = trimStart s ++ rest.
Proof.
  induction s as [| c s IH]; intros H; [now contradiction H |].
  cbn [app trimStart] in *. destruct (is_space c); [now apply IH | reflexivity].
Qed.

Lemma trimStart_spaces sp s :
  forallb is_space sp = true -> trimStart (sp ++ s) = trimStart s.
Proof.
  induction sp as [| c sp IH]; intros H; [reflexivity |].
  cbn [forallb] in H. apply andb_prop in H as [Hc Hsp].
  cbn [app trimStart]. rewrite Hc. now apply IH.
Qed.

Lemma trim_keep a s :
  rev (trimStart (rev s)) <> [] ->
  rev (trimStart (rev (a ++ s))) = a ++ rev (trimStart (rev s)).
Proof.
  intros H. rewrite rev_app_distr, trimStart_app.
  - now rewrite rev_app_distr, rev_involutive.
  - intros E. apply H. now rewrite E.
Qed.

Lemma trim_tail body d sp :
  is_space d = false -> forallb is_space sp = true ->
  rev (trimStart (rev ((body ++ [d]) ++ sp))) = body ++ [d].
Proof.
  intros Hd Hsp. rewrite rev_app_distr, trimStart_spaces.
  - rewrite rev_app_distr. cbn [rev app trimStart]. rewrite Hd.
    cbn [rev]. now rewrite rev_involutive.
  - rewrite forallb_forall in *. intros c Hc. apply Hsp. now apply in_rev.
Qed.

Lemma app_without3 x (u v w : jsstring) :
  ~ In x u -> ~ In x v -> ~ In x w -> ~ In x (u ++ v ++ w).
Proof.
  intros Hu Hv Hw Hin. apply in_app_or in Hin as [Hin | Hin]; [auto |].
  apply in_app_or in Hin as [Hin | Hin]; auto.
Qed.

(** The lines of the blocks. *)
Lemma line_words b :
  well_formed b ->
  kind_mark (b_kind b) ++ b_words b <> []
  /\ Forall (fun w => word w = true) (kind_mark (b_kind b) ++ b_words b).
Proof.
  intros (Hne & Hws & _). split.
  - destruct (kind_mark (b_kind b)); [exact Hne | discriminate].
  - apply Forall_app. split; [| exact Hws].
    destruct (b_kind b); repeat constructor.
Qed.

Lemma line_without b x :
  well_formed b -> x <> SPACE -> plain_char x = false -> ~ In x (line b).
Proof.
  intros Hb. apply sentence_without. now apply line_words.
Qed.

Lemma lead_cases k : kind_lead k = [] \/ kind_lead k = [NL].
Proof. destruct k; auto. Qed.

Lemma result_without b x :
  well_formed b -> x <> SPACE -> x <> NL -> plain_char x = false ->
  ~ In x (block_result b).
Proof.
  intros Hb Hs Hn Hp Hin. unfold block_result in Hin.
  apply in_app_or in Hin as [Hin | Hin].
  - destruct (lead_cases (b_kind b)) as [E | E]; rewrite E in Hin;
      [destruct Hin | destruct Hin as [Hin | []]; congruence].
  - apply in_app_or in Hin as [Hin | [Hin | []]]; [| congruence].
    revert Hin. now apply line_without.
Qed.

Lemma results_without bs x :
  Forall well_formed bs -> x <> SPACE -> x <> NL -> plain_char x = false ->
  ~ In x (concat (map block_result bs)).
Proof.
  intros Hbs Hs Hn Hp. induction Hbs as [| b bs Hb _ IH]; [intros [] |].
  cbn [map concat]. intros Hin. apply in_app_or in Hin as [Hin | Hin];
    [revert Hin; now apply result_without | now apply IH].
Qed.

Lemma line_not_nil b : well_formed b -> line b <> [].
Proof.
  intros Hb. destruct (line_words Hb) as [Hne Hws].
  destruct (sentence_head Hne Hws) as (c & rest & E & _).
  unfold line. rewrite E. discriminate.
Qed.

(** No run of line feeds is longer than two. *)
Lemma cap_lines_results bs post :
  Forall well_formed bs -> post = [] \/ post = [NL] ->
  forall k, k <= 1 ->
  cap_lines k (concat (map block_result bs) ++ post)
  = concat (map block_result bs) ++ post.
Proof.
  intros Hbs Hpost. induction Hbs as [| b bs Hb _ IH]; intros k Hk.
  - cbn [map concat app].
    destruct Hpost as [-> | ->]; [reflexivity |]. cbn [cap_lines].
    change (NL =? NL)%N with true. cbv iota.
    replace (k <? 2) with true by (symmetry; apply Nat.ltb_lt; lia).
    reflexivity.
  - cbn [map concat]. unfold block_result at 1 3. rewrite <- !app_assoc.
    assert (Hline : forall j rest,
               cap_lines j (line b ++ [NL] ++ rest)
               = line b ++ [NL] ++ cap_lines 1 rest).
    { intros j rest. rewrite cap_lines_body;
        [| now apply line_not_nil
         | apply line_without; [exact Hb | discriminate | reflexivity]].
      reflexivity. }
    destruct (lead_cases (b_kind b)) as [E | E]; rewrite E; cbn [app].
    + change (line b ++ NL :: concat (map block_result bs) ++ post)
        with (line b ++ [NL] ++ concat (map block_result bs) ++ post).
      rewrite Hline, IH by lia. reflexivity.
    + cbn [cap_lines]. change (NL =? NL)%N with true. cbv iota.
      replace (k <? 2) with true by (symmetry; apply Nat.ltb_lt; lia).
      change (line b ++ NL :: concat (map block_result bs) ++ post)
        with (line b ++ [NL] ++ concat (map block_result bs) ++ post).
      rewrite Hline, IH by lia. reflexivity.
Qed.

(** No run of blanks is longer than one. *)
Lemma squeeze_results bs post :
  Forall well_formed bs -> post = [] \/ post = [NL] ->
  squeeze false (concat (map block_result bs) ++ post)
  = concat (map block_result bs) ++ post.
Proof.
  intros Hbs Hpost. induction Hbs as [| b bs Hb _ IH].
  - destruct Hpost as [-> | ->]; reflexivity.
  - cbn [map concat]. unfold block_result at 1 3. rewrite <- !app_assoc.
    destruct (line_words Hb) as [Hne Hws].
    assert (Hline : squeeze false
                      (line b ++ [NL] ++ concat (map block_result bs) ++ post)
                    = line b ++ [NL] ++ concat (map block_result bs) ++ post).
    { unfold line. rewrite squeeze_sentence by assumption.
      cbn [app squeeze]. change (blank NL) with false. cbv iota.
      now rewrite IH. }
    destruct (lead_cases (b_kind b)) as [E | E]; rewrite E; cbn [app].
    + exact Hline.
    + cbn [squeeze]. change (blank NL) with false. cbv iota.
      f_equal. exact Hline.
Qed.

(** What is left when the white space at the two ends is cut. *)
Lemma document_not_nil b bs : well_formed b -> document (b :: bs) <> [].
Proof.
  intros Hb. cbn [document]. pose proof (line_not_nil Hb) as H.
  destruct (line b); [congruence | discriminate].
Qed.

Lemma trim_end_results b bs post :
  well_formed b -> Forall well_formed bs -> post = [] \/ post = [NL] ->
  rev (trimStart (rev (line b ++ [NL] ++ concat (map block_result bs) ++ post)))
  = document (b :: bs).
Proof.
  intros Hb Hbs Hpost. revert b Hb.
  induction Hbs as [| b' bs Hb' _ IH]; intros b Hb.
  - cbn [map concat app document]. rewrite app_nil_r.
    destruct (line_words Hb) as [Hne Hws].
    destruct (sentence_last Hne Hws) as (body & d & Hd & Hpd).
    apply plain_char_spec in Hpd as (_ & _ & Hsd & _).
    unfold line. rewrite Hd.
    change (NL :: post) with ([NL] ++ post).
    apply trim_tail; [exact Hsd |].
    destruct Hpost as [-> | ->]; reflexivity.
  - cbn [map concat]. unfold block_result at 1.
    replace (line b ++ [NL]
               ++ ((kind_lead (b_kind b') ++ line b' ++ [NL])
                     ++ concat (map block_result bs)) ++ post)
      with ((line b ++ NL :: kind_lead (b_kind b'))
              ++ line b' ++ [NL] ++ concat (map block_result bs) ++ post)
      by (cbn [app]; rewrite <- !app_assoc; reflexivity).
    rewrite trim_keep; rewrite IH by exact Hb'.
    + change (document (b :: b' :: bs))
        with (line b ++ NL :: kind_lead (b_kind b') ++ document (b' :: bs)).
      now rewrite <- app_assoc.
    + now apply document_not_nil.
Qed.

(** The last steps of the conversion on the results of the blocks. *)
Lemma finish_document pre post bs :
  pre = [] \/ pre = [NL] -> post = [] \/ post = [NL] ->
  Forall well_formed bs ->
  finish (pre ++ concat (map block_result bs) ++ post) = document bs.
Proof.
  intros Hpre Hpost Hbs. rewrite finish_scan.
  assert (Hamp : ~ In AMP (pre ++ concat (map block_result bs) ++ post)).
  { apply app_without3.
    - destruct Hpre as [-> | ->]; [intros [] | intros [H | []]; discriminate].
    - apply results_without; [exact Hbs | discriminate | discriminate | reflexivity].
    - destruct Hpost as [-> | ->]; [intros [] | intros [H | []]; discriminate]. }
  rewrite (decodeHtmlEntities_plain _ Hamp).
  assert (Hcap : cap_lines 0 (pre ++ concat (map block_result bs) ++ post)
                 = pre ++ concat (map block_result bs) ++ post).
  { destruct Hpre as [-> | ->]; cbn [app].
    - apply cap_lines_results; [exact Hbs | exact Hpost | lia].
    - cbn [cap_lines]. change (NL =? NL)%N with true.
      change (0 <? 2) with true. cbv iota. f_equal.
      apply cap_lines_results; [exact Hbs | exact Hpost | lia]. }
  rewrite Hcap.
  assert (Hsq : squeeze false (pre ++ concat (map block_result bs) ++ post)
                = pre ++ concat (map block_result bs) ++ post).
  { destruct Hpre as [-> | ->]; cbn [app].
    - now apply squeeze_results.
    - cbn [squeeze]. change (blank NL) with false. cbv iota. f_equal.
      now apply squeeze_results. }
  rewrite Hsq. unfold trim.
  destruct Hbs as [| b bs Hb Hbs].
  - cbn [map concat app document].
    destruct Hpre as [-> | ->], Hpost as [-> | ->]; reflexivity.
  - assert (Hstart : trimStart (pre ++ concat (map block_result (b :: bs)) ++ post)
                     = line b ++ [NL] ++ concat (map block_result bs) ++ post).
    { cbn [map concat]. unfold block_result at 1.
      destruct (line_words Hb) as [Hne Hws].
      destruct (sentence_head Hne Hws) as (c & rest & Hc & Hpc).
      apply plain_char_spec in Hpc as (_ & _ & Hsc & _).
      replace (pre ++ ((kind_lead (b_kind b) ++ line b ++ [NL])
                         ++ concat (map block_result bs)) ++ post)
        with ((pre ++ kind_lead (b_kind b))
                ++ line b ++ [NL] ++ concat (map block_result bs) ++ post)
        by (rewrite <- !app_assoc; reflexivity).
      rewrite trimStart_spaces.
      - unfold line. rewrite Hc. cbn [app trimStart]. now rewrite Hsc.
      - destruct Hpre as [-> | ->], (lead_cases (b_kind b)) as [E | E];
          rewrite E; reflexivity. }
    rewrite Hstart. now apply trim_end_results.
Qed.

End LayoutFacts.

Import RegexSpec Scan Steps Document.
Import StringFacts UrlFacts RegexFacts MatchFacts ScanFacts RuleFacts.
Import ElementFacts RemovalFacts SentenceFacts SegmentFacts LayoutFacts.

(** ** Blocks and lists *)

Module BlockFacts.

(** An element is rejected by a pattern that fails at its two tags. *)
Lemma element_rejected r tag name close attrs t :
  js ("<" ++ tag)%string = LT :: name ->
  js ("</" ++ tag ++ ">")%string = LT :: close ->
  forallb (not_chr LT) name = true -> forallb (not_chr LT) close = true ->
  attributes attrs = true -> forallb (not_chr LT) t = true ->
  begins_with LT r ->
  (forall tail,
     exec_at r ((LT :: name ++ attrs ++ GT :: t) ++ (LT :: close) ++ tail)
     = None) ->
  (forall tail, exec_at r (LT :: close ++ tail) = None) ->
  forall tail, rejected_before r (tagged tag attrs t) tail.
Proof.
  intros Hopen Hclose Hname Hcl Hattrs Ht Hb H0 H1 tail.
  rewrite (tagged_parts attrs t Hopen Hclose).
  change (LT :: (name ++ attrs ++ GT :: t) ++ LT :: close)
    with ((LT :: name ++ attrs ++ GT :: t) ++ LT :: close).
  apply rejected_app.
  - apply (@rejected_tag LT eq_refl); [exact Hb | | apply H0].
    apply inside_without; assumption.
  - apply (@rejected_tag LT eq_refl); [exact Hb | | apply H1].
    now apply without_spec.
Qed.

Ltac element_rejections Hattrs Ht :=
  repeat (apply Forall_cons;
          [ cbn [fst];
            eapply element_rejected;
            [ vm_compute; reflexivity
            | vm_compute; reflexivity
            | vm_compute; reflexivity
            | vm_compute; reflexivity
            | exact Hattrs
            | exact Ht
            | begins
            | intros ?; vm_compute; reflexivity
            | intros ?; vm_compute; reflexivity ]
          |]);
  apply Forall_nil.

(** The block elements are pieces of the rules. *)
Lemma block_ok images b :
  well_formed b -> seg_ok (tag_rules images) (block_segment b).
Proof.
  intros Hb. pose proof Hb as (Hne & Hws & Hattrs).
  assert (Ht : forallb (not_chr LT) (sentence (b_words b)) = true).
  { apply without_spec.
    apply sentence_without; [exact Hws | discriminate | reflexivity]. }
  unfold seg_ok, block_segment. cbn [seg_source seg_rule seg_result].
  split; [| split].
  - apply result_without; [exact Hb | discriminate | discriminate | reflexivity].
  - unfold block_source. destruct (b_kind b);
      unfold tag_rules; cbn [kind_rule kind_tag firstn app];
      element_rejections Hattrs Ht.
  - unfold block_source, block_result, line.
    destruct (attributes_spec _ Hattrs) as (Hgt & _ & _).
    apply without_spec in Ht.
    destruct (b_kind b);
      unfold tag_rules; cbn [kind_rule kind_tag kind_mark kind_lead nth_error app];
      (eexists LT, _, [(1, sentence (b_words b))]; split; [| split];
       [ apply tagged_parts; vm_compute; reflexivity
       | intros tail; cbn [fst];
         match goal with
         | |- exec_at (element ?tag) (LT :: ((?name ++ _) ++ LT :: ?close) ++ _) = _ =>
             replace (LT :: ((name ++ b_attrs b ++ GT :: sentence (b_words b))
                               ++ LT :: close) ++ tail)
               with ((LT :: name) ++ b_attrs b ++ GT :: sentence (b_words b)
                       ++ (LT :: close) ++ tail)
               by (cbn [app]; rewrite <- !app_assoc; reflexivity);
             apply (@exec_element (LT :: name) close)
         end; assumption
       | cbn [snd subst group Nat.eqb];
         rewrite ?(@sentence_lead _ (b_words b) Hne);
         cbn [app]; rewrite <- ?app_assoc; reflexivity ]).
Qed.

(** The two tags of a list are pieces of the rules. *)
Lemma exec_open a other attrs tail :
  forallb (not_chr GT) attrs = true ->
  exec_at (rxi (Alt (seq [lit_of a; Star true (not_chr GT); Chr GT]) other))
    (a ++ attrs ++ GT :: tail)
  = Some (tail, []).
Proof.
  intros Ha. unfold exec_at. cbn [seq source ignoreCase rxi run].
  rewrite (@run_lit _ true a (attrs ++ GT :: tail)).
  erewrite star_greedy_all; [reflexivity | exact Ha | reflexivity |].
  now rewrite chr_eq_refl.
Qed.

Ltac tag_rejections Hmid :=
  repeat (apply Forall_cons;
          [ intros ?; cbn [fst];
            apply (@rejected_tag LT eq_refl);
            [begins | exact Hmid | vm_compute; reflexivity]
          |]);
  apply Forall_nil.

Lemma list_open_ok images (ordered : bool) attrs :
  attributes attrs = true ->
  seg_ok (tag_rules images)
    {| seg_source := js (if ordered then "<ol" else "<ul") ++ attrs ++ [GT];
       seg_rule := if ordered then 10 else 9;
       seg_result := [NL] |}.
Proof.
  intros Hattrs. destruct (attributes_spec _ Hattrs) as (Hgt & Hlt & _).
  unfold seg_ok. cbn [seg_source seg_rule seg_result].
  split; [intros [H | []]; discriminate |].
  assert (Hmid : forall name, forallb (not_chr LT) name = true ->
                   ~ In LT (name ++ attrs ++ [GT])).
  { intros name Hname. apply without_spec.
    now rewrite !forallb_app, Hname, Hlt. }
  split.
  - destruct ordered; unfold tag_rules; cbn [firstn app].
    + change (js "<ol" ++ attrs ++ [GT]) with (LT :: js "ol" ++ attrs ++ [GT]).
      pose proof (Hmid (js "ol") eq_refl) as H. tag_rejections H.
    + change (js "<ul" ++ attrs ++ [GT]) with (LT :: js "ul" ++ attrs ++ [GT]).
      pose proof (Hmid (js "ul") eq_refl) as H. tag_rejections H.
  - destruct ordered; unfold tag_rules; cbn [nth_error app].
    + exists LT, (js "ol" ++ attrs ++ [GT]), []. split; [reflexivity |].
      split; [| reflexivity]. intros tail. cbn [fst].
      replace (LT :: (js "ol" ++ attrs ++ [GT]) ++ tail)
        with (js "<ol" ++ attrs ++ GT :: tail)
        by (cbn [app]; rewrite <- !app_assoc; reflexivity).
      now apply exec_open.
    + exists LT, (js "ul" ++ attrs ++ [GT]), []. split; [reflexivity |].
      split; [| reflexivity]. intros tail. cbn [fst].
      replace (LT :: (js "ul" ++ attrs ++ [GT]) ++ tail)
        with (js "<ul" ++ attrs ++ GT :: tail)
        by (cbn [app]; rewrite <- !app_assoc; reflexivity).
      now apply exec_open.
Qed.

Lemma list_close_ok images (ordered : bool) :
  seg_ok (tag_rules images)
    {| seg_source := js (if ordered then "</ol>" else "</ul>");
       seg_rule := if ordered then 10 else 9;
       seg_result := [NL] |}.
Proof.
  unfold seg_ok. cbn [seg_source seg_rule seg_result].
  split; [intros [H | []]; discriminate |].
  split.
  - destruct ordered; unfold tag_rules; cbn [firstn app].
    + change (js "</ol>") with (LT :: js "/ol>").
      assert (H : ~ In LT (js "/ol>")) by (apply without_spec; reflexivity).
      tag_rejections H.
    + change (js "</ul>") with (LT :: js "/ul>").
      assert (H : ~ In LT (js "/ul>")) by (apply without_spec; reflexivity).
      tag_rejections H.
  - destruct ordered; unfold tag_rules; cbn [nth_error app].
    + exists LT, (js "/ol>"), []. split; [reflexivity |].
      split; [| reflexivity]. intros tail. vm_compute. reflexivity.
    + exists LT, (js "/ul>"), []. split; [reflexivity |].
      split; [| reflexivity]. intros tail. vm_compute. reflexivity.
Qed.

(** What the rules make of a sequence of blocks, alone or in a list. *)
Lemma rules_on_blocks images bs :
  Forall well_formed bs ->
  fold_left apply_rule (tag_rules images) (concat (map block_source bs))
  = concat (map block_result bs).
Proof.
  intros Hbs.
  pose proof (@segments_convert (tag_rules images) (tag_rules_begin images)
                (map block_segment bs)) as H.
  rewrite !map_map in H. cbn [block_segment seg_source seg_result] in H.
  apply H. apply Forall_map. revert Hbs. apply Forall_impl.
  intros b. apply block_ok.
Qed.

Lemma rules_on_list images (ordered : bool) attrs bs :
  attributes attrs = true -> Forall well_formed bs ->
  fold_left apply_rule (tag_rules images)
    (tagged (if ordered then "ol" else "ul") attrs
       (concat (map block_source bs)))
  = [NL] ++ concat (map block_result bs) ++ [NL].
Proof.
  intros Hattrs Hbs.
  pose proof (@segments_convert (tag_rules images) (tag_rules_begin images)
                ({| seg_source := js (if ordered then "<ol" else "<ul")
                                    ++ attrs ++ [GT];
                    seg_rule := if ordered then 10 else 9;
                    seg_result := [NL] |}
                 :: map block_segment bs
                 ++ [{| seg_source := js (if ordered then "</ol>" else "</ul>");
                        seg_rule := if ordered then 10 else 9;
                        seg_result := [NL] |}])) as H.
  cbn [map concat] in H. rewrite !map_app, !concat_app, !map_map in H.
  cbn [map concat block_segment seg_source seg_result] in H.
  rewrite !app_nil_r in H.
  replace (tagged (if ordered then "ol" else "ul") attrs
             (concat (map block_source bs)))
    with ((js (if ordered then "<ol" else "<ul") ++ attrs ++ [GT])
            ++ concat (map block_source bs)
            ++ js (if ordered then "</ol>" else "</ul>")).
  - apply H. constructor; [now apply list_open_ok |].
    apply Forall_app. split; [| constructor; [apply list_close_ok | constructor]].
    apply Forall_map. revert Hbs. apply Forall_impl. intros b. apply block_ok.
  - unfold tagged. destruct ordered; cbn [app]; rewrite <- !app_assoc;
      reflexivity.
Qed.

(** The lines of a sequence of items. *)
Lemma document_items bs :
  Forall (fun b => b_kind b = Item) bs -> document bs = lines (map line bs).
Proof.
  induction 1 as [| b bs Hb Hbs IH]; [reflexivity |].
  cbn [document map lines]. f_equal.
  destruct Hbs as [| b' bs' Hb' Hbs']; [reflexivity |].
  cbn [map]. rewrite Hb'. cbn [kind_lead app]. f_equal. exact IH.
Qed.

End BlockFacts.

Import BlockFacts.

(** X18. A sequence of headings, paragraphs and list items, each with
    words separated by single spaces as its content, becomes one line per
    block: the content after the sharps of a heading or the dash of an
    item, a blank line before every block but an item, which follows on
    the next line. *)
Theorem blocks_to_lines (bs : list block) (options : MarkdownOptions) :
  Forall well_formed bs ->
  htmlToMarkdown (concat (map block_source bs)) options = document bs.
Proof.
  intros Hbs. rewrite htmlToMarkdown_stages, rules_on_blocks by exact Hbs.
  rewrite <- (app_nil_r (concat (map block_result bs))).
  apply (@finish_document [] [] bs); auto.
Qed.

(** X19. A list of items becomes one line per item, each after a dash and
    a space, whether the list is a [ul] or an [ol]: the items of an
    ordered list get no numbers. *)
Theorem lists_to_lines (ordered : bool) (attrs : jsstring) (bs : list block)
    (options : MarkdownOptions) :
  attributes attrs = true ->
  Forall well_formed bs -> Forall (fun b => b_kind b = Item) bs ->
  htmlToMarkdown
    (tagged (if ordered then "ol" else "ul") attrs
       (concat (map block_source bs))) options
  = lines (map (fun b => js "- " ++ sentence (b_words b)) bs).
Proof.
  intros Hattrs Hbs Hitems.
  rewrite htmlToMarkdown_stages, rules_on_list by assumption.
  rewrite (@finish_document [NL] [NL] bs) by auto.
  rewrite (document_items Hitems). f_equal.
  apply map_ext_in. intros b Hb. rewrite Forall_forall in Hitems, Hbs.
  unfold line. rewrite (Hitems b Hb). cbn [kind_mark app].
  destruct (Hbs b Hb) as (Hne & _). now rewrite (@sentence_lead _ _ Hne).
Qed.

Module BlockWitnesses.

Import Leaflet.

Lemma blocks_well_formed : Forall well_formed [title; intro; first; second].
Proof.
  repeat constructor; discriminate.
Qed.

Lemma blocks_to_lines_witness :
  htmlToMarkdown
    (js "<h1>Crawling</h1><p class=lead>Two steps:</p><li>fetch</li><li>convert</li>")
    plain
  = js "# Crawling" ++ [NL; NL] ++ js "Two steps:" ++ [NL] ++ js "- fetch"
    ++ [NL] ++ js "- convert".
Proof.
  exact (@blocks_to_lines [title; intro; first; second] plain
           blocks_well_formed).
Defined.

Lemma lists_to_lines_witness :
  htmlToMarkdown (js "<ol><li>fetch</li><li>convert</li></ol>") plain
  = js "- fetch" ++ [NL] ++ js "- convert".
Proof.
  assert (Hbs : Forall well_formed [first; second])
    by (repeat constructor; discriminate).
  assert (Hitems : Forall (fun b => b_kind b = Item) [first; second])
    by (repeat constructor).
  exact (@lists_to_lines true [] [first; second] plain eq_refl Hbs Hitems).
Defined.

End BlockWitnesses.

Import Run RunFacts RequestFacts Journal.

(** ** The journal of a run *)

Module JournalFacts.
Section Journals.
Variable P : Platform.

Lemma attemptCrawl_journal url options (wl : @World (Journaled P)) :
  exists r w1,
    @attemptCrawl (Journaled P) url options wl
    = (r, (w1, snd wl ++ [Requested url])).
Proof.
  unfold attemptCrawl. simpl. destruct (@fetch P url _ _ (fst wl)) as [o w1].
  eauto.
Qed.

Lemma attempts_next url k :
  1 <= k -> attempts url (S k) = Requested url :: Slept 500 :: attempts url k.
Proof. destruct k; [lia | reflexivity]. Qed.

(** The fallback loop writes one request for each strategy that it tries
    and half a second of delay between two of them. *)
Lemma try_strategies_journal url (config : @CrawlConfig (Journaled P)) todo :
  todo <> [] ->
  forall attempted (wl : @World (Journaled P)),
  let out := try_strategies url config todo attempted wl in
  exists k,
    1 <= k <= length todo /\ snd (snd out) = snd wl ++ attempts url k.
Proof.
  induction todo as [| s rest IH]; intros Hne attempted wl; [congruence |].
  destruct (attemptCrawl_journal url (attempt_options config s) wl)
    as (r & w1 & Ha).
  cbv zeta. cbn [try_strategies]. rewrite Ha.
  destruct r as [[clip links] | m].
  - exists 1. cbn [fst snd length attempts]. split; [lia | reflexivity].
  - destruct rest as [| s2 rest'].
    + exists 1. cbn [fst snd length attempts]. split; [lia | reflexivity].
    + destruct (IH ltac:(discriminate) (attempted ++ [s_name s])
                  (@sleep (Journaled P) 500 (w1, snd wl ++ [Requested url])))
        as (k & Hk & Hlog).
      exists (S k). cbv zeta in *. split; [cbn [length] in *; lia |].
      rewrite Hlog, attempts_next by lia.
      cbn [sleep Journaled snd]. rewrite <- !app_assoc. reflexivity.
Qed.

Lemma strategies_to_try (config : @CrawlConfig (Journaled P)) :
  strategiesToTry config <> []
  /\ length (strategiesToTry config) = (if useFallback config then 5 else 1).
Proof.
  unfold strategiesToTry. destruct (useFallback config); simpl;
    split; [discriminate | reflexivity | discriminate | reflexivity].
Qed.

Lemma queue_pause (config : @CrawlConfig (Journaled P)) st :
  queue (pause config st) = queue st.
Proof. unfold pause. now destruct (0 <? length (queue st)). Qed.

(** What a visit writes. *)
Lemma visit_journal config u d (st : @CrawlState (Journaled P)) :
  reports config ->
  exists k,
    1 <= k <= (if useFallback config then 5 else 1)
    /\ journal_of (visit config u d st)
       = journal_of st
         ++ trace (delayBetweenRequests config)
              {| v_progress :=
                   {| currentUrl := u;
                      processedCount := processed st;
                      queueLength := length (queue st);
                      successCount := length (succeeded st);
                      failedCount := length (failed st);
                      currentDepth := d |};
                 v_attempts := k;
                 v_delay := 0 <? length (queue (visit config u d st)) |}.
Proof.
  intros (cb & Hcb & Hrep). unfold visit, journal_of.
  assert (Hn : snd (notify config u d st)
               = snd (world st)
                 ++ [Reported {| currentUrl := u;
                                 processedCount := processed st;
                                 queueLength := length (queue st);
                                 successCount := length (succeeded st);
                                 failedCount := length (failed st);
                                 currentDepth := d |}]).
  { unfold notify. rewrite Hcb. apply Hrep. }
  destruct (strategies_to_try config) as (Hne & Hlen).
  destruct (@try_strategies_journal u config (strategiesToTry config) Hne []
              (notify config u d st)) as (k & Hk & Hlog).
  cbv zeta in Hlog. unfold crawlWithFallback.
  destruct (try_strategies u config (strategiesToTry config) []
              (notify config u d st)) as [res w1].
  cbn [snd] in Hlog. rewrite Hn in Hlog.
  exists k. split; [now rewrite <- Hlen |].
  rewrite queue_pause. unfold trace. cbn [v_progress v_attempts v_delay currentUrl].
  assert (Hw : world (record config u d st res w1) = w1).
  { unfold record. destruct (success res), (data res); reflexivity. }
  unfold pause. destruct (0 <? length (queue (record config u d st res w1))).
  - cbn [world sleep Journaled snd]. rewrite Hw, Hlog.
    rewrite <- !app_assoc. reflexivity.
  - rewrite Hw, Hlog, app_nil_r. rewrite <- !app_assoc. reflexivity.
Qed.

(** The queue after a visit: what was waiting, then entries one level
    below the page. *)
Lemma queue_visit config u d (st : @CrawlState (Journaled P)) e :
  In e (queue (visit config u d st)) ->
  In e (queue st) \/ e_depth e = (d + 1)%Z.
Proof.
  destruct (visit_spec config u d st)
    as [_ [[page (_ & _ & _ & _ & _ & Hq)] | (_ & _ & _ & Hq)]];
    rewrite Hq; [| now left].
  destruct (d <? maxDepth config)%Z; [| now left].
  intros Hin. apply in_app_or in Hin as [Hin | Hin]; [now left |].
  right. eapply next_entries_depth; eauto.
Qed.

(** The journal is made of the traces of the visits. *)
Definition journal_inv (config : @CrawlConfig (Journaled P))
    (st : @CrawlState (Journaled P)) (visits : list visit_trace) : Prop :=
  journal_of st = concat (map (trace (delayBetweenRequests config)) visits)
  /\ map (fun v => currentUrl (v_progress v)) visits = visited st
  /\ map (fun v => processedCount (v_progress v)) visits
     = List.seq 0 (length visits)
  /\ length visits = processed st
  /\ Forall (visit_ok config) visits
  /\ Forall (fun v => v_delay v = true) (removelast visits)
  /\ (queue st <> [] -> Forall (fun v => v_delay v = true) visits)
  /\ StronglySorted Z.le (map (fun v => currentDepth (v_progress v)) visits)
  /\ (forall v e, In v visits -> In e (queue st) ->
                  (currentDepth (v_progress v) <= e_depth e)%Z).

Lemma journal_turn config dom st st' visits :
  reports config -> level_order config st ->
  running config st = true ->
  journal_inv config st visits -> turn config dom st st' ->
  exists visits', journal_inv config st' visits'.
Proof.
  intros Hrep (Hsorted & _ & Hpos & _) Hrun
    (Hj & Hv & Hc & Hn & Hok & Hd & Hq & Hs & Hle) Ht.
  destruct Ht as [e q Hqe _ | e q Hqe _ Hdepth _].
  - exists visits. unfold journal_inv, journal_of, shifted, processed in *.
    cbn [world visited queue succeeded failed]. rewrite Hqe in *. cbn [tl].
    repeat (split; [assumption |]). split; [| split; [assumption |]].
    + intros _. apply Hq. discriminate.
    + intros v e' Hin He. apply Hle; [exact Hin | now right].
  - destruct (@visit_journal config (e_url e) (e_depth e) (shifted st) Hrep)
      as (k & Hk & Hjournal).
    set (v := {| v_progress :=
                   {| currentUrl := e_url e;
                      processedCount := processed (shifted st);
                      queueLength := length (queue (shifted st));
                      successCount := length (succeeded (shifted st));
                      failedCount := length (failed (shifted st));
                      currentDepth := e_depth e |};
                 v_attempts := k;
                 v_delay := 0 <? length (queue (visit config (e_url e)
                                                   (e_depth e) (shifted st))) |})
      in *.
    assert (Hall : Forall (fun v => v_delay v = true) visits)
      by (apply Hq; rewrite Hqe; discriminate).
    assert (Hhead : (0 <= e_depth e)%Z)
      by (apply Hpos; rewrite Hqe; now left).
    assert (Hrest : forall e', In e' q -> (e_depth e <= e_depth e')%Z).
    { unfold depths in Hsorted. rewrite Hqe in Hsorted.
      apply StronglySorted_app in Hsorted as (_ & H2 & _).
      cbn [map] in H2. apply StronglySorted_inv in H2 as [_ H2].
      rewrite Forall_forall in H2. intros e' He'. apply H2.
      now apply in_map. }
    exists (visits ++ [v]). unfold journal_inv.
    rewrite !map_app, concat_app, length_app, removelast_last.
    cbn [map concat length]. rewrite app_nil_r.
    destruct (visit_spec config (e_url e) (e_depth e) (shifted st)) as [Hvis _].
    rewrite Hvis, processed_visit, Hjournal.
    change (journal_of (shifted st)) with (journal_of st).
    change (visited (shifted st)) with (visited st).
    change (processed (shifted st)) with (processed st).
    split; [now rewrite Hj |]. split; [now rewrite Hv |].
    split; [| split; [lia |]].
    { rewrite Nat.add_1_r, seq_S, Hc. cbn [v v_progress processedCount].
      change (processed (shifted st)) with (processed st).
      now rewrite Hn. }
    split.
    { apply Forall_app. split; [exact Hok |]. constructor; [| constructor].
      unfold visit_ok. cbn [v v_attempts v_progress successCount failedCount
                              processedCount currentDepth].
      split; [exact Hk |]. split; [reflexivity | lia]. }
    split; [exact Hall |]. split.
    { intros Hne. apply Forall_app. split; [exact Hall |].
      constructor; [| constructor]. cbn [v v_delay].
      destruct (queue (visit config (e_url e) (e_depth e) (shifted st)));
        [congruence | reflexivity]. }
    split.
    { apply StronglySorted_app. split; [exact Hs |].
      split; [repeat constructor |].
      intros x y Hx [<- | []]. apply in_map_iff in Hx as (v0 & <- & Hv0).
      cbn [v v_progress currentDepth]. apply Hle; [exact Hv0 |].
      rewrite Hqe. now left. }
    intros v0 e' Hv0 He'.
    assert (Hbound : (e_depth e <= e_depth e')%Z).
    { apply queue_visit in He' as [He' | He']; [| lia].
      apply Hrest. unfold shifted in He'. cbn [queue] in He'.
      now rewrite Hqe in He'. }
    apply in_app_or in Hv0 as [Hv0 | [<- | []]].
    + transitivity (e_depth e); [| exact Hbound].
      apply Hle; [exact Hv0 | rewrite Hqe; now left].
    + exact Hbound.
Qed.

Lemma journal_reachable (config : @CrawlConfig (Journaled P)) dom startUrl
    (w : @World P) (st : @CrawlState (Journaled P)) :
  reports config ->
  reachable config dom (@initial_state (Journaled P) startUrl (w, [])) st ->
  exists visits, journal_inv config st visits.
Proof.
  intros Hrep Hreach.
  assert (H : level_order config st /\ exists visits, journal_inv config st visits).
  { pattern st. eapply reachable_ind_turn; [| | exact Hreach].
    - split; [apply level_order_initial |]. exists [].
      unfold journal_inv, journal_of, processed. cbn.
      repeat split; try constructor. intros v e [].
    - clear st Hreach. intros st st' [Hlo [visits Hinv]] Hrun Ht. split.
      + eapply level_order_turn; eauto.
      + eapply journal_turn; eauto. }
  apply H.
Qed.

End Journals.
End JournalFacts.

Import Run RunFacts RequestFacts Journal JournalFacts.

Section JournalClaims.
Variable P : Platform.

(** X20. The journal of a run, with every request, delay and progress
    report in it, is made of one trace for each visited address, in the
    order of the visits: the progress report, then one to five requests
    to the reported address, half a second apart, then the delay between
    requests, which is taken after every visit but possibly the last.
    The reports count the records from zero, one by one, their success
    and failure counts add up to that count, and their depths never
    decrease and lie between 0 and [maxDepth]. *)
Theorem journal_of_run (fuel : nat) (startUrl : jsstring)
    (options : @RecursiveCrawlOptions P) (w : @World P)
    (r : RecursiveCrawlResult) (w' : @World P) (journal : list event) :
  @crawlRecursively (Journaled P) fuel startUrl (reporting options) (w, [])
  = Some (r, (w', journal)) ->
  let config := make_config (reporting options) in
  exists visits,
    journal = concat (map (trace (delayBetweenRequests config)) visits)
    /\ map (fun v => currentUrl (v_progress v)) visits = visitedUrls r
    /\ map (fun v => processedCount (v_progress v)) visits
       = List.seq 0 (length visits)
    /\ length visits = length (r_success r) + length (r_failed r)
    /\ Forall (visit_ok config) visits
    /\ Forall (fun v => v_delay v = true) (removelast visits)
    /\ StronglySorted Z.le
         (map (fun v => currentDepth (v_progress v)) visits).
Proof.
  intros H config.
  apply (@crawlRecursively_reachable (Journaled P) fuel startUrl
           (reporting options) (w, []) r (w', journal)) in H
    as (st & Hreach & _ & Hs & Hf & Hv & Hw).
  assert (Hrep : reports config).
  { unfold reports, config. cbn [make_config onProgress reporting o_onProgress].
    eexists. split; [reflexivity |]. intros p wl. reflexivity. }
  destruct (@journal_reachable P config _ startUrl w st Hrep Hreach)
    as (visits & Hj & Hvis & Hc & Hn & Hok & Hd & _ & Hsorted & _).
  exists visits. unfold journal_of in Hj. rewrite <- Hw in Hj. cbn [snd] in Hj.
  rewrite Hs, Hf, Hv. unfold processed in Hn. auto 10.
Qed.

End JournalClaims.

Module JournalWitnesses.
Import Site.

(** The home page alone: one report, one request, no delay. *)
Lemma journal_of_run_witness :
  exists r w' journal visits,
    @crawlRecursively (Journaled P0) 30 (js Site.home)
      (reporting (with_max_depth 0)) (0%Z, []) = Some (r, (w', journal))
    /\ journal = concat (map (trace 1000) visits)
    /\ length visits = 1.
Proof.
  destruct (@crawlRecursively (Journaled P0) 30 (js Site.home)
              (reporting (with_max_depth 0)) (0%Z, []))
    as [[r [w' journal]] |] eqn:E; [| vm_compute in E; discriminate].
  destruct (@journal_of_run P0 30 (js Site.home) (with_max_depth 0) 0%Z
              r w' journal E) as (visits & Hj & _ & _ & Hn & _).
  exists r, w', journal, visits. split; [reflexivity |].
  split; [exact Hj |]. rewrite Hn.
  vm_compute in E. injection E as <- _ _. reflexivity.
Defined.

End JournalWitnesses.

Import RegexSpec Scan Steps Document Images.
Import StringFacts UrlFacts RegexFacts MatchFacts ScanFacts RuleFacts.
Import ElementFacts RemovalFacts SentenceFacts SegmentFacts.

(** ** Greedy repetitions that give way *)

Module GreedyFacts.

Lemma all_suffixes_nil Q : all_suffixes Q [].
Proof. intros w1 c w2 H. destruct w1; discriminate. Qed.

Lemma all_suffixes_cons (Q : jsstring -> Prop) c w :
  Q w -> all_suffixes Q w -> all_suffixes Q (c :: w).
Proof.
  intros Hw Hall w1 d w2 H. destruct w1 as [| x w1].
  - injection H as _ <-. exact Hw.
  - injection H as _ H. eapply Hall; eauto.
Qed.

Lemma all_suffixes_app (Q : jsstring -> Prop) a b :
  all_suffixes (fun x => Q (x ++ b)) a -> (a <> [] -> Q b) ->
  all_suffixes Q b -> all_suffixes Q (a ++ b).
Proof.
  induction a as [| x a IH]; intros Ha Hb Hall; [exact Hall |].
  cbn [app]. apply all_suffixes_cons.
  - destruct a as [| y a]; [apply Hb; discriminate |].
    apply (Ha [] x (y :: a) eq_refl).
  - apply IH; [| | exact Hall].
    + intros w1 c w2 H. apply (Ha (x :: w1) c w2). now rewrite H.
    + intros _. apply Hb. discriminate.
Qed.

Lemma all_suffixes_incl (Q : jsstring -> Prop) s :
  (forall x, incl x s -> Q x) -> all_suffixes Q s.
Proof.
  intros H w1 c w2 E. apply H. intros y Hy. rewrite E.
  apply in_or_app. right. now right.
Qed.

Section Greedy.
Variable R : Type.

Lemma star_greedy_rest p rest (k : jsstring -> option R) :
  stops p rest -> star_greedy p rest k = k rest.
Proof.
  destruct rest as [| d rest]; [reflexivity |]. cbn [stops star_greedy].
  now intros ->.
Qed.

(** A greedy repetition fails when what follows fails wherever the
    repetition may stop. *)
Lemma star_greedy_fail p w rest (k : jsstring -> option R) :
  stops p rest ->
  k (w ++ rest) = None ->
  all_suffixes (fun w2 => k (w2 ++ rest) = None) w ->
  star_greedy p (w ++ rest) k = None.
Proof.
  intros Hstop. induction w as [| c w IH]; intros Hw Hall.
  - cbn [app] in *. now rewrite star_greedy_rest.
  - cbn [app star_greedy]. destruct (p c); [| exact Hw].
    rewrite IH; [exact Hw | |].
    + apply (Hall [] c w eq_refl).
    + intros w1 d w2 E. apply (Hall (c :: w1) d w2). now rewrite E.
Qed.

(** It stops at the last place where what follows succeeds. *)
Lemma star_greedy_pick p u w rest (k : jsstring -> option R) r :
  forallb p u = true -> stops p rest ->
  k (w ++ rest) = Some r ->
  all_suffixes (fun w2 => k (w2 ++ rest) = None) w ->
  star_greedy p (u ++ w ++ rest) k = Some r.
Proof.
  intros Hu Hstop Hw Hall. induction u as [| x u IH].
  - cbn [app]. destruct w as [| c w].
    + cbn [app] in *. now rewrite star_greedy_rest.
    + cbn [app star_greedy]. destruct (p c); [| exact Hw].
      rewrite star_greedy_fail; [exact Hw | exact Hstop | |].
      * apply (Hall [] c w eq_refl).
      * intros w1 d w2 E. apply (Hall (c :: w1) d w2). now rewrite E.
  - cbn [forallb] in Hu. apply andb_prop in Hu as [Hx Hu].
    cbn [app star_greedy]. rewrite Hx. now rewrite (IH Hu).
Qed.

(** A greedy repetition before a character outside its class, followed
    by that character, takes the whole run. *)
Lemma star_greedy_until p q u rest (g : jsstring -> caps)
    (k : jsstring -> caps -> option R) :
  forallb p u = true -> p q = false ->
  (forall c, In c u -> chr_eq true c q = false) ->
  star_greedy p (u ++ q :: rest) (fun s' => run true (Chr q) s' (g s') k)
  = k rest (g (q :: rest)).
Proof.
  intros Hu Hq Hne. induction u as [| c u IH].
  - cbn [app star_greedy]. rewrite Hq. cbn [run]. now rewrite chr_eq_refl.
  - cbn [forallb] in Hu. apply andb_prop in Hu as [Hc Hu].
    cbn [app star_greedy]. rewrite Hc.
    rewrite IH; [| exact Hu | intros d Hd; apply Hne; now right].
    destruct (k rest (g (q :: rest))); [reflexivity |].
    cbn [run]. now rewrite (Hne c (or_introl eq_refl)).
Qed.

End Greedy.

End GreedyFacts.

Import GreedyFacts.

(** ** The patterns of an image *)

Module ImageFacts.

Lemma value_spec v c :
  value v = true -> In c v ->
  plain_char c = true /\ c <> QUOTE /\ c <> GT /\ c <> EQUALS.
Proof.
  unfold value. rewrite forallb_forall. intros H Hc. apply H in Hc.
  unfold value_char in Hc. rewrite !andb_true_iff, !negb_true_iff in Hc.
  destruct Hc as [[[Hp Hq] Hg] He]. apply N.eqb_neq in Hq, Hg, He. auto.
Qed.

Section Attribute.
Variable R : Type.

(** A quoted attribute is matched as a whole and its value captured. *)
Lemma run_attr_value name i v rest cs (k : jsstring -> caps -> option R) :
  value v = true ->
  run true (attr_value name i)
    (js name ++ EQUALS :: QUOTE :: v ++ QUOTE :: rest) cs k
  = k rest ((i, v) :: cs).
Proof.
  intros Hv. unfold attr_value, lit. cbn [seq run].
  rewrite (@run_lit _ true (js name) (EQUALS :: QUOTE :: v ++ QUOTE :: rest)).
  change (chr_eq true EQUALS 61) with true. cbv iota.
  rewrite chr_eq_refl.
  transitivity
    (k rest ((i, firstn (length (v ++ QUOTE :: rest) - length (QUOTE :: rest))
                   (v ++ QUOTE :: rest)) :: cs)).
  { apply (@star_greedy_until R (not_chr QUOTE) QUOTE v rest
             (fun s' => (i, firstn (length (v ++ QUOTE :: rest) - length s')
                              (v ++ QUOTE :: rest)) :: cs) k).
    - apply forallb_forall. intros c Hc. unfold not_chr.
      apply negb_true_iff, N.eqb_neq. now apply (value_spec v c Hv Hc).
    - reflexivity.
    - intros c Hc. apply chr_eq_other; [reflexivity |].
      apply N.eqb_neq. now apply (value_spec v c Hv Hc). }
  now rewrite (firstn_prefix v (QUOTE :: rest)).
Qed.

(** No attribute begins in a text without [=] that a double quote
    ends. *)
Lemma attr_value_fails name i x rest cs (k : jsstring -> caps -> option R) :
  name = "src"%string \/ name = "alt"%string ->
  (forall c, In c x -> c <> EQUALS) ->
  run true (attr_value name i) (x ++ QUOTE :: rest) cs k = None.
Proof.
  intros Hname Hx.
  assert (Heq : forall c, In c x -> chr_eq true c 61 = false).
  { intros c Hc. apply chr_eq_other; [reflexivity |].
    apply N.eqb_neq. now apply Hx. }
  unfold attr_value, lit.
  destruct Hname as [-> | ->];
    [change (js "src") with [115; 114; 99]%N
    | change (js "alt") with [97; 108; 116]%N];
    cbn [seq lit_of run];
    destruct x as [| x0 [| x1 [| x2 [| x3 x']]]]; cbn [app];
    repeat match goal with
           | |- context [chr_eq true QUOTE ?b] =>
               change (chr_eq true QUOTE b) with false; cbv iota
           | |- context [if chr_eq true ?a 61 then _ else _] =>
               rewrite (Heq a) by (cbn [In]; auto)
           | |- context [if chr_eq true ?a ?b then _ else _] =>
               destruct (chr_eq true a b)
           end;
    reflexivity.
Qed.

End Attribute.

Lemma img_src_alt_parts s :
  exec_at img_src_alt (js "<img" ++ s)
  = star_greedy (not_chr GT) s (fun s' => run true src_alt_part s' [] found).
Proof.
  unfold exec_at, img_src_alt, lit. cbn [seq source ignoreCase rxi run].
  now rewrite (@run_lit _ true (js "<img") s).
Qed.

Lemma img_src_parts s :
  exec_at img_src (js "<img" ++ s)
  = star_greedy (not_chr GT) s (fun s' => run true src_part s' [] found).
Proof.
  unfold exec_at, img_src, lit. cbn [seq source ignoreCase rxi run].
  now rewrite (@run_lit _ true (js "<img") s).
Qed.

Lemma value_equals v x :
  value v = true -> incl x v -> forall c, In c x -> c <> EQUALS.
Proof. intros Hv Hx c Hc. now apply (value_spec v c Hv (Hx c Hc)). Qed.

Lemma value_not_gt v : value v = true -> forallb (not_chr GT) v = true.
Proof.
  intros Hv. apply forallb_forall. intros c Hc. unfold not_chr.
  apply negb_true_iff, N.eqb_neq. now apply (value_spec v c Hv Hc).
Qed.

Lemma run_closing tail cs :
  run true closing (GT :: tail) cs found = Some (tail, cs).
Proof. reflexivity. Qed.

Lemma run_alt_part a tail cs :
  value a = true ->
  run true alt_part (js "alt" ++ EQUALS :: QUOTE :: a ++ QUOTE :: GT :: tail)
    cs found
  = Some (tail, (2, a) :: cs).
Proof.
  intros Ha. unfold alt_part. cbn [run].
  now rewrite (@run_attr_value _ "alt" 2 a (GT :: tail) cs _ Ha).
Qed.

Lemma alt_part_fails x rest cs :
  (forall c, In c x -> c <> EQUALS) ->
  run true alt_part (x ++ QUOTE :: rest) cs found = None.
Proof.
  intros Hx. unfold alt_part. cbn [run]. apply attr_value_fails; auto.
Qed.

Lemma src_alt_part_fails x rest cs :
  (forall c, In c x -> c <> EQUALS) ->
  run true src_alt_part (x ++ QUOTE :: rest) cs found = None.
Proof.
  intros Hx. unfold src_alt_part. cbn [run]. apply attr_value_fails; auto.
Qed.

Lemma src_part_fails x rest cs :
  (forall c, In c x -> c <> EQUALS) ->
  run true src_part (x ++ QUOTE :: rest) cs found = None.
Proof.
  intros Hx. unfold src_part. cbn [run]. apply attr_value_fails; auto.
Qed.

(** What follows fails at a place: by its first characters, or because
    no attribute begins there. *)
Ltac fails_at Hfail Hextra :=
  cbn [app];
  first
    [ solve [vm_compute; reflexivity]
    | solve [apply Hextra]
    | solve [rewrite <- ?app_assoc; cbn [app]; apply Hfail;
             eauto using value_equals, incl_refl] ].

Ltac every_suffix Hfail Hextra :=
  repeat first
    [ apply all_suffixes_nil
    | apply all_suffixes_cons; [fails_at Hfail Hextra |]
    | apply all_suffixes_app;
      [ apply all_suffixes_incl; intros ? ?; fails_at Hfail Hextra
      | intros _; fails_at Hfail Hextra
      | ] ].

(** After [src], the [alt] attribute is found. *)
Lemma run_after_src a tail cs :
  value a = true ->
  star_greedy (not_chr GT) (attribute "alt" a ++ GT :: tail)
    (fun s' => run true alt_part s' cs found)
  = Some (tail, (2, a) :: cs).
Proof.
  intros Ha. unfold attribute.
  change (SPACE :: js "alt" ++ EQUALS :: QUOTE :: a ++ [QUOTE])
    with ([SPACE] ++ (js "alt" ++ EQUALS :: QUOTE :: a ++ [QUOTE])).
  rewrite <- app_assoc.
  apply star_greedy_pick; [reflexivity | reflexivity | |].
  - rewrite <- !app_assoc. cbn [app]. rewrite <- app_assoc.
    now apply run_alt_part.
  - change (js "alt") with [97; 108; 116]%N. cbn [app].
    every_suffix alt_part_fails I.
Qed.

Lemma src_alt_part_found s a tail :
  value s = true -> value a = true ->
  run true src_alt_part
    ((js "src" ++ EQUALS :: QUOTE :: s ++ QUOTE :: attribute "alt" a)
       ++ GT :: tail) [] found
  = Some (tail, [(2, a); (1, s)]).
Proof.
  intros Hs Ha. unfold src_alt_part. cbn [run].
  rewrite <- !app_assoc. cbn [app]. rewrite <- app_assoc.
  rewrite (@run_attr_value _ "src" 1 s (attribute "alt" a ++ GT :: tail) []
             _ Hs).
  now apply run_after_src.
Qed.

(** Without [alt] after it, the [src] attribute is of no use to the first
    pattern. *)
Lemma src_alt_part_alone s tail :
  value s = true ->
  run true src_alt_part
    ((js "src" ++ EQUALS :: QUOTE :: s ++ [QUOTE]) ++ GT :: tail) [] found
  = None.
Proof.
  intros Hs. unfold src_alt_part. cbn [run].
  rewrite <- !app_assoc. cbn [app]. rewrite <- app_assoc.
  rewrite (@run_attr_value _ "src" 1 s (GT :: tail) [] _ Hs).
  reflexivity.
Qed.

Lemma src_part_found s tail :
  value s = true ->
  run true src_part
    ((js "src" ++ EQUALS :: QUOTE :: s ++ [QUOTE]) ++ GT :: tail) [] found
  = Some (tail, [(1, s)]).
Proof.
  intros Hs. unfold src_part. cbn [run].
  rewrite <- !app_assoc. cbn [app]. rewrite <- app_assoc.
  rewrite (@run_attr_value _ "src" 1 s (GT :: tail) [] _ Hs).
  reflexivity.
Qed.

(** The first pattern on [src] followed by [alt]. *)
Lemma exec_src_alt s a tail :
  value s = true -> value a = true ->
  exec_at img_src_alt (img (attribute "src" s ++ attribute "alt" a) ++ tail)
  = Some (tail, [(2, a); (1, s)]).
Proof.
  intros Hs Ha. unfold img. rewrite <- !app_assoc.
  rewrite img_src_alt_parts. unfold attribute at 1.
  change ((SPACE :: js "src" ++ EQUALS :: QUOTE :: s ++ [QUOTE])
            ++ attribute "alt" a ++ [GT] ++ tail)
    with ([SPACE]
            ++ (js "src" ++ EQUALS :: QUOTE :: s ++ [QUOTE])
            ++ attribute "alt" a ++ GT :: tail).
  replace ((js "src" ++ EQUALS :: QUOTE :: s ++ [QUOTE])
             ++ attribute "alt" a ++ GT :: tail)
    with ((js "src" ++ EQUALS :: QUOTE :: s ++ QUOTE :: attribute "alt" a)
            ++ GT :: tail)
    by (rewrite <- !app_assoc; cbn [app]; rewrite <- !app_assoc; reflexivity).
  apply star_greedy_pick; [reflexivity | reflexivity | |].
  - now apply src_alt_part_found.
  - unfold attribute. change (js "src") with [115; 114; 99]%N.
    change (js "alt") with [97; 108; 116]%N. cbn [app].
    every_suffix src_alt_part_fails I.
Qed.

(** The first pattern finds nothing in an image without [alt] after
    [src]. *)
Lemma reject_src_alone s tail :
  value s = true ->
  exec_at img_src_alt (img (attribute "src" s) ++ tail) = None.
Proof.
  intros Hs. unfold img. rewrite <- !app_assoc.
  rewrite img_src_alt_parts. cbn [app].
  apply star_greedy_fail; [reflexivity | |].
  - vm_compute. reflexivity.
  - unfold attribute. change (js "src") with [115; 114; 99]%N. cbn [app].
    apply all_suffixes_cons;
      [apply (@src_alt_part_alone s tail Hs) |].
    every_suffix src_alt_part_fails I.
Qed.

Lemma reject_alt_src a s tail :
  value a = true -> value s = true ->
  exec_at img_src_alt (img (attribute "alt" a ++ attribute "src" s) ++ tail)
  = None.
Proof.
  intros Ha Hs. unfold img. rewrite <- !app_assoc.
  rewrite img_src_alt_parts.
  replace (attribute "alt" a ++ attribute "src" s ++ [GT] ++ tail)
    with ((attribute "alt" a ++ attribute "src" s) ++ GT :: tail)
    by (rewrite <- !app_assoc; reflexivity).
  apply star_greedy_fail; [reflexivity | |].
  - vm_compute. reflexivity.
  - unfold attribute. change (js "src") with [115; 114; 99]%N.
    change (js "alt") with [97; 108; 116]%N. cbn [app].
    rewrite <- !app_assoc. cbn [app].
    every_suffix src_alt_part_fails (@src_alt_part_alone s tail Hs).
Qed.

(** The second pattern on an image whose last attribute is [src]. *)
Lemma exec_src_last u s tail :
  forallb (not_chr GT) u = true -> value s = true ->
  exec_at img_src (img (u ++ attribute "src" s) ++ tail)
  = Some (tail, [(1, s)]).
Proof.
  intros Hu Hs. unfold img. rewrite <- !app_assoc.
  rewrite img_src_parts. unfold attribute.
  replace (u ++ (SPACE :: js "src" ++ EQUALS :: QUOTE :: s ++ [QUOTE])
             ++ [GT] ++ tail)
    with ((u ++ [SPACE])
            ++ (js "src" ++ EQUALS :: QUOTE :: s ++ [QUOTE]) ++ GT :: tail)
    by (rewrite <- !app_assoc; reflexivity).
  apply star_greedy_pick; [| reflexivity | |].
  - now rewrite forallb_app, Hu.
  - now apply src_part_found.
  - change (js "src") with [115; 114; 99]%N. cbn [app].
    every_suffix src_part_fails I.
Qed.

End ImageFacts.

Import RegexSpec Scan Steps Document Images.
Import StringFacts UrlFacts RegexFacts MatchFacts ScanFacts RuleFacts.
Import ElementFacts RemovalFacts SentenceFacts SegmentFacts LayoutFacts.
Import BlockFacts GreedyFacts ImageFacts.

Module ImageRules.

Lemma value_plain v : value v = true -> forallb plain_char v = true.
Proof.
  intros Hv. apply forallb_forall. intros c Hc.
  now apply (value_spec v c Hv Hc).
Qed.

Lemma value_without v x :
  value v = true -> plain_char x = false -> ~ In x v.
Proof.
  intros Hv Hx Hin. apply (value_spec v x Hv) in Hin as [Hp _]. congruence.
Qed.

Lemma attribute_without name v :
  name = "src"%string \/ name = "alt"%string -> value v = true ->
  ~ In LT (attribute name v).
Proof.
  intros Hname Hv. unfold attribute. apply without_spec.
  assert (H : forallb (not_chr LT) v = true).
  { apply without_spec. now apply value_without. }
  destruct Hname as [-> | ->];
    [change (js "src") with [115; 114; 99]%N
    | change (js "alt") with [97; 108; 116]%N];
    cbn [app forallb]; rewrite forallb_app, H; reflexivity.
Qed.

(** The markdown of an image is a word. *)
Lemma picture_word a s :
  value a = true -> value s = true ->
  word (js "![" ++ a ++ js "](" ++ s ++ js ")") = true.
Proof.
  intros Ha Hs.
  change (js "![" ++ a ++ js "](" ++ s ++ js ")")
    with (33 :: (91 :: a ++ js "](" ++ s ++ js ")"))%N.
  unfold word. cbn [forallb]. rewrite !forallb_app.
  now rewrite (value_plain _ Ha), (value_plain _ Hs).
Qed.

Section Picture.
Variables (attrs : jsstring) (cs : caps) (k : nat) (a s : jsstring).
Hypothesis Ha : value a = true.
Hypothesis Hs : value s = true.
Hypothesis Hattrs : ~ In LT attrs.
Hypothesis Hk : k = 15 \/ k = 16.
Hypothesis Hrule :
  match nth_error (tag_rules true) k with
  | Some rule =>
      (forall tail, exec_at (fst rule) (img attrs ++ tail) = Some (tail, cs))
      /\ subst (snd rule) cs = js "![" ++ a ++ js "](" ++ s ++ js ")"
  | None => False
  end.
Hypothesis Hfirst :
  k = 16 -> forall tail, exec_at img_src_alt (img attrs ++ tail) = None.

Lemma picture_ok :
  seg_ok (tag_rules true)
    {| seg_source := img attrs;
       seg_rule := k;
       seg_result := js "![" ++ a ++ js "](" ++ s ++ js ")" |}.
Proof.
  unfold seg_ok. cbn [seg_source seg_rule seg_result].
  assert (Hmid : ~ In LT (js "img" ++ attrs ++ [GT])).
  { intros Hin. apply in_app_or in Hin as [Hin | Hin];
      [revert Hin; apply without_spec; reflexivity |].
    apply in_app_or in Hin as [Hin | [Hin | []]]; [auto | discriminate]. }
  split; [| split].
  - pose proof (@picture_word a s Ha Hs) as Hw.
    destruct (word_spec _ Hw) as [_ Hall]. intros Hin.
    apply Hall in Hin. discriminate.
  - change (img attrs) with (LT :: js "img" ++ attrs ++ [GT]).
    destruct Hk as [-> | ->]; unfold tag_rules; cbn [firstn app].
    + tag_rejections Hmid.
    + repeat (apply Forall_cons;
              [ intros ?; cbn [fst];
                apply (@rejected_tag LT eq_refl);
                [ begins | exact Hmid
                | first [ solve [vm_compute; reflexivity]
                        | apply (Hfirst eq_refl) ] ]
              |]).
      apply Forall_nil.
  - destruct (nth_error (tag_rules true) k) as [rule |]; [| contradiction].
    destruct Hrule as [Hex Hsubst].
    exists LT, (js "img" ++ attrs ++ [GT]), cs.
    split; [reflexivity |]. split; [| exact Hsubst].
    intros tail. apply (Hex tail).
Qed.

Lemma picture_converted options :
  md_includeImages options = true ->
  htmlToMarkdown (img attrs) options = js "![" ++ a ++ js "](" ++ s ++ js ")".
Proof.
  intros Himg. rewrite htmlToMarkdown_stages, Himg.
  pose proof (@segments_convert (tag_rules true) (tag_rules_begin true)
                [{| seg_source := img attrs;
                    seg_rule := k;
                    seg_result := js "![" ++ a ++ js "](" ++ s ++ js ")" |}]) as H.
  cbn [map concat seg_source seg_result] in H. rewrite !app_nil_r in H.
  rewrite H by (constructor; [apply picture_ok | constructor]).
  apply (@finish_sentence [js "![" ++ a ++ js "](" ++ s ++ js ")"]);
    [discriminate |].
  constructor; [apply (@picture_word a s Ha Hs) | constructor].
Qed.

End Picture.

End ImageRules.

Import ImageRules.

(** X21. With images asked for, an [img] tag whose quoted [src] is
    followed by a quoted [alt] becomes the markdown image with that text
    and that address.  With [src] alone it becomes the markdown image
    without text; and so it does when [alt] stands before [src]: the text
    is then lost. *)
Theorem images_to_markdown (s a : jsstring) (options : MarkdownOptions) :
  value s = true -> value a = true ->
  md_includeImages options = true ->
  htmlToMarkdown (img (attribute "src" s ++ attribute "alt" a)) options
  = js "![" ++ a ++ js "](" ++ s ++ js ")"
  /\ htmlToMarkdown (img (attribute "src" s)) options
     = js "![](" ++ s ++ js ")"
  /\ htmlToMarkdown (img (attribute "alt" a ++ attribute "src" s)) options
     = js "![](" ++ s ++ js ")".
Proof.
  intros Hs Ha Himg.
  assert (Hsrc : ~ In LT (attribute "src" s))
    by (apply attribute_without; auto).
  assert (Halt : ~ In LT (attribute "alt" a))
    by (apply attribute_without; auto).
  split; [| split].
  - apply (@picture_converted (attribute "src" s ++ attribute "alt" a)
             [(2, a); (1, s)] 15 a s Ha Hs); [| now left | | discriminate | exact Himg].
    + intros Hin. apply in_app_or in Hin as [Hin | Hin]; auto.
    + cbn [tag_rules nth_error app]. split; [| reflexivity].
      intros tail. cbn [fst]. now apply exec_src_alt.
  - apply (@picture_converted (attribute "src" s) [(1, s)] 16 [] s eq_refl Hs);
      [exact Hsrc | now right | | | exact Himg].
    + cbn [tag_rules nth_error app]. split; [| reflexivity].
      intros tail. cbn [fst].
      apply (@exec_src_last [] s tail eq_refl Hs).
    + intros _ tail. now apply reject_src_alone.
  - apply (@picture_converted (attribute "alt" a ++ attribute "src" s)
             [(1, s)] 16 [] s eq_refl Hs); [| now right | | | exact Himg].
    + intros Hin. apply in_app_or in Hin as [Hin | Hin]; auto.
    + cbn [tag_rules nth_error app]. split; [| reflexivity].
      intros tail. cbn [fst].
      apply (@exec_src_last (attribute "alt" a) s tail); [| exact Hs].
      unfold attribute. change (js "alt") with [97; 108; 116]%N.
      cbn [app forallb]. now rewrite forallb_app, (value_not_gt _ Ha).
    + intros _ tail. now apply reject_alt_src.
Qed.

Module ImageWitnesses.

Lemma images_to_markdown_witness :
  htmlToMarkdown
    (img (attribute "alt" (js "logo") ++ attribute "src" (js "/logo.png")))
    illustrated
  = js "![](/logo.png)".
Proof.
  exact (proj2 (proj2 (@images_to_markdown (js "/logo.png") (js "logo")
                         illustrated eq_refl eq_refl eq_refl))).
Defined.

End ImageWitnesses.
